(** * ps-vis: the replay log parser (src/lib/utils.ts, src/lib/pokemonIcons.ts,
    src/lib/parser.ts) as a shallow embedding.

    Strings are Rocq [string]s: sequences of 8-bit code units.  Text outside
    ASCII is carried as its UTF-8 bytes; the character classes of the source's
    regular expressions ([\s], [\d], [\w], [a-z0-9]) and its case mappings
    act on ASCII code units only, every other byte is an ordinary character
    that is neither a letter, a digit, white space nor a line terminator.
    JavaScript's [undefined] is [None]; a thrown exception is [Throw]. *)

From Stdlib Require Import String Ascii List ZArith Bool Lia Arith DecimalString.
Import ListNotations.
Local Open Scope list_scope.
Local Open Scope string_scope.

(** [++] is string concatenation throughout; lists are appended with [+++]. *)
Infix "+++" := List.app (at level 60, right associativity).

(** ** Outcomes of code that can throw *)

Inductive error : Type :=
| TypeError                      (* a property read or method call on undefined *)
| SyntaxError                    (* new RegExp on a malformed pattern *)
| Error (message : string).      (* throw new Error(message) *)

Inductive result (A : Type) : Type :=
| Ok (a : A)
| Throw (e : error).
Arguments Ok {A} a.
Arguments Throw {A} e.

Definition bind {A B : Type} (r : result A) (k : A -> result B) : result B :=
  match r with
  | Ok a => k a
  | Throw e => Throw e
  end.

Notation "x <- r ;; k" := (bind r (fun x => k))
  (at level 61, r at next level, right associativity).
Notation "' pat <- r ;; k" := (bind r (fun x => match x with pat => k end))
  (at level 61, pat pattern, r at next level, right associativity).

(** [v.method(...)] on a value that may be undefined. *)
Definition defined {A : Type} (v : option A) : result A :=
  match v with
  | Some a => Ok a
  | None => Throw TypeError
  end.

(** ** JavaScript strings and arrays *)
Module Js.

Definition code (c : ascii) : nat := nat_of_ascii c.

Definition between (lo hi : nat) (c : ascii) : bool :=
  Nat.leb lo (code c) && Nat.leb (code c) hi.

(** [\s] and the set [trim] removes: TAB, LF, VT, FF, CR, SPACE. *)
Definition isSpace (c : ascii) : bool := between 9 13 c || Nat.eqb (code c) 32.

(** The characters [.] does not match: LF and CR. *)
Definition isLineTerminator (c : ascii) : bool :=
  Nat.eqb (code c) 10 || Nat.eqb (code c) 13.

Definition isDigit (c : ascii) : bool := between 48 57 c.
Definition isUpper (c : ascii) : bool := between 65 90 c.
Definition isLower (c : ascii) : bool := between 97 122 c.
Definition isAlnum (c : ascii) : bool := isDigit c || isUpper c || isLower c.
(** [\w] *)
Definition isWord (c : ascii) : bool := isAlnum c || Nat.eqb (code c) 95.

Definition toLowerChar (c : ascii) : ascii :=
  if isUpper c then ascii_of_nat (code c + 32) else c.
Definition toUpperChar (c : ascii) : ascii :=
  if isLower c then ascii_of_nat (code c - 32) else c.

Fixpoint mapChars (f : ascii -> ascii) (s : string) : string :=
  match s with
  | EmptyString => EmptyString
  | String c t => String (f c) (mapChars f t)
  end.

Definition toLowerCase : string -> string := mapChars toLowerChar.
Definition toUpperCase : string -> string := mapChars toUpperChar.

Fixpoint filterChars (p : ascii -> bool) (s : string) : string :=
  match s with
  | EmptyString => EmptyString
  | String c t => if p c then String c (filterChars p t) else filterChars p t
  end.

Fixpoint allChars (p : ascii -> bool) (s : string) : bool :=
  match s with
  | EmptyString => true
  | String c t => p c && allChars p t
  end.

Fixpoint dropWhile (p : ascii -> bool) (s : string) : string :=
  match s with
  | EmptyString => EmptyString
  | String c t => if p c then dropWhile p t else s
  end.

Fixpoint takeWhile (p : ascii -> bool) (s : string) : string :=
  match s with
  | EmptyString => EmptyString
  | String c t => if p c then String c (takeWhile p t) else EmptyString
  end.

Definition reverse (s : string) : string :=
  string_of_list_ascii (rev (list_ascii_of_string s)).

Definition trimStart (s : string) : string := dropWhile isSpace s.
Definition trimEnd (s : string) : string := reverse (dropWhile isSpace (reverse s)).
Definition trim (s : string) : string := trimEnd (trimStart s).

(** The truthiness of a string: non-empty. *)
Definition nonEmpty (s : string) : bool :=
  match s with
  | EmptyString => false
  | String _ _ => true
  end.

(** The truthiness of a value that may be undefined. *)
Definition truthy (v : option string) : bool :=
  match v with
  | Some s => nonEmpty s
  | None => false
  end.

(** [a || b] on strings that may be undefined. *)
Definition orElse (a b : option string) : option string :=
  if truthy a then a else b.

(** [a || "literal"]. *)
Definition orString (a : option string) (b : string) : string :=
  match a with
  | Some s => if nonEmpty s then s else b
  | None => b
  end.

(** A value inside a template literal. *)
Definition tmpl (v : option string) : string :=
  match v with
  | Some s => s
  | None => "undefined"
  end.

Definition startsWith (s p : string) : bool := prefix p s.
Definition endsWith (s p : string) : bool := prefix (reverse p) (reverse s).

(** [s.includes(needle)] *)
Fixpoint includes (s needle : string) : bool :=
  prefix needle s ||
  match s with
  | EmptyString => false
  | String _ t => includes t needle
  end.

(** [s.split(sep)] for a one-character separator: never the empty list. *)
Fixpoint split (sep : ascii) (s : string) : list string :=
  match s with
  | EmptyString => [EmptyString]
  | String c t =>
      if Ascii.eqb c sep then EmptyString :: split sep t
      else match split sep t with
           | h :: r => String c h :: r
           | [] => [String c EmptyString]
           end
  end.

(** [s.split(/\s+/)]: the pieces between maximal runs of white space.
    [inRun] says that the previous character belonged to a separator. *)
Fixpoint splitSpacesFrom (inRun : bool) (s : string) : list string :=
  match s with
  | EmptyString => [EmptyString]
  | String c t =>
      if isSpace c then
        if inRun then splitSpacesFrom true t
        else EmptyString :: splitSpacesFrom true t
      else match splitSpacesFrom false t with
           | h :: r => String c h :: r
           | [] => [String c EmptyString]
           end
  end.

Definition splitSpaces (s : string) : list string := splitSpacesFrom false s.

(** [xs.join(sep)] *)
Fixpoint join (sep : string) (xs : list string) : string :=
  match xs with
  | [] => EmptyString
  | x :: r =>
      match r with
      | [] => x
      | _ :: _ => x ++ sep ++ join sep r
      end
  end.

(** [xs.filter(Boolean)] *)
Definition filterTruthy (xs : list string) : list string := filter nonEmpty xs.

(** [xs.includes(x)], [xs.indexOf(x)] *)
Definition arrayIncludes (xs : list string) (x : string) : bool :=
  existsb (String.eqb x) xs.

Fixpoint indexOf (xs : list string) (x : string) : option nat :=
  match xs with
  | [] => None
  | y :: r => if String.eqb y x then Some 0
              else option_map S (indexOf r x)
  end.

(** [s.replace(/c/g, by)] for a one-character pattern. *)
Fixpoint replaceChar (c : ascii) (by_ : string) (s : string) : string :=
  match s with
  | EmptyString => EmptyString
  | String d t => (if Ascii.eqb d c then by_ else String d EmptyString)
                  ++ replaceChar c by_ t
  end.

(** [s.replace(/\s+/g, " ")] *)
Fixpoint collapseSpacesFrom (inRun : bool) (s : string) : string :=
  match s with
  | EmptyString => EmptyString
  | String c t =>
      if isSpace c then
        if inRun then collapseSpacesFrom true t
        else String " " (collapseSpacesFrom true t)
      else String c (collapseSpacesFrom false t)
  end.

Definition collapseSpaces (s : string) : string := collapseSpacesFrom false s.

(** Case-insensitive prefix test, as a pattern under the [i] flag does it. *)
Definition startsWithCI (s p : string) : bool :=
  prefix (toLowerCase p) (toLowerCase (substring 0 (String.length p) s)).

Definition dropChars (n : nat) (s : string) : string :=
  substring n (String.length s - n) s.

(** *** Numbers

    [Number(v)] is modelled on optionally signed decimal integers, which is
    what turn numbers and boost amounts are; the empty string is 0 and
    undefined is NaN.  Fractions, exponents, radix prefixes and [Infinity]
    are read as NaN, and integers are exact (no rounding above 2^53). *)
Inductive number : Type :=
| NaN
| Num (z : Z).

Fixpoint digitsValue (acc : N) (s : string) : N :=
  match s with
  | EmptyString => acc
  | String c t => digitsValue (acc * 10 + N.of_nat (code c - 48)) t
  end.

Definition parseDigits (s : string) : option N :=
  if nonEmpty s && allChars isDigit s then Some (digitsValue 0 s) else None.

Definition Number (v : option string) : number :=
  match v with
  | None => NaN
  | Some s =>
      match trim s with
      | EmptyString => Num 0
      | String "+" d => match parseDigits d with
                        | Some n => Num (Z.of_N n)
                        | None => NaN
                        end
      | String "-" d => match parseDigits d with
                        | Some n => Num (- Z.of_N n)
                        | None => NaN
                        end
      | d => match parseDigits d with
             | Some n => Num (Z.of_N n)
             | None => NaN
             end
      end
  end.

Definition numberToString (n : number) : string :=
  match n with
  | NaN => "NaN"
  | Num z => NilZero.string_of_int (Z.to_int z)
  end.

(** [a === b] on numbers: NaN equals nothing. *)
Definition numEq (a b : number) : bool :=
  match a, b with
  | Num x, Num y => Z.eqb x y
  | _, _ => false
  end.

End Js.

(** ** src/lib/utils.ts *)
Module Utils.
Import Js.

(** [toId]: lower case, then every character outside [a-z0-9] removed. *)
Definition toId (text : option string) : string :=
  match text with
  | Some s =>
      if nonEmpty s
      then filterChars (fun c => isLower c || isDigit c) (toLowerCase s)
      else ""
  | None => ""
  end.

(** [toIconId]: as [toId], but hyphens are kept. *)
Definition toIconId (text : option string) : string :=
  match text with
  | Some s =>
      if nonEmpty s
      then filterChars (fun c => isLower c || isDigit c || Ascii.eqb c "-")
             (toLowerCase s)
      else ""
  | None => ""
  end.

Record HPStatus : Type := mkHPStatus {
  hs_raw : string;
  hs_hp : option string;
  hs_status : option string;
  hs_fainted : bool
}.

(** [raw.trim().split(/\s+/).filter(Boolean)] *)
Definition hpTokens (raw : string) : list string :=
  filterTruthy (splitSpaces (trim raw)).

Definition parseHPStatus (raw : string) : HPStatus :=
  match hpTokens raw with
  | [] => mkHPStatus raw None None false
  | hpToken :: extra =>
      let fainted :=
        arrayIncludes extra "fnt"
        || (String.eqb hpToken "0" && Nat.eqb (List.length extra) 0) in
      let statusTokens := filter (fun token => negb (String.eqb token "fnt")) extra in
      let hp :=
        if includes hpToken "/" then Some hpToken
        else if String.eqb hpToken "0" && fainted then Some "0/100"
        else None in
      mkHPStatus raw hp
        (match statusTokens with
         | [] => None
         | _ :: _ => Some (join " " statusTokens)
         end)
        fainted
  end.

(** [/^(\d+)\/100$/]: the digits of an "X/100" fraction. *)
Definition percentMatch (hp : string) : option string :=
  let digits := takeWhile isDigit hp in
  if nonEmpty digits && String.eqb (dropWhile isDigit hp) "/100"
  then Some digits else None.

Definition formatHPStatus (value : HPStatus) : string :=
  if hs_fainted value then "KO"
  else
    let parts :=
      (if truthy (hs_hp value) then
         match percentMatch (tmpl (hs_hp value)) with
         | Some digits => [digits ++ "%"]
         | None => [tmpl (hs_hp value)]
         end
       else [])
      +++ (if truthy (hs_status value)
           then [toUpperCase (tmpl (hs_status value))] else []) in
    if nonEmpty (join " " parts) then join " " parts else hs_raw value.

(** [chunk[0].toUpperCase() + chunk.slice(1)], for a chunk that begins with
    an ASCII character: the upper case of a character outside ASCII, which
    can be more than one character long, is not modelled, and such a chunk
    is left as it is. *)
Definition capitalize (chunk : string) : string :=
  match chunk with
  | EmptyString => ""
  | String c t => String (toUpperChar c) t
  end.

Definition prettifyMove (move : string) : string :=
  join " " (map capitalize (split " " move)).

(** The bracket pattern of [simplifyBracketText] is: start of input, an
    opening bracket, a lazy group of one or more characters (the tag), a
    closing bracket, any white space, a greedy group of any characters (the
    rest), end of input; a dot never matches a line terminator.

    [bracketTail]: what follows the closing bracket matches, i.e. after the
    white space no line terminator is left. *)
Definition bracketTail (t : string) : bool :=
  allChars (fun c => negb (isLineTerminator c)) (dropWhile isSpace t).

(** The lazy tag group past its first character: it stops at the first
    closing bracket after which the tail matches, and never crosses a line
    terminator.  The result is the remainder of the tag and the rest. *)
Fixpoint bracketTag (s : string) : option (string * string) :=
  match s with
  | EmptyString => None
  | String c t =>
      if Ascii.eqb c "]" && bracketTail t then Some ("", dropWhile isSpace t)
      else if isLineTerminator c then None
      else match bracketTag t with
           | Some (tag, rest) => Some (String c tag, rest)
           | None => None
           end
  end.

(** [segment.match(bracket pattern)]: the tag and the rest. *)
Definition bracketMatch (segment : string) : option (string * string) :=
  match segment with
  | String "[" (String c t) =>
      if isLineTerminator c then None
      else match bracketTag t with
           | Some (tag, rest) => Some (String c tag, rest)
           | None => None
           end
  | _ => None
  end.

(** [s.replace(p, '')] where [p] is, case-insensitively and at the start of
    the input, one of "ability:", "item:", "move:" and then any white space. *)
Definition stripSourcePrefix (s : string) : string :=
  if startsWithCI s "ability:" then dropWhile isSpace (dropChars 8 s)
  else if startsWithCI s "item:" then dropWhile isSpace (dropChars 5 s)
  else if startsWithCI s "move:" then dropWhile isSpace (dropChars 5 s)
  else s.

Definition simplifyBracketText (segment : string) : string :=
  if negb (nonEmpty segment) then ""
  else
    match bracketMatch segment with
    | None => trim segment
    | Some (tag, rest) =>
        let cleanRest := trim rest in
        if String.eqb tag "from" then
          if negb (nonEmpty cleanRest) then "" else stripSourcePrefix cleanRest
        else if String.eqb tag "of" then ""
        else if String.eqb tag "msg" then cleanRest
        else if String.eqb tag "sid" then
          if nonEmpty cleanRest then "side " ++ cleanRest else ""
        else if String.eqb tag "wisher" then
          if nonEmpty cleanRest then "Wish from " ++ cleanRest else "Wish"
        else if String.eqb tag "spread" then ""
        else if String.eqb tag "move" then cleanRest
        else if nonEmpty cleanRest then cleanRest else tag
    end.

End Utils.

(** ** src/lib/pokemonIcons.ts *)
Module Icons.
Import Js.

(** The double quote character. *)
Definition dq : string := String (ascii_of_nat 34) EmptyString.

Definition ICON_BASE_URL : string := "https://play.pokemonshowdown.com/sprites/gen5".
Definition DEFAULT_ICON_ID : string := "pokeball".

Definition IMAGE_RULES : list string :=
  [ "display:inline-block"; "vertical-align:middle"; "width:24px";
    "height:24px"; "margin-right:4px"; "image-rendering:pixelated" ].

Definition getPokemonIconUrl (rawId : option string) : string :=
  let iconId :=
    if truthy rawId && nonEmpty (trim (tmpl rawId))
    then trim (tmpl rawId) else DEFAULT_ICON_ID in
  ICON_BASE_URL ++ "/" ++ iconId ++ ".png".

Definition escapeAltText (text : string) : string :=
  replaceChar (ascii_of_nat 34) "&quot;" text.

Definition renderPokemonIcon (rawId : option string) (alt : string) : string :=
  let safeAlt := escapeAltText alt in
  let src := getPokemonIconUrl rawId in
  "<img src=" ++ dq ++ src ++ dq ++ " alt=" ++ dq ++ safeAlt ++ dq
  ++ " width=" ++ dq ++ "24" ++ dq ++ " height=" ++ dq ++ "24" ++ dq
  ++ " style=" ++ dq ++ join ";" IMAGE_RULES ++ dq ++ " />".

End Icons.

(** ** src/lib/parser.ts: the data model

    Turn and action objects are shared by reference in the source (the context
    holds the array of turns and, besides, the current turn; a turn holds its
    actions and the context, besides, the current action).  They live in two
    stores, [turnStore] and [actionStore]; a reference is the index at which
    the object was allocated, and a mutation through any reference updates
    the store. *)
Module Parser.
Import Js Utils Icons.

Inductive Side : Type := P1 | P2.

Definition sideName (s : Side) : string :=
  match s with
  | P1 => "p1"
  | P2 => "p2"
  end.

Definition sideEqb (a b : Side) : bool :=
  match a, b with
  | P1, P1 | P2, P2 => true
  | _, _ => false
  end.

Record DualFormat : Type := mkDual { d_html : string; d_text : string }.

(** The players object: [p1], [p2], and whatever further property a player
    record with another side key adds to it. *)
Record PlayerMap : Type := mkPlayers {
  p1 : string;
  p2 : string;
  otherPlayers : list (string * string)
}.

Record PokemonState : Type := mkPokemon {
  mon_ref : string;
  mon_side : Side;
  mon_nickname : option string;
  mon_species : string;
  mon_iconId : string;
  mon_lastDisplayHP : option string;
  mon_status : option string;
  mon_fainted : option bool
}.

Inductive ActionType : Type := TMove | TSwitch | TCant | TNote.

Definition DetailEntry : Type := DualFormat.

Record LeadEntry : Type := mkLead {
  le_side : Side;
  le_html : string;
  le_text : string
}.

Definition TurnRef : Type := nat.
Definition ActionRef : Type := nat.

Record ActionSummary : Type := mkAction {
  a_type : ActionType;
  a_actorRef : option string;
  a_actorName : option string;
  a_actorSpecies : option string;
  a_actorIconId : option string;
  a_side : option Side;
  a_verb : string;
  a_targetRefs : option (list string);
  a_targetNames : option (list string);
  a_targetSpecies : option (list string);
  a_details : list DetailEntry;
  a_fromIconId : option string;
  a_fromName : option string
}.

Record TurnSummary : Type := mkTurn {
  t_turn : number;
  t_label : option string;
  t_headerEvents : list string;
  t_actions : list ActionRef;
  t_endEvents : list DetailEntry;
  t_leadEntries : list LeadEntry
}.

Record Teams : Type := mkTeams {
  team_p1 : list string;
  team_p2 : list string;
  team_p1Set : list string;
  team_p2Set : list string
}.

Record SideConditions : Type := mkSideConditions {
  sc_p1 : list string;
  sc_p2 : list string
}.

Record Boost : Type := mkBoost {
  b_ref : string;
  b_stat : string;
  b_amount : number;
  b_direction : string
}.

Record PendingAbilityBoost : Type := mkPending {
  pab_ref : string;
  pab_ability : option string;
  pab_boosts : list Boost
}.

Record RecentMove : Type := mkRecentMove { rm_ref : string; rm_move : string }.

Record PendingSwitchAbility : Type := mkPendingSwitch {
  psa_ref : string;
  psa_ability : string;
  psa_effect : string
}.

Record ActivePositions : Type := mkPositions {
  pos_p1a : option string;
  pos_p1b : option string;
  pos_p2a : option string;
  pos_p2b : option string
}.

Record ParseContext : Type := mkContext {
  players : PlayerMap;
  formatName : option string;
  turnStore : list TurnSummary;
  turns : list TurnRef;
  currentTurn : TurnRef;
  actionStore : list ActionSummary;
  currentAction : option ActionRef;
  pokemon : list (string * PokemonState);
  teams : Teams;
  winner : option string;
  loser : option string;
  resultNote : option string;
  leadPhase : bool;
  faintedThisTurn : list string;
  currentWeather : option string;
  sideConditions : SideConditions;
  pendingAbilityBoost : option PendingAbilityBoost;
  recentMoves : list RecentMove;
  pendingSwitchAbility : option PendingSwitchAbility;
  activePositions : ActivePositions;
  pendingFieldEnds : list string;
  pendingProtects : list string
}.

(** *** Field updates *)

Definition set_mon_ref (v : string) (x : PokemonState) : PokemonState :=
  mkPokemon
    v (mon_side x) (mon_nickname x) (mon_species x) (mon_iconId x)
    (mon_lastDisplayHP x) (mon_status x) (mon_fainted x).

Definition set_mon_side (v : Side) (x : PokemonState) : PokemonState :=
  mkPokemon
    (mon_ref x) v (mon_nickname x) (mon_species x) (mon_iconId x)
    (mon_lastDisplayHP x) (mon_status x) (mon_fainted x).

Definition set_mon_nickname (v : option string) (x : PokemonState) : PokemonState :=
  mkPokemon
    (mon_ref x) (mon_side x) v (mon_species x) (mon_iconId x)
    (mon_lastDisplayHP x) (mon_status x) (mon_fainted x).

Definition set_mon_species (v : string) (x : PokemonState) : PokemonState :=
  mkPokemon
    (mon_ref x) (mon_side x) (mon_nickname x) v (mon_iconId x)
    (mon_lastDisplayHP x) (mon_status x) (mon_fainted x).

Definition set_mon_iconId (v : string) (x : PokemonState) : PokemonState :=
  mkPokemon
    (mon_ref x) (mon_side x) (mon_nickname x) (mon_species x) v
    (mon_lastDisplayHP x) (mon_status x) (mon_fainted x).

Definition set_mon_lastDisplayHP (v : option string) (x : PokemonState) : PokemonState :=
  mkPokemon
    (mon_ref x) (mon_side x) (mon_nickname x) (mon_species x) (mon_iconId x) v
    (mon_status x) (mon_fainted x).

Definition set_mon_status (v : option string) (x : PokemonState) : PokemonState :=
  mkPokemon
    (mon_ref x) (mon_side x) (mon_nickname x) (mon_species x) (mon_iconId x)
    (mon_lastDisplayHP x) v (mon_fainted x).

Definition set_mon_fainted (v : option bool) (x : PokemonState) : PokemonState :=
  mkPokemon
    (mon_ref x) (mon_side x) (mon_nickname x) (mon_species x) (mon_iconId x)
    (mon_lastDisplayHP x) (mon_status x) v.

Definition set_a_type (v : ActionType) (x : ActionSummary) : ActionSummary :=
  mkAction
    v (a_actorRef x) (a_actorName x) (a_actorSpecies x) (a_actorIconId x)
    (a_side x) (a_verb x) (a_targetRefs x) (a_targetNames x)
    (a_targetSpecies x) (a_details x) (a_fromIconId x) (a_fromName x).

Definition set_a_actorRef (v : option string) (x : ActionSummary) : ActionSummary :=
  mkAction
    (a_type x) v (a_actorName x) (a_actorSpecies x) (a_actorIconId x)
    (a_side x) (a_verb x) (a_targetRefs x) (a_targetNames x)
    (a_targetSpecies x) (a_details x) (a_fromIconId x) (a_fromName x).

Definition set_a_actorName (v : option string) (x : ActionSummary) : ActionSummary :=
  mkAction
    (a_type x) (a_actorRef x) v (a_actorSpecies x) (a_actorIconId x)
    (a_side x) (a_verb x) (a_targetRefs x) (a_targetNames x)
    (a_targetSpecies x) (a_details x) (a_fromIconId x) (a_fromName x).

Definition set_a_actorSpecies (v : option string) (x : ActionSummary) : ActionSummary :=
  mkAction
    (a_type x) (a_actorRef x) (a_actorName x) v (a_actorIconId x) (a_side x)
    (a_verb x) (a_targetRefs x) (a_targetNames x) (a_targetSpecies x)
    (a_details x) (a_fromIconId x) (a_fromName x).

Definition set_a_actorIconId (v : option string) (x : ActionSummary) : ActionSummary :=
  mkAction
    (a_type x) (a_actorRef x) (a_actorName x) (a_actorSpecies x) v (a_side x)
    (a_verb x) (a_targetRefs x) (a_targetNames x) (a_targetSpecies x)
    (a_details x) (a_fromIconId x) (a_fromName x).

Definition set_a_side (v : option Side) (x : ActionSummary) : ActionSummary :=
  mkAction
    (a_type x) (a_actorRef x) (a_actorName x) (a_actorSpecies x)
    (a_actorIconId x) v (a_verb x) (a_targetRefs x) (a_targetNames x)
    (a_targetSpecies x) (a_details x) (a_fromIconId x) (a_fromName x).

Definition set_a_verb (v : string) (x : ActionSummary) : ActionSummary :=
  mkAction
    (a_type x) (a_actorRef x) (a_actorName x) (a_actorSpecies x)
    (a_actorIconId x) (a_side x) v (a_targetRefs x) (a_targetNames x)
    (a_targetSpecies x) (a_details x) (a_fromIconId x) (a_fromName x).

Definition set_a_targetRefs (v : option (list string)) (x : ActionSummary) : ActionSummary :=
  mkAction
    (a_type x) (a_actorRef x) (a_actorName x) (a_actorSpecies x)
    (a_actorIconId x) (a_side x) (a_verb x) v (a_targetNames x)
    (a_targetSpecies x) (a_details x) (a_fromIconId x) (a_fromName x).

Definition set_a_targetNames (v : option (list string)) (x : ActionSummary) : ActionSummary :=
  mkAction
    (a_type x) (a_actorRef x) (a_actorName x) (a_actorSpecies x)
    (a_actorIconId x) (a_side x) (a_verb x) (a_targetRefs x) v
    (a_targetSpecies x) (a_details x) (a_fromIconId x) (a_fromName x).

Definition set_a_targetSpecies (v : option (list string)) (x : ActionSummary) : ActionSummary :=
  mkAction
    (a_type x) (a_actorRef x) (a_actorName x) (a_actorSpecies x)
    (a_actorIconId x) (a_side x) (a_verb x) (a_targetRefs x) (a_targetNames x)
    v (a_details x) (a_fromIconId x) (a_fromName x).

Definition set_a_details (v : list DetailEntry) (x : ActionSummary) : ActionSummary :=
  mkAction
    (a_type x) (a_actorRef x) (a_actorName x) (a_actorSpecies x)
    (a_actorIconId x) (a_side x) (a_verb x) (a_targetRefs x) (a_targetNames x)
    (a_targetSpecies x) v (a_fromIconId x) (a_fromName x).

Definition set_a_fromIconId (v : option string) (x : ActionSummary) : ActionSummary :=
  mkAction
    (a_type x) (a_actorRef x) (a_actorName x) (a_actorSpecies x)
    (a_actorIconId x) (a_side x) (a_verb x) (a_targetRefs x) (a_targetNames x)
    (a_targetSpecies x) (a_details x) v (a_fromName x).

Definition set_a_fromName (v : option string) (x : ActionSummary) : ActionSummary :=
  mkAction
    (a_type x) (a_actorRef x) (a_actorName x) (a_actorSpecies x)
    (a_actorIconId x) (a_side x) (a_verb x) (a_targetRefs x) (a_targetNames x)
    (a_targetSpecies x) (a_details x) (a_fromIconId x) v.

Definition set_t_turn (v : number) (x : TurnSummary) : TurnSummary :=
  mkTurn
    v (t_label x) (t_headerEvents x) (t_actions x) (t_endEvents x)
    (t_leadEntries x).

Definition set_t_label (v : option string) (x : TurnSummary) : TurnSummary :=
  mkTurn
    (t_turn x) v (t_headerEvents x) (t_actions x) (t_endEvents x)
    (t_leadEntries x).

Definition set_t_headerEvents (v : list string) (x : TurnSummary) : TurnSummary :=
  mkTurn
    (t_turn x) (t_label x) v (t_actions x) (t_endEvents x) (t_leadEntries x).

Definition set_t_actions (v : list ActionRef) (x : TurnSummary) : TurnSummary :=
  mkTurn
    (t_turn x) (t_label x) (t_headerEvents x) v (t_endEvents x)
    (t_leadEntries x).

Definition set_t_endEvents (v : list DetailEntry) (x : TurnSummary) : TurnSummary :=
  mkTurn
    (t_turn x) (t_label x) (t_headerEvents x) (t_actions x) v
    (t_leadEntries x).

Definition set_t_leadEntries (v : list LeadEntry) (x : TurnSummary) : TurnSummary :=
  mkTurn
    (t_turn x) (t_label x) (t_headerEvents x) (t_actions x) (t_endEvents x) v.

Definition set_players (v : PlayerMap) (c : ParseContext) : ParseContext :=
  mkContext
    v (formatName c) (turnStore c) (turns c) (currentTurn c) (actionStore c)
    (currentAction c) (pokemon c) (teams c) (winner c) (loser c)
    (resultNote c) (leadPhase c) (faintedThisTurn c) (currentWeather c)
    (sideConditions c) (pendingAbilityBoost c) (recentMoves c)
    (pendingSwitchAbility c) (activePositions c) (pendingFieldEnds c)
    (pendingProtects c).

Definition set_formatName (v : option string) (c : ParseContext) : ParseContext :=
  mkContext
    (players c) v (turnStore c) (turns c) (currentTurn c) (actionStore c)
    (currentAction c) (pokemon c) (teams c) (winner c) (loser c)
    (resultNote c) (leadPhase c) (faintedThisTurn c) (currentWeather c)
    (sideConditions c) (pendingAbilityBoost c) (recentMoves c)
    (pendingSwitchAbility c) (activePositions c) (pendingFieldEnds c)
    (pendingProtects c).

Definition set_turnStore (v : list TurnSummary) (c : ParseContext) : ParseContext :=
  mkContext
    (players c) (formatName c) v (turns c) (currentTurn c) (actionStore c)
    (currentAction c) (pokemon c) (teams c) (winner c) (loser c)
    (resultNote c) (leadPhase c) (faintedThisTurn c) (currentWeather c)
    (sideConditions c) (pendingAbilityBoost c) (recentMoves c)
    (pendingSwitchAbility c) (activePositions c) (pendingFieldEnds c)
    (pendingProtects c).

Definition set_turns (v : list TurnRef) (c : ParseContext) : ParseContext :=
  mkContext
    (players c) (formatName c) (turnStore c) v (currentTurn c) (actionStore c)
    (currentAction c) (pokemon c) (teams c) (winner c) (loser c)
    (resultNote c) (leadPhase c) (faintedThisTurn c) (currentWeather c)
    (sideConditions c) (pendingAbilityBoost c) (recentMoves c)
    (pendingSwitchAbility c) (activePositions c) (pendingFieldEnds c)
    (pendingProtects c).

Definition set_currentTurn (v : TurnRef) (c : ParseContext) : ParseContext :=
  mkContext
    (players c) (formatName c) (turnStore c) (turns c) v (actionStore c)
    (currentAction c) (pokemon c) (teams c) (winner c) (loser c)
    (resultNote c) (leadPhase c) (faintedThisTurn c) (currentWeather c)
    (sideConditions c) (pendingAbilityBoost c) (recentMoves c)
    (pendingSwitchAbility c) (activePositions c) (pendingFieldEnds c)
    (pendingProtects c).

Definition set_actionStore (v : list ActionSummary) (c : ParseContext) : ParseContext :=
  mkContext
    (players c) (formatName c) (turnStore c) (turns c) (currentTurn c) v
    (currentAction c) (pokemon c) (teams c) (winner c) (loser c)
    (resultNote c) (leadPhase c) (faintedThisTurn c) (currentWeather c)
    (sideConditions c) (pendingAbilityBoost c) (recentMoves c)
    (pendingSwitchAbility c) (activePositions c) (pendingFieldEnds c)
    (pendingProtects c).

Definition set_currentAction (v : option ActionRef) (c : ParseContext) : ParseContext :=
  mkContext
    (players c) (formatName c) (turnStore c) (turns c) (currentTurn c)
    (actionStore c) v (pokemon c) (teams c) (winner c) (loser c)
    (resultNote c) (leadPhase c) (faintedThisTurn c) (currentWeather c)
    (sideConditions c) (pendingAbilityBoost c) (recentMoves c)
    (pendingSwitchAbility c) (activePositions c) (pendingFieldEnds c)
    (pendingProtects c).

Definition set_pokemon (v : list (string * PokemonState)) (c : ParseContext) : ParseContext :=
  mkContext
    (players c) (formatName c) (turnStore c) (turns c) (currentTurn c)
    (actionStore c) (currentAction c) v (teams c) (winner c) (loser c)
    (resultNote c) (leadPhase c) (faintedThisTurn c) (currentWeather c)
    (sideConditions c) (pendingAbilityBoost c) (recentMoves c)
    (pendingSwitchAbility c) (activePositions c) (pendingFieldEnds c)
    (pendingProtects c).

Definition set_teams (v : Teams) (c : ParseContext) : ParseContext :=
  mkContext
    (players c) (formatName c) (turnStore c) (turns c) (currentTurn c)
    (actionStore c) (currentAction c) (pokemon c) v (winner c) (loser c)
    (resultNote c) (leadPhase c) (faintedThisTurn c) (currentWeather c)
    (sideConditions c) (pendingAbilityBoost c) (recentMoves c)
    (pendingSwitchAbility c) (activePositions c) (pendingFieldEnds c)
    (pendingProtects c).

Definition set_winner (v : option string) (c : ParseContext) : ParseContext :=
  mkContext
    (players c) (formatName c) (turnStore c) (turns c) (currentTurn c)
    (actionStore c) (currentAction c) (pokemon c) (teams c) v (loser c)
    (resultNote c) (leadPhase c) (faintedThisTurn c) (currentWeather c)
    (sideConditions c) (pendingAbilityBoost c) (recentMoves c)
    (pendingSwitchAbility c) (activePositions c) (pendingFieldEnds c)
    (pendingProtects c).

Definition set_loser (v : option string) (c : ParseContext) : ParseContext :=
  mkContext
    (players c) (formatName c) (turnStore c) (turns c) (currentTurn c)
    (actionStore c) (currentAction c) (pokemon c) (teams c) (winner c) v
    (resultNote c) (leadPhase c) (faintedThisTurn c) (currentWeather c)
    (sideConditions c) (pendingAbilityBoost c) (recentMoves c)
    (pendingSwitchAbility c) (activePositions c) (pendingFieldEnds c)
    (pendingProtects c).

Definition set_resultNote (v : option string) (c : ParseContext) : ParseContext :=
  mkContext
    (players c) (formatName c) (turnStore c) (turns c) (currentTurn c)
    (actionStore c) (currentAction c) (pokemon c) (teams c) (winner c)
    (loser c) v (leadPhase c) (faintedThisTurn c) (currentWeather c)
    (sideConditions c) (pendingAbilityBoost c) (recentMoves c)
    (pendingSwitchAbility c) (activePositions c) (pendingFieldEnds c)
    (pendingProtects c).

Definition set_leadPhase (v : bool) (c : ParseContext) : ParseContext :=
  mkContext
    (players c) (formatName c) (turnStore c) (turns c) (currentTurn c)
    (actionStore c) (currentAction c) (pokemon c) (teams c) (winner c)
    (loser c) (resultNote c) v (faintedThisTurn c) (currentWeather c)
    (sideConditions c) (pendingAbilityBoost c) (recentMoves c)
    (pendingSwitchAbility c) (activePositions c) (pendingFieldEnds c)
    (pendingProtects c).

Definition set_faintedThisTurn (v : list string) (c : ParseContext) : ParseContext :=
  mkContext
    (players c) (formatName c) (turnStore c) (turns c) (currentTurn c)
    (actionStore c) (currentAction c) (pokemon c) (teams c) (winner c)
    (loser c) (resultNote c) (leadPhase c) v (currentWeather c)
    (sideConditions c) (pendingAbilityBoost c) (recentMoves c)
    (pendingSwitchAbility c) (activePositions c) (pendingFieldEnds c)
    (pendingProtects c).

Definition set_currentWeather (v : option string) (c : ParseContext) : ParseContext :=
  mkContext
    (players c) (formatName c) (turnStore c) (turns c) (currentTurn c)
    (actionStore c) (currentAction c) (pokemon c) (teams c) (winner c)
    (loser c) (resultNote c) (leadPhase c) (faintedThisTurn c) v
    (sideConditions c) (pendingAbilityBoost c) (recentMoves c)
    (pendingSwitchAbility c) (activePositions c) (pendingFieldEnds c)
    (pendingProtects c).

Definition set_sideConditions (v : SideConditions) (c : ParseContext) : ParseContext :=
  mkContext
    (players c) (formatName c) (turnStore c) (turns c) (currentTurn c)
    (actionStore c) (currentAction c) (pokemon c) (teams c) (winner c)
    (loser c) (resultNote c) (leadPhase c) (faintedThisTurn c)
    (currentWeather c) v (pendingAbilityBoost c) (recentMoves c)
    (pendingSwitchAbility c) (activePositions c) (pendingFieldEnds c)
    (pendingProtects c).

Definition set_pendingAbilityBoost (v : option PendingAbilityBoost) (c : ParseContext) : ParseContext :=
  mkContext
    (players c) (formatName c) (turnStore c) (turns c) (currentTurn c)
    (actionStore c) (currentAction c) (pokemon c) (teams c) (winner c)
    (loser c) (resultNote c) (leadPhase c) (faintedThisTurn c)
    (currentWeather c) (sideConditions c) v (recentMoves c)
    (pendingSwitchAbility c) (activePositions c) (pendingFieldEnds c)
    (pendingProtects c).

Definition set_recentMoves (v : list RecentMove) (c : ParseContext) : ParseContext :=
  mkContext
    (players c) (formatName c) (turnStore c) (turns c) (currentTurn c)
    (actionStore c) (currentAction c) (pokemon c) (teams c) (winner c)
    (loser c) (resultNote c) (leadPhase c) (faintedThisTurn c)
    (currentWeather c) (sideConditions c) (pendingAbilityBoost c) v
    (pendingSwitchAbility c) (activePositions c) (pendingFieldEnds c)
    (pendingProtects c).

Definition set_pendingSwitchAbility (v : option PendingSwitchAbility) (c : ParseContext) : ParseContext :=
  mkContext
    (players c) (formatName c) (turnStore c) (turns c) (currentTurn c)
    (actionStore c) (currentAction c) (pokemon c) (teams c) (winner c)
    (loser c) (resultNote c) (leadPhase c) (faintedThisTurn c)
    (currentWeather c) (sideConditions c) (pendingAbilityBoost c)
    (recentMoves c) v (activePositions c) (pendingFieldEnds c)
    (pendingProtects c).

Definition set_activePositions (v : ActivePositions) (c : ParseContext) : ParseContext :=
  mkContext
    (players c) (formatName c) (turnStore c) (turns c) (currentTurn c)
    (actionStore c) (currentAction c) (pokemon c) (teams c) (winner c)
    (loser c) (resultNote c) (leadPhase c) (faintedThisTurn c)
    (currentWeather c) (sideConditions c) (pendingAbilityBoost c)
    (recentMoves c) (pendingSwitchAbility c) v (pendingFieldEnds c)
    (pendingProtects c).

Definition set_pendingFieldEnds (v : list string) (c : ParseContext) : ParseContext :=
  mkContext
    (players c) (formatName c) (turnStore c) (turns c) (currentTurn c)
    (actionStore c) (currentAction c) (pokemon c) (teams c) (winner c)
    (loser c) (resultNote c) (leadPhase c) (faintedThisTurn c)
    (currentWeather c) (sideConditions c) (pendingAbilityBoost c)
    (recentMoves c) (pendingSwitchAbility c) (activePositions c) v
    (pendingProtects c).

Definition set_pendingProtects (v : list string) (c : ParseContext) : ParseContext :=
  mkContext
    (players c) (formatName c) (turnStore c) (turns c) (currentTurn c)
    (actionStore c) (currentAction c) (pokemon c) (teams c) (winner c)
    (loser c) (resultNote c) (leadPhase c) (faintedThisTurn c)
    (currentWeather c) (sideConditions c) (pendingAbilityBoost c)
    (recentMoves c) (pendingSwitchAbility c) (activePositions c)
    (pendingFieldEnds c) v.

(** *** The stores *)

Fixpoint updateAt {A : Type} (i : nat) (f : A -> A) (xs : list A) : list A :=
  match xs, i with
  | [], _ => []
  | x :: r, O => f x :: r
  | x :: r, S j => x :: updateAt j f r
  end.

Definition createTurn (turn : number) (label : option string) : TurnSummary :=
  mkTurn turn label [] [] [] [].

Definition emptyAction : ActionSummary :=
  mkAction TNote None None None None None "" None None None [] None None.

(** The object a turn reference points at. *)
Definition getTurn (ctx : ParseContext) (r : TurnRef) : TurnSummary :=
  nth r (turnStore ctx) (createTurn NaN None).

(** The object an action reference points at. *)
Definition getAction (ctx : ParseContext) (r : ActionRef) : ActionSummary :=
  nth r (actionStore ctx) emptyAction.

(** [ctx.currentTurn] dereferenced. *)
Definition theTurn (ctx : ParseContext) : TurnSummary :=
  getTurn ctx (currentTurn ctx).

(** A mutation of the object [ctx.currentTurn] points at. *)
Definition modifyCurrentTurn (f : TurnSummary -> TurnSummary) (ctx : ParseContext)
  : ParseContext :=
  set_turnStore (updateAt (currentTurn ctx) f (turnStore ctx)) ctx.

(** A mutation of the action object [r] points at. *)
Definition modifyAction (r : ActionRef) (f : ActionSummary -> ActionSummary)
  (ctx : ParseContext) : ParseContext :=
  set_actionStore (updateAt r f (actionStore ctx)) ctx.

(** [ctx.pokemon.get(ref)] *)
Fixpoint lookup {A : Type} (key : string) (m : list (string * A)) : option A :=
  match m with
  | [] => None
  | (k, v) :: r => if String.eqb k key then Some v else lookup key r
  end.

(** [map.set(key, v)]: an existing key keeps its place. *)
Fixpoint assign {A : Type} (key : string) (v : A) (m : list (string * A))
  : list (string * A) :=
  match m with
  | [] => [(key, v)]
  | (k, w) :: r => if String.eqb k key then (k, v) :: r
                   else (k, w) :: assign key v r
  end.

Definition pokemonGet (ctx : ParseContext) (ref : string) : option PokemonState :=
  lookup ref (pokemon ctx).

(** A mutation of the registry entry of [ref], if there is one. *)
Definition modifyPokemon (ref : string) (f : PokemonState -> PokemonState)
  (ctx : ParseContext) : ParseContext :=
  match pokemonGet ctx ref with
  | Some mon => set_pokemon (assign ref (f mon) (pokemon ctx)) ctx
  | None => ctx
  end.

(** [set.add(x)] on a set kept in insertion order. *)
Definition setAdd (x : string) (xs : list string) : list string :=
  if arrayIncludes xs x then xs else xs +++ [x].

Definition setDelete (x : string) (xs : list string) : list string :=
  filter (fun y => negb (String.eqb y x)) xs.

(** *** Helpers of the parser *)

Definition resolveSide (ref : string) : Side :=
  if startsWith ref "p2" then P2 else P1.

Definition parseExtras (parts : list string) (startIndex : nat) : list string :=
  filterTruthy (map simplifyBracketText (skipn startIndex parts)).

Definition formatExtras (extras : list string) : string :=
  let filtered := filterTruthy extras in
  match filtered with
  | [] => ""
  | _ :: _ => " (" ++ join "; " filtered ++ ")"
  end.

Definition normalizeWeatherName (weather : string) : string :=
  let normalized := toLowerCase weather in
  if includes normalized "raindance" || String.eqb normalized "raindance" then "Rain"
  else if includes normalized "sandstorm" then "Sandstorm"
  else if includes normalized "sunnyday" || String.eqb normalized "sunnyday" then "Sun"
  else if includes normalized "hail" then "Hail"
  else if includes normalized "snow" then "Snow"
  else weather.

(** [field.replace(p, '')], [p]: at the start, "move:" in any case, then
    white space. *)
Definition stripMovePrefix (field : string) : string :=
  if startsWithCI field "move:" then dropWhile isSpace (dropChars 5 field)
  else field.

Definition normalizeFieldName (field : string) : string :=
  let normalized := stripMovePrefix field in
  if includes normalized "Psychic Terrain" then "Psychic Terrain"
  else if includes normalized "Electric Terrain" then "Electric Terrain"
  else if includes normalized "Grassy Terrain" then "Grassy Terrain"
  else if includes normalized "Misty Terrain" then "Misty Terrain"
  else if includes normalized "Trick Room" then "Trick Room"
  else if includes normalized "Magic Room" then "Magic Room"
  else if includes normalized "Wonder Room" then "Wonder Room"
  else if includes normalized "Gravity" then "Gravity"
  else normalized.

Definition hasSpeciesOnBothSides (ctx : ParseContext) (species : string) : bool :=
  arrayIncludes (team_p1 (teams ctx)) species
  && arrayIncludes (team_p2 (teams ctx)) species.

(** [mon.nickname || mon.species] *)
Definition monName (mon : PokemonState) : string :=
  orString (mon_nickname mon) (mon_species mon).

Definition getPokemonDisplayName (ctx : ParseContext) (ref : string) : string :=
  match pokemonGet ctx ref with
  | None => ref
  | Some mon =>
      let baseName := monName mon in
      match resolveSide ref with
      | P2 => if hasSpeciesOnBothSides ctx (mon_species mon)
              then baseName ++ " (opp)" else baseName
      | P1 => baseName
      end
  end.

Definition createInitialContext : ParseContext :=
  let leadTurn := createTurn (Num 0) (Some "Lead") in
  mkContext
    (mkPlayers "Player 1" "Player 2" [])
    None
    [leadTurn] [0] 0
    [] None
    []
    (mkTeams [] [] [] [])
    None None None
    true
    []
    None
    (mkSideConditions [] [])
    None
    []
    None
    (mkPositions None None None None)
    []
    [].

Definition escapeHtml (text : string) : string :=
  replaceChar ">" "&gt;" (replaceChar "<" "&lt;" (replaceChar "&" "&amp;" text)).

Definition makeDetail (text : string) (html : option string) : DetailEntry :=
  if negb (nonEmpty text) && negb (truthy html) then mkDual "" ""
  else
    let safeHtml := match html with
                    | Some h => h
                    | None => escapeHtml text
                    end in
    mkDual safeHtml text.

Definition isEndOfTurnSource (source : string) : bool :=
  let lowerSource := toLowerCase source in
  includes lowerSource "leftovers"
  || includes lowerSource "black sludge"
  || includes lowerSource "psn"
  || includes lowerSource "poison"
  || includes lowerSource "brn"
  || includes lowerSource "burn"
  || includes lowerSource "sandstorm"
  || includes lowerSource "hail"
  || includes lowerSource "grassy terrain"
  || includes lowerSource "aqua ring"
  || includes lowerSource "ingrain"
  || includes lowerSource "leech seed".

Definition pushEndEvent (entry : DetailEntry) (ctx : ParseContext) : ParseContext :=
  modifyCurrentTurn (fun t => set_t_endEvents (t_endEvents t +++ [entry]) t) ctx.

Definition pushDetail (r : ActionRef) (entry : DetailEntry) (ctx : ParseContext)
  : ParseContext :=
  modifyAction r (fun a => set_a_details (a_details a +++ [entry]) a) ctx.

(** [appendDetail] called with a detail entry. *)
Definition appendDetail (ctx : ParseContext) (detail : DetailEntry)
  (forceEndEvent : bool) : ParseContext :=
  if negb (nonEmpty (d_text detail)) && negb (nonEmpty (d_html detail)) then ctx
  else
    match currentAction ctx with
    | Some r => if forceEndEvent then pushEndEvent detail ctx
                else pushDetail r detail ctx
    | None => pushEndEvent detail ctx
    end.

(** [appendDetail] called with a string. *)
Definition appendDetailString (ctx : ParseContext) (detail : string)
  (forceEndEvent : bool) : ParseContext :=
  if negb (nonEmpty (trim detail)) then ctx
  else
    let entry := makeDetail detail None in
    match currentAction ctx with
    | Some r => if forceEndEvent then pushEndEvent entry ctx
                else pushDetail r entry ctx
    | None => pushEndEvent entry ctx
    end.

Definition pushHeaderEvent (ctx : ParseContext) (text : string) : ParseContext :=
  match t_actions (theTurn ctx) with
  | [] => modifyCurrentTurn
            (fun t => set_t_headerEvents (t_headerEvents t +++ [text]) t) ctx
  | _ :: _ => pushEndEvent (makeDetail text None) ctx
  end.

Definition flushPendingFieldEnds (ctx : ParseContext) : ParseContext :=
  match pendingFieldEnds ctx with
  | [] => ctx
  | _ :: _ =>
      let fieldEndTexts := map (fun e => e ++ " ends") (pendingFieldEnds ctx) in
      let combined := join "; " fieldEndTexts in
      set_pendingFieldEnds [] (pushEndEvent (makeDetail combined None) ctx)
  end.

Definition ensureCurrentTurn (ctx : ParseContext) (turnNumber : number)
  : ParseContext :=
  if numEq (t_turn (theTurn ctx)) turnNumber then ctx
  else
    let ctx := flushPendingFieldEnds ctx in
    let newTurn := List.length (turnStore ctx) in
    let ctx := set_turnStore (turnStore ctx +++ [createTurn turnNumber None]) ctx in
    let ctx := set_turns (turns ctx +++ [newTurn]) ctx in
    let ctx := set_currentTurn newTurn ctx in
    let ctx := set_currentAction None ctx in
    let ctx := set_faintedThisTurn [] ctx in
    let ctx := set_recentMoves [] ctx in
    set_pendingProtects [] ctx.

(** [ctx.teams[side].push(normalized)] throws unless the side key is "p1" or
    "p2": no other property of the teams object is an array. *)
Definition addSpecies (ctx : ParseContext) (side : option string) (species : string)
  : result ParseContext :=
  let normalized := trim species in
  let id := toId (Some normalized) in
  if negb (nonEmpty id) then Ok ctx
  else
    let isP1 := match side with
                | Some k => String.eqb k "p1"
                | None => false
                end in
    let set := if isP1 then team_p1Set (teams ctx) else team_p2Set (teams ctx) in
    if arrayIncludes set normalized then Ok ctx
    else
      let tm := teams ctx in
      let tm := if isP1
                then mkTeams (team_p1 tm) (team_p2 tm)
                       (team_p1Set tm +++ [normalized]) (team_p2Set tm)
                else mkTeams (team_p1 tm) (team_p2 tm)
                       (team_p1Set tm) (team_p2Set tm +++ [normalized]) in
      match side with
      | Some k =>
          if String.eqb k "p1" then
            Ok (set_teams (mkTeams (team_p1 tm +++ [normalized]) (team_p2 tm)
                             (team_p1Set tm) (team_p2Set tm)) ctx)
          else if String.eqb k "p2" then
            Ok (set_teams (mkTeams (team_p1 tm) (team_p2 tm +++ [normalized])
                             (team_p1Set tm) (team_p2Set tm)) ctx)
          else Throw TypeError
      | None => Throw TypeError
      end.

Record PokemonRef : Type := mkRef {
  r_ref : string;
  r_nickname : string;
  r_side : Side
}.

Definition lastChar (s : string) : option ascii :=
  match reverse s with
  | EmptyString => None
  | String c _ => Some c
  end.

(** The pattern of [parsePokemonRef], case-insensitive: start of input, one
    or more of [a-z0-9] (the ref), a colon, any white space, one or more
    characters other than line terminators (the nickname), end of input.
    When only white space follows the colon, the white space gives its last
    character back to the nickname group. *)
Definition refMatch (raw : string) : option (string * string) :=
  let ref := takeWhile isAlnum raw in
  match dropWhile isAlnum raw with
  | String ":" after =>
      if negb (nonEmpty ref) then None
      else
        match dropWhile isSpace after with
        | EmptyString =>
            match lastChar after with
            | Some c => if isLineTerminator c then None
                        else Some (ref, String c EmptyString)
            | None => None
            end
        | String c t =>
            if allChars (fun x => negb (isLineTerminator x)) (String c t)
            then Some (ref, String c t) else None
        end
  | _ => None
  end.

Definition parsePokemonRef (raw : string) : PokemonRef :=
  match refMatch raw with
  | None =>
      let ref := trim raw in
      mkRef ref (trim raw) (resolveSide ref)
  | Some (ref, nickname) => mkRef ref nickname (resolveSide ref)
  end.

(** [toIconId(species) || fallback] *)
Definition iconIdOr (species : string) (fallback : string) : string :=
  if nonEmpty (toIconId (Some species)) then toIconId (Some species) else fallback.

Definition getOrCreatePokemon (ctx : ParseContext) (ref : string) (side : Side)
  (species : option string) : ParseContext * PokemonState :=
  match pokemonGet ctx ref with
  | Some existing => (ctx, existing)
  | None =>
      let species := match species with
                     | Some s => s
                     | None => "Unknown"
                     end in
      let iconId := iconIdOr species DEFAULT_ICON_ID in
      let created := mkPokemon ref side None species iconId None None None in
      (set_pokemon (assign ref created (pokemon ctx)) ctx, created)
  end.

(** An undefined species reaches [species.trim()] in [addSpecies]. *)
Definition updatePokemonSpecies (ctx : ParseContext) (ref : string)
  (species : option string) : result ParseContext :=
  let side := resolveSide ref in
  let '(ctx, mon) := getOrCreatePokemon ctx ref side species in
  match species with
  | None => Throw TypeError
  | Some species =>
      let ctx := modifyPokemon ref
                   (fun m => set_mon_iconId (iconIdOr species (mon_iconId m))
                               (set_mon_species species m)) ctx in
      addSpecies ctx (Some (sideName side)) species
  end.

Definition setCurrentAction (ctx : ParseContext) (action : ActionSummary)
  : ParseContext :=
  let r := List.length (actionStore ctx) in
  let ctx := set_actionStore (actionStore ctx +++ [action]) ctx in
  let ctx := modifyCurrentTurn (fun t => set_t_actions (t_actions t +++ [r]) t) ctx in
  set_currentAction (Some r) ctx.

Definition iconHTML (iconId : option string) (alt : string) : string :=
  renderPokemonIcon (Some (orString iconId DEFAULT_ICON_ID)) alt.

(** No caller passes the optional [htmlBody], so the markup body is [body]. *)
Definition detailWithIcon (ctx : ParseContext) (ref : string) (body : string)
  : ParseContext * DetailEntry :=
  let side := resolveSide ref in
  let '(ctx, mon) := getOrCreatePokemon ctx ref side None in
  let label := getPokemonDisplayName ctx ref in
  let icon := iconHTML (Some (mon_iconId mon)) label in
  let html := icon ++ body in
  let text := trim (label ++ " " ++ body) in
  (ctx, makeDetail text (Some (trim html))).

(** [detail.html || detail.text] *)
Definition htmlOrText (d : DetailEntry) : string :=
  if nonEmpty (d_html d) then d_html d else d_text d.

Definition combineDetails (details : list DetailEntry) : option DualFormat :=
  match details with
  | [] => None
  | _ :: _ =>
      let text := join "; " (filterTruthy (map d_text details)) in
      let html := join "; " (filterTruthy (map htmlOrText details)) in
      if negb (nonEmpty text) && negb (nonEmpty html) then None
      else Some (mkDual (if nonEmpty html then html else text)
                        (if nonEmpty text then text else html))
  end.

Definition addNoteAction (ctx : ParseContext) (ref : option string) (note : string)
  : ParseContext :=
  let side := if truthy ref then resolveSide (tmpl ref) else P1 in
  let actor := if truthy ref then pokemonGet ctx (tmpl ref) else None in
  let action :=
    mkAction TNote ref
      (option_map monName actor)
      (option_map mon_species actor)
      (option_map mon_iconId actor)
      (Some side) note None None None [] None None in
  setCurrentAction ctx action.

(** [mon?.nickname || mon?.species || fallback] *)
Definition nameOr (mon : option PokemonState) (fallback : string) : string :=
  match mon with
  | Some m => if nonEmpty (monName m) then monName m else fallback
  | None => fallback
  end.

(** The boosts of one aggregation grouped by target, in the order in which
    the targets first occur (a Map iterates in insertion order). *)
Definition boostsByTarget (boosts : list Boost) : list (string * list Boost) :=
  fold_left
    (fun m b =>
       match lookup (b_ref b) m with
       | None => assign (b_ref b) [b] m
       | Some bs => assign (b_ref b) (bs +++ [b]) m
       end)
    boosts [].

Definition boostText (b : Boost) : string :=
  b_direction b ++ numberToString (b_amount b) ++ " " ++ b_stat b.

(** One detail entry per target; [detailWithIcon] may register the target. *)
Fixpoint targetBoostDetails (ctx : ParseContext)
  (groups : list (string * list Boost)) : ParseContext * list DetailEntry :=
  match groups with
  | [] => (ctx, [])
  | (targetRef, targetBoosts) :: rest =>
      let combinedBoostText := join ", " (map boostText targetBoosts) in
      let '(ctx, d) := detailWithIcon ctx targetRef combinedBoostText in
      let '(ctx, ds) := targetBoostDetails ctx rest in
      (ctx, d :: ds)
  end.

(** [ctx.leadPhase || ctx.currentTurn.turn === 1 && no action yet] *)
Definition beforeFirstAction (ctx : ParseContext) : bool :=
  leadPhase ctx
  || (numEq (t_turn (theTurn ctx)) (Num 1)
      && Nat.eqb (List.length (t_actions (theTurn ctx))) 0).

Definition possessiveSuffix (name : string) : string :=
  if endsWith name "s" then "'" else "'s".

Definition finalizePendingAbilityBoost (ctx : ParseContext) : ParseContext :=
  match pendingAbilityBoost ctx with
  | None => ctx
  | Some (mkPending ref ability boosts) =>
      let mon := pokemonGet ctx ref in
      let pokemonName := nameOr mon ref in
      let possessive := possessiveSuffix pokemonName in
      let abilityText := pokemonName ++ possessive ++ " " ++ tmpl ability in
      let abilityHtml :=
        iconHTML (option_map mon_iconId mon) pokemonName
        ++ pokemonName ++ possessive ++ " " ++ tmpl ability in
      let first := makeDetail abilityText (Some abilityHtml) in
      let '(ctx, rest) := targetBoostDetails ctx (boostsByTarget boosts) in
      let ctx :=
        match combineDetails (first :: rest) with
        | Some combined =>
            if beforeFirstAction ctx then pushHeaderEvent ctx (d_text combined)
            else appendDetail ctx combined false
        | None => ctx
        end in
      set_pendingAbilityBoost None ctx
  end.

(** *** Patterns used by the record handlers *)

(** The position pattern: at the start, "p", then 1 or 2, then a or b. *)
Definition activePosition (ref : string) : option string :=
  match ref with
  | String "p" (String d (String l _)) =>
      if (Ascii.eqb d "1" || Ascii.eqb d "2") && (Ascii.eqb l "a" || Ascii.eqb l "b")
      then Some (substring 0 3 ref) else None
  | _ => None
  end.

Definition setPosition (position ref : string) (a : ActivePositions)
  : ActivePositions :=
  if String.eqb position "p1a" then mkPositions (Some ref) (pos_p1b a) (pos_p2a a) (pos_p2b a)
  else if String.eqb position "p1b" then mkPositions (pos_p1a a) (Some ref) (pos_p2a a) (pos_p2b a)
  else if String.eqb position "p2a" then mkPositions (pos_p1a a) (pos_p1b a) (Some ref) (pos_p2b a)
  else if String.eqb position "p2b" then mkPositions (pos_p1a a) (pos_p1b a) (pos_p2a a) (Some ref)
  else a.

(** The stat-delta pattern (a sign, digits, white space, a word character)
    matched at the start of [s]. *)
Definition boostAt (s : string) : bool :=
  match s with
  | String c t =>
      (Ascii.eqb c "+" || Ascii.eqb c "-")
      && nonEmpty (takeWhile isDigit t)
      && nonEmpty (takeWhile isSpace (dropWhile isDigit t))
      && match dropWhile isSpace (dropWhile isDigit t) with
         | String w _ => isWord w
         | EmptyString => false
         end
  | EmptyString => false
  end.

(** The stat-delta pattern tested anywhere in [s]. *)
Fixpoint hasBoost (s : string) : bool :=
  boostAt s ||
  match s with
  | EmptyString => false
  | String _ t => hasBoost t
  end.

(** The test both the forced-switch merge and the renderer apply to a detail. *)
Definition isBoostDetail (d : DetailEntry) : bool := hasBoost (trim (d_text d)).

(** The text after the first occurrence of [kw] in [s]. *)
Fixpoint afterFirst (kw s : string) : option string :=
  if prefix kw s then Some (dropChars (String.length kw) s)
  else match s with
       | EmptyString => None
       | String _ t => afterFirst kw t
       end.

(** A keyword, any white space, then a group of one or more characters other
    than line terminators, searched in [s]: the group.  When only white space
    follows the keyword, the group is the last white-space character that is
    not a line terminator. *)
Definition matchKeyword (kw s : string) : option string :=
  match afterFirst kw s with
  | None => None
  | Some rest =>
      match dropWhile isSpace rest with
      | String c t => Some (takeWhile (fun x => negb (isLineTerminator x)) (String c t))
      | EmptyString =>
          match dropWhile isLineTerminator (reverse rest) with
          | String c _ => Some (String c EmptyString)
          | EmptyString => None
          end
      end
  end.

(** [m ? m[1].trim() : ''] *)
Definition groupOrEmpty (m : option string) : string :=
  match m with
  | Some g => trim g
  | None => ""
  end.

Definition part (parts : list string) (i : nat) : option string := nth_error parts i.

Definition setPlayer (key name : string) (pm : PlayerMap) : PlayerMap :=
  if String.eqb key "p1" then mkPlayers name (p2 pm) (otherPlayers pm)
  else if String.eqb key "p2" then mkPlayers (p1 pm) name (otherPlayers pm)
  else if String.eqb key "__proto__" then pm
  else mkPlayers (p1 pm) (p2 pm) (assign key name (otherPlayers pm)).

(** The forced-switch test of one translated annotation. *)
Definition forcedByMoveExtra (extra : string) : bool :=
  let lowerExtra := toLowerCase extra in
  negb (includes lowerExtra "ability") && negb (includes lowerExtra "item")
  && Nat.ltb 0 (String.length extra).

(** The open action when it is a move of [ref]. *)
Definition openMoveOf (ctx : ParseContext) (ref : string) : option ActionRef :=
  match currentAction ctx with
  | Some r =>
      match a_type (getAction ctx r), a_actorRef (getAction ctx r) with
      | TMove, Some actor => if String.eqb actor ref then Some r else None
      | _, _ => None
      end
  | None => None
  end.

(** The open action when it is a switch of [ref]. *)
Definition openSwitchOf (ctx : ParseContext) (ref : string) : option ActionRef :=
  match currentAction ctx with
  | Some r =>
      match a_type (getAction ctx r), a_actorRef (getAction ctx r) with
      | TSwitch, Some actor => if String.eqb actor ref then Some r else None
      | _, _ => None
      end
  | None => None
  end.

(** Appends [suffix] to the frozen display name of target [ref] of the open
    action, unless the name is empty or already carries it. *)
Definition patchTargetName (ctx : ParseContext) (ref suffix : string) : ParseContext :=
  match currentAction ctx with
  | None => ctx
  | Some r =>
      match a_targetRefs (getAction ctx r) with
      | None => ctx
      | Some targetRefs =>
          match indexOf targetRefs ref, a_targetNames (getAction ctx r) with
          | Some targetIdx, Some names =>
              match nth_error names targetIdx with
              | Some currentName =>
                  if nonEmpty currentName && negb (includes currentName suffix)
                  then modifyAction r
                         (set_a_targetNames
                            (Some (updateAt targetIdx
                                     (fun _ => currentName ++ " " ++ suffix) names)))
                         ctx
                  else ctx
              | None => ctx
              end
          | _, _ => ctx
          end
      end
  end.

(** *** The cases of the switch in [parseLog] *)

Definition arrow : string :=
  String (ascii_of_nat 226) (String (ascii_of_nat 134) (String (ascii_of_nat 146) "")).

Definition casePlayer (ctx : ParseContext) (parts : list string)
  : result ParseContext :=
  let side := part parts 1 in
  let name := part parts 2 in
  if truthy name
  then Ok (set_players (setPlayer (tmpl side) (tmpl name) (players ctx)) ctx)
  else Ok ctx.

Definition caseFormat (ctx : ParseContext) (parts : list string)
  : result ParseContext :=
  if negb (truthy (formatName ctx)) then Ok (set_formatName (part parts 1) ctx)
  else Ok ctx.

Definition caseWin (ctx : ParseContext) (parts : list string)
  : result ParseContext :=
  Ok (set_winner (part parts 1) ctx).

Definition caseLoss (ctx : ParseContext) (parts : list string)
  : result ParseContext :=
  let loserToken := orString (part parts 1) "" in
  Ok (set_loser (Some (dropWhile (fun c => negb (isAlnum c)) loserToken)) ctx).

Definition caseTurn (ctx : ParseContext) (parts : list string)
  : result ParseContext :=
  let ctx := finalizePendingAbilityBoost ctx in
  let turnNumber := Number (part parts 1) in
  let ctx := set_leadPhase false ctx in
  let ctx := ensureCurrentTurn ctx turnNumber in
  Ok (set_currentAction None ctx).

Definition casePoke (ctx : ParseContext) (parts : list string)
  : result ParseContext :=
  let side := part parts 1 in
  detail <- defined (part parts 2) ;;
  let species := hd "" (split "," detail) in
  addSpecies ctx side species.

(** The detail a forced switch adds to the move that caused it. *)
Definition switchDetail (ctx : ParseContext) (ref : string) (mon : PokemonState)
  (previousIconId previousName : option string) : DetailEntry :=
  let displayName := getPokemonDisplayName ctx ref in
  let switchText := orString previousName "Previous" ++ " -> " ++ displayName in
  let previousIcon :=
    if truthy previousIconId
    then iconHTML previousIconId (orString previousName "Previous") else "" in
  let currentIcon :=
    if nonEmpty (mon_iconId mon) then iconHTML (Some (mon_iconId mon)) displayName
    else "" in
  let switchHtml :=
    if nonEmpty previousIcon && nonEmpty currentIcon
    then previousIcon ++ " -> " ++ currentIcon
    else if nonEmpty currentIcon then currentIcon
    else switchText in
  makeDetail switchText (Some switchHtml).

(** The stat-delta details of an action joined into one, ahead of the others. *)
Definition consolidateBoosts (details : list DetailEntry) : list DetailEntry :=
  let boostDetails := filter isBoostDetail details in
  let otherDetails := filter (fun d => negb (isBoostDetail d)) details in
  match boostDetails with
  | [] => details
  | _ :: _ =>
      let boostText := join ", " (map d_text boostDetails) in
      let boostHtml := join ", " (map htmlOrText boostDetails) in
      makeDetail boostText (Some boostHtml) :: otherDetails
  end.

Definition caseSwitch (ctx : ParseContext) (parts : list string)
  : result ParseContext :=
  let ctx := finalizePendingAbilityBoost ctx in
  raw <- defined (part parts 1) ;;
  let '(mkRef ref nickname side) := parsePokemonRef raw in
  let details := orString (part parts 2) "" in
  let species := hd "" (split "," details) in
  let previousMon := pokemonGet ctx ref in
  let previousIconId := option_map mon_iconId previousMon in
  let previousName := option_map monName previousMon in
  ctx <- updatePokemonSpecies ctx ref (Some species) ;;
  match pokemonGet ctx ref with
  | None => Ok ctx
  | Some mon =>
      let mon := if nonEmpty nickname then set_mon_nickname (Some nickname) mon
                 else mon in
      let hpRaw := orString (part parts 3) "" in
      let hpStatus := parseHPStatus hpRaw in
      let mon := set_mon_lastDisplayHP (Some (formatHPStatus hpStatus)) mon in
      let mon := set_mon_status (hs_status hpStatus) mon in
      let mon := set_mon_fainted (Some (hs_fainted hpStatus)) mon in
      let ctx := set_pokemon (assign ref mon (pokemon ctx)) ctx in
      let ctx :=
        match activePosition ref with
        | Some position =>
            set_activePositions (setPosition position ref (activePositions ctx)) ctx
        | None => ctx
        end in
      let switchExtras := parseExtras parts 4 in
      let forcedByMove := find forcedByMoveExtra switchExtras in
      match (if truthy forcedByMove then openMoveOf ctx ref else None) with
      | Some r =>
          (* a forced switch from the current move: merged into that action *)
          let ctx := modifyAction r
                       (fun a => set_a_details (consolidateBoosts (a_details a)) a)
                       ctx in
          Ok (pushDetail r (switchDetail ctx ref mon previousIconId previousName) ctx)
      | None =>
          if leadPhase ctx then
            let label := if nonEmpty (monName mon) then monName mon else ref in
            let entry := mkLead side (iconHTML (Some (mon_iconId mon)) label) label in
            let ctx := modifyCurrentTurn
                         (fun t => set_t_leadEntries (t_leadEntries t +++ [entry]) t)
                         ctx in
            Ok (set_currentAction None ctx)
          else
            let switchDetails :=
              if hs_fainted hpStatus then [makeDetail "fainted on entry" None]
              else [] in
            let isReplacement := Nat.ltb 0 (List.length (faintedThisTurn ctx)) in
            let verb := if isReplacement then "enters" else "switches" in
            let displayName := getPokemonDisplayName ctx ref in
            let action :=
              mkAction TSwitch (Some ref) (Some displayName)
                (Some (mon_species mon)) (Some (mon_iconId mon)) (Some side)
                verb None None None switchDetails
                (if isReplacement then None else previousIconId)
                (if isReplacement then None else previousName) in
            Ok (setCurrentAction ctx action)
      end
  end.

Definition caseMove (ctx : ParseContext) (parts : list string)
  : result ParseContext :=
  let ctx := finalizePendingAbilityBoost ctx in
  raw <- defined (part parts 1) ;;
  let '(mkRef ref nickname side) := parsePokemonRef raw in
  moveRaw <- defined (part parts 2) ;;
  let move := prettifyMove moveRaw in
  let targetRaw := part parts 3 in
  let targetInfo :=
    if truthy targetRaw then Some (parsePokemonRef (tmpl targetRaw)) else None in
  let targetRefs := option_map (fun ti => [r_ref ti]) targetInfo in
  let targetSpecies :=
    option_map
      (fun ti =>
         [orString (option_map mon_species (pokemonGet ctx (r_ref ti)))
            (if nonEmpty (r_nickname ti) then r_nickname ti else r_ref ti)])
      targetInfo in
  let '(ctx, actor) := getOrCreatePokemon ctx ref side None in
  let actor := if nonEmpty nickname then set_mon_nickname (Some nickname) actor
               else actor in
  let ctx := set_pokemon (assign ref actor (pokemon ctx)) ctx in
  let ctx := set_recentMoves (recentMoves ctx +++ [mkRecentMove ref move]) ctx in
  let actorDisplayName := getPokemonDisplayName ctx ref in
  let targetDisplayNames := option_map (map (getPokemonDisplayName ctx)) targetRefs in
  let extras := parseExtras parts 4 in
  let action :=
    mkAction TMove (Some ref) (Some actorDisplayName)
      (Some (mon_species actor)) (Some (mon_iconId actor)) (Some side)
      move targetRefs targetDisplayNames targetSpecies
      (match extras with
       | [] => []
       | _ :: _ => [makeDetail (join "; " extras) None]
       end)
      None None in
  Ok (setCurrentAction ctx action).

Definition caseCant (ctx : ParseContext) (parts : list string)
  : result ParseContext :=
  raw <- defined (part parts 1) ;;
  let ref := r_ref (parsePokemonRef raw) in
  let reason := part parts 2 in
  let move :=
    if truthy (part parts 3)
    then " while using " ++ prettifyMove (tmpl (part parts 3)) else "" in
  Ok (addNoteAction ctx (Some ref) ("can't move (" ++ tmpl reason ++ move ++ ")")).

(** The body of a damage or heal detail: "old -> new" when the displayed
    HP changed, else the new value; then the annotations in parentheses. *)
Definition damageBody (previous : option string) (formatted : string)
  (extras : list string) : string :=
  let change :=
    if truthy previous && negb (String.eqb (tmpl previous) formatted)
    then tmpl previous ++ " -> " ++ formatted else formatted in
  let segments :=
    change :: match extras with
              | [] => []
              | _ :: _ => ["(" ++ join "; " extras ++ ")"]
              end in
  join " " segments.

Definition caseDamage (ctx : ParseContext) (parts : list string)
  : result ParseContext :=
  raw <- defined (part parts 1) ;;
  let ref := r_ref (parsePokemonRef raw) in
  let '(ctx, mon) := getOrCreatePokemon ctx ref (resolveSide ref) None in
  hpRaw <- defined (part parts 2) ;;
  let hpStatus := parseHPStatus hpRaw in
  let previous := mon_lastDisplayHP mon in
  let formatted := formatHPStatus hpStatus in
  let ctx :=
    modifyPokemon ref
      (fun m => set_mon_fainted (Some (hs_fainted hpStatus))
                  (set_mon_status (hs_status hpStatus)
                     (set_mon_lastDisplayHP (Some formatted) m))) ctx in
  let extras := filterTruthy (parseExtras parts 3) in
  let isEOT := existsb isEndOfTurnSource extras in
  (* pending field ends go before the first end-of-turn damage *)
  let ctx :=
    if isEOT && Nat.ltb 0 (List.length (pendingFieldEnds ctx))
    then flushPendingFieldEnds ctx else ctx in
  let body := damageBody previous formatted extras in
  let '(ctx, detail) := detailWithIcon ctx ref body in
  Ok (appendDetail ctx detail isEOT).

(** [isSelfBuff]: the open action is a move of [ref] with no target name, or
    with a single target name equal to the actor's. *)
Definition selfBuffAction (ctx : ParseContext) (ref : string) : option ActionRef :=
  match openMoveOf ctx ref with
  | Some r =>
      match a_targetNames (getAction ctx r) with
      | None | Some [] => Some r
      | Some [name] =>
          match a_actorName (getAction ctx r) with
          | Some actorName => if String.eqb actorName name then Some r else None
          | None => None
          end
      | Some (_ :: _ :: _) => None
      end
  | None => None
  end.

Definition caseBoost (tag : string) (ctx : ParseContext) (parts : list string)
  : result ParseContext :=
  raw <- defined (part parts 1) ;;
  let ref := r_ref (parsePokemonRef raw) in
  statRaw <- defined (part parts 2) ;;
  let stat := toUpperCase statRaw in
  let amount := Number (part parts 3) in
  let direction := if String.eqb tag "-boost" then "+" else "-" in
  let extras := filterTruthy (parseExtras parts 4) in
  match pendingAbilityBoost ctx, extras with
  | Some pending, [] =>
      (* the boost belongs to the pending ability boost *)
      Ok (set_pendingAbilityBoost
            (Some (mkPending (pab_ref pending) (pab_ability pending)
                     (pab_boosts pending +++ [mkBoost ref stat amount direction])))
            ctx)
  | _, _ =>
      match (match extras with
             | [] => selfBuffAction ctx ref
             | _ :: _ => None
             end) with
      | Some r =>
          Ok (modifyAction r
                (fun a => set_a_verb
                            (a_verb a ++ ", " ++ direction ++ numberToString amount
                             ++ " " ++ stat) a)
                ctx)
      | None =>
          let detail :=
            direction ++ numberToString amount ++ " " ++ stat
            ++ match extras with
               | [] => ""
               | _ :: _ => " (" ++ join "; " extras ++ ")"
               end in
          let '(ctx, d) := detailWithIcon ctx ref detail in
          Ok (appendDetail ctx d false)
      end
  end.

Definition caseStatus (ctx : ParseContext) (parts : list string)
  : result ParseContext :=
  raw <- defined (part parts 1) ;;
  let ref := r_ref (parsePokemonRef raw) in
  statusRaw <- defined (part parts 2) ;;
  let status := toUpperCase statusRaw in
  let extras := parseExtras parts 3 in
  let detail := status ++ formatExtras extras in
  let ctx := modifyPokemon ref (set_mon_status (Some status)) ctx in
  let isEOT := existsb isEndOfTurnSource extras in
  let '(ctx, d) := detailWithIcon ctx ref detail in
  Ok (appendDetail ctx d isEOT).

Definition caseCureStatus (ctx : ParseContext) (parts : list string)
  : result ParseContext :=
  raw <- defined (part parts 1) ;;
  let ref := r_ref (parsePokemonRef raw) in
  statusRaw <- defined (part parts 2) ;;
  let status := toUpperCase statusRaw in
  let '(ctx, d) := detailWithIcon ctx ref ("Cured " ++ status) in
  let ctx := appendDetail ctx d false in
  Ok (modifyPokemon ref (set_mon_status None) ctx).

Definition possessiveOf (name : string) : string :=
  if endsWith name "s" then name ++ "'" else name ++ "'s".

Definition caseAbility (ctx : ParseContext) (parts : list string)
  : result ParseContext :=
  raw <- defined (part parts 1) ;;
  let ref := r_ref (parsePokemonRef raw) in
  let ability := part parts 2 in
  let fourthParam := part parts 3 in
  if match fourthParam with
     | Some v => String.eqb v "boost"
     | None => false
     end
  then
    let ctx := finalizePendingAbilityBoost ctx in
    Ok (set_pendingAbilityBoost (Some (mkPending ref ability [])) ctx)
  else
    let pokemonName := nameOr (pokemonGet ctx ref) ref in
    let extras := filterTruthy (parseExtras parts 3) in
    let possessive := possessiveOf pokemonName in
    let detail :=
      match extras with
      | [] => possessive ++ " " ++ tmpl ability
      | _ :: _ => possessive ++ " " ++ tmpl ability ++ " (" ++ join "; " extras ++ ")"
      end in
    if beforeFirstAction ctx then Ok (pushHeaderEvent ctx detail)
    else Ok (appendDetail ctx (makeDetail detail None) false).

Definition caseItem (label : string) (ctx : ParseContext) (parts : list string)
  : result ParseContext :=
  raw <- defined (part parts 1) ;;
  let ref := r_ref (parsePokemonRef raw) in
  let item := part parts 2 in
  let extras := parseExtras parts 3 in
  let '(ctx, d) :=
    detailWithIcon ctx ref (label ++ tmpl item ++ formatExtras extras) in
  Ok (appendDetail ctx d false).

(** The pokemon an ability-sourced field or weather start names: the ability
    and the raw reference, when the two annotations are there. *)
Definition abilitySource (parts : list string) : option (string * string) :=
  if truthy (part parts 2) && includes (tmpl (part parts 2)) "[from] ability:" then
    let ability := groupOrEmpty (matchKeyword "ability:" (tmpl (part parts 2))) in
    if nonEmpty ability && truthy (part parts 3)
       && includes (tmpl (part parts 3)) "[of]" then
      let refRaw := groupOrEmpty (matchKeyword "[of]" (tmpl (part parts 3))) in
      if nonEmpty refRaw then Some (ability, refRaw) else None
    else None
  else None.

Definition appendVerb (r : ActionRef) (suffix : string) (ctx : ParseContext)
  : ParseContext :=
  modifyAction r (fun a => set_a_verb (a_verb a ++ suffix) a) ctx.

Definition caseFieldStart (ctx : ParseContext) (parts : list string)
  : result ParseContext :=
  source <- defined (part parts 1) ;;
  let fieldName := normalizeFieldName source in
  match abilitySource parts with
  | Some (ability, refRaw) =>
      let ref := r_ref (parsePokemonRef refRaw) in
      let pokemonName := nameOr (pokemonGet ctx ref) refRaw in
      let possessive := possessiveOf pokemonName in
      match openSwitchOf ctx ref with
      | Some r =>
          Ok (appendVerb r
                ("; " ++ possessive ++ " " ++ ability ++ "; " ++ fieldName ++ " starts")
                ctx)
      | None =>
          Ok (pushHeaderEvent ctx
                (possessive ++ " " ++ ability ++ "; " ++ fieldName ++ " starts"))
      end
  | None =>
      let fieldId := toId (Some fieldName) in
      let impliedByMove :=
        existsb (fun m => String.eqb (toId (Some (rm_move m))) fieldId)
          (recentMoves ctx) in
      if impliedByMove then Ok ctx
      else Ok (pushHeaderEvent ctx (fieldName ++ " starts"))
  end.

Definition caseFieldEnd (ctx : ParseContext) (parts : list string)
  : result ParseContext :=
  source <- defined (part parts 1) ;;
  let fieldName := normalizeFieldName source in
  Ok (set_pendingFieldEnds (pendingFieldEnds ctx +++ [fieldName]) ctx).

Definition caseWeather (ctx : ParseContext) (parts : list string)
  : result ParseContext :=
  let isUpkeep := truthy (part parts 2) && includes (tmpl (part parts 2)) "upkeep" in
  weather <- defined (part parts 1) ;;
  let normalizedWeather := normalizeWeatherName weather in
  if String.eqb weather "none" then
    let ctx :=
      if truthy (currentWeather ctx)
      then pushHeaderEvent ctx
             (normalizeWeatherName (tmpl (currentWeather ctx)) ++ " ends")
      else ctx in
    Ok (set_currentWeather None ctx)
  else if negb isUpkeep then
    if match currentWeather ctx with
       | Some w => String.eqb weather w
       | None => false
       end
    then Ok ctx
    else
      let ctx :=
        match abilitySource parts with
        | Some (ability, refRaw) =>
            let ref := r_ref (parsePokemonRef refRaw) in
            let pokemonName := nameOr (pokemonGet ctx ref) refRaw in
            let possessive := possessiveOf pokemonName in
            match openSwitchOf ctx ref with
            | Some r =>
                appendVerb r
                  ("; " ++ possessive ++ " " ++ ability ++ "; "
                   ++ normalizedWeather ++ " starts") ctx
            | None =>
                pushHeaderEvent ctx
                  (possessive ++ " " ++ ability ++ "; "
                   ++ normalizedWeather ++ " starts")
            end
        | None => pushHeaderEvent ctx (normalizedWeather ++ " starts")
        end in
      Ok (set_currentWeather (Some weather) ctx)
  else Ok ctx.

Definition conditionsOf (side : Side) (sc : SideConditions) : list string :=
  match side with
  | P1 => sc_p1 sc
  | P2 => sc_p2 sc
  end.

Definition setConditions (side : Side) (v : list string) (sc : SideConditions)
  : SideConditions :=
  match side with
  | P1 => mkSideConditions v (sc_p2 sc)
  | P2 => mkSideConditions (sc_p1 sc) v
  end.

Definition caseSideStart (ctx : ParseContext) (parts : list string)
  : result ParseContext :=
  raw <- defined (part parts 1) ;;
  let sideRef := resolveSide raw in
  let conditionId := toId (part parts 2) in
  Ok (set_sideConditions
        (setConditions sideRef
           (setAdd conditionId (conditionsOf sideRef (sideConditions ctx)))
           (sideConditions ctx))
        ctx).

Definition caseSideEnd (ctx : ParseContext) (parts : list string)
  : result ParseContext :=
  raw <- defined (part parts 1) ;;
  let sideRef := resolveSide raw in
  let condition := part parts 2 in
  let conditionId := toId condition in
  if arrayIncludes (conditionsOf sideRef (sideConditions ctx)) conditionId then
    let ctx := pushHeaderEvent ctx
                 ("Side condition ended: " ++ sideName sideRef ++ " -> "
                  ++ tmpl condition) in
    Ok (set_sideConditions
          (setConditions sideRef
             (setDelete conditionId (conditionsOf sideRef (sideConditions ctx)))
             (sideConditions ctx))
          ctx)
  else Ok ctx.

Definition caseTerrain (ctx : ParseContext) (parts : list string)
  : result ParseContext :=
  Ok (pushHeaderEvent ctx ("Terrain: " ++ tmpl (part parts 1))).

Definition caseMessage (ctx : ParseContext) (parts : list string)
  : result ParseContext :=
  let message := join " " (skipn 1 parts) in
  if endsWith (toLowerCase message) "forfeited." then
    let ctx := set_resultNote (Some "Forfeit") ctx in
    let forfeiter :=
      trimEnd (substring 0 (String.length message - 10) message) in
    if negb (truthy (loser ctx)) then Ok (set_loser (Some forfeiter) ctx)
    else Ok ctx
  else if nonEmpty message
          && negb (includes (toLowerCase message) "battle timer is on")
  then Ok (appendDetailString ctx message false)
  else Ok ctx.

Definition isProtectEffect (effect : string) : bool :=
  includes (toId (Some effect)) "protect"
  || includes (toLowerCase effect) "protect".

Definition caseSingleTurn (ctx : ParseContext) (parts : list string)
  : result ParseContext :=
  raw <- defined (part parts 1) ;;
  let ref := r_ref (parsePokemonRef raw) in
  (* an undefined effect reaches [effect.toLowerCase()] *)
  effect <- defined (part parts 2) ;;
  let ctx :=
    if isProtectEffect effect
    then set_pendingProtects (setAdd ref (pendingProtects ctx)) ctx else ctx in
  let normalizedEffect := stripMovePrefix effect in
  let isSameAsCurrentMove :=
    match currentAction ctx with
    | Some r =>
        match a_type (getAction ctx r) with
        | TMove => String.eqb (toId (Some normalizedEffect))
                     (toId (Some (a_verb (getAction ctx r))))
        | _ => false
        end
    | None => false
    end in
  if isSameAsCurrentMove then Ok ctx
  else
    let '(ctx, d) := detailWithIcon ctx ref effect in
    Ok (appendDetail ctx d false).

Definition caseActivate (ctx : ParseContext) (parts : list string)
  : result ParseContext :=
  raw <- defined (part parts 1) ;;
  let ref := r_ref (parsePokemonRef raw) in
  effect <- defined (part parts 2) ;;
  if isProtectEffect effect then Ok (patchTargetName ctx ref "(Protect)")
  else
    let extras := parseExtras parts 3 in
    let body := "Activates " ++ effect ++ formatExtras extras in
    let '(ctx, d) := detailWithIcon ctx ref body in
    Ok (appendDetail ctx d false).

Definition caseFail (ctx : ParseContext) (parts : list string)
  : result ParseContext :=
  raw <- defined (part parts 1) ;;
  let ref := r_ref (parsePokemonRef raw) in
  let reason := join "; " (parseExtras parts 2) in
  let body := "Fails" ++ (if nonEmpty reason then " (" ++ reason ++ ")" else "") in
  let '(ctx, d) := detailWithIcon ctx ref body in
  Ok (appendDetail ctx d false).

Definition caseMiss (ctx : ParseContext) (parts : list string)
  : result ParseContext :=
  raw <- defined (part parts 1) ;;
  let ref := r_ref (parsePokemonRef raw) in
  let targetName :=
    if truthy (part parts 2) then
      let targetInfo := parsePokemonRef (tmpl (part parts 2)) in
      if nonEmpty (r_nickname targetInfo) then r_nickname targetInfo
      else if nonEmpty (r_ref targetInfo) then r_ref targetInfo
      else tmpl (part parts 2)
    else "" in
  let body := "Misses" ++ (if nonEmpty targetName then " " ++ targetName else "") in
  let '(ctx, d) := detailWithIcon ctx ref body in
  Ok (appendDetail ctx d false).

Definition caseImmune (ctx : ParseContext) (parts : list string)
  : result ParseContext :=
  raw <- defined (part parts 1) ;;
  let ref := r_ref (parsePokemonRef raw) in
  Ok (patchTargetName ctx ref "(immune)").

Definition caseFaint (ctx : ParseContext) (parts : list string)
  : result ParseContext :=
  raw <- defined (part parts 1) ;;
  let ref := r_ref (parsePokemonRef raw) in
  match pokemonGet ctx ref with
  | Some _ =>
      let ctx := modifyPokemon ref (set_mon_fainted (Some true)) ctx in
      Ok (set_faintedThisTurn (setAdd ref (faintedThisTurn ctx)) ctx)
  | None => Ok ctx
  end.

Definition caseTerastallize (ctx : ParseContext) (parts : list string)
  : result ParseContext :=
  raw <- defined (part parts 1) ;;
  let ref := r_ref (parsePokemonRef raw) in
  let type := part parts 2 in
  let name := nameOr (pokemonGet ctx ref) raw in
  Ok (pushHeaderEvent ctx ("Terastallize " ++ name ++ " " ++ arrow ++ " " ++ tmpl type)).

Definition caseFormeChange (ctx : ParseContext) (parts : list string)
  : result ParseContext :=
  raw <- defined (part parts 1) ;;
  let ref := r_ref (parsePokemonRef raw) in
  updatePokemonSpecies ctx ref (part parts 2).

(** *** [parseLog] *)

(** The body of the loop for one record, already split into its fields. *)
Definition parseRecord (ctx : ParseContext) (parts : list string)
  : result ParseContext :=
  let tag := tmpl (part parts 0) in
  if String.eqb tag "player" then casePlayer ctx parts
  else if String.eqb tag "gen" || String.eqb tag "tier" || String.eqb tag "format"
  then caseFormat ctx parts
  else if String.eqb tag "win" then caseWin ctx parts
  else if String.eqb tag "l" then caseLoss ctx parts
  else if String.eqb tag "turn" then caseTurn ctx parts
  else if String.eqb tag "poke" then casePoke ctx parts
  else if String.eqb tag "switch" || String.eqb tag "drag" || String.eqb tag "replace"
  then caseSwitch ctx parts
  else if String.eqb tag "move" then caseMove ctx parts
  else if String.eqb tag "cant" then caseCant ctx parts
  else if String.eqb tag "-damage" || String.eqb tag "-heal" then caseDamage ctx parts
  else if String.eqb tag "-boost" || String.eqb tag "-unboost"
  then caseBoost tag ctx parts
  else if String.eqb tag "-status" then caseStatus ctx parts
  else if String.eqb tag "-curestatus" then caseCureStatus ctx parts
  else if String.eqb tag "-ability" then caseAbility ctx parts
  else if String.eqb tag "-item" then caseItem "Item gained: " ctx parts
  else if String.eqb tag "-enditem" then caseItem "Item lost: " ctx parts
  else if String.eqb tag "-fieldstart" then caseFieldStart ctx parts
  else if String.eqb tag "-fieldend" then caseFieldEnd ctx parts
  else if String.eqb tag "-weather" then caseWeather ctx parts
  else if String.eqb tag "-sidestart" then caseSideStart ctx parts
  else if String.eqb tag "-sideend" then caseSideEnd ctx parts
  else if String.eqb tag "-terrain" then caseTerrain ctx parts
  else if String.eqb tag "-message" then caseMessage ctx parts
  else if String.eqb tag "-singleturn" then caseSingleTurn ctx parts
  else if String.eqb tag "-activate" then caseActivate ctx parts
  else if String.eqb tag "-fail" then caseFail ctx parts
  else if String.eqb tag "-miss" then caseMiss ctx parts
  else if String.eqb tag "-immune" then caseImmune ctx parts
  else if String.eqb tag "faint" then caseFaint ctx parts
  else if String.eqb tag "-terastallize" then caseTerastallize ctx parts
  else if String.eqb tag "detailschange" || String.eqb tag "formechange"
  then caseFormeChange ctx parts
  else Ok ctx.

(** One line of the log: the leading delimiter is dropped, an empty line is
    skipped, the rest is split into fields. *)
Definition parseLine (ctx : ParseContext) (rawLine : string) : result ParseContext :=
  let line := if startsWith rawLine "|" then dropChars 1 rawLine else rawLine in
  if negb (nonEmpty line) then Ok ctx
  else parseRecord ctx (split "|" line).

Fixpoint parseLines (ctx : ParseContext) (lines : list string)
  : result ParseContext :=
  match lines with
  | [] => Ok ctx
  | rawLine :: rest => ctx <- parseLine ctx rawLine ;; parseLines ctx rest
  end.

Definition newline : ascii := ascii_of_nat 10.

Definition parseLog (ctx : ParseContext) (log : string) : result ParseContext :=
  parseLines ctx (split newline log).

(** *** Rendering *)

Definition emDash : string :=
  String (ascii_of_nat 226) (String (ascii_of_nat 128) (String (ascii_of_nat 148) "")).

Definition middleDot : string :=
  String (ascii_of_nat 194) (String (ascii_of_nat 183) "").

(** [a || b || c] on strings. *)
Definition firstNonEmpty (xs : list string) (last : string) : string :=
  match filterTruthy xs with
  | x :: _ => x
  | [] => last
  end.

Definition switchExtraInfo (verb : string) : string :=
  if nonEmpty verb && negb (String.eqb verb "switches") then
    match split ";" verb with
    | first :: ((_ :: _) as rest) =>
        if String.eqb (trim first) "switches"
        then "; " ++ join "; " (map trim rest) else ""
    | _ => ""
    end
  else "".

Definition isSelfTarget (action : ActionSummary) : bool :=
  match a_targetRefs action with
  | None | Some [] => true
  | Some [target] =>
      match a_actorRef action with
      | Some actor => String.eqb actor target
      | None => false
      end
  | Some (_ :: _ :: _) => false
  end.

Fixpoint targetIcons (idx : nat) (species : list string)
  (targetDisplayNames : list string) (targetNames : option (list string))
  : list string :=
  match species with
  | [] => []
  | sp :: rest =>
      let displayName :=
        firstNonEmpty
          [orString (nth_error targetDisplayNames idx) "";
           match targetNames with
           | Some names => orString (nth_error names idx) ""
           | None => ""
           end]
          sp in
      iconHTML (Some (iconIdOr sp DEFAULT_ICON_ID)) displayName
      :: targetIcons (S idx) rest targetDisplayNames targetNames
  end.

Definition actionHeadline (action : ActionSummary) : DualFormat :=
  match a_type action with
  | TSwitch =>
      let toText := orString (a_actorName action) "" in
      let currentIcon :=
        if truthy (a_actorIconId action)
        then iconHTML (a_actorIconId action) toText else "" in
      if startsWith (a_verb action) "enters" then
        mkDual (trim (currentIcon ++ a_verb action))
               (trim (toText ++ " " ++ a_verb action))
      else
        let previousIcon :=
          if truthy (a_fromIconId action)
          then iconHTML (a_fromIconId action) (orString (a_fromName action) "Previous")
          else "" in
        let htmlParts :=
          if nonEmpty previousIcon then
            if nonEmpty currentIcon then [previousIcon; "-> " ++ currentIcon]
            else [previousIcon]
          else if nonEmpty currentIcon then [currentIcon] else [] in
        let extraInfo := switchExtraInfo (a_verb action) in
        let html :=
          firstNonEmpty [trim (join " " htmlParts); currentIcon; previousIcon] "Switch"
          ++ extraInfo in
        let fromText :=
          orString (a_fromName action)
            (if truthy (a_fromIconId action) then "Prev" else "") in
        let text :=
          (if nonEmpty fromText && nonEmpty toText
           then fromText ++ " -> " ++ toText
           else firstNonEmpty [toText; fromText] "Switch")
          ++ extraInfo in
        mkDual html text
  | _ =>
      let actorName := orString (a_actorName action) "?" in
      let actorIcon :=
        if truthy (a_actorIconId action)
        then iconHTML (a_actorIconId action) actorName else "" in
      let targetDisplayNames :=
        match a_targetNames action with
        | Some names => if isSelfTarget action then [] else names
        | None => []
        end in
      let targetText := join ", " targetDisplayNames in
      let targetIconHtml :=
        match a_targetSpecies action with
        | Some (sp :: rest) =>
            if isSelfTarget action then ""
            else join " " (targetIcons 0 (sp :: rest) targetDisplayNames
                             (a_targetNames action))
        | _ => ""
        end in
      let htmlSegments :=
        [if nonEmpty actorIcon then actorIcon else actorName]
        +++ [a_verb action]
        +++ (if nonEmpty targetIconHtml then ["-> " ++ targetIconHtml]
             else if nonEmpty targetText then ["-> " ++ targetText]
             else []) in
      let textSegments :=
        [trim (actorName ++ " " ++ a_verb action)]
        +++ (if nonEmpty targetText then ["-> " ++ targetText] else []) in
      mkDual (collapseSpaces (join " " htmlSegments))
             (collapseSpaces (join " " textSegments))
  end.

(** The pattern of a target's icon tag: the text up to the identifier, the
    identifier, ".png" and the closing quote, where a dot stands for any
    character but a line terminator; then anything up to the next ">". *)
Definition iconTagPrefix (targetIconId : string) : string :=
  "<img src=" ++ dq ++ "https://play.pokemonshowdown.com/sprites/gen5/"
  ++ targetIconId ++ ".png" ++ dq.

(** The remainder of [s] when [pat] matches at its start. *)
Fixpoint matchDotted (pat s : string) : option string :=
  match pat, s with
  | EmptyString, _ => Some s
  | String p pt, String c t =>
      if (if Ascii.eqb p "." then negb (isLineTerminator c) else Ascii.eqb p c)
      then matchDotted pt t else None
  | String _ _, EmptyString => None
  end.

(** The number of characters an icon tag takes at the start of [s]. *)
Definition iconTagLength (targetIconId s : string) : option nat :=
  match matchDotted (iconTagPrefix targetIconId) s with
  | Some rest =>
      match dropWhile (fun c => negb (Ascii.eqb c ">")) rest with
      | String _ after => Some (String.length s - String.length after)
      | EmptyString => None
      end
  | None => None
  end.

(** [html.replace(new RegExp(iconPattern, 'g'), "")]; [skip] characters of a
    tag found earlier are still to be dropped. *)
Fixpoint stripIconTags (targetIconId : string) (skip : nat) (s : string) : string :=
  match s with
  | EmptyString => EmptyString
  | String c t =>
      match skip with
      | S k => stripIconTags targetIconId k t
      | O =>
          match iconTagLength targetIconId s with
          | Some n => stripIconTags targetIconId (n - 1) t
          | None => String c (stripIconTags targetIconId 0 t)
          end
      end
  end.

(** The source of the pattern that finds the target's name in the details. *)
Definition namePattern (targetName : string) : string :=
  "(^|[,;]\s*)" ++ targetName ++ "\s+".

Definition isSingleTarget (action : ActionSummary) : bool :=
  match a_type action, a_targetNames action with
  | TMove, Some [_] => negb (includes (a_verb action) "spread")
  | _, _ => false
  end.

(** The separator between the headline of an action and its details. *)
Definition separator (action : ActionSummary) : string :=
  if Nat.ltb 0 (List.length (a_details action)) && isSingleTarget action
  then ", " else " " ++ emDash ++ " ".

(** The details of an action in one piece, before the target is stripped. *)
Definition combinedDetails (action : ActionSummary) : option DualFormat :=
  if isSingleTarget action && Nat.ltb 0 (List.length (a_details action)) then
    if forallb isBoostDetail (a_details action) then
      Some (mkDual (join ", " (filterTruthy (map htmlOrText (a_details action))))
                   (join ", " (filterTruthy (map d_text (a_details action)))))
    else combineDetails (a_details action)
  else combineDetails (a_details action).

Section Rendering.

(** [subject.replace(new RegExp(source, 'g'), replacement)] for a pattern
    assembled at run time: the engine is not part of the repository.  It
    throws a [SyntaxError] when [source] is not a pattern. *)
Variable regExpReplace : string -> string -> string -> result string.

(** For a single-target move the target's icon and name are removed from the
    combined details. *)
Definition stripTarget (action : ActionSummary) (combined : DualFormat)
  : result DualFormat :=
  if isSingleTarget action && Nat.ltb 0 (List.length (a_details action)) then
    let targetSpecies0 :=
      match a_targetSpecies action with
      | Some (sp :: _) => Some sp
      | _ => None
      end in
    let targetIconId :=
      if truthy targetSpecies0 then Some (toIconId targetSpecies0) else None in
    let targetName :=
      match a_targetNames action with
      | Some (name :: _) => name
      | _ => ""
      end in
    let html :=
      if truthy targetIconId
      then trim (stripIconTags (tmpl targetIconId) 0 (d_html combined))
      else d_html combined in
    if nonEmpty targetName then
      text <- regExpReplace (namePattern targetName) "$1" (d_text combined) ;;
      Ok (mkDual html (trim text))
    else Ok (mkDual html (d_text combined))
  else Ok combined.

(** The two renderings of one action, without the indentation. *)
Definition actionLine (action : ActionSummary) : result DualFormat :=
  let headline := actionHeadline action in
  match combinedDetails action with
  | Some combined =>
      combined <- stripTarget action combined ;;
      Ok (mkDual (d_html headline ++ separator action ++ d_html combined)
                 (d_text headline ++ separator action ++ d_text combined))
  | None => Ok headline
  end.

Fixpoint actionLines (actions : list ActionSummary)
  : result (list string * list string) :=
  match actions with
  | [] => Ok ([], [])
  | action :: rest =>
      line <- actionLine action ;;
      '(htmlLines, textLines) <- actionLines rest ;;
      Ok (("<div>&nbsp;&nbsp;" ++ d_html line ++ "</div>") :: htmlLines,
          ("  " ++ d_text line) :: textLines)
  end.

Definition leadEntriesOf (side : Side) (turn : TurnSummary) : list LeadEntry :=
  filter (fun entry => sideEqb (le_side entry) side) (t_leadEntries turn).

Definition formatTurn (ctx : ParseContext) (turn : TurnSummary)
  : result (list string * list string) :=
  let isLead := numEq (t_turn turn) (Num 0) in
  let turnLabel :=
    if isLead then orString (t_label turn) "Lead"
    else "T" ++ numberToString (t_turn turn) in
  let teraEvents :=
    filter (fun e => startsWith e "Terastallize") (t_headerEvents turn) in
  let otherEvents :=
    filter (fun e => negb (startsWith e "Terastallize")) (t_headerEvents turn) in
  let headerSuffix :=
    match otherEvents with
    | [] => ""
    | _ :: _ => " " ++ join "; " otherEvents
    end in
  let header :=
    if isLead then
      let p1Html := join "" (map le_html (leadEntriesOf P1 turn)) in
      let p2Html := join "" (map le_html (leadEntriesOf P2 turn)) in
      let p1Text := join ", " (map le_text (leadEntriesOf P1 turn)) in
      let p2Text := join ", " (map le_text (leadEntriesOf P2 turn)) in
      let vsHtml :=
        if nonEmpty p1Html || nonEmpty p2Html then
          " " ++ p1Html ++ (if nonEmpty p2Html then "&nbsp;vs&nbsp;" ++ p2Html else "")
        else "" in
      let textParts := filterTruthy [p1Text; p2Text] in
      let vsText :=
        match textParts with
        | [] => ""
        | _ :: _ => " " ++ join " vs " textParts
        end in
      mkDual ("<div><strong>" ++ turnLabel ++ "</strong>" ++ vsHtml ++ headerSuffix
              ++ "</div>")
             (trim (turnLabel ++ vsText ++ headerSuffix))
    else
      mkDual ("<div><strong>" ++ turnLabel ++ "</strong>" ++ headerSuffix ++ "</div>")
             (trim (turnLabel ++ headerSuffix)) in
  let teraHtml := map (fun e => "<div>&nbsp;&nbsp;" ++ e ++ "</div>") teraEvents in
  let teraText := map (fun e => "  " ++ e) teraEvents in
  '(actionHtml, actionText) <- actionLines (map (getAction ctx) (t_actions turn)) ;;
  let '(endHtml, endText) :=
    match combineDetails (t_endEvents turn) with
    | Some combined =>
        (["<div>&nbsp;&nbsp;&nbsp;&nbsp;" ++ d_html combined ++ "</div>"],
         ["    " ++ d_text combined])
    | None => ([], [])
    end in
  Ok ([d_html header] +++ teraHtml +++ actionHtml +++ endHtml,
      [d_text header] +++ teraText +++ actionText +++ endText).

(** [winner === p1Id], for a winner identifier that may be undefined. *)
Definition idIs (id : option string) (playerId : string) : bool :=
  match id with
  | Some i => String.eqb i playerId
  | None => false
  end.

Definition teamLine (names : list string) : DualFormat :=
  match names with
  | [] => mkDual "" ""
  | _ :: _ =>
      mkDual
        (join "" (map (fun species =>
                         iconHTML (Some (iconIdOr species DEFAULT_ICON_ID)) species)
                      names))
        (join (" " ++ middleDot ++ " ") names)
  end.

Fixpoint turnBlocks (ctx : ParseContext) (refs : list TurnRef)
  : result (list string * list string) :=
  match refs with
  | [] => Ok ([], [])
  | r :: rest =>
      let turn := getTurn ctx r in
      if numEq (t_turn turn) (Num 0) then turnBlocks ctx rest
      else if Nat.eqb (List.length (t_actions turn)) 0
              && Nat.eqb (List.length (t_headerEvents turn)) 0
              && Nat.eqb (List.length (t_leadEntries turn)) 0
      then turnBlocks ctx rest
      else
        '(html, text) <- formatTurn ctx turn ;;
        '(htmlRest, textRest) <- turnBlocks ctx rest ;;
        Ok (html +++ htmlRest, text +++ textRest)
  end.

Definition renderSummary (ctx : ParseContext) : result DualFormat :=
  let p1 := p1 (players ctx) in
  let p2 := p2 (players ctx) in
  let p1Id := toId (Some p1) in
  let p2Id := toId (Some p2) in
  let winnerId := if truthy (winner ctx) then Some (toId (winner ctx)) else None in
  let loserId := if truthy (loser ctx) then Some (toId (loser ctx)) else None in
  let inferredLoserId :=
    if negb (truthy loserId) && truthy winnerId
    then Some (if idIs winnerId p1Id then p2Id else p1Id)
    else loserId in
  let p1Tag :=
    if idIs winnerId p1Id then "[W] "
    else if idIs inferredLoserId p1Id then "[L] " else "" in
  let p2Tag :=
    if idIs winnerId p2Id then "[W] "
    else if idIs inferredLoserId p2Id then "[L] " else "" in
  let note :=
    if truthy (resultNote ctx) then " (" ++ tmpl (resultNote ctx) ++ ")" else "" in
  let format :=
    if truthy (formatName ctx)
    then " " ++ emDash ++ " " ++ tmpl (formatName ctx) else "" in
  let headerHtml :=
    "<div><strong>" ++ p1Tag ++ p1 ++ "</strong> vs <strong>" ++ p2Tag ++ p2
    ++ "</strong>" ++ format ++ note ++ "</div>" in
  let headerText := p1Tag ++ p1 ++ " vs " ++ p2Tag ++ p2 ++ format ++ note in
  let p1Team := teamLine (team_p1 (teams ctx)) in
  let p2Team := teamLine (team_p2 (teams ctx)) in
  let teamHtml :=
    if nonEmpty (d_html p1Team) || nonEmpty (d_html p2Team)
    then ["<div>" ++ d_html p1Team ++ "&nbsp;&nbsp;vs&nbsp;&nbsp;" ++ d_html p2Team
          ++ "</div>"]
    else [] in
  let teamText :=
    if nonEmpty (d_html p1Team) || nonEmpty (d_html p2Team)
    then [d_text p1Team ++ " vs " ++ d_text p2Team] else [] in
  let leadTurn :=
    find (fun t => numEq (t_turn t) (Num 0)) (map (getTurn ctx) (turns ctx)) in
  let '(leadHtml, leadText) :=
    match leadTurn with
    | Some leadTurn =>
        match t_leadEntries leadTurn with
        | [] => ([], [])
        | _ :: _ =>
            let p1LeadsHtml := join "" (map le_html (leadEntriesOf P1 leadTurn)) in
            let p2LeadsHtml := join "" (map le_html (leadEntriesOf P2 leadTurn)) in
            let p1LeadsText := join ", " (map le_text (leadEntriesOf P1 leadTurn)) in
            let p2LeadsText := join ", " (map le_text (leadEntriesOf P2 leadTurn)) in
            let shown := nonEmpty p1LeadsHtml || nonEmpty p2LeadsHtml in
            ((if shown
              then ["<div>" ++ p1LeadsHtml ++ "&nbsp;&nbsp;vs&nbsp;&nbsp;"
                    ++ p2LeadsHtml ++ "</div>"]
              else [])
             +++ map (fun event => "<div>" ++ event ++ "</div>")
                   (t_headerEvents leadTurn),
             (if shown then [p1LeadsText ++ " vs " ++ p2LeadsText] else [])
             +++ t_headerEvents leadTurn)
        end
    | None => ([], [])
    end in
  '(turnHtml, turnText) <- turnBlocks ctx (turns ctx) ;;
  let winnerLine :=
    if truthy (winner ctx) then [tmpl (winner ctx) ++ " Wins"] else [] in
  Ok (mkDual (join (String newline "")
                ([headerHtml] +++ teamHtml +++ leadHtml +++ turnHtml))
             (join (String newline "")
                ([headerText] +++ teamText +++ leadText +++ turnText +++ winnerLine))).

End Rendering.

Definition resolveLoser (ctx : ParseContext) : option string :=
  if negb (truthy (loser ctx)) && negb (truthy (winner ctx)) then None
  else
    let p1Id := toId (Some (p1 (players ctx))) in
    let p2Id := toId (Some (p2 (players ctx))) in
    let loserId := if truthy (loser ctx) then Some (toId (loser ctx)) else None in
    if negb (truthy loserId) && truthy (winner ctx) then
      let winnerId := toId (winner ctx) in
      if String.eqb winnerId p1Id then Some (p2 (players ctx))
      else Some (p1 (players ctx))
    else if idIs loserId p1Id then Some (p1 (players ctx))
    else if idIs loserId p2Id then Some (p2 (players ctx))
    else loser ctx.

(** *** The entry point *)

Record ReplayJSON : Type := mkReplay {
  rj_id : option string;
  rj_format : option string;
  rj_log : option string;
  rj_players : option (list string);
  rj_rating : option Z
}.

Record Meta : Type := mkMeta {
  m_id : option string;
  m_format : option string;
  m_players : PlayerMap;
  m_winner : option string;
  m_loser : option string;
  m_resultNote : option string
}.

Record SummarizedReplay : Type := mkSummary {
  s_html : string;
  s_text : string;
  s_meta : Meta
}.

Definition playerName (data : ReplayJSON) (i : nat) (fallback : string) : string :=
  match rj_players data with
  | Some names => orString (nth_error names i) fallback
  | None => fallback
  end.

Definition parseReplayData
  (regExpReplace : string -> string -> string -> result string)
  (data : ReplayJSON) : result SummarizedReplay :=
  if negb (truthy (rj_log data))
  then Throw (Error "Replay JSON did not include a log field.")
  else
    let ctx := createInitialContext in
    let ctx :=
      set_players (mkPlayers (playerName data 0 "Player 1")
                     (playerName data 1 "Player 2") []) ctx in
    let ctx := set_formatName (rj_format data) ctx in
    ctx <- parseLog ctx (tmpl (rj_log data)) ;;
    rendered <- renderSummary regExpReplace ctx ;;
    Ok (mkSummary (d_html rendered) (d_text rendered)
          (mkMeta (rj_id data) (formatName ctx) (players ctx) (winner ctx)
             (resolveLoser ctx) (resultNote ctx))).

(** *** An engine for literal names

    [literalNameReplace] is the engine on the one pattern shape [formatTurn]
    builds, for a name that is literal text: letters, digits, spaces and
    hyphens, not starting with a space.  Any other pattern source is outside
    it and is reported as a [SyntaxError], so it stands for the real engine
    only on runs whose target names are literal. *)

Definition isLiteralName (name : string) : bool :=
  allChars (fun c => isAlnum c || Ascii.eqb c " " || Ascii.eqb c "-") name
  && match name with
     | String c _ => negb (Ascii.eqb c " ")
     | EmptyString => false
     end.

(** The remainder of [s] after [name] and the white space behind it. *)
Definition nameThenSpaces (name s : string) : option string :=
  if prefix name s then
    let rest := dropChars (String.length name) s in
    if nonEmpty (takeWhile isSpace rest) then Some (dropWhile isSpace rest) else None
  else None.

(** Every match of the name pattern replaced by its first group: nothing at
    the start of the input, else the separator and the white space after it. *)
Fixpoint replaceNames (fuel : nat) (name : string) (atStart : bool) (s : string)
  : string :=
  match fuel with
  | O => s
  | S k =>
      match (if atStart then nameThenSpaces name s else None) with
      | Some rest => replaceNames k name false rest
      | None =>
          match s with
          | EmptyString => EmptyString
          | String c t =>
              if Ascii.eqb c "," || Ascii.eqb c ";" then
                match nameThenSpaces name (dropWhile isSpace t) with
                | Some rest =>
                    String c (takeWhile isSpace t) ++ replaceNames k name false rest
                | None => String c (replaceNames k name false t)
                end
              else String c (replaceNames k name false t)
          end
      end
  end.

Definition literalNameReplace (source replacement subject : string) : result string :=
  let name := substring 11 (String.length source - 14) source in
  if String.eqb source (namePattern name) && isLiteralName name
     && String.eqb replacement "$1"
  then Ok (replaceNames (S (String.length subject)) name true subject)
  else Throw SyntaxError.

(** *** Runs of the parser *)

(** The context [parseReplayData] hands to [parseLog]. *)
Definition startContext (names : PlayerMap) (format : option string)
  : ParseContext :=
  set_formatName format (set_players names createInitialContext).

(** The contexts a fold passes through, one per line, up to the first line
    that throws. *)
Fixpoint trace (ctx : ParseContext) (lines : list string) : list ParseContext :=
  match lines with
  | [] => []
  | rawLine :: rest =>
      match parseLine ctx rawLine with
      | Ok ctx' => ctx' :: trace ctx' rest
      | Throw _ => []
      end
  end.

(** The tag of a line, when the line holds a record. *)
Definition recordTag (rawLine : string) : option string :=
  let line := if startsWith rawLine "|" then dropChars 1 rawLine else rawLine in
  if nonEmpty line then part (split "|" line) 0 else None.

(** The contexts a run can be in: the one it starts with, and the one any
    record leaves that was processed without an exception. *)
Inductive reachable : ParseContext -> Prop :=
| reach_start (names : PlayerMap) (format : option string) :
    reachable (startContext names format)
| reach_record (c : ParseContext) (parts : list string) (c' : ParseContext) :
    reachable c -> parseRecord c parts = Ok c' -> reachable c'.

Fixpoint lastOf {A : Type} (xs : list A) : option A :=
  match xs with
  | [] => None
  | x :: r =>
      match r with
      | [] => Some x
      | _ :: _ => lastOf r
      end
  end.

(** [ctx.currentTurn] is the turn appended last, and it is an object of the
    store. *)
Definition currentTurnIsLast (ctx : ParseContext) : Prop :=
  lastOf (turns ctx) = Some (currentTurn ctx)
  /\ currentTurn ctx < List.length (turnStore ctx).

(** What a handler that only records events leaves as it was: the list of
    turns, the current turn, the lead phase, the turn objects' numbers and
    their lead entries. *)
Record eventsOnly (c c' : ParseContext) : Prop := mkEventsOnly {
  eo_turns : turns c' = turns c;
  eo_current : currentTurn c' = currentTurn c;
  eo_lead : leadPhase c' = leadPhase c;
  eo_store : List.length (turnStore c') = List.length (turnStore c);
  eo_number : forall r, t_turn (getTurn c' r) = t_turn (getTurn c r);
  eo_entries : forall r, t_leadEntries (getTurn c' r) = t_leadEntries (getTurn c r)
}.

(** The same, with the lead entries kept only outside the lead phase. *)
Record sameTurns (c c' : ParseContext) : Prop := mkSameTurns {
  st_turns : turns c' = turns c;
  st_current : currentTurn c' = currentTurn c;
  st_lead : leadPhase c' = leadPhase c;
  st_store : List.length (turnStore c') = List.length (turnStore c);
  st_number : forall r, t_turn (getTurn c' r) = t_turn (getTurn c r);
  st_entries : leadPhase c = false ->
               forall r, t_leadEntries (getTurn c' r) = t_leadEntries (getTurn c r)
}.

(** Turn 0, the lead turn, is the first turn of the list and the first object
    of the store. *)
Definition leadTurnExists (ctx : ParseContext) : Prop :=
  nth_error (turns ctx) 0 = Some 0
  /\ 0 < List.length (turnStore ctx)
  /\ t_turn (getTurn ctx 0) = Num 0.

(** Every registered pokemon has an icon identifier. *)
Definition iconsDefined (ctx : ParseContext) : Prop :=
  forall ref mon, pokemonGet ctx ref = Some mon -> nonEmpty (mon_iconId mon) = true.

(** What a step that only touches the registry of pokemon and the rosters
    leaves as it was. *)
Record registryOnly (c c' : ParseContext) : Prop := mkRegistryOnly {
  ro_turnStore : turnStore c' = turnStore c;
  ro_turns : turns c' = turns c;
  ro_currentTurn : currentTurn c' = currentTurn c;
  ro_actionStore : actionStore c' = actionStore c;
  ro_currentAction : currentAction c' = currentAction c;
  ro_leadPhase : leadPhase c' = leadPhase c;
  ro_pendingFieldEnds : pendingFieldEnds c' = pendingFieldEnds c;
  ro_pendingAbilityBoost : pendingAbilityBoost c' = pendingAbilityBoost c
}.

(** The line a flush of the pending field ends puts into the end events. *)
Definition fieldEndLine (ctx : ParseContext) : list DetailEntry :=
  match pendingFieldEnds ctx with
  | [] => []
  | _ :: _ =>
      [makeDetail (join "; " (map (fun e => e ++ " ends") (pendingFieldEnds ctx)))
         None]
  end.

(** The HP a pokemon was last displayed with. *)
Definition lastDisplayHP (ctx : ParseContext) (ref : string) : option string :=
  match pokemonGet ctx ref with
  | Some mon => mon_lastDisplayHP mon
  | None => None
  end.

(** The context after a record, or the same context when the record throws. *)
Definition afterRecord (ctx : ParseContext) (parts : list string) : ParseContext :=
  match parseRecord ctx parts with
  | Ok ctx' => ctx'
  | Throw _ => ctx
  end.

(** The characters a tag can have when the bracket pattern is to stop at the
    first closing bracket. *)
Definition tagChar (c : ascii) : bool :=
  negb (Ascii.eqb c "]") && negb (isLineTerminator c).

Definition noLineTerminator (s : string) : bool :=
  allChars (fun c => negb (isLineTerminator c)) s.

(** What one record does to the turns; [isTurn] says the record is a turn
    record. *)
Record recordStep (c : ParseContext) (isTurn : Prop) (c' : ParseContext)
  : Prop := mkRecordStep {
  rs_last : currentTurnIsLast c -> currentTurnIsLast c';
  rs_zero : leadTurnExists c -> leadTurnExists c';
  rs_lead : leadPhase c = false -> leadPhase c' = false;
  rs_turn : isTurn -> leadPhase c' = false;
  rs_entries :
    leadPhase c = false \/ isTurn ->
    forall r, r < List.length (turnStore c) ->
              t_leadEntries (getTurn c' r) = t_leadEntries (getTurn c r);
  rs_store : List.length (turnStore c) <= List.length (turnStore c')
}.

(** What stays when only events and details are recorded. *)
Record noNewAction (c c' : ParseContext) : Prop := mkNoNewAction {
  na_currentTurn : currentTurn c' = currentTurn c;
  na_turnStore : List.length (turnStore c') = List.length (turnStore c);
  na_actions : forall r, t_actions (getTurn c' r) = t_actions (getTurn c r);
  na_actionStore : List.length (actionStore c') = List.length (actionStore c);
  na_currentAction : currentAction c' = currentAction c
}.

End Parser.

(** ** Battles used as examples *)
Module Scenarios.
Import Js Utils Icons Parser.

(** A short battle: two leads, one turn with a damaging single-target move. *)
Definition thunderboltLog : list string :=
  [ "|player|p1|Ash"; "|player|p2|Misty";
    "|switch|p1a: Pikachu|Pikachu, L50|100/100";
    "|switch|p2a: Squirtle|Squirtle, L50|100/100";
    "|turn|1";
    "|move|p1a: Pikachu|Thunderbolt|p2a: Squirtle";
    "|-damage|p2a: Squirtle|50/100";
    "|turn|2"; "|win|Ash" ].

Definition thunderboltReplay : ReplayJSON :=
  mkReplay (Some "gen9-1") None (Some (join (String newline "") thunderboltLog))
    (Some ["Ash"; "Misty"]) None.

(** The move action of [thunderboltLog], as [parseLog] leaves it. *)
Definition thunderboltAction : ActionSummary :=
  match parseLines createInitialContext thunderboltLog with
  | Ok ctx => getAction ctx 0
  | Throw _ => emptyAction
  end.

(** Ash has won and no loser was recorded. *)
Definition ashWins : ParseContext :=
  set_winner (Some "Ash")
    (set_players (mkPlayers "Ash" "Misty" []) createInitialContext).

(** Both leads are in and turn 1 has begun. *)
Definition turnOne : ParseContext :=
  afterRecord
    (afterRecord
       (afterRecord (startContext (mkPlayers "Ash" "Misty" []) None)
          ["switch"; "p1a: Pikachu"; "Pikachu, L50"; "100/100"])
       ["switch"; "p2a: Squirtle"; "Squirtle, L50"; "100/100"])
    ["turn"; "1"].

Definition uturnMove : list string :=
  ["move"; "p2a: Squirtle"; "U-turn"; "p1a: Pikachu"].

(** The switch U-turn forces, annotated with the move. *)
Definition uturnSwitch : list string :=
  ["switch"; "p2a: Blastoise"; "Blastoise, L50"; "100/100"; "[from] U-turn"].

(** The same switch, with an annotation that names a pokemon only. *)
Definition ofSwitch : list string :=
  ["switch"; "p2a: Blastoise"; "Blastoise, L50"; "100/100"; "[of] p1a: Pikachu"].

Definition afterUturn : ParseContext := afterRecord turnOne uturnMove.

(** Trick Room has just ended, which is still pending, when poison hurts. *)
Definition trickRoomEnding : ParseContext :=
  afterRecord afterUturn ["-fieldend"; "move: Trick Room"].

Definition poisonDamage : list string :=
  ["-damage"; "p1a: Pikachu"; "88/100 psn"; "[from] psn"].

End Scenarios.

(** ** Shapes of strings and contexts that the properties speak about *)
Module Shapes.
Import Js Utils Icons Parser.

(** The characters of an identifier, and of an icon identifier. *)
Definition idChar (c : ascii) : bool := isLower c || isDigit c.
Definition iconChar (c : ascii) : bool := idChar c || Ascii.eqb c "-".

(** A string without the character [c]. *)
Definition without (c : ascii) (s : string) : bool :=
  allChars (fun x => negb (Ascii.eqb x c)) s.

(** A token of an HP/status string: not empty and free of white space. *)
Definition isToken (s : string) : bool :=
  nonEmpty s && allChars (fun c => negb (isSpace c)) s.

(** The tags [parseLog] has a case for. *)
Definition handledTags : list string :=
  [ "player"; "gen"; "tier"; "format"; "win"; "l"; "turn"; "poke";
    "switch"; "drag"; "replace"; "move"; "cant"; "-damage"; "-heal";
    "-boost"; "-unboost"; "-status"; "-curestatus"; "-ability"; "-item";
    "-enditem"; "-fieldstart"; "-fieldend"; "-weather"; "-sidestart";
    "-sideend"; "-terrain"; "-message"; "-singleturn"; "-activate"; "-fail";
    "-miss"; "-immune"; "faint"; "-terastallize"; "detailschange";
    "formechange" ].

(** The tags of the records that write the metadata of a battle. *)
Definition metadataTags : list string :=
  ["player"; "gen"; "tier"; "format"; "win"; "l"; "-message"].

(** The metadata of two contexts is the same: the players, the format, the
    winner, the loser and the note on the result. *)
Record sameMeta (c c' : ParseContext) : Prop := mkSameMeta {
  sm_players : players c' = players c;
  sm_formatName : formatName c' = formatName c;
  sm_winner : winner c' = winner c;
  sm_loser : loser c' = loser c;
  sm_resultNote : resultNote c' = resultNote c
}.

(** One list continues another. *)
Definition isPrefix {A : Type} (xs ys : list A) : Prop :=
  exists more, ys = xs +++ more.

(** A turn object that has only grown: the same number and label, and each
    of its lists continued. *)
Record turnGrows (t t' : TurnSummary) : Prop := mkTurnGrows {
  tg_turn : t_turn t' = t_turn t;
  tg_label : t_label t' = t_label t;
  tg_headerEvents : isPrefix (t_headerEvents t) (t_headerEvents t');
  tg_actions : isPrefix (t_actions t) (t_actions t');
  tg_endEvents : isPrefix (t_endEvents t) (t_endEvents t');
  tg_leadEntries : isPrefix (t_leadEntries t) (t_leadEntries t')
}.

(** An action object that is still the same action: its type, its actor,
    its side, its targets and where it switched from. *)
Record actionKept (a a' : ActionSummary) : Prop := mkActionKept {
  ak_type : a_type a' = a_type a;
  ak_actorRef : a_actorRef a' = a_actorRef a;
  ak_actorName : a_actorName a' = a_actorName a;
  ak_actorSpecies : a_actorSpecies a' = a_actorSpecies a;
  ak_actorIconId : a_actorIconId a' = a_actorIconId a;
  ak_side : a_side a' = a_side a;
  ak_targetRefs : a_targetRefs a' = a_targetRefs a;
  ak_targetSpecies : a_targetSpecies a' = a_targetSpecies a;
  ak_fromIconId : a_fromIconId a' = a_fromIconId a;
  ak_fromName : a_fromName a' = a_fromName a
}.

(** Nothing recorded is taken back: the list of turns is continued, every
    turn object has only grown, and every action object is still the same
    action. *)
Record appendOnly (c c' : ParseContext) : Prop := mkAppendOnly {
  ao_turns : isPrefix (turns c) (turns c');
  ao_turnStore : List.length (turnStore c) <= List.length (turnStore c');
  ao_turn : forall r, r < List.length (turnStore c) ->
                      turnGrows (getTurn c r) (getTurn c' r);
  ao_actionStore : List.length (actionStore c) <= List.length (actionStore c');
  ao_action : forall r, r < List.length (actionStore c) ->
                        actionKept (getAction c r) (getAction c' r)
}.

(** A registry entry in good order: it is filed under its own reference, on
    the side the reference names, and its icon identifier is a non-empty
    string of lower-case letters, digits and hyphens. *)
Definition monWellFormed (ref : string) (mon : PokemonState) : Prop :=
  mon_ref mon = ref /\ mon_side mon = resolveSide ref
  /\ nonEmpty (mon_iconId mon) = true
  /\ allChars iconChar (mon_iconId mon) = true.

Definition registryWellFormed (ctx : ParseContext) : Prop :=
  forall ref mon, pokemonGet ctx ref = Some mon -> monWellFormed ref mon.

(** A roster in good order: no species twice, none with an empty
    identifier. *)
Definition rosterWellFormed (names : list string) : Prop :=
  NoDup names /\ Forall (fun n => nonEmpty (toId (Some n)) = true) names.

(** The rosters and the sets that guard them go together. *)
Definition teamsWellFormed (tm : Teams) : Prop :=
  team_p1Set tm = team_p1 tm /\ team_p2Set tm = team_p2 tm
  /\ rosterWellFormed (team_p1 tm) /\ rosterWellFormed (team_p2 tm).

Definition wellFormed (ctx : ParseContext) : Prop :=
  registryWellFormed ctx /\ teamsWellFormed (teams ctx).

(** Squirtle as the registry has it after the leads and a move. *)
Definition squirtle : PokemonState :=
  match pokemonGet Scenarios.afterUturn "p2a" with
  | Some mon => mon
  | None => mkPokemon "" P1 None "" "" None None None
  end.

(** The first lead is in, the second is still to come. *)
Definition leadsOpen : ParseContext :=
  afterRecord (startContext (mkPlayers "Ash" "Misty" []) None)
    ["switch"; "p1a: Pikachu"; "Pikachu, L50"; "100/100"].

(** The context at the end of the short battle. *)
Definition thunderboltEnd : ParseContext :=
  match parseLines createInitialContext Scenarios.thunderboltLog with
  | Ok ctx => ctx
  | Throw _ => createInitialContext
  end.

(** The summary of the context in which Ash has won. *)
Definition ashSummary : DualFormat :=
  match renderSummary literalNameReplace Scenarios.ashWins with
  | Ok d => d
  | Throw _ => mkDual "" ""
  end.

(** A character of the ASCII range. *)
Definition isAscii (c : ascii) : bool := Nat.ltb (code c) 128.

(** The reference [ref] has an entry in the registry. *)
Definition registered (ref : string) (ctx : ParseContext) : Prop :=
  exists mon, pokemonGet ctx ref = Some mon.

(** Parting Shot lowers two stats of its target and then forces a switch. *)
Definition partingShotMove : list string :=
  ["move"; "p2a: Squirtle"; "Parting Shot"; "p1a: Pikachu"].

Definition partingShotDrops : list string :=
  ["|-unboost|p1a: Pikachu|atk|1"; "|-unboost|p1a: Pikachu|spa|1"].

Definition partingShotSwitch : list string :=
  ["switch"; "p2a: Blastoise"; "Blastoise, L50"; "100/100"; "[from] Parting Shot"].

Definition afterPartingShot : ParseContext :=
  afterRecord Scenarios.turnOne partingShotMove.

Definition afterDrops : ParseContext :=
  match parseLines afterPartingShot partingShotDrops with
  | Ok ctx => ctx
  | Throw _ => afterPartingShot
  end.

(** [out] is a piece of [s]: some text, then [out], then some text. *)
Definition within (out s : string) : Prop :=
  exists pre post, s = pre ++ out ++ post.

End Shapes.

(** * Facts about the string primitives *)
Module JsFacts.
Import Js.

Lemma dropWhile_app_all (p : ascii -> bool) (pre s : string) :
  allChars p pre = true -> dropWhile p (pre ++ s) = dropWhile p s.
Proof.
  induction pre as [|c t IH]; simpl; intros H; [reflexivity|].
  apply andb_true_iff in H as [Hc Ht]. rewrite Hc. auto.
Qed.

Lemma dropWhile_idem (p : ascii -> bool) (s : string) :
  dropWhile p (dropWhile p s) = dropWhile p s.
Proof.
  induction s as [|c t IH]; simpl; [reflexivity|].
  destruct (p c) eqn:E; [assumption|]. simpl. now rewrite E.
Qed.

Lemma allChars_dropWhile (p q : ascii -> bool) (s : string) :
  allChars p s = true -> allChars p (dropWhile q s) = true.
Proof.
  induction s as [|c t IH]; simpl; intros H; [reflexivity|].
  apply andb_true_iff in H as [Hc Ht].
  destruct (q c); [auto|]. simpl. now rewrite Hc, Ht.
Qed.

Lemma string_of_list_ascii_app (l1 l2 : list ascii) :
  string_of_list_ascii (l1 ++ l2)%list
  = string_of_list_ascii l1 ++ string_of_list_ascii l2.
Proof. induction l1 as [|c t IH]; simpl; [reflexivity|]. now rewrite IH. Qed.

Lemma list_ascii_of_string_app (s1 s2 : string) :
  list_ascii_of_string (s1 ++ s2)
  = (list_ascii_of_string s1 ++ list_ascii_of_string s2)%list.
Proof. induction s1 as [|c t IH]; simpl; [reflexivity|]. now rewrite IH. Qed.

Lemma reverse_cons (c : ascii) (s : string) :
  reverse (String c s) = reverse s ++ String c "".
Proof. unfold reverse. simpl. now rewrite string_of_list_ascii_app. Qed.

Lemma reverse_app (s1 s2 : string) : reverse (s1 ++ s2) = reverse s2 ++ reverse s1.
Proof.
  unfold reverse.
  now rewrite list_ascii_of_string_app, rev_app_distr, string_of_list_ascii_app.
Qed.

Lemma reverse_involutive (s : string) : reverse (reverse s) = s.
Proof.
  unfold reverse.
  now rewrite list_ascii_of_string_of_list_ascii, rev_involutive,
    string_of_list_ascii_of_string.
Qed.

Lemma allChars_app (p : ascii -> bool) (s1 s2 : string) :
  allChars p (s1 ++ s2) = allChars p s1 && allChars p s2.
Proof.
  induction s1 as [|c t IH]; simpl; [reflexivity|].
  now rewrite IH, andb_assoc.
Qed.

Lemma allChars_reverse (p : ascii -> bool) (s : string) :
  allChars p (reverse s) = allChars p s.
Proof.
  induction s as [|c t IH]; [reflexivity|].
  rewrite reverse_cons, allChars_app, IH. simpl.
  rewrite andb_true_r. apply andb_comm.
Qed.

(** A string that starts and ends with characters other than white space is
    its own trim. *)
Lemma trimStart_nonspace (c : ascii) (s : string) :
  isSpace c = false -> trimStart (String c s) = String c s.
Proof. intros H. unfold trimStart. simpl. now rewrite H. Qed.

Lemma trimStart_app_spaces (pre s : string) :
  allChars isSpace pre = true -> trimStart (pre ++ s) = trimStart s.
Proof. apply dropWhile_app_all. Qed.

Lemma trimEnd_app_spaces (s post : string) :
  allChars isSpace post = true -> trimEnd (s ++ post) = trimEnd s.
Proof.
  intros H. unfold trimEnd. rewrite reverse_app.
  rewrite dropWhile_app_all; [reflexivity|]. now rewrite allChars_reverse.
Qed.

Lemma dropWhile_all (p : ascii -> bool) (s : string) :
  allChars p s = true -> dropWhile p s = "".
Proof.
  induction s as [|c t IH]; simpl; intros H; [reflexivity|].
  apply andb_true_iff in H as [-> Ht]. auto.
Qed.

Lemma dropWhile_app (p : ascii -> bool) (s t : string) :
  dropWhile p (s ++ t)
  = if allChars p s then dropWhile p t else dropWhile p s ++ t.
Proof.
  induction s as [|c r IH]; simpl; [reflexivity|].
  destruct (p c); simpl; [assumption|reflexivity].
Qed.

Lemma trim_app_spaces (pre s post : string) :
  allChars isSpace pre = true -> allChars isSpace post = true ->
  trim (pre ++ s ++ post) = trim s.
Proof.
  intros Hpre Hpost. unfold trim.
  rewrite trimStart_app_spaces by assumption.
  unfold trimStart. rewrite dropWhile_app.
  destruct (allChars isSpace s) eqn:Hs.
  - now rewrite (dropWhile_all _ post), (dropWhile_all _ s).
  - now apply trimEnd_app_spaces.
Qed.

Lemma trim_nonspace_nonEmpty (c : ascii) (s : string) :
  isSpace c = false -> nonEmpty (trim (String c s)) = true.
Proof.
  intros H. unfold trim. rewrite trimStart_nonspace by assumption.
  unfold trimEnd. rewrite reverse_cons.
  destruct (dropWhile isSpace (reverse s ++ String c "")) eqn:E.
  - exfalso. revert E. generalize (reverse s). intros r.
    induction r as [|d t IH]; simpl.
    + now rewrite H.
    + destruct (isSpace d); [assumption|discriminate].
  - rewrite reverse_cons. destruct (reverse s0); reflexivity.
Qed.

Lemma substring_app_prefix (p s : string) :
  substring 0 (String.length p) (p ++ s) = p.
Proof. induction p as [|c t IH]; simpl; [now destruct s|]. now rewrite IH. Qed.

Lemma substring_whole (s : string) : substring 0 (String.length s) s = s.
Proof. induction s as [|c t IH]; simpl; [reflexivity|]. now rewrite IH. Qed.

Lemma dropChars_app (p s : string) : dropChars (String.length p) (p ++ s) = s.
Proof.
  unfold dropChars. induction p as [|c t IH]; simpl.
  - rewrite Nat.sub_0_r. apply substring_whole.
  - assumption.
Qed.

Lemma prefix_refl (s : string) : prefix s s = true.
Proof. apply prefix_correct, substring_whole. Qed.

Lemma mapChars_length (f : ascii -> ascii) (s : string) :
  String.length (mapChars f s) = String.length s.
Proof. induction s as [|c t IH]; simpl; [reflexivity|]. now rewrite IH. Qed.

(** A prefix that equals [p] up to case is one under the [i] flag. *)
Lemma startsWithCI_app (p' p s : string) :
  toLowerCase p' = toLowerCase p -> startsWithCI (p' ++ s) p = true.
Proof.
  intros H. unfold startsWithCI.
  assert (Hlen : String.length p = String.length p').
  { unfold toLowerCase in H.
    now rewrite <- (mapChars_length toLowerChar p), <- H, mapChars_length. }
  rewrite Hlen, substring_app_prefix, H. apply prefix_refl.
Qed.

End JsFacts.

(** * src/lib/utils.ts: properties *)
Module UtilsFacts.
Import Js Utils Parser JsFacts.

(** C7. Formatting the parse of "48/100 psn" gives "48% PSN", and formatting
    the parse of "0 fnt" gives "KO". *)
Theorem hp_status_display :
  formatHPStatus (parseHPStatus "48/100 psn") = "48% PSN"
  /\ formatHPStatus (parseHPStatus "0 fnt") = "KO"
  /\ parseHPStatus "48/100 psn"
     = mkHPStatus "48/100 psn" (Some "48/100") (Some "psn") false
  /\ parseHPStatus "0 fnt" = mkHPStatus "0 fnt" (Some "0/100") None true.
Proof.
  assert (H1 : parseHPStatus "48/100 psn"
               = mkHPStatus "48/100 psn" (Some "48/100") (Some "psn") false)
    by reflexivity.
  assert (H2 : parseHPStatus "0 fnt" = mkHPStatus "0 fnt" (Some "0/100") None true)
    by reflexivity.
  rewrite H1, H2. repeat split.
Qed.

(** A lone "0" surrounded by any white space tokenizes to the single token
    "0". *)
Lemma hpTokens_lone_zero (pre post : string) :
  allChars isSpace pre = true -> allChars isSpace post = true ->
  hpTokens (pre ++ "0" ++ post) = ["0"].
Proof.
  intros Hpre Hpost. unfold hpTokens.
  now rewrite trim_app_spaces by assumption.
Qed.

(** C10. When the only token of an HP/status string is "0", the parse is
    marked fainted, its hp is normalized to "0/100", and it displays as
    "KO". *)
Theorem parseHPStatus_lone_zero (raw : string) :
  hpTokens raw = ["0"] ->
  hs_fainted (parseHPStatus raw) = true
  /\ hs_hp (parseHPStatus raw) = Some "0/100"
  /\ hs_status (parseHPStatus raw) = None
  /\ formatHPStatus (parseHPStatus raw) = "KO".
Proof.
  intros H. unfold formatHPStatus, parseHPStatus. rewrite H. simpl.
  repeat split.
Qed.

Lemma parseHPStatus_lone_zero_witness :
  hs_fainted (parseHPStatus " 0 ") = true
  /\ hs_hp (parseHPStatus " 0 ") = Some "0/100"
  /\ hs_status (parseHPStatus " 0 ") = None
  /\ formatHPStatus (parseHPStatus " 0 ") = "KO".
Proof. exact (parseHPStatus_lone_zero " 0 " eq_refl). Defined.

(** ** The annotation table *)

Lemma bracketTail_gap (gap content : string) :
  allChars isSpace gap = true -> noLineTerminator content = true ->
  bracketTail (gap ++ content) = true.
Proof.
  intros Hgap Hc. unfold bracketTail.
  rewrite dropWhile_app_all by assumption.
  now apply allChars_dropWhile.
Qed.

Lemma bracketTag_closes (tag t : string) :
  allChars tagChar tag = true -> bracketTail t = true ->
  bracketTag (tag ++ String "]" t) = Some (tag, dropWhile isSpace t).
Proof.
  intros Htag Ht. induction tag as [|c r IH]; simpl.
  - now rewrite Ht.
  - simpl in Htag. apply andb_true_iff in Htag as [Hc Hr].
    unfold tagChar in Hc. apply andb_true_iff in Hc as [Hb Hl].
    apply negb_true_iff in Hb, Hl. rewrite Hb, Hl. simpl.
    now rewrite IH.
Qed.

(** A bracketed segment whose tag has no closing bracket splits into that
    tag and the text after the gap. *)
Lemma bracketMatch_segment (tag gap content : string) :
  nonEmpty tag = true -> allChars tagChar tag = true ->
  allChars isSpace gap = true -> noLineTerminator content = true ->
  bracketMatch ("[" ++ tag ++ "]" ++ gap ++ content)
  = Some (tag, dropWhile isSpace content).
Proof.
  intros Hne Htag Hgap Hc.
  destruct tag as [|c r]; [discriminate|].
  simpl in Htag. apply andb_true_iff in Htag as [Hc0 Hr].
  unfold tagChar in Hc0. apply andb_true_iff in Hc0 as [_ Hl].
  apply negb_true_iff in Hl.
  cbn [append bracketMatch]. rewrite Hl.
  change ("]" ++ gap ++ content) with (String "]" (gap ++ content)).
  rewrite bracketTag_closes; auto using bracketTail_gap.
  now rewrite dropWhile_app_all.
Qed.

Lemma trim_dropWhile (s : string) : trim (dropWhile isSpace s) = trim s.
Proof. unfold trim, trimStart. now rewrite dropWhile_idem. Qed.

(** The source prefix is dropped whatever its case, with the white space
    behind it. *)
Lemma stripSourcePrefix_kind (kind rest : string) :
  toLowerCase kind = "ability:" \/ toLowerCase kind = "item:"
  \/ toLowerCase kind = "move:" ->
  stripSourcePrefix (kind ++ rest) = dropWhile isSpace rest.
Proof.
  intros H. unfold stripSourcePrefix.
  assert (Hlen : forall k, toLowerCase kind = k ->
                           String.length kind = String.length k).
  { intros k <-. unfold toLowerCase. now rewrite mapChars_length. }
  destruct H as [H|[H|H]].
  - rewrite (startsWithCI_app kind "ability:") by exact H.
    change 8 with (String.length "ability:").
    now rewrite <- (Hlen _ H), dropChars_app.
  - assert (E : startsWithCI (kind ++ rest) "ability:" = false).
    { destruct kind as [|c1 k]; [discriminate|]. injection H as H1 _.
      unfold startsWithCI. simpl. now rewrite H1. }
    rewrite E, (startsWithCI_app kind "item:") by exact H.
    change 5 with (String.length "item:").
    now rewrite <- (Hlen _ H), dropChars_app.
  - assert (E1 : startsWithCI (kind ++ rest) "ability:" = false).
    { destruct kind as [|c1 k]; [discriminate|]. injection H as H1 _.
      unfold startsWithCI. simpl. now rewrite H1. }
    assert (E2 : startsWithCI (kind ++ rest) "item:" = false).
    { destruct kind as [|c1 k]; [discriminate|]. injection H as H1 _.
      unfold startsWithCI. simpl. now rewrite H1. }
    rewrite E1, E2, (startsWithCI_app kind "move:") by exact H.
    change 5 with (String.length "move:").
    now rewrite <- (Hlen _ H), dropChars_app.
Qed.

(** C4, as the code has it.  For a segment made of a bracketed tag (without
    a closing bracket inside), a gap of white space and a content on one
    line: [from] gives the content without its "ability:", "item:" or
    "move:" prefix (no "from " is put in front); [of] and [spread] give the
    empty string; [msg] and [move] give the content; [sid] gives "side n";
    [wisher] gives "Wish from name" or "Wish"; any other tag gives its
    content or, when that is empty, the tag. *)
Theorem simplifyBracketText_table (tag gap content : string) :
  nonEmpty tag = true -> allChars tagChar tag = true ->
  allChars isSpace gap = true -> noLineTerminator content = true ->
  let segment := "[" ++ tag ++ "]" ++ gap ++ content in
  let source := trim content in
  (tag = "from" -> simplifyBracketText segment = stripSourcePrefix source)
  /\ (tag = "of" -> simplifyBracketText segment = "")
  /\ (tag = "msg" -> simplifyBracketText segment = source)
  /\ (tag = "sid" ->
      simplifyBracketText segment
      = if nonEmpty source then "side " ++ source else "")
  /\ (tag = "wisher" ->
      simplifyBracketText segment
      = if nonEmpty source then "Wish from " ++ source else "Wish")
  /\ (tag = "spread" -> simplifyBracketText segment = "")
  /\ (tag = "move" -> simplifyBracketText segment = source)
  /\ (~ In tag ["from"; "of"; "msg"; "sid"; "wisher"; "spread"; "move"] ->
      simplifyBracketText segment = if nonEmpty source then source else tag).
Proof.
  intros Hne Htag Hgap Hc segment source.
  assert (Hs : simplifyBracketText segment
               = let cleanRest := source in
                 if String.eqb tag "from" then
                   if negb (nonEmpty cleanRest) then ""
                   else stripSourcePrefix cleanRest
                 else if String.eqb tag "of" then ""
                 else if String.eqb tag "msg" then cleanRest
                 else if String.eqb tag "sid" then
                   if nonEmpty cleanRest then "side " ++ cleanRest else ""
                 else if String.eqb tag "wisher" then
                   if nonEmpty cleanRest then "Wish from " ++ cleanRest else "Wish"
                 else if String.eqb tag "spread" then ""
                 else if String.eqb tag "move" then cleanRest
                 else if nonEmpty cleanRest then cleanRest else tag).
  { unfold simplifyBracketText, segment, source.
    rewrite bracketMatch_segment by assumption.
    rewrite trim_dropWhile. reflexivity. }
  rewrite Hs. cbv zeta.
  repeat split; try (intros ->; simpl; try reflexivity).
  - destruct source; reflexivity.
  - intros Hnot.
    repeat match goal with
           | |- context [String.eqb tag ?k] =>
               destruct (String.eqb_spec tag k) as [->|_];
               [exfalso; apply Hnot; simpl; tauto|]
           end.
    reflexivity.
Qed.

Lemma simplifyBracketText_table_witness :
  let segment := "[" ++ "from" ++ "]" ++ " " ++ "ability: Intimidate" in
  let source := trim "ability: Intimidate" in
  (("from" = "from" -> simplifyBracketText segment = stripSourcePrefix source)
   /\ ("from" = "of" -> simplifyBracketText segment = "")
   /\ ("from" = "msg" -> simplifyBracketText segment = source)
   /\ ("from" = "sid" ->
       simplifyBracketText segment
       = if nonEmpty source then "side " ++ source else "")
   /\ ("from" = "wisher" ->
       simplifyBracketText segment
       = if nonEmpty source then "Wish from " ++ source else "Wish")
   /\ ("from" = "spread" -> simplifyBracketText segment = "")
   /\ ("from" = "move" -> simplifyBracketText segment = source)
   /\ (~ In "from" ["from"; "of"; "msg"; "sid"; "wisher"; "spread"; "move"] ->
       simplifyBracketText segment = if nonEmpty source then source else "from"))
  /\ stripSourcePrefix source = "Intimidate".
Proof.
  split.
  - exact (simplifyBracketText_table "from" " " "ability: Intimidate"
             eq_refl eq_refl eq_refl eq_refl).
  - reflexivity.
Defined.

(** C4 as the spec words it fails: a [from] annotation does not yield
    "from Intimidate" but the bare source, and a [spread] annotation yields
    no marker at all. *)
Lemma simplifyBracketText_from_spread :
  simplifyBracketText "[from] ability: Intimidate" = "Intimidate"
  /\ simplifyBracketText "[spread] p2a,p2b" = "".
Proof. split; reflexivity. Qed.

End UtilsFacts.

(** * Rendering and the entry point: properties *)
Module RenderFacts.
Import Js Utils Icons Parser Scenarios JsFacts.

(** ** The loser *)

(** C8. With a winner recorded, no loser recorded, and the winner matching a
    named player up to [toId], the resolved loser is the other player. *)
Theorem resolveLoser_other_player (ctx : ParseContext) (w : string) :
  winner ctx = Some w -> nonEmpty w = true ->
  truthy (loser ctx) = false ->
  (toId (Some w) = toId (Some (p1 (players ctx))) ->
   resolveLoser ctx = Some (p2 (players ctx)))
  /\ (toId (Some w) <> toId (Some (p1 (players ctx))) ->
      toId (Some w) = toId (Some (p2 (players ctx))) ->
      resolveLoser ctx = Some (p1 (players ctx))).
Proof.
  intros Hw Hne Hl. unfold resolveLoser. rewrite Hw, Hl.
  cbn [truthy negb andb]. rewrite Hne. cbn [negb andb].
  split.
  - intros ->. now rewrite String.eqb_refl.
  - intros Hn _. apply String.eqb_neq in Hn. now rewrite Hn.
Qed.

Lemma resolveLoser_other_player_witness :
  (toId (Some "Ash") = toId (Some (p1 (players ashWins))) ->
   resolveLoser ashWins = Some (p2 (players ashWins)))
  /\ (toId (Some "Ash") <> toId (Some (p1 (players ashWins))) ->
      toId (Some "Ash") = toId (Some (p2 (players ashWins))) ->
      resolveLoser ashWins = Some (p1 (players ashWins))).
Proof. exact (resolveLoser_other_player ashWins "Ash" eq_refl eq_refl eq_refl). Defined.

(** The metadata of a summary carries the resolved loser of the final
    context. *)
Lemma parseReplayData_loser rx data r :
  parseReplayData rx data = Ok r ->
  exists ctx, m_loser (s_meta r) = resolveLoser ctx
              /\ m_winner (s_meta r) = winner ctx
              /\ m_players (s_meta r) = players ctx.
Proof.
  unfold parseReplayData. destruct (negb (truthy (rj_log data))); [discriminate|].
  destruct (parseLog _ _) as [ctx|e]; [|discriminate]. cbn [bind].
  destruct (renderSummary rx ctx) as [d|e]; [|discriminate]. cbn [bind].
  intros [= <-]. exists ctx. auto.
Qed.

(** ** The separator *)

Lemma isSingleTarget_spec (action : ActionSummary) :
  isSingleTarget action = true
  <-> a_type action = TMove
      /\ (exists name, a_targetNames action = Some [name])
      /\ includes (a_verb action) "spread" = false.
Proof.
  unfold isSingleTarget. split.
  - destruct (a_type action); try discriminate.
    destruct (a_targetNames action) as [[|n [|m l]]|]; try discriminate.
    intros H. apply negb_true_iff in H. eauto.
  - intros (-> & (n & ->) & ->). reflexivity.
Qed.

(** C6, as the code has it.  For an action with at least one detail the
    separator is a comma exactly when the action is a move with exactly one
    target name and a verb that does not contain "spread", whatever its
    details are, and a dash otherwise; and it is what stands between the
    headline and the combined details in both renderings of the line. *)
Theorem separator_comma_iff_single_target (action : ActionSummary) :
  a_details action <> [] ->
  (separator action = ", "
   <-> a_type action = TMove
       /\ (exists name, a_targetNames action = Some [name])
       /\ includes (a_verb action) "spread" = false)
  /\ (separator action = ", " \/ separator action = " " ++ emDash ++ " ")
  /\ forall rx line combined,
       combinedDetails action = Some combined ->
       actionLine rx action = Ok line ->
       exists stripped,
         stripTarget rx action combined = Ok stripped
         /\ d_text line
            = d_text (actionHeadline action) ++ separator action ++ d_text stripped
         /\ d_html line
            = d_html (actionHeadline action) ++ separator action ++ d_html stripped.
Proof.
  intros Hd.
  assert (Hlen : Nat.ltb 0 (List.length (a_details action)) = true).
  { destruct (a_details action); [contradiction|reflexivity]. }
  assert (Hsep : separator action
                 = if isSingleTarget action then ", " else " " ++ emDash ++ " ").
  { unfold separator. now rewrite Hlen. }
  split; [split|split].
  - rewrite Hsep. destruct (isSingleTarget action) eqn:E.
    + intros _. now apply isSingleTarget_spec.
    + discriminate.
  - intros H. apply isSingleTarget_spec in H. now rewrite Hsep, H.
  - rewrite Hsep. destruct (isSingleTarget action); auto.
  - intros rx line combined Hc. unfold actionLine. rewrite Hc.
    destruct (stripTarget rx action combined) as [stripped|e]; [|discriminate].
    cbn [bind]. intros [= <-]. exists stripped. auto.
Qed.

Lemma separator_comma_iff_single_target_witness :
  (separator thunderboltAction = ", "
   <-> a_type thunderboltAction = TMove
       /\ (exists name, a_targetNames thunderboltAction = Some [name])
       /\ includes (a_verb thunderboltAction) "spread" = false)
  /\ (separator thunderboltAction = ", "
      \/ separator thunderboltAction = " " ++ emDash ++ " ")
  /\ forall rx line combined,
       combinedDetails thunderboltAction = Some combined ->
       actionLine rx thunderboltAction = Ok line ->
       exists stripped,
         stripTarget rx thunderboltAction combined = Ok stripped
         /\ d_text line
            = d_text (actionHeadline thunderboltAction)
              ++ separator thunderboltAction ++ d_text stripped
         /\ d_html line
            = d_html (actionHeadline thunderboltAction)
              ++ separator thunderboltAction ++ d_html stripped.
Proof.
  apply (separator_comma_iff_single_target thunderboltAction).
  vm_compute. discriminate.
Defined.

(** C6 as the spec words it fails: the only detail of the move is a damage
    line, not a stat delta, and the separator is a comma all the same. *)
Lemma damage_detail_after_comma :
  map d_text (a_details thunderboltAction) = ["Squirtle 100% -> 50%"]
  /\ forallb isBoostDetail (a_details thunderboltAction) = false
  /\ separator thunderboltAction = ", "
  /\ actionLine literalNameReplace thunderboltAction
     = Ok (mkDual
             (d_html (actionHeadline thunderboltAction) ++ ", 100% -> 50%")
             "Pikachu Thunderbolt -> Squirtle, 100% -> 50%").
Proof. vm_compute. repeat split. Qed.

(** ** The entry point *)

(** The summary depends on the identifier, the format, the log and the
    player names only. *)
Lemma parseReplayData_fields rx (d1 d2 : ReplayJSON) :
  rj_id d1 = rj_id d2 -> rj_format d1 = rj_format d2 ->
  rj_log d1 = rj_log d2 -> rj_players d1 = rj_players d2 ->
  parseReplayData rx d1 = parseReplayData rx d2.
Proof.
  intros Hi Hf Hl Hp. unfold parseReplayData, playerName.
  now rewrite Hi, Hf, Hl, Hp.
Qed.

(** The run on [thunderboltReplay] returns: its text and its metadata. *)
Example thunderbolt_summary :
  exists r, parseReplayData literalNameReplace thunderboltReplay = Ok r
            /\ split newline (s_text r)
               = [ "[W] Ash vs [L] Misty";
                   "Pikachu vs Squirtle";
                   "Pikachu vs Squirtle";
                   "T1";
                   "  Pikachu Thunderbolt -> Squirtle, 100% -> 50%";
                   "Ash Wins" ]
            /\ m_winner (s_meta r) = Some "Ash"
            /\ m_loser (s_meta r) = Some "Misty".
Proof. eexists. split; [vm_compute; reflexivity|]. vm_compute. repeat split. Qed.

(** A missing or empty log is the validation failure. *)
Lemma parseReplayData_no_log rx (data : ReplayJSON) :
  rj_log data = None \/ rj_log data = Some "" ->
  parseReplayData rx data
  = Throw (Error "Replay JSON did not include a log field.").
Proof. intros [H|H]; unfold parseReplayData; now rewrite H. Qed.

(** C3 fails on the code: a log whose only record is a move tag without
    fields makes [parsePokemonRef] call a method of undefined, and the
    TypeError leaves [parseReplayData]; so does a switch, a damage or a poke
    record cut short. *)
Theorem parseReplayData_short_record_throws rx :
  parseReplayData rx (mkReplay None None (Some "|move") None None)
  = Throw TypeError
  /\ parseReplayData rx (mkReplay None None (Some "|switch") None None)
     = Throw TypeError
  /\ parseReplayData rx (mkReplay None None (Some "|-damage|p1a: Pikachu") None None)
     = Throw TypeError
  /\ parseReplayData rx (mkReplay None None (Some "|poke|p1") None None)
     = Throw TypeError.
Proof. repeat split. Qed.

End RenderFacts.

(** * The state machine: what each handler leaves alone *)
Module FrameFacts.
Import Js Utils Icons Parser JsFacts.

Lemma updateAt_length {A : Type} (i : nat) (f : A -> A) (xs : list A) :
  List.length (updateAt i f xs) = List.length xs.
Proof.
  revert i. induction xs as [|x r IH]; intros [|i]; simpl; auto.
Qed.

(** A projection the update respects reads the same before and after. *)
Lemma updateAt_proj {A B : Type} (g : A -> B) (f : A -> A) (d : A)
  (i r : nat) (xs : list A) :
  (forall x, g (f x) = g x) ->
  g (nth r (updateAt i f xs) d) = g (nth r xs d).
Proof.
  intros Hg. revert i r.
  induction xs as [|x t IH]; intros [|i] [|r]; simpl; auto.
Qed.

Lemma updateAt_nth_same {A : Type} (f : A -> A) (d : A) (i : nat) (xs : list A) :
  i < List.length xs -> nth i (updateAt i f xs) d = f (nth i xs d).
Proof.
  revert i. induction xs as [|x t IH]; intros [|i]; simpl; intros H;
    try lia; auto. apply IH. lia.
Qed.

Lemma updateAt_nth_other {A : Type} (f : A -> A) (d : A) (i r : nat)
  (xs : list A) :
  r <> i -> nth r (updateAt i f xs) d = nth r xs d.
Proof.
  revert i r. induction xs as [|x t IH]; intros [|i] [|r]; simpl; intros H;
    auto; try congruence.
Qed.

Lemma lastOf_app {A : Type} (xs : list A) (x : A) : lastOf (xs ++ [x])%list = Some x.
Proof.
  induction xs as [|y r IH]; [reflexivity|].
  simpl. destruct (r ++ [x])%list eqn:E; [|assumption].
  now destruct r.
Qed.

(** ** [eventsOnly] is a preorder that every event-recording step respects *)

Lemma eventsOnly_refl c : eventsOnly c c.
Proof. constructor; auto. Qed.

Lemma eventsOnly_trans c1 c2 c3 :
  eventsOnly c1 c2 -> eventsOnly c2 c3 -> eventsOnly c1 c3.
Proof.
  intros [] []. constructor; intros; try congruence.
Qed.

Lemma eventsOnly_sameTurns c c' : eventsOnly c c' -> sameTurns c c'.
Proof. intros []. constructor; auto. Qed.

Lemma sameTurns_trans c1 c2 c3 :
  sameTurns c1 c2 -> sameTurns c2 c3 -> sameTurns c1 c3.
Proof.
  intros [] []. constructor; intros; try congruence.
  rewrite st_entries1; [auto|congruence].
Qed.

(** A context that differs from [c1] outside the turn store, the list of
    turns, the current turn and the lead phase. *)
Lemma eventsOnly_fields c c1 c2 :
  eventsOnly c c1 ->
  turnStore c2 = turnStore c1 -> turns c2 = turns c1 ->
  currentTurn c2 = currentTurn c1 -> leadPhase c2 = leadPhase c1 ->
  eventsOnly c c2.
Proof.
  intros [] Hs Ht Hc Hl. constructor; unfold getTurn in *; intros;
    try congruence; rewrite Hs; auto.
Qed.

Create HintDb frame.

Ltac same_fields := intros; eapply eventsOnly_fields; [eassumption|reflexivity..].

Lemma frame_set_players v c c1 : eventsOnly c c1 -> eventsOnly c (set_players v c1).
Proof. same_fields. Qed.
Lemma frame_set_formatName v c c1 : eventsOnly c c1 -> eventsOnly c (set_formatName v c1).
Proof. same_fields. Qed.
Lemma frame_set_actionStore v c c1 : eventsOnly c c1 -> eventsOnly c (set_actionStore v c1).
Proof. same_fields. Qed.
Lemma frame_set_currentAction v c c1 : eventsOnly c c1 -> eventsOnly c (set_currentAction v c1).
Proof. same_fields. Qed.
Lemma frame_set_pokemon v c c1 : eventsOnly c c1 -> eventsOnly c (set_pokemon v c1).
Proof. same_fields. Qed.
Lemma frame_set_teams v c c1 : eventsOnly c c1 -> eventsOnly c (set_teams v c1).
Proof. same_fields. Qed.
Lemma frame_set_winner v c c1 : eventsOnly c c1 -> eventsOnly c (set_winner v c1).
Proof. same_fields. Qed.
Lemma frame_set_loser v c c1 : eventsOnly c c1 -> eventsOnly c (set_loser v c1).
Proof. same_fields. Qed.
Lemma frame_set_resultNote v c c1 : eventsOnly c c1 -> eventsOnly c (set_resultNote v c1).
Proof. same_fields. Qed.
Lemma frame_set_faintedThisTurn v c c1 :
  eventsOnly c c1 -> eventsOnly c (set_faintedThisTurn v c1).
Proof. same_fields. Qed.
Lemma frame_set_currentWeather v c c1 :
  eventsOnly c c1 -> eventsOnly c (set_currentWeather v c1).
Proof. same_fields. Qed.
Lemma frame_set_sideConditions v c c1 :
  eventsOnly c c1 -> eventsOnly c (set_sideConditions v c1).
Proof. same_fields. Qed.
Lemma frame_set_pendingAbilityBoost v c c1 :
  eventsOnly c c1 -> eventsOnly c (set_pendingAbilityBoost v c1).
Proof. same_fields. Qed.
Lemma frame_set_recentMoves v c c1 : eventsOnly c c1 -> eventsOnly c (set_recentMoves v c1).
Proof. same_fields. Qed.
Lemma frame_set_activePositions v c c1 :
  eventsOnly c c1 -> eventsOnly c (set_activePositions v c1).
Proof. same_fields. Qed.
Lemma frame_set_pendingFieldEnds v c c1 :
  eventsOnly c c1 -> eventsOnly c (set_pendingFieldEnds v c1).
Proof. same_fields. Qed.
Lemma frame_set_pendingProtects v c c1 :
  eventsOnly c c1 -> eventsOnly c (set_pendingProtects v c1).
Proof. same_fields. Qed.

#[local] Hint Resolve eventsOnly_refl frame_set_players frame_set_formatName
  frame_set_actionStore frame_set_currentAction frame_set_pokemon frame_set_teams
  frame_set_winner frame_set_loser frame_set_resultNote frame_set_faintedThisTurn
  frame_set_currentWeather frame_set_sideConditions frame_set_pendingAbilityBoost
  frame_set_recentMoves frame_set_activePositions frame_set_pendingFieldEnds
  frame_set_pendingProtects : frame.

(** A mutation of the current turn that keeps its number and lead entries. *)
Lemma frame_modifyCurrentTurn f c c1 :
  (forall t, t_turn (f t) = t_turn t) ->
  (forall t, t_leadEntries (f t) = t_leadEntries t) ->
  eventsOnly c c1 -> eventsOnly c (modifyCurrentTurn f c1).
Proof.
  intros Hn He H. apply (eventsOnly_trans _ c1); [assumption|].
  constructor; try reflexivity; unfold modifyCurrentTurn, getTurn; simpl.
  - apply updateAt_length.
  - intros r. now apply (updateAt_proj t_turn).
  - intros r. now apply (updateAt_proj t_leadEntries).
Qed.

Lemma frame_modifyAction r f c c1 :
  eventsOnly c c1 -> eventsOnly c (modifyAction r f c1).
Proof. unfold modifyAction. auto with frame. Qed.

Lemma frame_modifyPokemon ref f c c1 :
  eventsOnly c c1 -> eventsOnly c (modifyPokemon ref f c1).
Proof. unfold modifyPokemon. destruct (pokemonGet c1 ref); auto with frame. Qed.

Lemma frame_pushEndEvent e c c1 : eventsOnly c c1 -> eventsOnly c (pushEndEvent e c1).
Proof. intros. unfold pushEndEvent. now apply frame_modifyCurrentTurn. Qed.

Lemma frame_pushDetail r e c c1 : eventsOnly c c1 -> eventsOnly c (pushDetail r e c1).
Proof. intros. unfold pushDetail. now apply frame_modifyAction. Qed.

#[local] Hint Resolve frame_modifyAction frame_modifyPokemon frame_pushEndEvent
  frame_pushDetail : frame.

Lemma frame_appendDetail d b c c1 :
  eventsOnly c c1 -> eventsOnly c (appendDetail c1 d b).
Proof.
  intros. unfold appendDetail.
  destruct (_ && _); [assumption|].
  destruct (currentAction c1); [destruct b|]; auto with frame.
Qed.

Lemma frame_appendDetailString d b c c1 :
  eventsOnly c c1 -> eventsOnly c (appendDetailString c1 d b).
Proof.
  intros. unfold appendDetailString.
  destruct (negb _); [assumption|].
  destruct (currentAction c1); [destruct b|]; auto with frame.
Qed.

Lemma frame_pushHeaderEvent text c c1 :
  eventsOnly c c1 -> eventsOnly c (pushHeaderEvent c1 text).
Proof.
  intros. unfold pushHeaderEvent.
  destruct (t_actions (theTurn c1)); auto with frame.
  now apply frame_modifyCurrentTurn.
Qed.

Lemma frame_flushPendingFieldEnds c c1 :
  eventsOnly c c1 -> eventsOnly c (flushPendingFieldEnds c1).
Proof.
  intros. unfold flushPendingFieldEnds.
  destruct (pendingFieldEnds c1); auto with frame.
Qed.

Lemma frame_setCurrentAction a c c1 :
  eventsOnly c c1 -> eventsOnly c (setCurrentAction c1 a).
Proof.
  intros. unfold setCurrentAction. apply frame_set_currentAction.
  apply frame_modifyCurrentTurn; auto with frame.
Qed.

#[local] Hint Resolve frame_appendDetail frame_appendDetailString
  frame_pushHeaderEvent frame_flushPendingFieldEnds frame_setCurrentAction : frame.

Lemma frame_getOrCreatePokemon ref side species c c1 c2 mon :
  getOrCreatePokemon c1 ref side species = (c2, mon) ->
  eventsOnly c c1 -> eventsOnly c c2.
Proof.
  unfold getOrCreatePokemon. destruct (pokemonGet c1 ref).
  - now intros [= <- _].
  - intros [= <- _]. auto with frame.
Qed.

Lemma frame_detailWithIcon ref body c c1 c2 d :
  detailWithIcon c1 ref body = (c2, d) -> eventsOnly c c1 -> eventsOnly c c2.
Proof.
  unfold detailWithIcon.
  destruct (getOrCreatePokemon c1 ref (resolveSide ref) None) as [c3 mon] eqn:E.
  intros [= <- _]. eauto using frame_getOrCreatePokemon.
Qed.

Lemma frame_targetBoostDetails groups c c1 c2 ds :
  targetBoostDetails c1 groups = (c2, ds) -> eventsOnly c c1 -> eventsOnly c c2.
Proof.
  revert c1 c2 ds. induction groups as [|[targetRef targetBoosts] rest IH];
    simpl; intros c1 c2 ds.
  - now intros [= <- _].
  - destruct (detailWithIcon c1 targetRef _) as [c3 d] eqn:E1.
    destruct (targetBoostDetails c3 rest) as [c4 ds'] eqn:E2.
    intros [= <- _] H. eauto using frame_detailWithIcon.
Qed.

Lemma frame_finalizePendingAbilityBoost c c1 :
  eventsOnly c c1 -> eventsOnly c (finalizePendingAbilityBoost c1).
Proof.
  intros H. unfold finalizePendingAbilityBoost.
  destruct (pendingAbilityBoost c1) as [[ref ability boosts]|]; [|assumption].
  destruct (targetBoostDetails c1 (boostsByTarget boosts)) as [c2 rest] eqn:E.
  apply frame_set_pendingAbilityBoost.
  assert (H2 : eventsOnly c c2) by eauto using frame_targetBoostDetails.
  destruct (combineDetails _); [|assumption].
  destruct (beforeFirstAction c2); auto with frame.
Qed.

Lemma frame_addNoteAction ref note c c1 :
  eventsOnly c c1 -> eventsOnly c (addNoteAction c1 ref note).
Proof. intros. unfold addNoteAction. auto with frame. Qed.

Lemma frame_addSpecies side species c c1 c2 :
  addSpecies c1 side species = Ok c2 -> eventsOnly c c1 -> eventsOnly c c2.
Proof.
  unfold addSpecies.
  destruct (negb _); [now intros [= <-]|].
  destruct (arrayIncludes _ _); [now intros [= <-]|].
  destruct side as [k|]; [|discriminate].
  destruct (String.eqb k "p1"); [intros [= <-]; auto with frame|].
  destruct (String.eqb k "p2"); [intros [= <-]; auto with frame|discriminate].
Qed.

Lemma frame_updatePokemonSpecies ref species c c1 c2 :
  updatePokemonSpecies c1 ref species = Ok c2 ->
  eventsOnly c c1 -> eventsOnly c c2.
Proof.
  unfold updatePokemonSpecies.
  destruct (getOrCreatePokemon c1 ref (resolveSide ref) species) as [c3 mon] eqn:E.
  destruct species as [sp|]; [|discriminate].
  intros Ha H. eapply frame_addSpecies; [exact Ha|].
  apply frame_modifyPokemon. eauto using frame_getOrCreatePokemon.
Qed.

Lemma frame_patchTargetName ref suffix c c1 :
  eventsOnly c c1 -> eventsOnly c (patchTargetName c1 ref suffix).
Proof.
  intros. unfold patchTargetName.
  repeat match goal with
         | |- context [match ?x with _ => _ end] => destruct x
         end; auto with frame.
Qed.

Lemma frame_appendVerb r suffix c c1 :
  eventsOnly c c1 -> eventsOnly c (appendVerb r suffix c1).
Proof. intros. unfold appendVerb. auto with frame. Qed.

#[local] Hint Resolve frame_finalizePendingAbilityBoost frame_addNoteAction
  frame_patchTargetName frame_appendVerb : frame.
#[local] Hint Resolve frame_getOrCreatePokemon frame_detailWithIcon
  frame_addSpecies frame_updatePokemonSpecies : frame.

(** ** The handlers *)

(** Case analysis on whatever decides which context a handler returns. *)
Ltac split_context :=
  match goal with
  | H : bind ?r _ = Ok _ |- _ =>
      let E := fresh "E" in destruct r eqn:E; cbn [bind] in H; [|discriminate H]
  | H : Ok _ = Ok _ |- _ => injection H as <-
  | H : Throw _ = Ok _ |- _ => discriminate H
  | H : match ?x with _ => _ end = Ok _ |- _ => destruct x eqn:?
  | H : context [if ?b then ?x else _] |- _ =>
      match type of x with ParseContext => destruct b eqn:? end
  | H : context [match ?v with Some _ => _ | None => ?x end] |- _ =>
      match type of x with ParseContext => destruct v eqn:? end
  | |- context [if ?b then ?x else _] =>
      match type of x with ParseContext => destruct b eqn:? end
  | |- context [match ?v with Some _ => _ | None => ?x end] =>
      match type of x with ParseContext => destruct v eqn:? end
  | |- context [match ?v with (_, _) => _ end] => destruct v eqn:?
  end.

Ltac frame_handler h :=
  intros ? ? ? H; unfold h in H; cbv beta zeta in H;
  repeat (split_context; cbv beta zeta in * );
  eauto 12 with frame.

Lemma frame_casePlayer c parts c' : casePlayer c parts = Ok c' -> eventsOnly c c'.
Proof. revert c parts c'. frame_handler casePlayer. Qed.

Lemma frame_caseFormat c parts c' : caseFormat c parts = Ok c' -> eventsOnly c c'.
Proof. revert c parts c'. frame_handler caseFormat. Qed.

Lemma frame_caseWin c parts c' : caseWin c parts = Ok c' -> eventsOnly c c'.
Proof. revert c parts c'. frame_handler caseWin. Qed.

Lemma frame_caseLoss c parts c' : caseLoss c parts = Ok c' -> eventsOnly c c'.
Proof. revert c parts c'. frame_handler caseLoss. Qed.

Lemma frame_casePoke c parts c' : casePoke c parts = Ok c' -> eventsOnly c c'.
Proof. revert c parts c'. frame_handler casePoke. Qed.

Lemma frame_caseMove c parts c' : caseMove c parts = Ok c' -> eventsOnly c c'.
Proof. revert c parts c'. frame_handler caseMove. Qed.

Lemma frame_caseCant c parts c' : caseCant c parts = Ok c' -> eventsOnly c c'.
Proof. revert c parts c'. frame_handler caseCant. Qed.

Lemma frame_caseDamage c parts c' : caseDamage c parts = Ok c' -> eventsOnly c c'.
Proof. revert c parts c'. frame_handler caseDamage. Qed.

Lemma frame_caseBoost tag c parts c' :
  caseBoost tag c parts = Ok c' -> eventsOnly c c'.
Proof. revert c parts c'. frame_handler caseBoost. Qed.

Lemma frame_caseStatus c parts c' : caseStatus c parts = Ok c' -> eventsOnly c c'.
Proof. revert c parts c'. frame_handler caseStatus. Qed.

Lemma frame_caseCureStatus c parts c' :
  caseCureStatus c parts = Ok c' -> eventsOnly c c'.
Proof. revert c parts c'. frame_handler caseCureStatus. Qed.

Lemma frame_caseAbility c parts c' : caseAbility c parts = Ok c' -> eventsOnly c c'.
Proof. revert c parts c'. frame_handler caseAbility. Qed.

Lemma frame_caseItem label c parts c' :
  caseItem label c parts = Ok c' -> eventsOnly c c'.
Proof. revert c parts c'. frame_handler caseItem. Qed.

Lemma frame_caseFieldStart c parts c' :
  caseFieldStart c parts = Ok c' -> eventsOnly c c'.
Proof. revert c parts c'. frame_handler caseFieldStart. Qed.

Lemma frame_caseFieldEnd c parts c' : caseFieldEnd c parts = Ok c' -> eventsOnly c c'.
Proof. revert c parts c'. frame_handler caseFieldEnd. Qed.

Lemma frame_caseWeather c parts c' : caseWeather c parts = Ok c' -> eventsOnly c c'.
Proof. revert c parts c'. frame_handler caseWeather. Qed.

Lemma frame_caseSideStart c parts c' :
  caseSideStart c parts = Ok c' -> eventsOnly c c'.
Proof. revert c parts c'. frame_handler caseSideStart. Qed.

Lemma frame_caseSideEnd c parts c' : caseSideEnd c parts = Ok c' -> eventsOnly c c'.
Proof. revert c parts c'. frame_handler caseSideEnd. Qed.

Lemma frame_caseTerrain c parts c' : caseTerrain c parts = Ok c' -> eventsOnly c c'.
Proof. revert c parts c'. frame_handler caseTerrain. Qed.

Lemma frame_caseMessage c parts c' : caseMessage c parts = Ok c' -> eventsOnly c c'.
Proof. revert c parts c'. frame_handler caseMessage. Qed.

Lemma frame_caseSingleTurn c parts c' :
  caseSingleTurn c parts = Ok c' -> eventsOnly c c'.
Proof. revert c parts c'. frame_handler caseSingleTurn. Qed.

Lemma frame_caseActivate c parts c' : caseActivate c parts = Ok c' -> eventsOnly c c'.
Proof. revert c parts c'. frame_handler caseActivate. Qed.

Lemma frame_caseFail c parts c' : caseFail c parts = Ok c' -> eventsOnly c c'.
Proof. revert c parts c'. frame_handler caseFail. Qed.

Lemma frame_caseMiss c parts c' : caseMiss c parts = Ok c' -> eventsOnly c c'.
Proof. revert c parts c'. frame_handler caseMiss. Qed.

Lemma frame_caseImmune c parts c' : caseImmune c parts = Ok c' -> eventsOnly c c'.
Proof. revert c parts c'. frame_handler caseImmune. Qed.

Lemma frame_caseFaint c parts c' : caseFaint c parts = Ok c' -> eventsOnly c c'.
Proof. revert c parts c'. frame_handler caseFaint. Qed.

Lemma frame_caseTerastallize c parts c' :
  caseTerastallize c parts = Ok c' -> eventsOnly c c'.
Proof. revert c parts c'. frame_handler caseTerastallize. Qed.

Lemma frame_caseFormeChange c parts c' :
  caseFormeChange c parts = Ok c' -> eventsOnly c c'.
Proof. revert c parts c'. frame_handler caseFormeChange. Qed.

(** A switch is the one record that adds a lead entry, and only during the
    lead phase. *)
Lemma sameTurns_leadEntry f c c1 :
  (forall t, t_turn (f t) = t_turn t) ->
  eventsOnly c c1 -> leadPhase c1 = true ->
  sameTurns c (set_currentAction None (modifyCurrentTurn f c1)).
Proof.
  intros Hf [] Hl. constructor; simpl.
  - assumption.
  - assumption.
  - assumption.
  - now rewrite updateAt_length.
  - intros r. rewrite <- eo_number0. unfold getTurn. simpl.
    now rewrite (updateAt_proj t_turn).
  - intros Hc. rewrite Hc in eo_lead0. rewrite Hl in eo_lead0. discriminate.
Qed.

Lemma frame_caseSwitch c parts c' : caseSwitch c parts = Ok c' -> sameTurns c c'.
Proof.
  intros H. unfold caseSwitch in H. cbv beta zeta in H.
  repeat (split_context; cbv beta zeta in * );
    first [ apply eventsOnly_sameTurns; solve [eauto 12 with frame]
          | apply sameTurns_leadEntry; solve [eauto 12 with frame] ].
Qed.

(** ** The turn record *)

Lemma getTurn_app_old c (extra : list TurnSummary) r f :
  r < List.length (turnStore c) ->
  nth r (turnStore c ++ extra)%list f = nth r (turnStore c) f.
Proof. intros. now apply app_nth1. Qed.

(** What [ensureCurrentTurn] does to the turns: nothing, or a new turn at the
    end of the store and of the list, which becomes the current one. *)
Lemma ensureCurrentTurn_spec c n :
  let c' := ensureCurrentTurn c n in
  leadPhase c' = leadPhase c
  /\ (currentTurnIsLast c -> currentTurnIsLast c')
  /\ List.length (turnStore c) <= List.length (turnStore c')
  /\ (exists added, turns c' = (turns c ++ added)%list)
  /\ forall r, r < List.length (turnStore c) ->
               t_turn (getTurn c' r) = t_turn (getTurn c r)
               /\ t_leadEntries (getTurn c' r) = t_leadEntries (getTurn c r).
Proof.
  unfold ensureCurrentTurn.
  destruct (numEq _ _).
  - cbv zeta. split; [reflexivity|]. split; [auto|]. split; [lia|].
    split; [|auto]. exists (@nil TurnRef). now rewrite app_nil_r.
  - cbv zeta.
    pose proof (frame_flushPendingFieldEnds c c (eventsOnly_refl c))
      as [Ft Fc Fl Fs Fn Fe].
    set (c1 := flushPendingFieldEnds c) in *.
    simpl. split; [assumption|]. split; [|split; [|split]].
    + intros _. unfold currentTurnIsLast. simpl.
      rewrite lastOf_app, length_app. simpl. split; [reflexivity|lia].
    + rewrite length_app. simpl. lia.
    + exists (List.length (turnStore c1) :: nil). now rewrite Ft.
    + intros r Hr. unfold getTurn. simpl. rewrite app_nth1 by lia.
      split; [apply Fn|apply Fe].
Qed.

Lemma Ok_inj {A : Type} (a b : A) : Ok a = Ok b -> a = b.
Proof. now intros [= ->]. Qed.

Lemma caseTurn_spec c parts c' :
  caseTurn c parts = Ok c' ->
  leadPhase c' = false
  /\ (currentTurnIsLast c -> currentTurnIsLast c')
  /\ List.length (turnStore c) <= List.length (turnStore c')
  /\ (exists added, turns c' = (turns c ++ added)%list)
  /\ forall r, r < List.length (turnStore c) ->
               t_turn (getTurn c' r) = t_turn (getTurn c r)
               /\ t_leadEntries (getTurn c' r) = t_leadEntries (getTurn c r).
Proof.
  unfold caseTurn. cbv zeta. intros H. apply Ok_inj in H. subst c'.
  pose proof (frame_finalizePendingAbilityBoost c c (eventsOnly_refl c))
    as [Ft Fc Fl Fs Fn Fe].
  set (c1 := finalizePendingAbilityBoost c) in *.
  set (c2 := set_leadPhase false c1).
  destruct (ensureCurrentTurn_spec c2 (Number (part parts 1)))
    as (Hl & Hi & Hs & (added & Ht) & Hr).
  set (c3 := ensureCurrentTurn c2 (Number (part parts 1))) in *.
  assert (Hst : turnStore c2 = turnStore c1) by reflexivity.
  assert (Htu : turns c2 = turns c1) by reflexivity.
  assert (Hcu : currentTurn c2 = currentTurn c1) by reflexivity.
  change (leadPhase (set_currentAction None c3)) with (leadPhase c3).
  change (turnStore (set_currentAction None c3)) with (turnStore c3).
  change (turns (set_currentAction None c3)) with (turns c3).
  change (currentTurnIsLast (set_currentAction None c3))
    with (currentTurnIsLast c3).
  change (forall r, r < List.length (turnStore c) ->
                    t_turn (getTurn c3 r) = t_turn (getTurn c r)
                    /\ t_leadEntries (getTurn c3 r) = t_leadEntries (getTurn c r))
    with ((fun P => P) (forall r, r < List.length (turnStore c) ->
                    t_turn (getTurn c3 r) = t_turn (getTurn c r)
                    /\ t_leadEntries (getTurn c3 r) = t_leadEntries (getTurn c r))).
  cbv beta.
  split; [|split; [|split; [|split]]].
  - exact Hl.
  - intros [Ha Hb]. apply Hi. unfold currentTurnIsLast.
    rewrite Htu, Hcu, Hst, Ft, Fc, Fs. now split.
  - rewrite <- Fs, <- Hst. exact Hs.
  - exists added. now rewrite Ht, Htu, Ft.
  - intros r Hlt. rewrite <- Fn, <- Fe. apply Hr.
    rewrite Hst, Fs. assumption.
Qed.

(** ** Every record *)

Lemma tag_is (parts : list string) (k : string) :
  String.eqb (tmpl (part parts 0)) k = true -> k <> "undefined" ->
  part parts 0 = Some k.
Proof.
  intros H Hk. apply String.eqb_eq in H.
  destruct (part parts 0); simpl in H; congruence.
Qed.

(** One branch of the dispatch, settled by the frame lemma of its handler. *)
Ltac branch lem :=
  match goal with
  | |- (if ?b then _ else _) = _ -> _ =>
      destruct b eqn:?;
      [ let H := fresh "H" in
        intros H; right; apply eventsOnly_sameTurns; eapply lem; exact H | ]
  end.

(** A record is a turn record, or it leaves the turns as they are. *)
Lemma parseRecord_cases c parts c' :
  parseRecord c parts = Ok c' ->
  (part parts 0 = Some "turn" /\ caseTurn c parts = Ok c') \/ sameTurns c c'.
Proof.
  unfold parseRecord. cbv zeta.
  branch frame_casePlayer. branch frame_caseFormat. branch frame_caseWin.
  branch frame_caseLoss.
  destruct (String.eqb (tmpl (part parts 0)) "turn") eqn:Et.
  { intros H. left. split; [|assumption]. apply (tag_is parts "turn"); [assumption|discriminate]. }
  branch frame_casePoke.
  destruct (String.eqb (tmpl (part parts 0)) "switch" || _ || _).
  { intros H. right. exact (frame_caseSwitch _ _ _ H). }
  branch frame_caseMove. branch frame_caseCant. branch frame_caseDamage.
  branch frame_caseBoost. branch frame_caseStatus. branch frame_caseCureStatus.
  branch frame_caseAbility. branch frame_caseItem. branch frame_caseItem.
  branch frame_caseFieldStart. branch frame_caseFieldEnd. branch frame_caseWeather.
  branch frame_caseSideStart. branch frame_caseSideEnd. branch frame_caseTerrain.
  branch frame_caseMessage. branch frame_caseSingleTurn. branch frame_caseActivate.
  branch frame_caseFail. branch frame_caseMiss. branch frame_caseImmune.
  branch frame_caseFaint. branch frame_caseTerastallize. branch frame_caseFormeChange.
  intros H. apply Ok_inj in H. subst c'. right.
  apply eventsOnly_sameTurns, eventsOnly_refl.
Qed.

End FrameFacts.

(** * Turns *)
Module TurnFacts.
Import Js Utils Icons Parser JsFacts FrameFacts.

Lemma parseRecord_turn c parts :
  part parts 0 = Some "turn" -> parseRecord c parts = caseTurn c parts.
Proof. intros H. unfold parseRecord. now rewrite H. Qed.

Lemma recordStep_sameTurns c (isTurn : Prop) c' :
  sameTurns c c' -> ~ isTurn -> recordStep c isTurn c'.
Proof.
  intros [Ht Hc Hl Hs Hn He] Htag. constructor.
  - unfold currentTurnIsLast. now rewrite Ht, Hc, Hs.
  - unfold leadTurnExists. now rewrite Ht, Hs, Hn.
  - congruence.
  - intros H. contradiction.
  - intros [H|H] r _; [now apply He|contradiction].
  - lia.
Qed.

Lemma recordStep_turn c (isTurn : Prop) parts c' :
  caseTurn c parts = Ok c' -> recordStep c isTurn c'.
Proof.
  intros H. destruct (caseTurn_spec _ _ _ H) as (Hl & Hi & Hs & (added & Ht) & Hr).
  constructor; auto.
  - intros (H0 & Hlen & Hn). unfold leadTurnExists.
    rewrite Ht. split; [|split].
    + rewrite nth_error_app1; [assumption|].
      apply nth_error_Some. congruence.
    + lia.
    + rewrite <- Hn. now apply Hr.
  - intros _ r Hlt. now apply Hr.
Qed.

Lemma parseRecord_step c parts c' :
  parseRecord c parts = Ok c' ->
  recordStep c (part parts 0 = Some "turn") c'.
Proof.
  intros H. destruct (part parts 0) as [tag|] eqn:Etag.
  - destruct (String.eqb_spec tag "turn") as [->|Hn].
    + rewrite parseRecord_turn in H by assumption.
      eapply recordStep_turn, H.
    + destruct (parseRecord_cases _ _ _ H) as [[Ht _]|Hs].
      * congruence.
      * apply recordStep_sameTurns; [assumption|congruence].
  - destruct (parseRecord_cases _ _ _ H) as [[Ht _]|Hs]; [congruence|].
    apply recordStep_sameTurns; [assumption|discriminate].
Qed.

Lemma parseLine_step c rawLine c' :
  parseLine c rawLine = Ok c' ->
  recordStep c (recordTag rawLine = Some "turn") c'.
Proof.
  unfold parseLine, recordTag. cbv zeta.
  set (line := if startsWith rawLine "|" then dropChars 1 rawLine else rawLine).
  intros H.
  destruct (nonEmpty line) eqn:Hne; cbn [negb] in H.
  - now apply parseRecord_step.
  - apply Ok_inj in H. subst c'.
    apply recordStep_sameTurns.
    + apply eventsOnly_sameTurns, eventsOnly_refl.
    + discriminate.
Qed.

(** A line is skipped or is a record. *)
Lemma parseLine_record c rawLine c' :
  parseLine c rawLine = Ok c' ->
  c' = c \/ exists parts, parseRecord c parts = Ok c'.
Proof.
  unfold parseLine. cbv zeta.
  destruct (negb _); intros H; [left; now apply Ok_inj in H|eauto].
Qed.

(** ** Invariants of a run *)

Lemma start_currentTurnIsLast names format :
  currentTurnIsLast (startContext names format).
Proof. split; simpl; [reflexivity|lia]. Qed.

Lemma start_leadTurnExists names format :
  leadTurnExists (startContext names format).
Proof. repeat split. simpl. lia. Qed.

Lemma trace_invariant (P : ParseContext -> Prop) :
  (forall c l c', parseLine c l = Ok c' -> P c -> P c') ->
  forall lines c, P c -> Forall P (trace c lines).
Proof.
  intros Hstep. induction lines as [|l rest IH]; intros c Hc; simpl.
  - constructor.
  - destruct (parseLine c l) as [c'|e] eqn:E; [|constructor].
    constructor; eauto.
Qed.

Lemma parseLines_invariant (P : ParseContext -> Prop) :
  (forall c l c', parseLine c l = Ok c' -> P c -> P c') ->
  forall lines c c', parseLines c lines = Ok c' -> P c -> P c'.
Proof.
  intros Hstep. induction lines as [|l rest IH]; intros c c'; simpl.
  - now intros [= <-].
  - destruct (parseLine c l) as [c1|e] eqn:E; [|discriminate].
    cbn [bind]. eauto.
Qed.

Lemma parseLines_reachable lines c c' :
  reachable c -> parseLines c lines = Ok c' -> reachable c'.
Proof.
  intros Hc H. revert H Hc.
  apply (parseLines_invariant reachable).
  intros c0 l c1 Hl Hr. destruct (parseLine_record _ _ _ Hl) as [->|[parts Hp]];
    [assumption|eapply reach_record; eassumption].
Qed.

Lemma reachable_invariants c :
  reachable c -> currentTurnIsLast c /\ leadTurnExists c.
Proof.
  induction 1 as [names format|c parts c' _ [Ha Hb] Hp].
  - split; [apply start_currentTurnIsLast|apply start_leadTurnExists].
  - destruct (parseRecord_step _ _ _ Hp). auto.
Qed.

(** C9. Throughout a fold over any lines, from the context a run starts
    with: turn 0 exists from the start; after every line the current-turn
    reference is the last element of the list of turns; and from a turn
    record on, the lead phase is over and the lead entries of turn 0 are
    those it had when the turn record came. *)
Theorem current_turn_throughout (names : PlayerMap) (format : option string)
  (lines : list string) :
  let start := startContext names format in
  (turns start = [0] /\ currentTurn start = 0
   /\ t_turn (getTurn start 0) = Num 0 /\ leadPhase start = true)
  /\ Forall (fun c => currentTurnIsLast c /\ leadTurnExists c)
       (start :: trace start lines)
  /\ forall before turnLine after c0,
       lines = (before ++ turnLine :: after)%list ->
       parseLines start before = Ok c0 ->
       recordTag turnLine = Some "turn" ->
       Forall (fun c => leadPhase c = false
                        /\ t_leadEntries (getTurn c 0)
                           = t_leadEntries (getTurn c0 0))
         (trace c0 (turnLine :: after)).
Proof.
  intros start. split; [|split].
  - repeat split.
  - constructor.
    + split; [apply start_currentTurnIsLast|apply start_leadTurnExists].
    + apply trace_invariant.
      * intros c l c' Hl [Ha Hb]. destruct (parseLine_step _ _ _ Hl). auto.
      * split; [apply start_currentTurnIsLast|apply start_leadTurnExists].
  - intros before turnLine after c0 _ Hbefore Htag.
    assert (Hz : 0 < List.length (turnStore c0)).
    { assert (R : reachable c0)
        by (eapply parseLines_reachable; [apply reach_start|exact Hbefore]).
      apply reachable_invariants in R. destruct R as [_ (_ & Hlen & _)]. exact Hlen. }
    simpl. destruct (parseLine c0 turnLine) as [c1|e] eqn:E; [|constructor].
    destruct (parseLine_step _ _ _ E) as [_ _ _ Hturn Hent Hstore].
    assert (H1 : leadPhase c1 = false
                 /\ t_leadEntries (getTurn c1 0) = t_leadEntries (getTurn c0 0)
                 /\ 0 < List.length (turnStore c1)).
    { split; [auto|]. split; [apply Hent; auto|lia]. }
    constructor; [tauto|].
    eapply Forall_impl;
      [|apply (trace_invariant
                 (fun c => leadPhase c = false
                           /\ t_leadEntries (getTurn c 0)
                              = t_leadEntries (getTurn c0 0)
                           /\ 0 < List.length (turnStore c)));
        [|exact H1]].
    + intros c. cbv beta. tauto.
    + intros c l c' Hl (Hp & He & Hlen).
      destruct (parseLine_step _ _ _ Hl) as [_ _ Hlead _ Hent' Hstore'].
      split; [auto|]. split; [|lia].
      rewrite <- He. apply Hent'; auto.
Qed.

Lemma reachable_afterRecord c parts :
  reachable c -> reachable (afterRecord c parts).
Proof.
  intros H. unfold afterRecord.
  destruct (parseRecord c parts) eqn:E; [eapply reach_record; eassumption|assumption].
Qed.

Lemma reachable_turnOne : reachable Scenarios.turnOne.
Proof. repeat apply reachable_afterRecord. apply reach_start. Qed.

Lemma reachable_afterUturn : reachable Scenarios.afterUturn.
Proof. apply reachable_afterRecord, reachable_turnOne. Qed.

Lemma reachable_trickRoomEnding : reachable Scenarios.trickRoomEnding.
Proof. apply reachable_afterRecord, reachable_afterUturn. Qed.

End TurnFacts.

(** * Details of the current turn *)
Module DetailFacts.
Import Js Utils Icons Parser Scenarios JsFacts FrameFacts TurnFacts.

(** ** Steps that only touch the registry *)

Lemma registryOnly_refl c : registryOnly c c.
Proof. constructor; reflexivity. Qed.

Lemma registryOnly_trans c1 c2 c3 :
  registryOnly c1 c2 -> registryOnly c2 c3 -> registryOnly c1 c3.
Proof. intros [] []. constructor; congruence. Qed.

Lemma registry_set_pokemon v c : registryOnly c (set_pokemon v c).
Proof. constructor; reflexivity. Qed.

Lemma registry_set_teams v c : registryOnly c (set_teams v c).
Proof. constructor; reflexivity. Qed.

Lemma registry_modifyPokemon ref f c : registryOnly c (modifyPokemon ref f c).
Proof.
  unfold modifyPokemon.
  destruct (pokemonGet c ref); [apply registry_set_pokemon|apply registryOnly_refl].
Qed.

Lemma registry_getOrCreatePokemon ref side species c c' mon :
  getOrCreatePokemon c ref side species = (c', mon) -> registryOnly c c'.
Proof.
  unfold getOrCreatePokemon. destruct (pokemonGet c ref); intros H;
    injection H as <- _; [apply registryOnly_refl|apply registry_set_pokemon].
Qed.

Lemma getOrCreatePokemon_previous ref side species c c' mon :
  getOrCreatePokemon c ref side species = (c', mon) ->
  mon_lastDisplayHP mon = lastDisplayHP c ref.
Proof.
  unfold getOrCreatePokemon, lastDisplayHP.
  destruct (pokemonGet c ref); intros H; now injection H as _ <-.
Qed.

Lemma registry_addSpecies side species c c' :
  addSpecies c side species = Ok c' -> registryOnly c c'.
Proof.
  unfold addSpecies.
  destruct (negb _); [intros H; apply Ok_inj in H; subst; apply registryOnly_refl|].
  destruct (arrayIncludes _ _);
    [intros H; apply Ok_inj in H; subst; apply registryOnly_refl|].
  destruct side as [k|]; [|discriminate].
  destruct (String.eqb k "p1");
    [intros H; apply Ok_inj in H; subst; apply registry_set_teams|].
  destruct (String.eqb k "p2"); [|discriminate].
  intros H; apply Ok_inj in H; subst; apply registry_set_teams.
Qed.

Lemma registry_updatePokemonSpecies ref species c c' :
  updatePokemonSpecies c ref species = Ok c' -> registryOnly c c'.
Proof.
  unfold updatePokemonSpecies.
  destruct (getOrCreatePokemon c ref (resolveSide ref) species) as [c1 mon] eqn:E.
  destruct species as [sp|]; [|discriminate]. intros H.
  eapply registryOnly_trans; [eapply registry_getOrCreatePokemon, E|].
  eapply registryOnly_trans; [apply registry_modifyPokemon|].
  eapply registry_addSpecies, H.
Qed.

(** The updated species is never undefined for a switch: the call returns. *)
Lemma updatePokemonSpecies_returns ref species c :
  exists c', updatePokemonSpecies c ref (Some species) = Ok c'.
Proof.
  unfold updatePokemonSpecies.
  destruct (getOrCreatePokemon c ref (resolveSide ref) (Some species)) as [c1 mon].
  unfold addSpecies.
  destruct (negb _); [eauto|]. destruct (arrayIncludes _ _); [eauto|].
  destruct (resolveSide ref); simpl; eauto.
Qed.

(** ** Details *)

Lemma iconHTML_nonspace iconId alt rest :
  nonEmpty (trim (iconHTML iconId alt ++ rest)) = true.
Proof.
  unfold iconHTML, renderPokemonIcon. cbn [append].
  now apply trim_nonspace_nonEmpty.
Qed.

(** The detail [detailWithIcon] builds is never empty, and the step touches
    the registry only. *)
Lemma detailWithIcon_spec c ref body c' d :
  detailWithIcon c ref body = (c', d) ->
  registryOnly c c'
  /\ nonEmpty (d_html d) = true
  /\ d_text d = trim (getPokemonDisplayName c' ref ++ " " ++ body).
Proof.
  unfold detailWithIcon.
  destruct (getOrCreatePokemon c ref (resolveSide ref) None) as [c1 mon] eqn:E.
  intros H. apply pair_equal_spec in H as [<- <-].
  split; [eapply registry_getOrCreatePokemon, E|].
  unfold makeDetail. cbn [truthy].
  rewrite (iconHTML_nonspace (Some (mon_iconId mon))).
  rewrite andb_false_r. split; [apply iconHTML_nonspace|reflexivity].
Qed.

Lemma theTurn_modifyCurrentTurn f c :
  currentTurn c < List.length (turnStore c) ->
  theTurn (modifyCurrentTurn f c) = f (theTurn c).
Proof.
  intros H. unfold theTurn, getTurn, modifyCurrentTurn. simpl.
  now apply updateAt_nth_same.
Qed.

Lemma theTurn_registryOnly c c' : registryOnly c c' -> theTurn c' = theTurn c.
Proof. intros []. unfold theTurn, getTurn. congruence. Qed.

Lemma filterTruthy_idem xs : filterTruthy (filterTruthy xs) = filterTruthy xs.
Proof.
  unfold filterTruthy. induction xs as [|x r IH]; simpl; [reflexivity|].
  destruct (nonEmpty x) eqn:E; simpl; [now rewrite E, IH|assumption].
Qed.

Lemma parseExtras_truthy parts i :
  filterTruthy (parseExtras parts i) = parseExtras parts i.
Proof. apply filterTruthy_idem. Qed.

(** An annotation at index 3 or later means the record has its first three
    fields. *)
Lemma extras_fields parts :
  parseExtras parts 3 <> [] ->
  exists tag raw hp rest, parts = tag :: raw :: hp :: rest.
Proof.
  destruct parts as [|tag [|raw [|hp rest]]]; try (intros H; now elim H).
  eauto.
Qed.

(** What a flush does to the current turn. *)
Lemma flushPendingFieldEnds_spec c :
  currentTurn c < List.length (turnStore c) ->
  let c' := flushPendingFieldEnds c in
  t_endEvents (theTurn c') = (t_endEvents (theTurn c) ++ fieldEndLine c)%list
  /\ t_actions (theTurn c') = t_actions (theTurn c)
  /\ pendingFieldEnds c' = []
  /\ currentTurn c' = currentTurn c
  /\ List.length (turnStore c') = List.length (turnStore c)
  /\ actionStore c' = actionStore c
  /\ currentAction c' = currentAction c
  /\ pokemon c' = pokemon c /\ teams c' = teams c.
Proof.
  intros Hv. unfold flushPendingFieldEnds, fieldEndLine.
  destruct (pendingFieldEnds c) as [|e es] eqn:E; cbv zeta.
  - rewrite app_nil_r. repeat split; auto.
  - change (theTurn (set_pendingFieldEnds [] ?x)) with (theTurn x).
    unfold pushEndEvent. rewrite theTurn_modifyCurrentTurn by assumption.
    repeat split. simpl. apply updateAt_length.
Qed.

(** C5. A damage or heal record with an annotation that is an end-of-turn
    source is processed without an exception; its detail goes to the end
    events of the current turn, right after the line of the pending field
    ends when there are any, and no action is touched. *)
Theorem end_of_turn_damage_in_trailing_bucket (c : ParseContext)
  (parts : list string) :
  reachable c ->
  part parts 0 = Some "-damage" \/ part parts 0 = Some "-heal" ->
  existsb isEndOfTurnSource (parseExtras parts 3) = true ->
  exists c' detail raw hp,
    parseRecord c parts = Ok c'
    /\ part parts 1 = Some raw /\ part parts 2 = Some hp
    /\ t_endEvents (theTurn c')
       = (t_endEvents (theTurn c) ++ fieldEndLine c ++ [detail])%list
    /\ nonEmpty (d_html detail) = true
    /\ d_text detail
       = trim (getPokemonDisplayName c' (r_ref (parsePokemonRef raw)) ++ " "
               ++ damageBody (lastDisplayHP c (r_ref (parsePokemonRef raw)))
                    (formatHPStatus (parseHPStatus hp)) (parseExtras parts 3))
    /\ currentTurn c' = currentTurn c
    /\ t_actions (theTurn c') = t_actions (theTurn c)
    /\ actionStore c' = actionStore c
    /\ currentAction c' = currentAction c
    /\ pendingFieldEnds c' = [].
Proof.
  intros Hr Htag Heot.
  destruct (reachable_invariants c Hr) as [[_ Hv] _].
  assert (Hne : parseExtras parts 3 <> []).
  { intros E. rewrite E in Heot. discriminate. }
  destruct (extras_fields parts Hne) as (tag & raw & hp & rest & ->).
  assert (Hcase : parseRecord c (tag :: raw :: hp :: rest)
                  = caseDamage c (tag :: raw :: hp :: rest)).
  { unfold parseRecord. destruct Htag as [H|H]; now rewrite H. }
  rewrite Hcase. unfold caseDamage.
  change (part (tag :: raw :: hp :: rest) 1) with (Some raw).
  change (part (tag :: raw :: hp :: rest) 2) with (Some hp).
  cbn [defined bind]. set (ref := r_ref (parsePokemonRef raw)).
  destruct (getOrCreatePokemon c ref (resolveSide ref) None) as [c1 mon] eqn:E1.
  cbn [bind]. cbv zeta.
  rewrite parseExtras_truthy, Heot. cbn [andb].
  set (extras := parseExtras (tag :: raw :: hp :: rest) 3).
  set (formatted := formatHPStatus (parseHPStatus hp)).
  set (c2 := modifyPokemon ref _ c1).
  assert (R2 : registryOnly c c2).
  { eapply registryOnly_trans; [eapply registry_getOrCreatePokemon, E1|].
    apply registry_modifyPokemon. }
  set (c3 := if Nat.ltb 0 (List.length (pendingFieldEnds c2))
             then flushPendingFieldEnds c2 else c2).
  assert (Hv2 : currentTurn c2 < List.length (turnStore c2)).
  { destruct R2 as [Rts _ Rct _ _ _ _ _]. congruence. }
  assert (H3 : t_endEvents (theTurn c3)
               = (t_endEvents (theTurn c) ++ fieldEndLine c)%list
               /\ t_actions (theTurn c3) = t_actions (theTurn c)
               /\ pendingFieldEnds c3 = []
               /\ currentTurn c3 = currentTurn c
               /\ List.length (turnStore c3) = List.length (turnStore c)
               /\ actionStore c3 = actionStore c
               /\ currentAction c3 = currentAction c).
  { destruct (flushPendingFieldEnds_spec c2 Hv2)
      as (Fe & Fa & Fp & Fc & Fl & Fs & Fca & _).
    pose proof (theTurn_registryOnly _ _ R2) as Ht.
    destruct R2 as [Rts Rtu Rct Ras Rca Rlp Rpf Rpa].
    assert (Hfl : fieldEndLine c2 = fieldEndLine c)
      by (unfold fieldEndLine; now rewrite Rpf).
    subst c3. clearbody c2. remember (pendingFieldEnds c2) as pf eqn:Ep.
    symmetry in Ep. destruct pf as [|e es].
    - cbn [List.length Nat.ltb Nat.leb].
      assert (Hnil : fieldEndLine c = []).
      { assert (E0 : pendingFieldEnds c = []) by congruence.
        unfold fieldEndLine. now rewrite E0. }
      rewrite Hnil, app_nil_r, Ht.
      repeat split; congruence.
    - cbn [List.length Nat.ltb Nat.leb].
      rewrite Fe, Fa, Fp, Fc, Fl, Fs, Fca, Hfl, Ht.
      repeat split; congruence. }
  destruct H3 as (He3 & Ha3 & Hp3 & Hc3 & Hl3 & Hs3 & Hca3).
  destruct (detailWithIcon c3 ref (damageBody (mon_lastDisplayHP mon) formatted extras))
    as [c4 detail] eqn:E4.
  destruct (detailWithIcon_spec _ _ _ _ _ E4) as (R4 & Hhtml & Htext).
  pose proof (theTurn_registryOnly _ _ R4) as Ht4.
  destruct R4 as [Qts Qtu Qct Qas Qca Qlp Qpf Qpa].
  assert (Hv4 : currentTurn c4 < List.length (turnStore c4)) by congruence.
  exists (appendDetail c4 detail true), detail, raw, hp.
  split; [reflexivity|]. split; [reflexivity|]. split; [reflexivity|].
  assert (Happ : appendDetail c4 detail true = pushEndEvent detail c4).
  { unfold appendDetail. rewrite Hhtml, andb_false_r.
    now destruct (currentAction c4). }
  rewrite Happ. unfold pushEndEvent.
  rewrite theTurn_modifyCurrentTurn by assumption.
  rewrite (getOrCreatePokemon_previous _ _ _ _ _ _ E1) in Htext.
  cbn [t_endEvents t_actions set_t_endEvents].
  rewrite Ht4, He3, Ha3, <- app_assoc.
  repeat split; try assumption; simpl; congruence.
Qed.

Lemma end_of_turn_damage_in_trailing_bucket_witness :
  map d_text (fieldEndLine trickRoomEnding) = ["Trick Room ends"]
  /\ exists c' detail raw hp,
    parseRecord trickRoomEnding poisonDamage = Ok c'
    /\ part poisonDamage 1 = Some raw /\ part poisonDamage 2 = Some hp
    /\ t_endEvents (theTurn c')
       = (t_endEvents (theTurn trickRoomEnding)
          ++ fieldEndLine trickRoomEnding ++ [detail])%list
    /\ nonEmpty (d_html detail) = true
    /\ d_text detail
       = trim (getPokemonDisplayName c' (r_ref (parsePokemonRef raw)) ++ " "
               ++ damageBody
                    (lastDisplayHP trickRoomEnding (r_ref (parsePokemonRef raw)))
                    (formatHPStatus (parseHPStatus hp))
                    (parseExtras poisonDamage 3))
    /\ currentTurn c' = currentTurn trickRoomEnding
    /\ t_actions (theTurn c') = t_actions (theTurn trickRoomEnding)
    /\ actionStore c' = actionStore trickRoomEnding
    /\ currentAction c' = currentAction trickRoomEnding
    /\ pendingFieldEnds c' = [].
Proof.
  split; [vm_compute; reflexivity|].
  apply (end_of_turn_damage_in_trailing_bucket trickRoomEnding poisonDamage).
  - exact reachable_trickRoomEnding.
  - left. reflexivity.
  - vm_compute. reflexivity.
Defined.

End DetailFacts.

(** * The registry: every pokemon has an icon *)
Module RegistryFacts.
Import Js Utils Icons Parser JsFacts FrameFacts TurnFacts DetailFacts.

Lemma lookup_assign_same {A : Type} (k : string) (v : A) m :
  lookup k (assign k v m) = Some v.
Proof.
  induction m as [|[k' w] r IH]; simpl.
  - now rewrite String.eqb_refl.
  - destruct (String.eqb k' k) eqn:E; simpl; rewrite E; auto.
Qed.

Lemma lookup_assign_other {A : Type} (k k' : string) (v : A) m :
  k <> k' -> lookup k (assign k' v m) = lookup k m.
Proof.
  intros Hne. induction m as [|[k0 w] r IH]; simpl.
  - destruct (String.eqb_spec k' k); [congruence|reflexivity].
  - destruct (String.eqb_spec k0 k') as [->|Hn]; simpl.
    + destruct (String.eqb_spec k' k); [congruence|reflexivity].
    + destruct (String.eqb k0 k); auto.
Qed.

Lemma iconIdOr_nonEmpty species fallback :
  nonEmpty fallback = true -> nonEmpty (iconIdOr species fallback) = true.
Proof. intros H. unfold iconIdOr. now destruct (nonEmpty (toIconId _)) eqn:E. Qed.

Lemma icons_same c c' : pokemon c' = pokemon c -> iconsDefined c -> iconsDefined c'.
Proof. unfold iconsDefined, pokemonGet. intros ->. auto. Qed.

Lemma icons_assign ref mon c :
  nonEmpty (mon_iconId mon) = true -> iconsDefined c ->
  iconsDefined (set_pokemon (assign ref mon (pokemon c)) c).
Proof.
  intros Hm Hc r m. unfold pokemonGet. simpl.
  destruct (String.eqb_spec r ref) as [->|Hne].
  - rewrite lookup_assign_same. now intros [= <-].
  - rewrite lookup_assign_other by assumption. apply Hc.
Qed.

Lemma icons_start names format : iconsDefined (startContext names format).
Proof. intros r m. discriminate. Qed.

Ltac icons_same := intros; eapply icons_same; [|eassumption]; reflexivity.

Lemma icons_set_players v c : iconsDefined c -> iconsDefined (set_players v c).
Proof. icons_same. Qed.
Lemma icons_set_formatName v c : iconsDefined c -> iconsDefined (set_formatName v c).
Proof. icons_same. Qed.
Lemma icons_set_turnStore v c : iconsDefined c -> iconsDefined (set_turnStore v c).
Proof. icons_same. Qed.
Lemma icons_set_turns v c : iconsDefined c -> iconsDefined (set_turns v c).
Proof. icons_same. Qed.
Lemma icons_set_currentTurn v c : iconsDefined c -> iconsDefined (set_currentTurn v c).
Proof. icons_same. Qed.
Lemma icons_set_actionStore v c : iconsDefined c -> iconsDefined (set_actionStore v c).
Proof. icons_same. Qed.
Lemma icons_set_currentAction v c : iconsDefined c -> iconsDefined (set_currentAction v c).
Proof. icons_same. Qed.
Lemma icons_set_teams v c : iconsDefined c -> iconsDefined (set_teams v c).
Proof. icons_same. Qed.
Lemma icons_set_winner v c : iconsDefined c -> iconsDefined (set_winner v c).
Proof. icons_same. Qed.
Lemma icons_set_loser v c : iconsDefined c -> iconsDefined (set_loser v c).
Proof. icons_same. Qed.
Lemma icons_set_resultNote v c : iconsDefined c -> iconsDefined (set_resultNote v c).
Proof. icons_same. Qed.
Lemma icons_set_leadPhase v c : iconsDefined c -> iconsDefined (set_leadPhase v c).
Proof. icons_same. Qed.
Lemma icons_set_faintedThisTurn v c :
  iconsDefined c -> iconsDefined (set_faintedThisTurn v c).
Proof. icons_same. Qed.
Lemma icons_set_currentWeather v c :
  iconsDefined c -> iconsDefined (set_currentWeather v c).
Proof. icons_same. Qed.
Lemma icons_set_sideConditions v c :
  iconsDefined c -> iconsDefined (set_sideConditions v c).
Proof. icons_same. Qed.
Lemma icons_set_pendingAbilityBoost v c :
  iconsDefined c -> iconsDefined (set_pendingAbilityBoost v c).
Proof. icons_same. Qed.
Lemma icons_set_recentMoves v c : iconsDefined c -> iconsDefined (set_recentMoves v c).
Proof. icons_same. Qed.
Lemma icons_set_activePositions v c :
  iconsDefined c -> iconsDefined (set_activePositions v c).
Proof. icons_same. Qed.
Lemma icons_set_pendingFieldEnds v c :
  iconsDefined c -> iconsDefined (set_pendingFieldEnds v c).
Proof. icons_same. Qed.
Lemma icons_set_pendingProtects v c :
  iconsDefined c -> iconsDefined (set_pendingProtects v c).
Proof. icons_same. Qed.
Lemma icons_modifyCurrentTurn f c : iconsDefined c -> iconsDefined (modifyCurrentTurn f c).
Proof. icons_same. Qed.
Lemma icons_modifyAction r f c : iconsDefined c -> iconsDefined (modifyAction r f c).
Proof. icons_same. Qed.
Lemma icons_pushEndEvent e c : iconsDefined c -> iconsDefined (pushEndEvent e c).
Proof. icons_same. Qed.
Lemma icons_pushDetail r e c : iconsDefined c -> iconsDefined (pushDetail r e c).
Proof. icons_same. Qed.
Lemma icons_setCurrentAction a c : iconsDefined c -> iconsDefined (setCurrentAction c a).
Proof. icons_same. Qed.
Lemma icons_appendVerb r suffix c : iconsDefined c -> iconsDefined (appendVerb r suffix c).
Proof. icons_same. Qed.
Lemma icons_addNoteAction ref note c :
  iconsDefined c -> iconsDefined (addNoteAction c ref note).
Proof. icons_same. Qed.

Create HintDb icons.
#[local] Hint Resolve icons_set_players icons_set_formatName icons_set_turnStore
  icons_set_turns icons_set_currentTurn icons_set_actionStore
  icons_set_currentAction icons_set_teams icons_set_winner icons_set_loser
  icons_set_resultNote icons_set_leadPhase icons_set_faintedThisTurn
  icons_set_currentWeather icons_set_sideConditions icons_set_pendingAbilityBoost
  icons_set_recentMoves icons_set_activePositions icons_set_pendingFieldEnds
  icons_set_pendingProtects icons_modifyCurrentTurn icons_modifyAction
  icons_pushEndEvent icons_pushDetail icons_setCurrentAction icons_appendVerb
  icons_addNoteAction : icons.

Lemma icons_appendDetail d b c : iconsDefined c -> iconsDefined (appendDetail c d b).
Proof.
  intros. unfold appendDetail. destruct (_ && _); [assumption|].
  destruct (currentAction c); [destruct b|]; auto with icons.
Qed.

Lemma icons_appendDetailString d b c :
  iconsDefined c -> iconsDefined (appendDetailString c d b).
Proof.
  intros. unfold appendDetailString. destruct (negb _); [assumption|].
  destruct (currentAction c); [destruct b|]; auto with icons.
Qed.

Lemma icons_pushHeaderEvent text c :
  iconsDefined c -> iconsDefined (pushHeaderEvent c text).
Proof.
  intros. unfold pushHeaderEvent. destruct (t_actions _); auto with icons.
Qed.

Lemma icons_flushPendingFieldEnds c :
  iconsDefined c -> iconsDefined (flushPendingFieldEnds c).
Proof.
  intros. unfold flushPendingFieldEnds. destruct (pendingFieldEnds c);
    auto with icons.
Qed.

Lemma icons_ensureCurrentTurn n c :
  iconsDefined c -> iconsDefined (ensureCurrentTurn c n).
Proof.
  intros. unfold ensureCurrentTurn. destruct (numEq _ _); [assumption|].
  cbv zeta. auto 12 using icons_flushPendingFieldEnds with icons.
Qed.

Lemma icons_patchTargetName ref suffix c :
  iconsDefined c -> iconsDefined (patchTargetName c ref suffix).
Proof.
  intros. unfold patchTargetName.
  repeat match goal with
         | |- context [match ?x with _ => _ end] => destruct x
         end; auto with icons.
Qed.

(** A mutation of a registry entry that keeps its icon. *)
Lemma icons_modifyPokemon ref f c :
  (forall m, nonEmpty (mon_iconId m) = true -> nonEmpty (mon_iconId (f m)) = true) ->
  iconsDefined c -> iconsDefined (modifyPokemon ref f c).
Proof.
  intros Hf Hc. unfold modifyPokemon.
  destruct (pokemonGet c ref) as [mon|] eqn:E; [|assumption].
  apply icons_assign; [|assumption]. eauto.
Qed.

Lemma getOrCreatePokemon_spec ref side species c c' mon :
  getOrCreatePokemon c ref side species = (c', mon) ->
  iconsDefined c ->
  iconsDefined c' /\ pokemonGet c' ref = Some mon
  /\ nonEmpty (mon_iconId mon) = true.
Proof.
  unfold getOrCreatePokemon. destruct (pokemonGet c ref) as [m|] eqn:E;
    intros H Hc; apply pair_equal_spec in H as [<- <-].
  - eauto.
  - assert (Hi : nonEmpty (iconIdOr match species with
                                     | Some s => s
                                     | None => "Unknown"
                                     end DEFAULT_ICON_ID) = true)
      by now apply iconIdOr_nonEmpty.
    split; [|split].
    + apply icons_assign; assumption.
    + unfold pokemonGet. simpl. apply lookup_assign_same.
    + exact Hi.
Qed.

Lemma icons_getOrCreatePokemon ref side species c c' mon :
  getOrCreatePokemon c ref side species = (c', mon) ->
  iconsDefined c -> iconsDefined c'.
Proof. intros H Hc. now destruct (getOrCreatePokemon_spec _ _ _ _ _ _ H Hc). Qed.

Lemma icons_detailWithIcon ref body c c' d :
  detailWithIcon c ref body = (c', d) -> iconsDefined c -> iconsDefined c'.
Proof.
  unfold detailWithIcon.
  destruct (getOrCreatePokemon c ref (resolveSide ref) None) as [c1 mon] eqn:E.
  intros H. apply pair_equal_spec in H as [<- _].
  eauto using icons_getOrCreatePokemon.
Qed.

Lemma icons_targetBoostDetails groups c c' ds :
  targetBoostDetails c groups = (c', ds) -> iconsDefined c -> iconsDefined c'.
Proof.
  revert c c' ds. induction groups as [|[targetRef targetBoosts] rest IH];
    simpl; intros c c' ds.
  - intros H. apply pair_equal_spec in H as [<- _]. auto.
  - destruct (detailWithIcon c targetRef _) as [c1 d] eqn:E1.
    destruct (targetBoostDetails c1 rest) as [c2 ds'] eqn:E2.
    intros H. apply pair_equal_spec in H as [<- _].
    eauto using icons_detailWithIcon.
Qed.

#[local] Hint Resolve icons_appendDetail icons_appendDetailString
  icons_pushHeaderEvent icons_flushPendingFieldEnds icons_ensureCurrentTurn
  icons_patchTargetName : icons.

Lemma icons_finalizePendingAbilityBoost c :
  iconsDefined c -> iconsDefined (finalizePendingAbilityBoost c).
Proof.
  intros H. unfold finalizePendingAbilityBoost.
  destruct (pendingAbilityBoost c) as [[ref ability boosts]|]; [|assumption].
  destruct (targetBoostDetails c (boostsByTarget boosts)) as [c2 rest] eqn:E.
  assert (H2 : iconsDefined c2) by eauto using icons_targetBoostDetails.
  apply icons_set_pendingAbilityBoost.
  destruct (combineDetails _); [|assumption].
  destruct (beforeFirstAction c2); auto with icons.
Qed.

Lemma icons_addSpecies side species c c' :
  addSpecies c side species = Ok c' -> iconsDefined c -> iconsDefined c'.
Proof.
  unfold addSpecies.
  destruct (negb _); [intros H; apply Ok_inj in H; now subst|].
  destruct (arrayIncludes _ _); [intros H; apply Ok_inj in H; now subst|].
  destruct side as [k|]; [|discriminate].
  destruct (String.eqb k "p1");
    [intros H; apply Ok_inj in H; subst; auto with icons|].
  destruct (String.eqb k "p2"); [|discriminate].
  intros H; apply Ok_inj in H; subst; auto with icons.
Qed.

Lemma icons_updatePokemonSpecies ref species c c' :
  updatePokemonSpecies c ref species = Ok c' -> iconsDefined c -> iconsDefined c'.
Proof.
  unfold updatePokemonSpecies.
  destruct (getOrCreatePokemon c ref (resolveSide ref) species) as [c1 mon] eqn:E.
  destruct species as [sp|]; [|discriminate]. intros H Hc.
  eapply icons_addSpecies; [exact H|].
  apply icons_modifyPokemon.
  - intros m Hm. simpl. now apply iconIdOr_nonEmpty.
  - eauto using icons_getOrCreatePokemon.
Qed.

#[local] Hint Resolve icons_finalizePendingAbilityBoost
  icons_getOrCreatePokemon icons_detailWithIcon icons_addSpecies
  icons_updatePokemonSpecies : icons.
#[local] Hint Extern 1 (iconsDefined (modifyPokemon _ _ _)) =>
  apply icons_modifyPokemon; [intros; simpl; assumption|] : icons.

(** ** The handlers *)

Ltac icons_handler h :=
  intros ? ? ? H Hc; unfold h in H; cbv beta zeta in H;
  repeat (split_context; cbv beta zeta in * );
  eauto 12 with icons.

Lemma icons_casePlayer c parts c' :
  casePlayer c parts = Ok c' -> iconsDefined c -> iconsDefined c'.
Proof. revert c parts c'. icons_handler casePlayer. Qed.
Lemma icons_caseFormat c parts c' :
  caseFormat c parts = Ok c' -> iconsDefined c -> iconsDefined c'.
Proof. revert c parts c'. icons_handler caseFormat. Qed.
Lemma icons_caseWin c parts c' :
  caseWin c parts = Ok c' -> iconsDefined c -> iconsDefined c'.
Proof. revert c parts c'. icons_handler caseWin. Qed.
Lemma icons_caseLoss c parts c' :
  caseLoss c parts = Ok c' -> iconsDefined c -> iconsDefined c'.
Proof. revert c parts c'. icons_handler caseLoss. Qed.
Lemma icons_caseTurn c parts c' :
  caseTurn c parts = Ok c' -> iconsDefined c -> iconsDefined c'.
Proof. revert c parts c'. icons_handler caseTurn. Qed.
Lemma icons_casePoke c parts c' :
  casePoke c parts = Ok c' -> iconsDefined c -> iconsDefined c'.
Proof. revert c parts c'. icons_handler casePoke. Qed.
Lemma icons_caseCant c parts c' :
  caseCant c parts = Ok c' -> iconsDefined c -> iconsDefined c'.
Proof. revert c parts c'. icons_handler caseCant. Qed.
Lemma icons_caseDamage c parts c' :
  caseDamage c parts = Ok c' -> iconsDefined c -> iconsDefined c'.
Proof. revert c parts c'. icons_handler caseDamage. Qed.
Lemma icons_caseBoost tag c parts c' :
  caseBoost tag c parts = Ok c' -> iconsDefined c -> iconsDefined c'.
Proof. revert c parts c'. icons_handler caseBoost. Qed.
Lemma icons_caseStatus c parts c' :
  caseStatus c parts = Ok c' -> iconsDefined c -> iconsDefined c'.
Proof. revert c parts c'. icons_handler caseStatus. Qed.
Lemma icons_caseCureStatus c parts c' :
  caseCureStatus c parts = Ok c' -> iconsDefined c -> iconsDefined c'.
Proof. revert c parts c'. icons_handler caseCureStatus. Qed.
Lemma icons_caseAbility c parts c' :
  caseAbility c parts = Ok c' -> iconsDefined c -> iconsDefined c'.
Proof. revert c parts c'. icons_handler caseAbility. Qed.
Lemma icons_caseItem label c parts c' :
  caseItem label c parts = Ok c' -> iconsDefined c -> iconsDefined c'.
Proof. revert c parts c'. icons_handler caseItem. Qed.
Lemma icons_caseFieldStart c parts c' :
  caseFieldStart c parts = Ok c' -> iconsDefined c -> iconsDefined c'.
Proof. revert c parts c'. icons_handler caseFieldStart. Qed.
Lemma icons_caseFieldEnd c parts c' :
  caseFieldEnd c parts = Ok c' -> iconsDefined c -> iconsDefined c'.
Proof. revert c parts c'. icons_handler caseFieldEnd. Qed.
Lemma icons_caseWeather c parts c' :
  caseWeather c parts = Ok c' -> iconsDefined c -> iconsDefined c'.
Proof. revert c parts c'. icons_handler caseWeather. Qed.
Lemma icons_caseSideStart c parts c' :
  caseSideStart c parts = Ok c' -> iconsDefined c -> iconsDefined c'.
Proof. revert c parts c'. icons_handler caseSideStart. Qed.
Lemma icons_caseSideEnd c parts c' :
  caseSideEnd c parts = Ok c' -> iconsDefined c -> iconsDefined c'.
Proof. revert c parts c'. icons_handler caseSideEnd. Qed.
Lemma icons_caseTerrain c parts c' :
  caseTerrain c parts = Ok c' -> iconsDefined c -> iconsDefined c'.
Proof. revert c parts c'. icons_handler caseTerrain. Qed.
Lemma icons_caseMessage c parts c' :
  caseMessage c parts = Ok c' -> iconsDefined c -> iconsDefined c'.
Proof. revert c parts c'. icons_handler caseMessage. Qed.
Lemma icons_caseSingleTurn c parts c' :
  caseSingleTurn c parts = Ok c' -> iconsDefined c -> iconsDefined c'.
Proof. revert c parts c'. icons_handler caseSingleTurn. Qed.
Lemma icons_caseActivate c parts c' :
  caseActivate c parts = Ok c' -> iconsDefined c -> iconsDefined c'.
Proof. revert c parts c'. icons_handler caseActivate. Qed.
Lemma icons_caseFail c parts c' :
  caseFail c parts = Ok c' -> iconsDefined c -> iconsDefined c'.
Proof. revert c parts c'. icons_handler caseFail. Qed.
Lemma icons_caseMiss c parts c' :
  caseMiss c parts = Ok c' -> iconsDefined c -> iconsDefined c'.
Proof. revert c parts c'. icons_handler caseMiss. Qed.
Lemma icons_caseImmune c parts c' :
  caseImmune c parts = Ok c' -> iconsDefined c -> iconsDefined c'.
Proof. revert c parts c'. icons_handler caseImmune. Qed.
Lemma icons_caseFaint c parts c' :
  caseFaint c parts = Ok c' -> iconsDefined c -> iconsDefined c'.
Proof. revert c parts c'. icons_handler caseFaint. Qed.
Lemma icons_caseTerastallize c parts c' :
  caseTerastallize c parts = Ok c' -> iconsDefined c -> iconsDefined c'.
Proof. revert c parts c'. icons_handler caseTerastallize. Qed.
Lemma icons_caseFormeChange c parts c' :
  caseFormeChange c parts = Ok c' -> iconsDefined c -> iconsDefined c'.
Proof. revert c parts c'. icons_handler caseFormeChange. Qed.

(** What a move record does: after the pending ability boost is settled,
    the actor is in the registry, and a new action object, a move of that
    actor, becomes the current action and the last action of the current
    turn. *)
Lemma caseMove_spec c parts c1 :
  caseMove c parts = Ok c1 ->
  exists raw moveRaw c0 actor action,
    part parts 1 = Some raw /\ part parts 2 = Some moveRaw
    /\ registryOnly (finalizePendingAbilityBoost c) c0
    /\ pokemonGet c0 (r_ref (parsePokemonRef raw)) = Some actor
    /\ (iconsDefined c -> iconsDefined c0)
    /\ c1 = setCurrentAction c0 action
    /\ a_type action = TMove
    /\ a_actorRef action = Some (r_ref (parsePokemonRef raw))
    /\ a_verb action = prettifyMove moveRaw
    /\ a_details action
       = match parseExtras parts 4 with
         | [] => []
         | _ :: _ => [makeDetail (join "; " (parseExtras parts 4)) None]
         end.
Proof.
  unfold caseMove. cbv zeta.
  destruct (part parts 1) as [raw|]; [|discriminate]. cbn [defined bind].
  destruct (parsePokemonRef raw) as [ref nickname side] eqn:Eref.
  destruct (part parts 2) as [moveRaw|]; [|discriminate]. cbn [defined bind].
  destruct (getOrCreatePokemon (finalizePendingAbilityBoost c) ref side None)
    as [c0 actor] eqn:E.
  intros H. apply Ok_inj in H.
  set (actor' := if nonEmpty nickname then set_mon_nickname (Some nickname) actor
                 else actor) in *.
  set (c0' := set_recentMoves _ (set_pokemon (assign ref actor' (pokemon c0)) c0)) in *.
  exists raw, moveRaw, c0', actor'.
  match type of H with
  | setCurrentAction _ ?a = _ => exists a
  end.
  rewrite Eref. cbn [r_ref].
  split; [reflexivity|]. split; [reflexivity|].
  split; [|split; [|split; [|split; [symmetry; exact H|]]]].
  - eapply registryOnly_trans; [eapply registry_getOrCreatePokemon, E|].
    constructor; reflexivity.
  - unfold pokemonGet. simpl. apply lookup_assign_same.
  - intros Hc.
    destruct (getOrCreatePokemon_spec _ _ _ _ _ _ E
                (icons_finalizePendingAbilityBoost _ Hc)) as (Hc0 & _ & Hi).
    apply icons_set_recentMoves, icons_assign; [|assumption].
    subst actor'. now destruct (nonEmpty nickname).
  - repeat split.
Qed.

Lemma icons_caseMove c parts c' :
  caseMove c parts = Ok c' -> iconsDefined c -> iconsDefined c'.
Proof.
  intros H Hc.
  destruct (caseMove_spec _ _ _ H)
    as (raw & moveRaw & c0 & actor & action & _ & _ & _ & _ & Hi & -> & _).
  auto with icons.
Qed.

Lemma icons_caseSwitch c parts c' :
  caseSwitch c parts = Ok c' -> iconsDefined c -> iconsDefined c'.
Proof.
  unfold caseSwitch. cbv zeta.
  destruct (part parts 1) as [raw|]; [|discriminate]. cbn [defined bind].
  destruct (parsePokemonRef raw) as [ref nickname side].
  destruct (updatePokemonSpecies (finalizePendingAbilityBoost c) ref _)
    as [c1|e] eqn:E; [|discriminate]. cbn [bind].
  intros H Hc.
  assert (H1 : iconsDefined c1) by eauto with icons.
  destruct (pokemonGet c1 ref) as [mon|] eqn:Em;
    [|apply Ok_inj in H; now subst].
  assert (Hm : nonEmpty (mon_iconId mon) = true) by eauto.
  match type of H with
  | context [assign ref ?m (pokemon c1)] => set (mon' := m) in *
  end.
  assert (Hm' : nonEmpty (mon_iconId mon') = true).
  { subst mon'. now destruct (nonEmpty nickname). }
  assert (H2 : iconsDefined (set_pokemon (assign ref mon' (pokemon c1)) c1))
    by now apply icons_assign.
  clearbody mon'.
  repeat (split_context; cbv beta zeta in * ); auto 12 with icons.
Qed.

(** A record keeps the icons defined. *)
Ltac icons_branch lem :=
  match goal with
  | |- (if ?b then _ else _) = _ -> _ =>
      destruct b eqn:?;
      [ let H := fresh "H" in intros H; eapply lem; [exact H|assumption] | ]
  end.

Lemma icons_parseRecord c parts c' :
  iconsDefined c -> parseRecord c parts = Ok c' -> iconsDefined c'.
Proof.
  intros Hc. unfold parseRecord. cbv zeta.
  icons_branch icons_casePlayer. icons_branch icons_caseFormat.
  icons_branch icons_caseWin. icons_branch icons_caseLoss.
  icons_branch icons_caseTurn. icons_branch icons_casePoke.
  icons_branch icons_caseSwitch. icons_branch icons_caseMove.
  icons_branch icons_caseCant. icons_branch icons_caseDamage.
  icons_branch icons_caseBoost. icons_branch icons_caseStatus.
  icons_branch icons_caseCureStatus. icons_branch icons_caseAbility.
  icons_branch icons_caseItem. icons_branch icons_caseItem.
  icons_branch icons_caseFieldStart. icons_branch icons_caseFieldEnd.
  icons_branch icons_caseWeather. icons_branch icons_caseSideStart.
  icons_branch icons_caseSideEnd. icons_branch icons_caseTerrain.
  icons_branch icons_caseMessage. icons_branch icons_caseSingleTurn.
  icons_branch icons_caseActivate. icons_branch icons_caseFail.
  icons_branch icons_caseMiss. icons_branch icons_caseImmune.
  icons_branch icons_caseFaint. icons_branch icons_caseTerastallize.
  icons_branch icons_caseFormeChange.
  intros H. apply Ok_inj in H. now subst.
Qed.

Lemma reachable_icons c : reachable c -> iconsDefined c.
Proof.
  induction 1; [apply icons_start|eauto using icons_parseRecord].
Qed.

End RegistryFacts.

(** * The forced-switch merge *)
Module SwitchFacts.
Import Js Utils Icons Parser Scenarios JsFacts FrameFacts TurnFacts DetailFacts RegistryFacts.

(** ** The pending ability boost never adds an action *)

Lemma registry_targetBoostDetails groups c c' ds :
  targetBoostDetails c groups = (c', ds) -> registryOnly c c'.
Proof.
  revert c c' ds. induction groups as [|[targetRef targetBoosts] rest IH];
    simpl; intros c c' ds.
  - intros H. apply pair_equal_spec in H as [<- _]. apply registryOnly_refl.
  - destruct (detailWithIcon c targetRef _) as [c1 d] eqn:E1.
    destruct (targetBoostDetails c1 rest) as [c2 ds'] eqn:E2.
    intros H. apply pair_equal_spec in H as [<- _].
    destruct (detailWithIcon_spec _ _ _ _ _ E1) as [R1 _].
    eauto using registryOnly_trans.
Qed.

Lemma noNewAction_refl c : noNewAction c c.
Proof. constructor; reflexivity. Qed.

Lemma noNewAction_trans c1 c2 c3 :
  noNewAction c1 c2 -> noNewAction c2 c3 -> noNewAction c1 c3.
Proof. intros [] []. constructor; intros; congruence. Qed.

Lemma noNewAction_registryOnly c c' : registryOnly c c' -> noNewAction c c'.
Proof.
  intros [Hts _ Hct Has Hca _ _ _].
  constructor; unfold getTurn; intros; congruence.
Qed.

Lemma noNewAction_modifyCurrentTurn f c :
  (forall t, t_actions (f t) = t_actions t) ->
  noNewAction c (modifyCurrentTurn f c).
Proof.
  intros Hf. constructor; try reflexivity; simpl.
  - apply updateAt_length.
  - intros r. unfold getTurn. simpl. now apply (updateAt_proj t_actions).
Qed.

Lemma noNewAction_modifyAction r f c : noNewAction c (modifyAction r f c).
Proof. constructor; try reflexivity. simpl. apply updateAt_length. Qed.

Lemma noNewAction_appendDetail d b c : noNewAction c (appendDetail c d b).
Proof.
  unfold appendDetail. destruct (_ && _); [apply noNewAction_refl|].
  destruct (currentAction c); [destruct b|];
    first [ now apply noNewAction_modifyCurrentTurn
          | apply noNewAction_modifyAction ].
Qed.

Lemma noNewAction_pushHeaderEvent text c : noNewAction c (pushHeaderEvent c text).
Proof.
  unfold pushHeaderEvent. destruct (t_actions _);
    now apply noNewAction_modifyCurrentTurn.
Qed.

Lemma noNewAction_finalize c : noNewAction c (finalizePendingAbilityBoost c).
Proof.
  unfold finalizePendingAbilityBoost.
  destruct (pendingAbilityBoost c) as [[ref ability boosts]|];
    [|apply noNewAction_refl].
  destruct (targetBoostDetails c (boostsByTarget boosts)) as [c2 rest] eqn:E.
  apply registry_targetBoostDetails, noNewAction_registryOnly in E.
  eapply noNewAction_trans; [exact E|].
  match goal with
  | |- noNewAction c2 (set_pendingAbilityBoost None ?x) =>
      apply (noNewAction_trans c2 x); [|constructor; reflexivity]
  end.
  destruct (combineDetails _); [|apply noNewAction_refl].
  destruct (beforeFirstAction c2);
    [apply noNewAction_pushHeaderEvent|apply noNewAction_appendDetail].
Qed.

Lemma finalize_clears c :
  pendingAbilityBoost (finalizePendingAbilityBoost c) = None.
Proof.
  unfold finalizePendingAbilityBoost.
  destruct (pendingAbilityBoost c) as [[ref ability boosts]|] eqn:E; [|exact E].
  now destruct (targetBoostDetails c (boostsByTarget boosts)).
Qed.

Lemma finalize_nothing_pending c :
  pendingAbilityBoost c = None -> finalizePendingAbilityBoost c = c.
Proof. intros H. unfold finalizePendingAbilityBoost. now rewrite H. Qed.

(** ** The registry after a species update *)

Lemma pokemon_addSpecies side species c c' :
  addSpecies c side species = Ok c' -> pokemon c' = pokemon c.
Proof.
  unfold addSpecies.
  destruct (negb _); [intros H; apply Ok_inj in H; now subst|].
  destruct (arrayIncludes _ _); [intros H; apply Ok_inj in H; now subst|].
  destruct side as [k|]; [|discriminate].
  destruct (String.eqb k "p1"); [intros H; apply Ok_inj in H; now subst|].
  destruct (String.eqb k "p2"); [|discriminate].
  intros H; apply Ok_inj in H; now subst.
Qed.

Lemma updatePokemonSpecies_registers ref species c c' :
  updatePokemonSpecies c ref species = Ok c' -> iconsDefined c ->
  exists mon, pokemonGet c' ref = Some mon.
Proof.
  unfold updatePokemonSpecies.
  destruct (getOrCreatePokemon c ref (resolveSide ref) species) as [c1 mon] eqn:E.
  destruct species as [sp|]; [|discriminate]. intros H Hc.
  destruct (getOrCreatePokemon_spec _ _ _ _ _ _ E Hc) as (_ & Hg & _).
  apply pokemon_addSpecies in H. unfold pokemonGet. rewrite H.
  unfold modifyPokemon. rewrite Hg. simpl. rewrite lookup_assign_same. eauto.
Qed.

(** ** Lists *)

Lemma existsb_find {A : Type} (p : A -> bool) (xs : list A) :
  existsb p xs = true -> exists x, find p xs = Some x /\ p x = true.
Proof.
  induction xs as [|x r IH]; simpl; [discriminate|].
  destruct (p x) eqn:E; [eauto|]. exact IH.
Qed.

Lemma forcedByMoveExtra_truthy extra :
  forcedByMoveExtra extra = true -> truthy (Some extra) = true.
Proof.
  unfold forcedByMoveExtra. intros H.
  apply andb_true_iff in H as [_ H]. now destruct extra.
Qed.

Lemma nth_length_app {A : Type} (xs : list A) (x d : A) :
  nth (List.length xs) (xs ++ [x])%list d = x.
Proof. rewrite app_nth2 by lia. now rewrite Nat.sub_diag. Qed.

Lemma arrow_text_nonEmpty a b : nonEmpty (a ++ " -> " ++ b) = true.
Proof. now destruct a. Qed.

Lemma iconHTML_nonEmpty iconId alt : nonEmpty (iconHTML iconId alt) = true.
Proof. reflexivity. Qed.

(** The detail of a forced switch shows both icons when both occupants have
    one. *)
Lemma switchDetail_icons ctx ref mon previous :
  nonEmpty (mon_iconId previous) = true -> nonEmpty (mon_iconId mon) = true ->
  switchDetail ctx ref mon (Some (mon_iconId previous)) (Some (monName previous))
  = mkDual
      (iconHTML (Some (mon_iconId previous))
         (orString (Some (monName previous)) "Previous")
       ++ " -> " ++ iconHTML (Some (mon_iconId mon)) (getPokemonDisplayName ctx ref))
      (orString (Some (monName previous)) "Previous" ++ " -> "
       ++ getPokemonDisplayName ctx ref).
Proof.
  intros Hp Hm. unfold switchDetail. cbv zeta. cbn [truthy].
  rewrite Hp, Hm, !iconHTML_nonEmpty. cbn [andb].
  unfold makeDetail. now rewrite arrow_text_nonEmpty.
Qed.

Lemma parseRecord_move c parts :
  part parts 0 = Some "move" -> parseRecord c parts = caseMove c parts.
Proof. intros H. unfold parseRecord. now rewrite H. Qed.

Lemma parseRecord_switch c parts :
  part parts 0 = Some "switch" \/ part parts 0 = Some "drag"
  \/ part parts 0 = Some "replace" ->
  parseRecord c parts = caseSwitch c parts.
Proof. intros [H|[H|H]]; unfold parseRecord; now rewrite H. Qed.

(** What [setCurrentAction] does. *)
Lemma setCurrentAction_spec c action :
  currentTurn c < List.length (turnStore c) ->
  let c' := setCurrentAction c action in
  let r := List.length (actionStore c) in
  currentAction c' = Some r
  /\ actionStore c' = (actionStore c ++ [action])%list
  /\ getAction c' r = action
  /\ currentTurn c' = currentTurn c
  /\ List.length (turnStore c') = List.length (turnStore c)
  /\ t_actions (theTurn c') = (t_actions (theTurn c) ++ [r])%list
  /\ pokemon c' = pokemon c /\ teams c' = teams c
  /\ pendingAbilityBoost c' = pendingAbilityBoost c.
Proof.
  intros Hv c' r. subst c' r. unfold setCurrentAction. cbv zeta.
  split; [reflexivity|]. split; [reflexivity|].
  split; [unfold getAction; simpl; apply nth_length_app|].
  split; [reflexivity|]. split; [simpl; apply updateAt_length|].
  split; [|repeat split].
  change (theTurn (set_currentAction ?v ?x)) with (theTurn x).
  rewrite theTurn_modifyCurrentTurn by exact Hv. reflexivity.
Qed.


End SwitchFacts.

(** * Identifiers, HP tokens and move names: further properties *)
Module TextFacts.
Import Js Utils Icons Parser Shapes JsFacts.

Lemma allChars_filterChars (p : ascii -> bool) (s : string) :
  allChars p (filterChars p s) = true.
Proof.
  induction s as [|c t IH]; simpl; [reflexivity|].
  destruct (p c) eqn:E; simpl; [now rewrite E|assumption].
Qed.

Lemma filterChars_all (p : ascii -> bool) (s : string) :
  allChars p s = true -> filterChars p s = s.
Proof.
  induction s as [|c t IH]; simpl; [reflexivity|].
  intros H. apply andb_prop in H as [Hc Ht]. rewrite Hc. now rewrite IH.
Qed.

Lemma filterChars_filterChars (p q : ascii -> bool) (s : string) :
  (forall c, p c = true -> q c = true) ->
  filterChars p (filterChars q s) = filterChars p s.
Proof.
  intros Hpq. induction s as [|c t IH]; simpl; [reflexivity|].
  destruct (q c) eqn:Eq; simpl.
  - now rewrite IH.
  - destruct (p c) eqn:Ep; [|assumption].
    apply Hpq in Ep. congruence.
Qed.

Lemma mapChars_fixed (f : ascii -> ascii) (p : ascii -> bool) (s : string) :
  (forall c, p c = true -> f c = c) -> allChars p s = true -> mapChars f s = s.
Proof.
  intros Hf. induction s as [|c t IH]; simpl; [reflexivity|].
  intros H. apply andb_prop in H as [Hc Ht]. now rewrite Hf, IH.
Qed.

Lemma allChars_weaken (p q : ascii -> bool) (s : string) :
  (forall c, p c = true -> q c = true) -> allChars p s = true -> allChars q s = true.
Proof.
  intros Hpq. induction s as [|c t IH]; simpl; [reflexivity|].
  intros H. apply andb_prop in H as [Hc Ht]. now rewrite (Hpq _ Hc), IH.
Qed.

(** Lower-case letters, digits and the hyphen are not upper-case letters. *)
Lemma iconChar_lower (c : ascii) : iconChar c = true -> toLowerChar c = c.
Proof.
  unfold iconChar, idChar, toLowerChar, isLower, isDigit, isUpper, between.
  intros H. destruct (Nat.leb 65 (code c) && Nat.leb (code c) 90) eqn:E;
    [|reflexivity].
  apply andb_prop in E as [E1 E2].
  apply Nat.leb_le in E1, E2.
  apply orb_prop in H as [H|H].
  - apply orb_prop in H as [H|H]; apply andb_prop in H as [H1 H2];
      apply Nat.leb_le in H1, H2; lia.
  - apply Ascii.eqb_eq in H. subst c. vm_compute in E1. lia.
Qed.

Lemma idChar_iconChar (c : ascii) : idChar c = true -> iconChar c = true.
Proof. unfold iconChar. now intros ->. Qed.

Lemma toId_filter (s : string) : toId (Some s) = filterChars idChar (toLowerCase s).
Proof. unfold toId. now destruct s. Qed.

Lemma toIconId_filter (s : string) :
  toIconId (Some s) = filterChars iconChar (toLowerCase s).
Proof. unfold toIconId. now destruct s. Qed.

Lemma toLowerCase_iconChars (s : string) :
  allChars iconChar s = true -> toLowerCase s = s.
Proof. apply mapChars_fixed, iconChar_lower. Qed.

Lemma toId_idChars (text : option string) : allChars idChar (toId text) = true.
Proof.
  destruct text as [s|]; [|reflexivity].
  rewrite toId_filter. apply allChars_filterChars.
Qed.

Lemma toIconId_iconChars (text : option string) :
  allChars iconChar (toIconId text) = true.
Proof.
  destruct text as [s|]; [|reflexivity].
  rewrite toIconId_filter. apply allChars_filterChars.
Qed.

(** [toId] yields lower-case letters and digits only, and an identifier is
    its own identifier. *)
Theorem toId_normal_form (text : option string) :
  allChars idChar (toId text) = true
  /\ toId (Some (toId text)) = toId text.
Proof.
  pose proof (toId_idChars text) as H.
  split; [exact H|].
  rewrite toId_filter.
  rewrite toLowerCase_iconChars
    by (eapply allChars_weaken; [apply idChar_iconChar|exact H]).
  now apply filterChars_all.
Qed.

(** [toIconId] yields lower-case letters, digits and hyphens only; an icon
    identifier is its own icon identifier; and the identifier of an icon
    identifier is the identifier of the text it came from. *)
Theorem toIconId_normal_form (text : option string) :
  allChars iconChar (toIconId text) = true
  /\ toIconId (Some (toIconId text)) = toIconId text
  /\ toId (Some (toIconId text)) = toId text.
Proof.
  pose proof (toIconId_iconChars text) as H.
  split; [exact H|]. split.
  - rewrite toIconId_filter, toLowerCase_iconChars by exact H.
    now apply filterChars_all.
  - rewrite toId_filter, toLowerCase_iconChars by exact H.
    destruct text as [s|]; [|reflexivity].
    rewrite toIconId_filter, toId_filter.
    apply filterChars_filterChars, idChar_iconChar.
Qed.

(** ** HP and status *)

Lemma nonEmpty_app_l (a b : string) : nonEmpty a = true -> nonEmpty (a ++ b) = true.
Proof. now destruct a. Qed.

Lemma nonEmpty_join (sep x : string) (r : list string) :
  nonEmpty x = true -> nonEmpty (join sep (x :: r)) = true.
Proof. intros H. simpl. destruct r; [assumption|now apply nonEmpty_app_l]. Qed.

Lemma nonEmpty_mapChars (f : ascii -> ascii) (s : string) :
  nonEmpty (mapChars f s) = nonEmpty s.
Proof. now destruct s. Qed.

Lemma hpTokens_nonEmpty (raw t : string) (r : list string) :
  hpTokens raw = t :: r -> nonEmpty t = true /\ Forall (fun x => nonEmpty x = true) r.
Proof.
  unfold hpTokens, filterTruthy. intros H.
  assert (F : Forall (fun x => nonEmpty x = true) (t :: r)).
  { rewrite <- H. apply Forall_forall. intros x Hx.
    now apply filter_In in Hx. }
  now inversion F.
Qed.

Lemma filter_nonEmpty_head (p : string -> bool) (xs : list string) x r :
  Forall (fun x => nonEmpty x = true) xs -> filter p xs = x :: r ->
  nonEmpty x = true.
Proof.
  intros F H. assert (Hin : In x (filter p xs)) by (rewrite H; now left).
  apply filter_In in Hin as [Hin _].
  rewrite Forall_forall in F. auto.
Qed.

(** The display of an HP/status string is empty for the empty string only. *)
Theorem formatHPStatus_empty_iff (raw : string) :
  formatHPStatus (parseHPStatus raw) = "" <-> raw = "".
Proof.
  unfold parseHPStatus.
  destruct (hpTokens raw) as [|hpToken extra] eqn:Et.
  - unfold formatHPStatus. simpl. tauto.
  - assert (Hraw : raw <> "") by (intros ->; discriminate Et).
    destruct (hpTokens_nonEmpty _ _ _ Et) as [Hhp Hex].
    cbv zeta. unfold formatHPStatus. cbn [hs_fainted hs_hp hs_status hs_raw].
    match goal with |- context [if ?b then "KO" else _] => destruct b eqn:Ef end;
      [split; [discriminate|contradiction]|].
    split; [|contradiction]. intros H. exfalso.
    destruct (includes hpToken "/") eqn:Ei.
    + cbn [truthy tmpl] in H. rewrite Hhp in H.
      destruct (percentMatch hpToken) as [digits|] eqn:Ep.
      * unfold percentMatch in Ep. cbv zeta in Ep.
        destruct (nonEmpty (takeWhile isDigit hpToken)) eqn:En; [|discriminate].
        destruct (String.eqb (dropWhile isDigit hpToken) "/100");
          simpl in Ep; [|discriminate].
        injection Ep as <-. cbn [List.app] in H.
        match type of H with
        | (if nonEmpty (join _ (?x :: ?r)) then _ else _) = _ =>
            assert (Hj : nonEmpty (join " " (x :: r)) = true)
              by (apply nonEmpty_join; now apply nonEmpty_app_l)
        end.
        rewrite Hj in H.
        rewrite H in Hj. discriminate.
      * cbn [List.app] in H.
        match type of H with
        | (if nonEmpty (join _ (?x :: ?r)) then _ else _) = _ =>
            assert (Hj : nonEmpty (join " " (x :: r)) = true)
              by (now apply nonEmpty_join)
        end.
        rewrite Hj in H.
        rewrite H in Hj. discriminate.
    + rewrite andb_false_r in H. cbn [truthy List.app] in H.
      destruct (filter (fun token => negb (String.eqb token "fnt")) extra)
        as [|s0 rest] eqn:Es.
      * simpl in H. contradiction.
      * assert (Hs0 : nonEmpty s0 = true)
          by (eapply filter_nonEmpty_head; [exact Hex|exact Es]).
        assert (Hj : nonEmpty (join " " (s0 :: rest)) = true)
          by now apply nonEmpty_join.
        cbn [truthy tmpl] in H. rewrite Hj in H.
        assert (Hu : nonEmpty (toUpperCase (join " " (s0 :: rest))) = true)
          by (unfold toUpperCase; now rewrite nonEmpty_mapChars).
        change (join " " [toUpperCase (join " " (s0 :: rest))])
          with (toUpperCase (join " " (s0 :: rest))) in H.
        rewrite Hu in H.
        rewrite H in Hu. discriminate.
Qed.

(** *** Strings made of tokens *)

Lemma string_app_assoc (a b c : string) : (a ++ b) ++ c = a ++ (b ++ c).
Proof. induction a as [|x a IH]; simpl; [reflexivity|]. now rewrite IH. Qed.

Lemma splitSpacesFrom_nonspace (b : bool) (c : ascii) (t : string) :
  isSpace c = false ->
  splitSpacesFrom b (String c t) = splitSpacesFrom false (String c t).
Proof. intros H. simpl. now rewrite H. Qed.

Lemma splitSpaces_token_end (t : string) :
  allChars (fun c => negb (isSpace c)) t = true -> splitSpacesFrom false t = [t].
Proof.
  induction t as [|c t IH]; simpl; [reflexivity|].
  intros H. apply andb_prop in H as [Hc Ht].
  apply negb_true_iff in Hc. rewrite Hc, IH by assumption. reflexivity.
Qed.

Lemma splitSpaces_token (t s : string) :
  allChars (fun c => negb (isSpace c)) t = true ->
  splitSpacesFrom false (t ++ String " " s) = t :: splitSpacesFrom true s.
Proof.
  induction t as [|c t IH]; simpl; [reflexivity|].
  intros H. apply andb_prop in H as [Hc Ht].
  apply negb_true_iff in Hc. rewrite Hc, IH by assumption. reflexivity.
Qed.

Lemma isToken_spec (t : string) :
  isToken t = true ->
  nonEmpty t = true /\ allChars (fun c => negb (isSpace c)) t = true.
Proof. unfold isToken. intros H. now apply andb_prop in H. Qed.

Lemma join_tokens_head (t : string) (ts : list string) :
  isToken t = true ->
  exists c rest, join " " (t :: ts) = String c rest /\ isSpace c = false.
Proof.
  intros H. apply isToken_spec in H as [Hn Ha].
  destruct t as [|c t']; [discriminate|].
  simpl in Ha. apply andb_prop in Ha as [Hc _]. apply negb_true_iff in Hc.
  destruct ts as [|u us]; simpl; eauto.
Qed.

Lemma splitSpaces_join (t : string) (ts : list string) :
  Forall (fun x => isToken x = true) (t :: ts) ->
  splitSpacesFrom false (join " " (t :: ts)) = t :: ts.
Proof.
  revert t. induction ts as [|u us IH]; intros t F.
  - simpl. apply splitSpaces_token_end.
    inversion F as [|? ? Ht _]. now apply isToken_spec in Ht.
  - inversion F as [|? ? Ht F']. subst.
    change (join " " (t :: u :: us)) with (t ++ String " " (join " " (u :: us))).
    rewrite splitSpaces_token by now apply isToken_spec in Ht.
    f_equal.
    inversion F' as [|? ? Hu _]. subst.
    destruct (join_tokens_head u us Hu) as (c & rest & E & Hc).
    rewrite E, splitSpacesFrom_nonspace by assumption. rewrite <- E.
    now apply IH.
Qed.

Lemma token_last (t : string) :
  isToken t = true -> exists a c, t = a ++ String c "" /\ isSpace c = false.
Proof.
  intros H. apply isToken_spec in H as [Hn Ha].
  rewrite <- (reverse_involutive t) in *.
  rewrite allChars_reverse in Ha.
  destruct (reverse t) as [|c r]; [discriminate|].
  simpl in Ha. apply andb_prop in Ha as [Hc _]. apply negb_true_iff in Hc.
  exists (reverse r), c. now rewrite reverse_cons.
Qed.

Lemma join_tokens_last (t : string) (ts : list string) :
  Forall (fun x => isToken x = true) (t :: ts) ->
  exists a c, join " " (t :: ts) = a ++ String c "" /\ isSpace c = false.
Proof.
  revert t. induction ts as [|u us IH]; intros t F.
  - inversion F as [|? ? Ht _]. now apply token_last.
  - inversion F as [|? ? Ht F']. subst.
    destruct (IH u F') as (a & c & E & Hc).
    exists (t ++ String " " a), c. split; [|assumption].
    change (join " " (t :: u :: us)) with (t ++ String " " (join " " (u :: us))).
    rewrite E. now rewrite string_app_assoc.
Qed.

Lemma trimEnd_nonspace_last (a : string) (c : ascii) :
  isSpace c = false -> trimEnd (a ++ String c "") = a ++ String c "".
Proof.
  intros H. unfold trimEnd. rewrite reverse_app.
  change (reverse (String c "")) with (String c "").
  simpl. rewrite H.
  change (String c (reverse a)) with (reverse (String c "") ++ reverse a).
  now rewrite <- reverse_app, reverse_involutive.
Qed.

(** Tokens joined by single spaces are read back as they were. *)
Lemma hpTokens_join (t : string) (ts : list string) :
  Forall (fun x => isToken x = true) (t :: ts) ->
  hpTokens (join " " (t :: ts)) = t :: ts.
Proof.
  intros F. unfold hpTokens.
  assert (Htrim : trim (join " " (t :: ts)) = join " " (t :: ts)).
  { unfold trim.
    inversion F as [|? ? Ht _]. subst.
    destruct (join_tokens_head t ts Ht) as (c & rest & E & Hc).
    rewrite E, trimStart_nonspace by assumption. rewrite <- E.
    destruct (join_tokens_last t ts F) as (a & d & E' & Hd).
    rewrite E'. now apply trimEnd_nonspace_last. }
  rewrite Htrim. unfold splitSpaces. rewrite splitSpaces_join by assumption.
  unfold filterTruthy. apply forallb_filter_id.
  apply forallb_forall. rewrite Forall_forall in F.
  intros x Hx. apply F in Hx. now apply isToken_spec in Hx.
Qed.

Lemma includes_app_slash (d r : string) : includes (d ++ String "/" r) "/" = true.
Proof.
  induction d as [|c d IH].
  - change (includes ("" ++ String "/" r) "/")
      with (prefix "/" (String "/" r) || includes r "/").
    apply orb_true_iff. left.
    apply prefix_correct. simpl. now destruct r.
  - change (includes (String c d ++ String "/" r) "/")
      with (prefix "/" (String c d ++ String "/" r)
            || includes (d ++ String "/" r) "/").
    rewrite IH. apply orb_true_r.
Qed.

Lemma takeWhile_app_stop (p : ascii -> bool) (d : string) (c : ascii) (r : string) :
  allChars p d = true -> p c = false ->
  takeWhile p (d ++ String c r) = d /\ dropWhile p (d ++ String c r) = String c r.
Proof.
  intros Hd Hc. induction d as [|x d IH]; simpl.
  - now rewrite Hc.
  - simpl in Hd. apply andb_prop in Hd as [Hx Hd]. rewrite Hx.
    destruct (IH Hd) as [-> ->]. auto.
Qed.

Lemma digits_token (d : string) :
  nonEmpty d = true -> allChars isDigit d = true -> isToken (d ++ "/100") = true.
Proof.
  intros Hn Hd. unfold isToken. rewrite nonEmpty_app_l by assumption.
  rewrite allChars_app. simpl.
  rewrite (allChars_weaken isDigit (fun c => negb (isSpace c))); [reflexivity| |assumption].
  intros c Hc. unfold isDigit, isSpace, between in *.
  apply andb_prop in Hc as [H1 H2]. apply Nat.leb_le in H1, H2.
  apply negb_true_iff, orb_false_iff. split.
  - apply andb_false_iff. right. apply Nat.leb_gt. lia.
  - apply Nat.eqb_neq. lia.
Qed.

(** How an HP/status string made of tokens is displayed: a fraction of 100
    as a percentage, with the status in upper case behind it; and "KO" as
    soon as one of the tokens after the first is "fnt". *)
Theorem formatHPStatus_of_tokens (d st hp : string) (extra : list string) :
  nonEmpty d = true -> allChars isDigit d = true ->
  isToken st = true -> st <> "fnt" ->
  Forall (fun x => isToken x = true) (hp :: extra) -> In "fnt" extra ->
  formatHPStatus (parseHPStatus (d ++ "/100")) = d ++ "%"
  /\ formatHPStatus (parseHPStatus (d ++ "/100 " ++ st))
     = d ++ "% " ++ toUpperCase st
  /\ formatHPStatus (parseHPStatus (join " " (hp :: extra))) = "KO".
Proof.
  intros Hn Hd Hst Hfnt F Hin.
  pose proof (digits_token d Hn Hd) as Htok.
  assert (Hslash : isDigit "/" = false) by reflexivity.
  destruct (takeWhile_app_stop isDigit d "/" "100" Hd Hslash) as [Htake Hdrop].
  assert (Hpm : percentMatch (d ++ "/100") = Some d).
  { unfold percentMatch. cbv zeta. now rewrite Htake, Hdrop, Hn. }
  assert (Hne : String.eqb (d ++ "/100") "0" = false).
  { apply String.eqb_neq. destruct d as [|c d']; [discriminate|].
    simpl. intros E. injection E as _ E. now destruct d'. }
  split; [|split].
  - assert (E : hpTokens (d ++ "/100") = [d ++ "/100"]).
    { apply (hpTokens_join (d ++ "/100") []). now constructor. }
    unfold parseHPStatus. rewrite E. cbv zeta.
    rewrite includes_app_slash. unfold arrayIncludes. cbn [existsb]. rewrite Hne.
    unfold formatHPStatus. cbn [hs_fainted hs_hp hs_status hs_raw filter orb andb].
    cbn [truthy tmpl]. rewrite (nonEmpty_app_l d "/100" Hn), Hpm.
    cbn [List.app join]. now rewrite (nonEmpty_app_l d "%" Hn).
  - assert (E : hpTokens (d ++ "/100 " ++ st) = [d ++ "/100"; st]).
    { rewrite <- (hpTokens_join (d ++ "/100") [st]) by (repeat constructor; assumption).
      f_equal. simpl. now rewrite string_app_assoc. }
    unfold parseHPStatus. rewrite E. cbv zeta.
    rewrite includes_app_slash. unfold arrayIncludes. cbn [existsb]. rewrite Hne.
    assert (Hs : String.eqb "fnt" st = false)
      by (apply String.eqb_neq; congruence).
    assert (Hs' : String.eqb st "fnt" = false)
      by (apply String.eqb_neq; congruence).
    rewrite Hs. cbn [orb andb filter]. rewrite Hs'. cbn [negb].
    unfold formatHPStatus. cbn [hs_fainted hs_hp hs_status hs_raw join].
    apply isToken_spec in Hst as [Hsn _].
    cbn [truthy tmpl]. rewrite (nonEmpty_app_l d "/100" Hn), Hpm, Hsn.
    cbn [List.app].
    change (join " " [d ++ "%"; toUpperCase st])
      with ((d ++ "%") ++ " " ++ toUpperCase st).
    rewrite (nonEmpty_app_l (d ++ "%") _ (nonEmpty_app_l d "%" Hn)).
    now rewrite string_app_assoc.
  - unfold parseHPStatus. rewrite (hpTokens_join hp extra F). cbv zeta.
    assert (Hf : arrayIncludes extra "fnt" = true).
    { unfold arrayIncludes. apply existsb_exists. exists "fnt". now split. }
    rewrite Hf. reflexivity.
Qed.

Lemma formatHPStatus_of_tokens_witness :
  formatHPStatus (parseHPStatus ("48" ++ "/100")) = "48" ++ "%"
  /\ formatHPStatus (parseHPStatus ("48" ++ "/100 " ++ "tox"))
     = "48" ++ "% " ++ toUpperCase "tox"
  /\ formatHPStatus (parseHPStatus (join " " ["12/100"; "par"; "fnt"])) = "KO".
Proof.
  apply (formatHPStatus_of_tokens "48" "tox" "12/100" ["par"; "fnt"]).
  - reflexivity.
  - reflexivity.
  - reflexivity.
  - discriminate.
  - repeat constructor.
  - simpl. auto.
Defined.

(** ** Move names *)

Lemma split_nonnil (sep : ascii) (s : string) : split sep s <> [].
Proof.
  induction s as [|c t IH]; simpl; [discriminate|].
  destruct (Ascii.eqb c sep); [discriminate|].
  now destruct (split sep t).
Qed.

Lemma split_without (sep : ascii) (s : string) :
  Forall (fun x => without sep x = true) (split sep s).
Proof.
  induction s as [|c t IH]; simpl; [now repeat constructor|].
  destruct (Ascii.eqb c sep) eqn:E; [now constructor|].
  destruct (split sep t) as [|h r].
  - constructor; [|constructor]. unfold without. simpl. now rewrite E.
  - inversion IH as [|? ? Hh Hr]. subst. constructor; [|assumption].
    unfold without in *. simpl. now rewrite E, Hh.
Qed.

Lemma split_piece (sep : ascii) (x s : string) :
  without sep x = true -> split sep (x ++ String sep s) = x :: split sep s.
Proof.
  unfold without. induction x as [|c x IH]; simpl.
  - now rewrite Ascii.eqb_refl.
  - intros H. apply andb_prop in H as [Hc Hx]. apply negb_true_iff in Hc.
    now rewrite Hc, IH.
Qed.

Lemma split_last_piece (sep : ascii) (x : string) :
  without sep x = true -> split sep x = [x].
Proof.
  unfold without. induction x as [|c x IH]; simpl; [reflexivity|].
  intros H. apply andb_prop in H as [Hc Hx]. apply negb_true_iff in Hc.
  now rewrite Hc, IH.
Qed.

(** Pieces free of the separator, joined and split again, are the pieces. *)
Lemma split_join (sep : ascii) (x : string) (xs : list string) :
  Forall (fun y => without sep y = true) (x :: xs) ->
  split sep (join (String sep "") (x :: xs)) = x :: xs.
Proof.
  revert x. induction xs as [|y r IH]; intros x F; inversion F as [|? ? Hx F']; subst.
  - now apply split_last_piece.
  - change (join (String sep "") (x :: y :: r))
      with (x ++ String sep (join (String sep "") (y :: r))).
    rewrite split_piece by assumption. now rewrite IH.
Qed.

(** A string split and joined again is the string. *)
Lemma join_split (sep : ascii) (s : string) : join (String sep "") (split sep s) = s.
Proof.
  induction s as [|c t IH]; [reflexivity|]. simpl.
  destruct (Ascii.eqb_spec c sep) as [->|Hne].
  - pose proof (split_nonnil sep t) as Hn.
    destruct (split sep t) as [|h r] eqn:E; [contradiction|].
    change (join (String sep "") ("" :: h :: r))
      with (String sep (join (String sep "") (h :: r))).
    now rewrite IH.
  - destruct (split sep t) as [|h r] eqn:E.
    + now destruct (split_nonnil sep t).
    + rewrite <- IH. now destruct r.
Qed.

Lemma string_length_app (a b : string) :
  String.length (a ++ b) = String.length a + String.length b.
Proof. induction a as [|c a IH]; simpl; [reflexivity|]. now rewrite IH. Qed.

Lemma join_length_map (sep : string) (f : string -> string) (xs : list string) :
  (forall x, String.length (f x) = String.length x) ->
  String.length (join sep (map f xs)) = String.length (join sep xs).
Proof.
  intros Hf. induction xs as [|x r IH]; [reflexivity|].
  destruct r as [|y r']; [apply Hf|].
  change (join sep (map f (x :: y :: r')))
    with (f x ++ sep ++ join sep (map f (y :: r'))).
  change (join sep (x :: y :: r')) with (x ++ sep ++ join sep (y :: r')).
  rewrite !string_length_app, Hf, IH. reflexivity.
Qed.

Lemma upper_code (c : ascii) :
  isLower c = true ->
  code (toUpperChar c) = code c - 32 /\ 65 <= code c - 32 <= 90.
Proof.
  intros H. unfold toUpperChar. rewrite H.
  unfold isLower, between in H. apply andb_prop in H as [H1 H2].
  apply Nat.leb_le in H1, H2.
  unfold code at 1. rewrite nat_ascii_embedding by lia. lia.
Qed.

Lemma toUpperChar_idem (c : ascii) : toUpperChar (toUpperChar c) = toUpperChar c.
Proof.
  destruct (isLower c) eqn:E.
  - destruct (upper_code c E) as [Hc Hr].
    unfold toUpperChar at 1.
    assert (Hl : isLower (toUpperChar c) = false).
    { unfold isLower, between. rewrite Hc.
      apply andb_false_iff. left. apply Nat.leb_gt. lia. }
    now rewrite Hl.
  - unfold toUpperChar. now rewrite E, E.
Qed.

Lemma toUpperChar_not (sep c : ascii) :
  isLower sep = false -> isUpper sep = false ->
  Ascii.eqb c sep = false -> Ascii.eqb (toUpperChar c) sep = false.
Proof.
  intros Hl Hu Hc. destruct (isLower c) eqn:E.
  - destruct (upper_code c E) as [Hcode Hr].
    apply Ascii.eqb_neq. intros Heq.
    unfold isUpper, between in Hu. rewrite <- Heq, Hcode in Hu.
    apply andb_false_iff in Hu as [Hu|Hu]; apply Nat.leb_gt in Hu; lia.
  - unfold toUpperChar. now rewrite E.
Qed.

Lemma capitalize_idem (chunk : string) : capitalize (capitalize chunk) = capitalize chunk.
Proof. destruct chunk; simpl; [reflexivity|]. now rewrite toUpperChar_idem. Qed.

Lemma capitalize_without_space (chunk : string) :
  without " " chunk = true -> without " " (capitalize chunk) = true.
Proof.
  unfold without. destruct chunk as [|c t]; simpl; [reflexivity|].
  intros H. apply andb_prop in H as [Hc Ht]. rewrite Ht.
  apply negb_true_iff in Hc.
  now rewrite (toUpperChar_not " " c eq_refl eq_refl Hc).
Qed.

Lemma capitalize_length (chunk : string) :
  String.length (capitalize chunk) = String.length chunk.
Proof. now destruct chunk. Qed.

(** On a move name of ASCII characters, where the upper case of the source is
    the upper case of the model, [prettifyMove] changes no length, and a
    prettified name is left as it is. *)
Theorem prettifyMove_idempotent (move : string) :
  allChars isAscii move = true ->
  prettifyMove (prettifyMove move) = prettifyMove move
  /\ String.length (prettifyMove move) = String.length move.
Proof.
  intros _. unfold prettifyMove. split.
  - pose proof (split_nonnil " " move) as Hn.
    pose proof (split_without " " move) as Hw.
    destruct (split " " move) as [|x xs]; [contradiction|].
    change (map capitalize (x :: xs)) with (capitalize x :: map capitalize xs).
    rewrite split_join.
    + change (capitalize x :: map capitalize xs) with (map capitalize (x :: xs)).
      rewrite map_map. f_equal. apply map_ext. apply capitalize_idem.
    + change (capitalize x :: map capitalize xs) with (map capitalize (x :: xs)).
      apply Forall_map. eapply Forall_impl; [|exact Hw].
      apply capitalize_without_space.
  - rewrite (join_length_map " " capitalize) by apply capitalize_length.
    now rewrite join_split.
Qed.

Lemma prettifyMove_idempotent_witness :
  prettifyMove (prettifyMove "parting shot") = prettifyMove "parting shot"
  /\ String.length (prettifyMove "parting shot") = String.length "parting shot".
Proof. apply (prettifyMove_idempotent "parting shot"). reflexivity. Defined.

End TextFacts.

(** * Markup: icons and escaping *)
Module MarkupFacts.
Import Js Utils Icons Parser Shapes JsFacts TextFacts.

Lemma without_app (c : ascii) (a b : string) :
  without c (a ++ b) = without c a && without c b.
Proof. apply allChars_app. Qed.

Lemma replaceChar_without (c : ascii) (by_ s : string) :
  without c by_ = true -> without c (replaceChar c by_ s) = true.
Proof.
  intros Hb. induction s as [|d t IH]; [reflexivity|].
  simpl. rewrite without_app, IH, andb_true_r.
  destruct (Ascii.eqb d c) eqn:E; [assumption|].
  unfold without. simpl. now rewrite E.
Qed.

Lemma replaceChar_keeps_without (a c : ascii) (by_ s : string) :
  without a by_ = true -> without a s = true ->
  without a (replaceChar c by_ s) = true.
Proof.
  intros Hb. induction s as [|d t IH]; [reflexivity|].
  unfold without at 1. simpl. intros H. apply andb_prop in H as [Hd Ht].
  rewrite without_app, (IH Ht), andb_true_r.
  destruct (Ascii.eqb d c); [assumption|].
  unfold without. simpl. now rewrite Hd.
Qed.

Lemma replaceChar_absent (c : ascii) (by_ s : string) :
  without c s = true -> replaceChar c by_ s = s.
Proof.
  unfold without. induction s as [|d t IH]; [reflexivity|].
  simpl. intros H. apply andb_prop in H as [Hd Ht].
  apply negb_true_iff in Hd. now rewrite Hd, IH.
Qed.

(** The text of an alt attribute holds no double quote, and a text without
    double quotes is not changed. *)
Theorem escapeAltText_quote_free (text : string) :
  without (ascii_of_nat 34) (escapeAltText text) = true
  /\ (without (ascii_of_nat 34) text = true -> escapeAltText text = text).
Proof.
  split.
  - now apply replaceChar_without.
  - apply replaceChar_absent.
Qed.

Lemma trim_spaces (ws : string) : allChars isSpace ws = true -> trim ws = "".
Proof.
  intros H. unfold trim, trimStart. rewrite dropWhile_all by assumption.
  reflexivity.
Qed.

(** A missing, empty or blank identifier gets the icon of the pokeball, and
    white space around an identifier does not count. *)
Theorem getPokemonIconUrl_fallback (ws pre post id : string) :
  allChars isSpace ws = true ->
  allChars isSpace pre = true -> allChars isSpace post = true ->
  getPokemonIconUrl None = ICON_BASE_URL ++ "/pokeball.png"
  /\ getPokemonIconUrl (Some ws) = ICON_BASE_URL ++ "/pokeball.png"
  /\ getPokemonIconUrl (Some (pre ++ id ++ post)) = getPokemonIconUrl (Some id).
Proof.
  intros Hws Hpre Hpost. split; [reflexivity|]. split.
  - unfold getPokemonIconUrl. cbn [tmpl]. rewrite (trim_spaces ws Hws).
    cbn [nonEmpty]. rewrite andb_false_r. reflexivity.
  - unfold getPokemonIconUrl. cbn [tmpl truthy].
    rewrite (trim_app_spaces pre id post Hpre Hpost).
    destruct (nonEmpty (trim id)) eqn:E.
    + assert (Hid : nonEmpty id = true).
      { destruct id; [discriminate E|reflexivity]. }
      assert (Hall : nonEmpty (pre ++ id ++ post) = true).
      { destruct pre; simpl; [now apply nonEmpty_app_l|reflexivity]. }
      now rewrite Hid, Hall.
    + now rewrite !andb_false_r.
Qed.

Lemma getPokemonIconUrl_fallback_witness :
  getPokemonIconUrl None = ICON_BASE_URL ++ "/pokeball.png"
  /\ getPokemonIconUrl (Some "  ") = ICON_BASE_URL ++ "/pokeball.png"
  /\ getPokemonIconUrl (Some (" " ++ "pikachu" ++ "  "))
     = getPokemonIconUrl (Some "pikachu").
Proof.
  apply (getPokemonIconUrl_fallback "  " " " "  " "pikachu"); reflexivity.
Defined.

(** A detail made from plain text keeps the text, and its markup holds
    neither "<" nor ">"; text without "&", "<" and ">" is its own markup. *)
Theorem makeDetail_escapes (text : string) :
  d_text (makeDetail text None) = text
  /\ without "<" (d_html (makeDetail text None)) = true
  /\ without ">" (d_html (makeDetail text None)) = true
  /\ (without "&" text = true -> without "<" text = true ->
      without ">" text = true -> d_html (makeDetail text None) = text).
Proof.
  unfold makeDetail. cbn [truthy negb andb].
  destruct text as [|c t]; [repeat split|].
  cbn [nonEmpty negb andb d_text d_html]. unfold escapeHtml.
  split; [reflexivity|]. split; [|split].
  - apply replaceChar_keeps_without; [reflexivity|].
    now apply replaceChar_without.
  - now apply replaceChar_without.
  - intros Ha Hl Hg.
    rewrite (replaceChar_absent "&") by assumption.
    rewrite (replaceChar_absent "<") by assumption.
    now rewrite (replaceChar_absent ">").
Qed.

(** ** References to pokemon *)

Lemma not_colon_match (s : string) (k : string -> option (string * string)) :
  without ":" s = true ->
  match s with
  | String ":" after => k after
  | _ => None
  end = None.
Proof.
  destruct s as [|c t]; [reflexivity|].
  unfold without. simpl. intros H. apply andb_prop in H as [Hc _].
  apply negb_true_iff, Ascii.eqb_neq in Hc.
  destruct c as [[] [] [] [] [] [] [] []]; try reflexivity. contradiction.
Qed.

(** A reference of the form "ref: name" is taken apart at the colon; a text
    without a colon is a reference and a name at once. *)
Theorem parsePokemonRef_shapes (ref gap name raw : string) :
  nonEmpty ref = true -> allChars isAlnum ref = true ->
  allChars isSpace gap = true ->
  nonEmpty name = true -> trimStart name = name -> noLineTerminator name = true ->
  without ":" raw = true ->
  parsePokemonRef (ref ++ ":" ++ gap ++ name) = mkRef ref name (resolveSide ref)
  /\ parsePokemonRef raw = mkRef (trim raw) (trim raw) (resolveSide (trim raw)).
Proof.
  intros Hr Ha Hg Hn Ht Hl Hraw. split.
  - change (ref ++ ":" ++ gap ++ name) with (ref ++ String ":" (gap ++ name)).
    unfold parsePokemonRef, refMatch. cbv zeta.
    destruct (takeWhile_app_stop isAlnum ref ":" (gap ++ name) Ha eq_refl)
      as [-> ->].
    rewrite Hr. cbn [negb].
    rewrite dropWhile_app_all by assumption.
    unfold trimStart in Ht. rewrite Ht.
    destruct name as [|c t]; [discriminate|].
    unfold noLineTerminator in Hl. now rewrite Hl.
  - unfold parsePokemonRef, refMatch. cbv zeta.
    rewrite not_colon_match; [reflexivity|].
    unfold without. now apply allChars_dropWhile.
Qed.

Lemma parsePokemonRef_shapes_witness :
  parsePokemonRef ("p1a" ++ ":" ++ " " ++ "Pikachu")
  = mkRef "p1a" "Pikachu" (resolveSide "p1a")
  /\ parsePokemonRef " p2 " = mkRef (trim " p2 ") (trim " p2 ") (resolveSide (trim " p2 ")).
Proof.
  apply (parsePokemonRef_shapes "p1a" " " "Pikachu" " p2 "); reflexivity.
Defined.

(** ** Annotations and weather names *)

(** The annotations of a record are never empty strings, and there are no
    more of them than fields from the start index on. *)
Theorem parseExtras_annotations (parts : list string) (startIndex : nat) :
  Forall (fun extra => nonEmpty extra = true) (parseExtras parts startIndex)
  /\ List.length (parseExtras parts startIndex) <= List.length parts - startIndex.
Proof.
  unfold parseExtras, filterTruthy. split.
  - apply Forall_forall. intros x Hx. now apply filter_In in Hx.
  - eapply Nat.le_trans; [apply filter_length_le|].
    now rewrite length_map, length_skipn.
Qed.

(** A normalized weather name is left as it is. *)
Theorem normalizeWeatherName_idempotent (weather : string) :
  normalizeWeatherName (normalizeWeatherName weather) = normalizeWeatherName weather.
Proof.
  unfold normalizeWeatherName at 2 3. cbv zeta.
  set (n := toLowerCase weather).
  destruct (includes n "raindance" || String.eqb n "raindance") eqn:E1;
    [reflexivity|].
  destruct (includes n "sandstorm") eqn:E2; [reflexivity|].
  destruct (includes n "sunnyday" || String.eqb n "sunnyday") eqn:E3;
    [reflexivity|].
  destruct (includes n "hail") eqn:E4; [reflexivity|].
  destruct (includes n "snow") eqn:E5; [reflexivity|].
  unfold normalizeWeatherName. cbv zeta. fold n. now rewrite E1, E2, E3, E4, E5.
Qed.

(** ** The icon of the target in the details *)

Lemma matchDotted_self (p s : string) : matchDotted p (p ++ s) = Some s.
Proof.
  induction p as [|c p IH]; simpl; [now destruct s|].
  destruct (Ascii.eqb_spec c ".") as [->|Hne].
  - exact IH.
  - now rewrite Ascii.eqb_refl.
Qed.

Lemma stripIconTags_skip (id pre rest : string) :
  stripIconTags id (String.length pre) (pre ++ rest) = stripIconTags id 0 rest.
Proof.
  induction pre as [|c pre IH]; simpl; [now destruct rest|assumption].
Qed.

Lemma dropWhile_until (c : ascii) (pre rest : string) :
  without c pre = true ->
  dropWhile (fun x => negb (Ascii.eqb x c)) (pre ++ String c rest) = String c rest.
Proof.
  intros H. rewrite dropWhile_app. unfold without in H. rewrite H.
  simpl. now rewrite Ascii.eqb_refl.
Qed.

Lemma iconChars_token (id : string) :
  nonEmpty id = true -> allChars iconChar id = true -> isToken id = true.
Proof.
  intros Hn Ha. unfold isToken. rewrite Hn.
  eapply allChars_weaken; [|exact Ha].
  intros c Hc. unfold iconChar, idChar, isLower, isDigit, isSpace, between in *.
  apply negb_true_iff, orb_false_iff.
  apply orb_prop in Hc as [Hc|Hc].
  - apply orb_prop in Hc as [Hc|Hc]; apply andb_prop in Hc as [H1 H2];
      apply Nat.leb_le in H1, H2; split;
      [apply andb_false_iff; right; apply Nat.leb_gt; lia|apply Nat.eqb_neq; lia
      |apply andb_false_iff; right; apply Nat.leb_gt; lia|apply Nat.eqb_neq; lia].
  - apply Ascii.eqb_eq in Hc. subst c. split; reflexivity.
Qed.

Lemma trim_token (t : string) : isToken t = true -> trim t = t.
Proof.
  intros H. unfold trim.
  destruct (join_tokens_head t [] H) as (c & rest & E & Hc). simpl in E.
  rewrite E, trimStart_nonspace by assumption. rewrite <- E.
  destruct (token_last t H) as (a & d & E' & Hd).
  rewrite E'. now apply trimEnd_nonspace_last.
Qed.

(** The markup [renderPokemonIcon] gives for an icon identifier: the prefix
    the pattern looks for, then attributes up to the closing bracket. *)
Lemma renderPokemonIcon_tag (id alt : string) :
  nonEmpty id = true -> allChars iconChar id = true -> without ">" alt = true ->
  exists attributes,
    renderPokemonIcon (Some id) alt = iconTagPrefix id ++ attributes ++ ">"
    /\ without ">" attributes = true.
Proof.
  intros Hn Ha Halt.
  exists (" alt=" ++ dq ++ escapeAltText alt ++ dq
          ++ " width=" ++ dq ++ "24" ++ dq ++ " height=" ++ dq ++ "24" ++ dq
          ++ " style=" ++ dq ++ join ";" IMAGE_RULES ++ dq ++ " /").
  split.
  - unfold renderPokemonIcon, getPokemonIconUrl, iconTagPrefix. cbv zeta.
    cbn [truthy tmpl]. rewrite (trim_token id (iconChars_token id Hn Ha)), Hn.
    cbn [andb]. unfold ICON_BASE_URL.
    repeat rewrite string_app_assoc. reflexivity.
  - rewrite !without_app.
    assert (He : without ">" (escapeAltText alt) = true)
      by (apply replaceChar_keeps_without; [reflexivity|assumption]).
    rewrite He. reflexivity.
Qed.

Lemma stripIconTags_tag (id tag rest : string) :
  nonEmpty tag = true ->
  iconTagLength id (tag ++ rest) = Some (String.length tag) ->
  stripIconTags id 0 (tag ++ rest) = stripIconTags id 0 rest.
Proof.
  destruct tag as [|c t]; [discriminate|]. intros _ H.
  change (String c t ++ rest) with (String c (t ++ rest)) in *.
  cbn [stripIconTags]. rewrite H.
  change (String.length (String c t) - 1) with (String.length t - 0).
  rewrite Nat.sub_0_r. apply stripIconTags_skip.
Qed.

(** The icon rendered for the target of a move is what the renderer removes
    from the details, as long as the name in its alt attribute holds no
    ">". *)
Theorem stripIconTags_rendered_icon (species alt rest : string) :
  nonEmpty (toIconId (Some species)) = true -> without ">" alt = true ->
  stripIconTags (toIconId (Some species)) 0
    (iconHTML (Some (toIconId (Some species))) alt ++ rest)
  = stripIconTags (toIconId (Some species)) 0 rest.
Proof.
  intros Hn Halt. set (id := toIconId (Some species)) in *.
  assert (Ha : allChars iconChar id = true)
    by apply toIconId_iconChars.
  destruct (renderPokemonIcon_tag id alt Hn Ha Halt) as (attrs & E & Hattrs).
  unfold iconHTML. cbn [orString]. rewrite Hn, E.
  set (tag := iconTagPrefix id ++ attrs ++ ">").
  assert (Hlen : iconTagLength id (tag ++ rest) = Some (String.length tag)).
  { unfold iconTagLength, tag.
    rewrite !string_app_assoc, matchDotted_self.
    change (">" ++ rest) with (String ">" rest).
    rewrite dropWhile_until by assumption.
    f_equal. rewrite !string_length_app.
    change (String.length (String ">" rest)) with (S (String.length rest)).
    change (String.length ">") with 1. lia. }
  apply stripIconTags_tag; [|exact Hlen].
  unfold tag, iconTagPrefix. reflexivity.
Qed.

Lemma stripIconTags_rendered_icon_witness :
  stripIconTags (toIconId (Some "Squirtle")) 0
    (iconHTML (Some (toIconId (Some "Squirtle"))) "Squirtle (opp)" ++ "100% -> 50%")
  = stripIconTags (toIconId (Some "Squirtle")) 0 "100% -> 50%".
Proof.
  apply (stripIconTags_rendered_icon "Squirtle" "Squirtle (opp)" "100% -> 50%");
    reflexivity.
Defined.

End MarkupFacts.

(** * Records: which are ignored, and which cannot throw *)
Module RecordFacts.
Import Js Utils Icons Parser Scenarios Shapes JsFacts FrameFacts TurnFacts.

(** A record whose tag has no case leaves the context as it is, and so do an
    empty line and a line that is only the delimiter. *)
Theorem unhandled_record_ignored (c : ParseContext) (parts : list string) :
  arrayIncludes handledTags (tmpl (part parts 0)) = false ->
  parseRecord c parts = Ok c
  /\ parseLine c "" = Ok c /\ parseLine c "|" = Ok c.
Proof.
  intros H. split; [|split; reflexivity].
  unfold arrayIncludes, handledTags in H. cbn [existsb] in H.
  repeat match type of H with
         | _ || _ = false =>
             let E := fresh "E" in apply orb_false_iff in H as [E H]
         end.
  unfold parseRecord. cbv zeta.
  repeat match goal with
         | E : String.eqb _ _ = false |- _ => rewrite E; clear E
         end.
  reflexivity.
Qed.

Lemma unhandled_record_ignored_witness :
  parseRecord turnOne ["-crit"; "p2a: Squirtle"] = Ok turnOne
  /\ parseLine turnOne "" = Ok turnOne /\ parseLine turnOne "|" = Ok turnOne.
Proof.
  apply (unhandled_record_ignored turnOne ["-crit"; "p2a: Squirtle"]).
  reflexivity.
Defined.

(** ** Records with a tag and two fields *)

Lemma addSpecies_total c (side : Side) species :
  exists c', addSpecies c (Some (sideName side)) species = Ok c'.
Proof.
  unfold addSpecies. cbv zeta.
  destruct (negb _); [eauto|].
  destruct (arrayIncludes _ _); [eauto|].
  destruct side; simpl; eauto.
Qed.

Lemma updatePokemonSpecies_total c ref species :
  exists c', updatePokemonSpecies c ref (Some species) = Ok c'.
Proof.
  unfold updatePokemonSpecies.
  destruct (getOrCreatePokemon c ref (resolveSide ref) (Some species)) as [c1 mon].
  apply addSpecies_total.
Qed.

Ltac total_step :=
  match goal with
  | |- exists c', Ok _ = Ok c' => eexists; reflexivity
  | |- exists c', bind (updatePokemonSpecies ?c ?r (Some ?s)) _ = _ =>
      let E := fresh "E" in
      destruct (updatePokemonSpecies_total c r s) as [? E]; rewrite E; cbn [bind]
  | |- exists c', updatePokemonSpecies ?c ?r (Some ?s) = _ =>
      apply updatePokemonSpecies_total
  | |- exists c', match ?x with _ => _ end = _ => destruct x
  end.

Ltac total h :=
  unfold h; cbn [part nth_error defined bind]; cbv beta zeta;
  repeat (total_step; cbn [part nth_error defined bind]; cbv beta zeta).

Lemma total_casePlayer c tag a b rest :
  exists c', casePlayer c (tag :: a :: b :: rest) = Ok c'.
Proof. total casePlayer. Qed.

Lemma total_caseFormat c tag a b rest :
  exists c', caseFormat c (tag :: a :: b :: rest) = Ok c'.
Proof. total caseFormat. Qed.

Lemma total_caseWin c tag a b rest :
  exists c', caseWin c (tag :: a :: b :: rest) = Ok c'.
Proof. total caseWin. Qed.

Lemma total_caseLoss c tag a b rest :
  exists c', caseLoss c (tag :: a :: b :: rest) = Ok c'.
Proof. total caseLoss. Qed.

Lemma total_caseTurn c tag a b rest :
  exists c', caseTurn c (tag :: a :: b :: rest) = Ok c'.
Proof. total caseTurn. Qed.

Lemma total_caseSwitch c tag a b rest :
  exists c', caseSwitch c (tag :: a :: b :: rest) = Ok c'.
Proof. total caseSwitch. Qed.

Lemma total_caseMove c tag a b rest :
  exists c', caseMove c (tag :: a :: b :: rest) = Ok c'.
Proof. total caseMove. Qed.

Lemma total_caseCant c tag a b rest :
  exists c', caseCant c (tag :: a :: b :: rest) = Ok c'.
Proof. total caseCant. Qed.

Lemma total_caseDamage c tag a b rest :
  exists c', caseDamage c (tag :: a :: b :: rest) = Ok c'.
Proof. total caseDamage. Qed.

Lemma total_caseStatus c tag a b rest :
  exists c', caseStatus c (tag :: a :: b :: rest) = Ok c'.
Proof. total caseStatus. Qed.

Lemma total_caseCureStatus c tag a b rest :
  exists c', caseCureStatus c (tag :: a :: b :: rest) = Ok c'.
Proof. total caseCureStatus. Qed.

Lemma total_caseAbility c tag a b rest :
  exists c', caseAbility c (tag :: a :: b :: rest) = Ok c'.
Proof. total caseAbility. Qed.

Lemma total_caseFieldStart c tag a b rest :
  exists c', caseFieldStart c (tag :: a :: b :: rest) = Ok c'.
Proof. total caseFieldStart. Qed.

Lemma total_caseFieldEnd c tag a b rest :
  exists c', caseFieldEnd c (tag :: a :: b :: rest) = Ok c'.
Proof. total caseFieldEnd. Qed.

Lemma total_caseWeather c tag a b rest :
  exists c', caseWeather c (tag :: a :: b :: rest) = Ok c'.
Proof. total caseWeather. Qed.

Lemma total_caseSideStart c tag a b rest :
  exists c', caseSideStart c (tag :: a :: b :: rest) = Ok c'.
Proof. total caseSideStart. Qed.

Lemma total_caseSideEnd c tag a b rest :
  exists c', caseSideEnd c (tag :: a :: b :: rest) = Ok c'.
Proof. total caseSideEnd. Qed.

Lemma total_caseTerrain c tag a b rest :
  exists c', caseTerrain c (tag :: a :: b :: rest) = Ok c'.
Proof. total caseTerrain. Qed.

Lemma total_caseMessage c tag a b rest :
  exists c', caseMessage c (tag :: a :: b :: rest) = Ok c'.
Proof. total caseMessage. Qed.

Lemma total_caseSingleTurn c tag a b rest :
  exists c', caseSingleTurn c (tag :: a :: b :: rest) = Ok c'.
Proof. total caseSingleTurn. Qed.

Lemma total_caseActivate c tag a b rest :
  exists c', caseActivate c (tag :: a :: b :: rest) = Ok c'.
Proof. total caseActivate. Qed.

Lemma total_caseFail c tag a b rest :
  exists c', caseFail c (tag :: a :: b :: rest) = Ok c'.
Proof. total caseFail. Qed.

Lemma total_caseMiss c tag a b rest :
  exists c', caseMiss c (tag :: a :: b :: rest) = Ok c'.
Proof. total caseMiss. Qed.

Lemma total_caseImmune c tag a b rest :
  exists c', caseImmune c (tag :: a :: b :: rest) = Ok c'.
Proof. total caseImmune. Qed.

Lemma total_caseFaint c tag a b rest :
  exists c', caseFaint c (tag :: a :: b :: rest) = Ok c'.
Proof. total caseFaint. Qed.

Lemma total_caseTerastallize c tag a b rest :
  exists c', caseTerastallize c (tag :: a :: b :: rest) = Ok c'.
Proof. total caseTerastallize. Qed.

Lemma total_caseFormeChange c tag a b rest :
  exists c', caseFormeChange c (tag :: a :: b :: rest) = Ok c'.
Proof. total caseFormeChange. Qed.

Lemma total_caseBoost k c tag a b rest :
  exists c', caseBoost k c (tag :: a :: b :: rest) = Ok c'.
Proof. total caseBoost. Qed.

Lemma total_caseItem label c tag a b rest :
  exists c', caseItem label c (tag :: a :: b :: rest) = Ok c'.
Proof. total caseItem. Qed.

Lemma total_casePoke c tag side b rest :
  side = "p1" \/ side = "p2" ->
  exists c', casePoke c (tag :: side :: b :: rest) = Ok c'.
Proof.
  intros H. unfold casePoke. cbn [part nth_error defined bind]. cbv zeta.
  destruct H as [->| ->].
  - apply (addSpecies_total c P1).
  - apply (addSpecies_total c P2).
Qed.

Ltac total_branch lem :=
  match goal with
  | |- exists c', (if ?b then _ else _) = _ =>
      destruct b eqn:?; [apply lem|]
  end.

(** A record with a tag and at least two more fields is processed without an
    exception, whatever the tag and the fields are; only a poke record needs
    its side to be p1 or p2. *)
Theorem parseRecord_three_fields_total (c : ParseContext)
  (tag a b : string) (rest : list string) :
  (tag = "poke" -> a = "p1" \/ a = "p2") ->
  exists c', parseRecord c (tag :: a :: b :: rest) = Ok c'.
Proof.
  intros Hpoke. unfold parseRecord. cbv zeta.
  change (tmpl (part (tag :: a :: b :: rest) 0)) with tag.
  total_branch total_casePlayer. total_branch total_caseFormat.
  total_branch total_caseWin. total_branch total_caseLoss.
  total_branch total_caseTurn.
  destruct (String.eqb_spec tag "poke") as [E|_];
    [apply total_casePoke; auto|].
  total_branch total_caseSwitch. total_branch total_caseMove.
  total_branch total_caseCant. total_branch total_caseDamage.
  total_branch total_caseBoost. total_branch total_caseStatus.
  total_branch total_caseCureStatus. total_branch total_caseAbility.
  total_branch total_caseItem. total_branch total_caseItem.
  total_branch total_caseFieldStart. total_branch total_caseFieldEnd.
  total_branch total_caseWeather. total_branch total_caseSideStart.
  total_branch total_caseSideEnd. total_branch total_caseTerrain.
  total_branch total_caseMessage. total_branch total_caseSingleTurn.
  total_branch total_caseActivate. total_branch total_caseFail.
  total_branch total_caseMiss. total_branch total_caseImmune.
  total_branch total_caseFaint. total_branch total_caseTerastallize.
  total_branch total_caseFormeChange.
  eauto.
Qed.

Lemma parseRecord_three_fields_total_witness :
  exists c', parseRecord turnOne ["move"; "p1a: Pikachu"; "Thunderbolt"] = Ok c'.
Proof.
  apply (parseRecord_three_fields_total turnOne "move" "p1a: Pikachu" "Thunderbolt" []).
  discriminate.
Defined.

(** ** Turn records *)

(** A record that is not a turn record leaves the list of turns, the current
    turn and the numbers of the turns as they are. *)
Theorem turns_change_on_turn_records_only (c c' : ParseContext)
  (parts : list string) :
  parseRecord c parts = Ok c' -> part parts 0 <> Some "turn" ->
  turns c' = turns c /\ currentTurn c' = currentTurn c
  /\ List.length (turnStore c') = List.length (turnStore c)
  /\ forall r, t_turn (getTurn c' r) = t_turn (getTurn c r).
Proof.
  intros H Htag. destruct (parseRecord_cases c parts c' H) as [[Ht _]|S].
  - contradiction.
  - destruct S as [St Sc _ Ss Sn _]. auto.
Qed.

Lemma turns_change_on_turn_records_only_witness :
  turns afterUturn = turns turnOne /\ currentTurn afterUturn = currentTurn turnOne
  /\ List.length (turnStore afterUturn) = List.length (turnStore turnOne)
  /\ forall r, t_turn (getTurn afterUturn r) = t_turn (getTurn turnOne r).
Proof.
  apply (turns_change_on_turn_records_only turnOne afterUturn uturnMove).
  - vm_compute. reflexivity.
  - discriminate.
Defined.

Lemma finalize_pending_cleared c :
  pendingAbilityBoost (finalizePendingAbilityBoost c) = None.
Proof.
  unfold finalizePendingAbilityBoost.
  destruct (pendingAbilityBoost c) as [[ref ability boosts]|] eqn:E; [|assumption].
  now destruct (targetBoostDetails c (boostsByTarget boosts)).
Qed.

Lemma flush_pending_cleared c : pendingFieldEnds (flushPendingFieldEnds c) = [].
Proof.
  unfold flushPendingFieldEnds. now destruct (pendingFieldEnds c) eqn:E.
Qed.

Lemma flush_keeps_boost c :
  pendingAbilityBoost (flushPendingFieldEnds c) = pendingAbilityBoost c.
Proof.
  unfold flushPendingFieldEnds. now destruct (pendingFieldEnds c).
Qed.



End RecordFacts.

(** * The metadata: which records write it *)
Module MetaFacts.
Import Js Utils Icons Parser Scenarios Shapes JsFacts FrameFacts TurnFacts.

Lemma sameMeta_refl c : sameMeta c c.
Proof. constructor; reflexivity. Qed.

Lemma sameMeta_trans c1 c2 c3 : sameMeta c1 c2 -> sameMeta c2 c3 -> sameMeta c1 c3.
Proof. intros [] []. constructor; congruence. Qed.

Lemma sameMeta_fields c c1 c2 :
  sameMeta c c1 ->
  players c2 = players c1 -> formatName c2 = formatName c1 ->
  winner c2 = winner c1 -> loser c2 = loser c1 -> resultNote c2 = resultNote c1 ->
  sameMeta c c2.
Proof. intros [] ? ? ? ? ?. constructor; congruence. Qed.

Create HintDb meta.

Ltac meta_fields := intros; eapply sameMeta_fields; [eassumption|reflexivity..].

Lemma meta_set_turnStore v c c1 : sameMeta c c1 -> sameMeta c (set_turnStore v c1).
Proof. meta_fields. Qed.
Lemma meta_set_turns v c c1 : sameMeta c c1 -> sameMeta c (set_turns v c1).
Proof. meta_fields. Qed.
Lemma meta_set_currentTurn v c c1 : sameMeta c c1 -> sameMeta c (set_currentTurn v c1).
Proof. meta_fields. Qed.
Lemma meta_set_actionStore v c c1 : sameMeta c c1 -> sameMeta c (set_actionStore v c1).
Proof. meta_fields. Qed.
Lemma meta_set_currentAction v c c1 : sameMeta c c1 -> sameMeta c (set_currentAction v c1).
Proof. meta_fields. Qed.
Lemma meta_set_pokemon v c c1 : sameMeta c c1 -> sameMeta c (set_pokemon v c1).
Proof. meta_fields. Qed.
Lemma meta_set_teams v c c1 : sameMeta c c1 -> sameMeta c (set_teams v c1).
Proof. meta_fields. Qed.
Lemma meta_set_leadPhase v c c1 : sameMeta c c1 -> sameMeta c (set_leadPhase v c1).
Proof. meta_fields. Qed.
Lemma meta_set_faintedThisTurn v c c1 : sameMeta c c1 -> sameMeta c (set_faintedThisTurn v c1).
Proof. meta_fields. Qed.
Lemma meta_set_currentWeather v c c1 : sameMeta c c1 -> sameMeta c (set_currentWeather v c1).
Proof. meta_fields. Qed.
Lemma meta_set_sideConditions v c c1 : sameMeta c c1 -> sameMeta c (set_sideConditions v c1).
Proof. meta_fields. Qed.
Lemma meta_set_pendingAbilityBoost v c c1 : sameMeta c c1 -> sameMeta c (set_pendingAbilityBoost v c1).
Proof. meta_fields. Qed.
Lemma meta_set_recentMoves v c c1 : sameMeta c c1 -> sameMeta c (set_recentMoves v c1).
Proof. meta_fields. Qed.
Lemma meta_set_activePositions v c c1 : sameMeta c c1 -> sameMeta c (set_activePositions v c1).
Proof. meta_fields. Qed.
Lemma meta_set_pendingFieldEnds v c c1 : sameMeta c c1 -> sameMeta c (set_pendingFieldEnds v c1).
Proof. meta_fields. Qed.
Lemma meta_set_pendingProtects v c c1 : sameMeta c c1 -> sameMeta c (set_pendingProtects v c1).
Proof. meta_fields. Qed.

Lemma meta_modifyCurrentTurn f c c1 :
  sameMeta c c1 -> sameMeta c (modifyCurrentTurn f c1).
Proof. meta_fields. Qed.
Lemma meta_modifyAction r f c c1 : sameMeta c c1 -> sameMeta c (modifyAction r f c1).
Proof. meta_fields. Qed.
Lemma meta_modifyPokemon ref f c c1 :
  sameMeta c c1 -> sameMeta c (modifyPokemon ref f c1).
Proof. intros. unfold modifyPokemon. destruct (pokemonGet c1 ref); [meta_fields|assumption]. Qed.
Lemma meta_pushEndEvent e c c1 : sameMeta c c1 -> sameMeta c (pushEndEvent e c1).
Proof. meta_fields. Qed.
Lemma meta_pushDetail r e c c1 : sameMeta c c1 -> sameMeta c (pushDetail r e c1).
Proof. meta_fields. Qed.
Lemma meta_setCurrentAction a c c1 : sameMeta c c1 -> sameMeta c (setCurrentAction c1 a).
Proof. meta_fields. Qed.
Lemma meta_appendVerb r suffix c c1 : sameMeta c c1 -> sameMeta c (appendVerb r suffix c1).
Proof. meta_fields. Qed.
Lemma meta_addNoteAction ref note c c1 :
  sameMeta c c1 -> sameMeta c (addNoteAction c1 ref note).
Proof. meta_fields. Qed.

#[local] Hint Resolve sameMeta_refl meta_set_turnStore meta_set_turns meta_set_currentTurn meta_set_actionStore meta_set_currentAction meta_set_pokemon meta_set_teams meta_set_leadPhase meta_set_faintedThisTurn meta_set_currentWeather meta_set_sideConditions meta_set_pendingAbilityBoost meta_set_recentMoves meta_set_activePositions meta_set_pendingFieldEnds meta_set_pendingProtects
  meta_modifyCurrentTurn meta_modifyAction meta_modifyPokemon meta_pushEndEvent
  meta_pushDetail meta_setCurrentAction meta_appendVerb meta_addNoteAction : meta.

Lemma meta_appendDetail d b c c1 : sameMeta c c1 -> sameMeta c (appendDetail c1 d b).
Proof.
  intros. unfold appendDetail. destruct (_ && _); [assumption|].
  destruct (currentAction c1); [destruct b|]; auto with meta.
Qed.

Lemma meta_appendDetailString d b c c1 :
  sameMeta c c1 -> sameMeta c (appendDetailString c1 d b).
Proof.
  intros. unfold appendDetailString. destruct (negb _); [assumption|].
  destruct (currentAction c1); [destruct b|]; auto with meta.
Qed.

Lemma meta_pushHeaderEvent text c c1 :
  sameMeta c c1 -> sameMeta c (pushHeaderEvent c1 text).
Proof. intros. unfold pushHeaderEvent. destruct (t_actions _); auto with meta. Qed.

Lemma meta_flushPendingFieldEnds c c1 :
  sameMeta c c1 -> sameMeta c (flushPendingFieldEnds c1).
Proof.
  intros. unfold flushPendingFieldEnds. destruct (pendingFieldEnds c1); auto with meta.
Qed.

Lemma meta_ensureCurrentTurn n c c1 :
  sameMeta c c1 -> sameMeta c (ensureCurrentTurn c1 n).
Proof.
  intros. unfold ensureCurrentTurn. destruct (numEq _ _); [assumption|].
  cbv zeta. auto 12 using meta_flushPendingFieldEnds with meta.
Qed.

Lemma meta_patchTargetName ref suffix c c1 :
  sameMeta c c1 -> sameMeta c (patchTargetName c1 ref suffix).
Proof.
  intros. unfold patchTargetName.
  repeat match goal with
         | |- context [match ?x with _ => _ end] => destruct x
         end; auto with meta.
Qed.

Lemma meta_getOrCreatePokemon ref side species c c1 c2 mon :
  getOrCreatePokemon c1 ref side species = (c2, mon) ->
  sameMeta c c1 -> sameMeta c c2.
Proof.
  unfold getOrCreatePokemon. destruct (pokemonGet c1 ref);
    intros H; apply pair_equal_spec in H as [<- _]; auto with meta.
Qed.

Lemma meta_detailWithIcon ref body c c1 c2 d :
  detailWithIcon c1 ref body = (c2, d) -> sameMeta c c1 -> sameMeta c c2.
Proof.
  unfold detailWithIcon.
  destruct (getOrCreatePokemon c1 ref (resolveSide ref) None) as [c3 mon] eqn:E.
  intros H. apply pair_equal_spec in H as [<- _].
  eauto using meta_getOrCreatePokemon.
Qed.

Lemma meta_targetBoostDetails groups c c1 c2 ds :
  targetBoostDetails c1 groups = (c2, ds) -> sameMeta c c1 -> sameMeta c c2.
Proof.
  revert c1 c2 ds. induction groups as [|[targetRef targetBoosts] rest IH];
    simpl; intros c1 c2 ds.
  - intros H. apply pair_equal_spec in H as [<- _]. auto.
  - destruct (detailWithIcon c1 targetRef _) as [c3 d] eqn:E1.
    destruct (targetBoostDetails c3 rest) as [c4 ds'] eqn:E2.
    intros H. apply pair_equal_spec in H as [<- _].
    eauto using meta_detailWithIcon.
Qed.

#[local] Hint Resolve meta_appendDetail meta_appendDetailString
  meta_pushHeaderEvent meta_flushPendingFieldEnds meta_ensureCurrentTurn
  meta_patchTargetName : meta.

Lemma meta_finalizePendingAbilityBoost c c1 :
  sameMeta c c1 -> sameMeta c (finalizePendingAbilityBoost c1).
Proof.
  intros H. unfold finalizePendingAbilityBoost.
  destruct (pendingAbilityBoost c1) as [[ref ability boosts]|]; [|assumption].
  destruct (targetBoostDetails c1 (boostsByTarget boosts)) as [c2 rest] eqn:E.
  assert (H2 : sameMeta c c2) by eauto using meta_targetBoostDetails.
  apply meta_set_pendingAbilityBoost.
  destruct (combineDetails _); [|assumption].
  destruct (beforeFirstAction c2); auto with meta.
Qed.

Lemma meta_addSpecies side species c c1 c2 :
  addSpecies c1 side species = Ok c2 -> sameMeta c c1 -> sameMeta c c2.
Proof.
  unfold addSpecies.
  destruct (negb _); [intros H; apply Ok_inj in H; now subst|].
  destruct (arrayIncludes _ _); [intros H; apply Ok_inj in H; now subst|].
  destruct side as [k|]; [|discriminate].
  destruct (String.eqb k "p1");
    [intros H; apply Ok_inj in H; subst; auto with meta|].
  destruct (String.eqb k "p2"); [|discriminate].
  intros H; apply Ok_inj in H; subst; auto with meta.
Qed.

Lemma meta_updatePokemonSpecies ref species c c1 c2 :
  updatePokemonSpecies c1 ref species = Ok c2 -> sameMeta c c1 -> sameMeta c c2.
Proof.
  unfold updatePokemonSpecies.
  destruct (getOrCreatePokemon c1 ref (resolveSide ref) species) as [c3 mon] eqn:E.
  destruct species as [sp|]; [|discriminate]. intros H Hc.
  eapply meta_addSpecies; [exact H|].
  apply meta_modifyPokemon. eauto using meta_getOrCreatePokemon.
Qed.

#[local] Hint Resolve meta_finalizePendingAbilityBoost meta_getOrCreatePokemon
  meta_detailWithIcon meta_addSpecies meta_updatePokemonSpecies : meta.

Ltac meta_handler h :=
  intros ? ? ? H; unfold h in H; cbv beta zeta in H;
  repeat (split_context; cbv beta zeta in * );
  eauto 12 with meta.

Lemma meta_caseTurn c parts c' : caseTurn c parts = Ok c' -> sameMeta c c'.
Proof. revert c parts c'. meta_handler caseTurn. Qed.
Lemma meta_casePoke c parts c' : casePoke c parts = Ok c' -> sameMeta c c'.
Proof. revert c parts c'. meta_handler casePoke. Qed.
Lemma meta_caseSwitch c parts c' : caseSwitch c parts = Ok c' -> sameMeta c c'.
Proof. revert c parts c'. meta_handler caseSwitch. Qed.
Lemma meta_caseMove c parts c' : caseMove c parts = Ok c' -> sameMeta c c'.
Proof. revert c parts c'. meta_handler caseMove. Qed.
Lemma meta_caseCant c parts c' : caseCant c parts = Ok c' -> sameMeta c c'.
Proof. revert c parts c'. meta_handler caseCant. Qed.
Lemma meta_caseDamage c parts c' : caseDamage c parts = Ok c' -> sameMeta c c'.
Proof. revert c parts c'. meta_handler caseDamage. Qed.
Lemma meta_caseStatus c parts c' : caseStatus c parts = Ok c' -> sameMeta c c'.
Proof. revert c parts c'. meta_handler caseStatus. Qed.
Lemma meta_caseCureStatus c parts c' : caseCureStatus c parts = Ok c' -> sameMeta c c'.
Proof. revert c parts c'. meta_handler caseCureStatus. Qed.
Lemma meta_caseAbility c parts c' : caseAbility c parts = Ok c' -> sameMeta c c'.
Proof. revert c parts c'. meta_handler caseAbility. Qed.
Lemma meta_caseFieldStart c parts c' : caseFieldStart c parts = Ok c' -> sameMeta c c'.
Proof. revert c parts c'. meta_handler caseFieldStart. Qed.
Lemma meta_caseFieldEnd c parts c' : caseFieldEnd c parts = Ok c' -> sameMeta c c'.
Proof. revert c parts c'. meta_handler caseFieldEnd. Qed.
Lemma meta_caseWeather c parts c' : caseWeather c parts = Ok c' -> sameMeta c c'.
Proof. revert c parts c'. meta_handler caseWeather. Qed.
Lemma meta_caseSideStart c parts c' : caseSideStart c parts = Ok c' -> sameMeta c c'.
Proof. revert c parts c'. meta_handler caseSideStart. Qed.
Lemma meta_caseSideEnd c parts c' : caseSideEnd c parts = Ok c' -> sameMeta c c'.
Proof. revert c parts c'. meta_handler caseSideEnd. Qed.
Lemma meta_caseTerrain c parts c' : caseTerrain c parts = Ok c' -> sameMeta c c'.
Proof. revert c parts c'. meta_handler caseTerrain. Qed.
Lemma meta_caseSingleTurn c parts c' : caseSingleTurn c parts = Ok c' -> sameMeta c c'.
Proof. revert c parts c'. meta_handler caseSingleTurn. Qed.
Lemma meta_caseActivate c parts c' : caseActivate c parts = Ok c' -> sameMeta c c'.
Proof. revert c parts c'. meta_handler caseActivate. Qed.
Lemma meta_caseFail c parts c' : caseFail c parts = Ok c' -> sameMeta c c'.
Proof. revert c parts c'. meta_handler caseFail. Qed.
Lemma meta_caseMiss c parts c' : caseMiss c parts = Ok c' -> sameMeta c c'.
Proof. revert c parts c'. meta_handler caseMiss. Qed.
Lemma meta_caseImmune c parts c' : caseImmune c parts = Ok c' -> sameMeta c c'.
Proof. revert c parts c'. meta_handler caseImmune. Qed.
Lemma meta_caseFaint c parts c' : caseFaint c parts = Ok c' -> sameMeta c c'.
Proof. revert c parts c'. meta_handler caseFaint. Qed.
Lemma meta_caseTerastallize c parts c' : caseTerastallize c parts = Ok c' -> sameMeta c c'.
Proof. revert c parts c'. meta_handler caseTerastallize. Qed.
Lemma meta_caseFormeChange c parts c' : caseFormeChange c parts = Ok c' -> sameMeta c c'.
Proof. revert c parts c'. meta_handler caseFormeChange. Qed.
Lemma meta_caseBoost tag c parts c' : caseBoost tag c parts = Ok c' -> sameMeta c c'.
Proof. revert c parts c'. meta_handler caseBoost. Qed.
Lemma meta_caseItem label c parts c' : caseItem label c parts = Ok c' -> sameMeta c c'.
Proof. revert c parts c'. meta_handler caseItem. Qed.

Ltac meta_branch lem :=
  match goal with
  | |- (if ?b then _ else _) = _ -> _ =>
      destruct b eqn:?; [ let H := fresh "H" in intros H; eapply lem; exact H | ]
  end.

Lemma sameMeta_parseRecord (c c' : ParseContext) (parts : list string) :
  parseRecord c parts = Ok c' ->
  arrayIncludes metadataTags (tmpl (part parts 0)) = false ->
  sameMeta c c'.
Proof.
  intros H Htag. revert H.
  unfold arrayIncludes, metadataTags in Htag. cbn [existsb] in Htag.
  repeat match type of Htag with
         | _ || _ = false =>
             let E := fresh "E" in apply orb_false_iff in Htag as [E Htag]
         end.
  unfold parseRecord. cbv zeta.
  rewrite E. rewrite E0, E1, E2. cbn [orb]. rewrite E3, E4.
  meta_branch meta_caseTurn. meta_branch meta_casePoke.
  meta_branch meta_caseSwitch. meta_branch meta_caseMove.
  meta_branch meta_caseCant. meta_branch meta_caseDamage.
  meta_branch meta_caseBoost. meta_branch meta_caseStatus.
  meta_branch meta_caseCureStatus. meta_branch meta_caseAbility.
  meta_branch meta_caseItem. meta_branch meta_caseItem.
  meta_branch meta_caseFieldStart. meta_branch meta_caseFieldEnd.
  meta_branch meta_caseWeather. meta_branch meta_caseSideStart.
  meta_branch meta_caseSideEnd. meta_branch meta_caseTerrain.
  rewrite E5.
  meta_branch meta_caseSingleTurn. meta_branch meta_caseActivate.
  meta_branch meta_caseFail. meta_branch meta_caseMiss.
  meta_branch meta_caseImmune. meta_branch meta_caseFaint.
  meta_branch meta_caseTerastallize. meta_branch meta_caseFormeChange.
  intros H. apply Ok_inj in H. subst. apply sameMeta_refl.
Qed.

(** Only player, gen, tier, format, win, l and message records write the
    metadata: every other record leaves the players, the format, the winner,
    the loser and the note on the result as they are. *)
Theorem metadata_written_by_its_records_only (c c' : ParseContext)
  (parts : list string) :
  parseRecord c parts = Ok c' ->
  arrayIncludes metadataTags (tmpl (part parts 0)) = false ->
  players c' = players c /\ formatName c' = formatName c
  /\ winner c' = winner c /\ loser c' = loser c
  /\ resultNote c' = resultNote c.
Proof.
  intros H Htag. destruct (sameMeta_parseRecord c c' parts H Htag). auto.
Qed.

Lemma metadata_written_by_its_records_only_witness :
  players afterUturn = players turnOne /\ formatName afterUturn = formatName turnOne
  /\ winner afterUturn = winner turnOne /\ loser afterUturn = loser turnOne
  /\ resultNote afterUturn = resultNote turnOne.
Proof.
  apply (metadata_written_by_its_records_only turnOne afterUturn uturnMove).
  - vm_compute. reflexivity.
  - reflexivity.
Defined.

End MetaFacts.

(** * The result of a battle *)
Module ResultFacts.
Import Js Utils Icons Parser Scenarios Shapes JsFacts FrameFacts TurnFacts.
Import TextFacts MetaFacts.

Lemma parseLines_app c xs ys :
  parseLines c (xs ++ ys)%list = bind (parseLines c xs) (fun c1 => parseLines c1 ys).
Proof.
  revert c. induction xs as [|x r IH]; intros c; simpl; [reflexivity|].
  destruct (parseLine c x); simpl; [apply IH|reflexivity].
Qed.

Lemma parseRecord_player c parts :
  tmpl (part parts 0) = "player" -> parseRecord c parts = casePlayer c parts.
Proof. intros E. unfold parseRecord. rewrite E. reflexivity. Qed.

Lemma parseRecord_format c parts :
  tmpl (part parts 0) = "gen" \/ tmpl (part parts 0) = "tier"
  \/ tmpl (part parts 0) = "format" ->
  parseRecord c parts = caseFormat c parts.
Proof. intros [E|[E|E]]; unfold parseRecord; rewrite E; reflexivity. Qed.

Lemma parseRecord_win c parts :
  tmpl (part parts 0) = "win" -> parseRecord c parts = caseWin c parts.
Proof. intros E. unfold parseRecord. rewrite E. reflexivity. Qed.

Lemma parseRecord_loss c parts :
  tmpl (part parts 0) = "l" -> parseRecord c parts = caseLoss c parts.
Proof. intros E. unfold parseRecord. rewrite E. reflexivity. Qed.

Lemma parseRecord_message c parts :
  tmpl (part parts 0) = "-message" -> parseRecord c parts = caseMessage c parts.
Proof. intros E. unfold parseRecord. rewrite E. reflexivity. Qed.

Lemma metadataTags_cases (tag : string) :
  arrayIncludes metadataTags tag = true ->
  tag = "player" \/ (tag = "gen" \/ tag = "tier" \/ tag = "format")
  \/ tag = "win" \/ tag = "l" \/ tag = "-message".
Proof.
  unfold arrayIncludes, metadataTags. cbn [existsb]. intros H.
  repeat match type of H with
         | _ || _ = true => apply orb_prop in H as [H|H]
         end;
    try (apply String.eqb_eq in H); try discriminate; tauto.
Qed.

(** A record that is not a win record leaves the winner as it is. *)
Lemma winner_kept c parts c' :
  parseRecord c parts = Ok c' -> tmpl (part parts 0) <> "win" ->
  winner c' = winner c.
Proof.
  intros H Htag.
  destruct (arrayIncludes metadataTags (tmpl (part parts 0))) eqn:E.
  - apply metadataTags_cases in E as [E|[E|[E|[E|E]]]].
    + rewrite (parseRecord_player c parts E) in H. unfold casePlayer in H.
      destruct (truthy _); apply Ok_inj in H; now subst.
    + rewrite (parseRecord_format c parts E) in H. unfold caseFormat in H.
      destruct (negb _); apply Ok_inj in H; now subst.
    + contradiction.
    + rewrite (parseRecord_loss c parts E) in H. unfold caseLoss in H.
      apply Ok_inj in H; now subst.
    + rewrite (parseRecord_message c parts E) in H.
      unfold caseMessage in H. cbv zeta in H.
      repeat match type of H with
             | (if ?b then _ else _) = _ => destruct b
             end; apply Ok_inj in H; subst; try reflexivity.
      apply (sm_winner _ _ (meta_appendDetailString _ _ _ _ (sameMeta_refl c))).
  - now destruct (sameMeta_parseRecord c c' parts H E).
Qed.

Lemma winner_kept_line c line c' :
  parseLine c line = Ok c' -> recordTag line <> Some "win" ->
  winner c' = winner c.
Proof.
  unfold parseLine, recordTag. cbv zeta.
  destruct (nonEmpty _); cbn [negb].
  - intros H Htag. apply (winner_kept c _ c' H).
    destruct (part _ 0) as [t|]; simpl; [congruence|discriminate].
  - intros H _. apply Ok_inj in H. now subst.
Qed.

Lemma winner_kept_lines lines c c' :
  Forall (fun line => recordTag line <> Some "win") lines ->
  parseLines c lines = Ok c' -> winner c' = winner c.
Proof.
  revert c. induction lines as [|l r IH]; intros c F H.
  - apply Ok_inj in H. now subst.
  - inversion F as [|? ? Hl Hr]. subst. simpl in H.
    destruct (parseLine c l) as [c1|] eqn:E; [|discriminate].
    cbn [bind] in H. rewrite (IH c1 Hr H). now apply (winner_kept_line c l).
Qed.

(** A line that starts with the delimiter is the record behind it. *)
Lemma parseLine_delimited c (line : string) :
  nonEmpty line = true ->
  parseLine c (String "|" line) = parseRecord c (split "|" line).
Proof.
  intros Hn. unfold parseLine. cbv zeta.
  assert (Hs : startsWith (String "|" line) "|" = true).
  { unfold startsWith. apply prefix_correct. simpl. now destruct line. }
  rewrite Hs.
  assert (Hd : dropChars 1 (String "|" line) = line).
  { unfold dropChars. simpl. rewrite Nat.sub_0_r. apply substring_whole. }
  now rewrite Hd, Hn.
Qed.

(** The winner at the end of a log is the name in its last win record. *)
Theorem winner_is_last_win_record (c c' : ParseContext)
  (before after : list string) (name : string) :
  without "|" name = true ->
  Forall (fun line => recordTag line <> Some "win") after ->
  parseLines c (before ++ ("|win|" ++ name)%string :: after)%list = Ok c' ->
  winner c' = Some name.
Proof.
  intros Hname Hafter H. rewrite parseLines_app in H.
  destruct (parseLines c before) as [c1|]; [|discriminate].
  cbn [bind parseLines] in H.
  assert (Hline : parseLine c1 ("|win|" ++ name) = Ok (set_winner (Some name) c1)).
  { change ("|win|" ++ name) with (String "|" ("win" ++ String "|" name)).
    rewrite parseLine_delimited by reflexivity.
    rewrite split_piece by reflexivity.
    rewrite split_last_piece by assumption.
    reflexivity. }
  rewrite Hline in H. cbn [bind] in H.
  now rewrite (winner_kept_lines after _ c' Hafter H).
Qed.

Lemma winner_is_last_win_record_witness :
  winner (match parseLines createInitialContext thunderboltLog with
          | Ok c => c
          | Throw _ => createInitialContext
          end) = Some "Ash".
Proof.
  apply (winner_is_last_win_record createInitialContext _
           [ "|player|p1|Ash"; "|player|p2|Misty";
             "|switch|p1a: Pikachu|Pikachu, L50|100/100";
             "|switch|p2a: Squirtle|Squirtle, L50|100/100";
             "|turn|1";
             "|move|p1a: Pikachu|Thunderbolt|p2a: Squirtle";
             "|-damage|p2a: Squirtle|50/100";
             "|turn|2" ] [] "Ash").
  - reflexivity.
  - constructor.
  - vm_compute. reflexivity.
Defined.

(** ** The rendered summary *)

Lemma join_head (sep x : string) (xs : list string) :
  exists rest, join sep (x :: xs) = x ++ rest.
Proof.
  destruct xs as [|y r]; simpl.
  - exists "". induction x as [|c x IH]; simpl; [reflexivity|]. now rewrite <- IH.
  - eauto.
Qed.

Lemma join_snoc (sep x last : string) (xs : list string) :
  join sep ((x :: xs) ++ [last])%list = join sep (x :: xs) ++ sep ++ last.
Proof.
  revert x. induction xs as [|y r IH]; intros x; [reflexivity|].
  change (join sep ((x :: y :: r) ++ [last])%list)
    with (x ++ sep ++ join sep ((y :: r) ++ [last])%list).
  rewrite IH.
  change (join sep (x :: y :: r)) with (x ++ sep ++ join sep (y :: r)).
  now rewrite !string_app_assoc.
Qed.

Ltac open_summary H :=
  unfold renderSummary in H; cbv zeta in H;
  match type of H with
  | match ?x with (_, _) => _ end = _ =>
      let leadHtml := fresh "leadHtml" in
      let leadText := fresh "leadText" in
      destruct x as [leadHtml leadText]
  end;
  match type of H with
  | bind ?r _ = _ =>
      let turnHtml := fresh "turnHtml" in
      let turnText := fresh "turnText" in
      destruct r as [[turnHtml turnText]|]; [cbn [bind] in H|discriminate H]
  end;
  apply Ok_inj in H; subst.

(** When a winner is recorded, the text of the summary ends with the line
    that declares the winner. *)
Theorem summary_text_ends_with_winner rx (c : ParseContext) (d : DualFormat)
  (w : string) :
  renderSummary rx c = Ok d -> winner c = Some w -> nonEmpty w = true ->
  exists body, d_text d = body ++ String newline (w ++ " Wins").
Proof.
  intros H Hw Hn. open_summary H. cbn [d_text]. rewrite Hw. cbn [truthy tmpl].
  rewrite Hn.
  match goal with
  | |- exists body, join ?sep ([?h] +++ ?a +++ ?b +++ ?t +++ [?l]) = _ =>
      change ([h] +++ a +++ b +++ t +++ [l])
        with (h :: (a ++ b ++ t ++ [l]))%list;
      replace (h :: (a ++ b ++ t ++ [l]))%list
        with ((h :: (a ++ b ++ t)) ++ [l])%list
        by (simpl; now rewrite <- !app_assoc);
      rewrite join_snoc; eexists; reflexivity
  end.
Qed.

Lemma summary_text_ends_with_winner_witness :
  exists body, d_text ashSummary = body ++ String newline ("Ash" ++ " Wins").
Proof.
  apply (summary_text_ends_with_winner literalNameReplace ashWins ashSummary "Ash");
    reflexivity.
Defined.

Lemma header_rest (sep t1 n1 vs t2 n2 fmt note : string) (xs : list string) :
  exists rest,
    join sep ([t1 ++ n1 ++ vs ++ t2 ++ n2 ++ fmt ++ note] +++ xs)
    = (t1 ++ n1 ++ vs ++ t2 ++ n2) ++ rest.
Proof.
  destruct (join_head sep (t1 ++ n1 ++ vs ++ t2 ++ n2 ++ fmt ++ note) xs)
    as [rest E].
  exists ((fmt ++ note) ++ rest).
  change ([t1 ++ n1 ++ vs ++ t2 ++ n2 ++ fmt ++ note] +++ xs)
    with ((t1 ++ n1 ++ vs ++ t2 ++ n2 ++ fmt ++ note) :: xs).
  rewrite E. now rewrite !string_app_assoc.
Qed.

(** With a winner whose identifier is that of one of two players with
    different identifiers, and no loser recorded, the first line of the text
    marks that player as the winner and the other one as the loser. *)
Theorem summary_header_marks_result rx (c : ParseContext) (d : DualFormat)
  (w : string) :
  renderSummary rx c = Ok d ->
  winner c = Some w -> nonEmpty (toId (Some w)) = true ->
  truthy (loser c) = false ->
  toId (Some (p1 (players c))) <> toId (Some (p2 (players c))) ->
  (toId (Some w) = toId (Some (p1 (players c))) ->
   exists rest,
     d_text d = ("[W] " ++ p1 (players c) ++ " vs " ++ "[L] " ++ p2 (players c))
                ++ rest)
  /\ (toId (Some w) = toId (Some (p2 (players c))) ->
      exists rest,
        d_text d = ("[L] " ++ p1 (players c) ++ " vs " ++ "[W] " ++ p2 (players c))
                   ++ rest).
Proof.
  intros H Hw Hid Hl Hne. open_summary H. cbn [d_text].
  assert (Hn : nonEmpty w = true) by (destruct w; [discriminate Hid|reflexivity]).
  rewrite Hw, Hl. cbn [truthy tmpl]. rewrite Hn. cbn [negb andb idIs truthy]. rewrite Hid. cbn [idIs].
  split; intros E.
  - rewrite E, String.eqb_refl.
    apply String.eqb_neq in Hne. rewrite Hne, String.eqb_refl.
    apply header_rest.
  - rewrite E, String.eqb_refl.
    assert (Hne' : String.eqb (toId (Some (p2 (players c))))
                     (toId (Some (p1 (players c)))) = false)
      by (apply String.eqb_neq; congruence).
    rewrite Hne', String.eqb_refl.
    apply header_rest.
Qed.

Lemma summary_header_marks_result_witness :
  (toId (Some "Ash") = toId (Some (p1 (players ashWins))) ->
   exists rest,
     d_text ashSummary
     = ("[W] " ++ p1 (players ashWins) ++ " vs " ++ "[L] " ++ p2 (players ashWins))
       ++ rest)
  /\ (toId (Some "Ash") = toId (Some (p2 (players ashWins))) ->
      exists rest,
        d_text ashSummary
        = ("[L] " ++ p1 (players ashWins) ++ " vs " ++ "[W] " ++ p2 (players ashWins))
          ++ rest).
Proof.
  apply (summary_header_marks_result literalNameReplace ashWins ashSummary "Ash");
    try reflexivity.
  discriminate.
Defined.

(** ** Forfeits *)

Lemma mapChars_app (f : ascii -> ascii) (s1 s2 : string) :
  mapChars f (s1 ++ s2) = mapChars f s1 ++ mapChars f s2.
Proof. induction s1 as [|a s1 IH]; simpl; [reflexivity|now rewrite IH]. Qed.

Lemma prefix_app_self (p s : string) : prefix p (p ++ s) = true.
Proof. apply prefix_correct, substring_app_prefix. Qed.

Lemma trimEnd_space (s : string) : trimEnd (s ++ " ") = trimEnd s.
Proof. unfold trimEnd. rewrite reverse_app. reflexivity. Qed.

(** A message that ends in " forfeited." marks the result as a forfeit.
    The text before it, without trailing white space, becomes the loser
    unless a loser is already recorded; winner and turns stay as they are. *)
Theorem forfeit_message_names_loser (c : ParseContext) (parts : list string)
  (name : string) :
  part parts 0 = Some "-message" ->
  join " " (skipn 1 parts) = name ++ " forfeited." ->
  exists c',
    parseRecord c parts = Ok c'
    /\ resultNote c' = Some "Forfeit"
    /\ loser c' = (if truthy (loser c) then loser c else Some (trimEnd name))
    /\ winner c' = winner c
    /\ turns c' = turns c
    /\ turnStore c' = turnStore c.
Proof.
  intros Htag Hmsg.
  rewrite parseRecord_message by (now rewrite Htag).
  unfold caseMessage. cbv zeta. rewrite Hmsg.
  assert (He : endsWith (toLowerCase (name ++ " forfeited.")) "forfeited." = true).
  { unfold endsWith, toLowerCase.
    rewrite mapChars_app.
    change (mapChars toLowerChar " forfeited.") with (" " ++ "forfeited.").
    rewrite !reverse_app, string_app_assoc.
    apply prefix_app_self. }
  rewrite He.
  assert (Hs : substring 0 (String.length (name ++ " forfeited.") - 10)
                 (name ++ " forfeited.") = name ++ " ").
  { change " forfeited." with (" " ++ "forfeited.").
    rewrite <- string_app_assoc.
    rewrite (string_length_app (name ++ " ") "forfeited.").
    change (String.length "forfeited.") with 10.
    replace (String.length (name ++ " ") + 10 - 10) with (String.length (name ++ " "))
      by lia.
    apply substring_app_prefix. }
  rewrite Hs, trimEnd_space.
  change (loser (set_resultNote (Some "Forfeit") c)) with (loser c).
  destruct (truthy (loser c)); cbn [negb]; eexists; split; try reflexivity;
    repeat split.
Qed.

Lemma forfeit_message_names_loser_witness :
  exists c',
    parseRecord createInitialContext ["-message"; "Gary forfeited."] = Ok c'
    /\ resultNote c' = Some "Forfeit"
    /\ loser c' = (if truthy (loser createInitialContext)
                   then loser createInitialContext else Some (trimEnd "Gary"))
    /\ winner c' = winner createInitialContext
    /\ turns c' = turns createInitialContext
    /\ turnStore c' = turnStore createInitialContext.
Proof.
  apply (forfeit_message_names_loser createInitialContext
           ["-message"; "Gary forfeited."] "Gary"); reflexivity.
Defined.

End ResultFacts.

(** * The registry of pokemon and the rosters stay in good order *)
Module OrderFacts.
Import Js Utils Icons Parser Scenarios Shapes JsFacts FrameFacts TurnFacts.
Import DetailFacts RegistryFacts TextFacts.

Lemma wf_same c c' :
  pokemon c' = pokemon c -> teams c' = teams c -> wellFormed c -> wellFormed c'.
Proof.
  unfold wellFormed, registryWellFormed, pokemonGet. intros -> ->. auto.
Qed.

Lemma wf_assign ref mon c :
  monWellFormed ref mon -> wellFormed c ->
  wellFormed (set_pokemon (assign ref mon (pokemon c)) c).
Proof.
  intros Hm [Hr Ht]. split; [|exact Ht].
  intros r m. unfold pokemonGet. simpl.
  destruct (String.eqb_spec r ref) as [->|Hne].
  - rewrite lookup_assign_same. now intros [= <-].
  - rewrite lookup_assign_other by assumption. apply Hr.
Qed.

Lemma wf_start names format : wellFormed (startContext names format).
Proof.
  split.
  - intros r m. discriminate.
  - repeat split; constructor.
Qed.

Ltac wf_same := intros; eapply wf_same; [| |eassumption]; reflexivity.

Lemma wf_set_players v c : wellFormed c -> wellFormed (set_players v c).
Proof. wf_same. Qed.
Lemma wf_set_formatName v c : wellFormed c -> wellFormed (set_formatName v c).
Proof. wf_same. Qed.
Lemma wf_set_turnStore v c : wellFormed c -> wellFormed (set_turnStore v c).
Proof. wf_same. Qed.
Lemma wf_set_turns v c : wellFormed c -> wellFormed (set_turns v c).
Proof. wf_same. Qed.
Lemma wf_set_currentTurn v c : wellFormed c -> wellFormed (set_currentTurn v c).
Proof. wf_same. Qed.
Lemma wf_set_actionStore v c : wellFormed c -> wellFormed (set_actionStore v c).
Proof. wf_same. Qed.
Lemma wf_set_currentAction v c : wellFormed c -> wellFormed (set_currentAction v c).
Proof. wf_same. Qed.
Lemma wf_set_winner v c : wellFormed c -> wellFormed (set_winner v c).
Proof. wf_same. Qed.
Lemma wf_set_loser v c : wellFormed c -> wellFormed (set_loser v c).
Proof. wf_same. Qed.
Lemma wf_set_resultNote v c : wellFormed c -> wellFormed (set_resultNote v c).
Proof. wf_same. Qed.
Lemma wf_set_leadPhase v c : wellFormed c -> wellFormed (set_leadPhase v c).
Proof. wf_same. Qed.
Lemma wf_set_faintedThisTurn v c : wellFormed c -> wellFormed (set_faintedThisTurn v c).
Proof. wf_same. Qed.
Lemma wf_set_currentWeather v c : wellFormed c -> wellFormed (set_currentWeather v c).
Proof. wf_same. Qed.
Lemma wf_set_sideConditions v c : wellFormed c -> wellFormed (set_sideConditions v c).
Proof. wf_same. Qed.
Lemma wf_set_pendingAbilityBoost v c : wellFormed c -> wellFormed (set_pendingAbilityBoost v c).
Proof. wf_same. Qed.
Lemma wf_set_recentMoves v c : wellFormed c -> wellFormed (set_recentMoves v c).
Proof. wf_same. Qed.
Lemma wf_set_activePositions v c : wellFormed c -> wellFormed (set_activePositions v c).
Proof. wf_same. Qed.
Lemma wf_set_pendingFieldEnds v c : wellFormed c -> wellFormed (set_pendingFieldEnds v c).
Proof. wf_same. Qed.
Lemma wf_set_pendingProtects v c : wellFormed c -> wellFormed (set_pendingProtects v c).
Proof. wf_same. Qed.
Lemma wf_modifyCurrentTurn f c : wellFormed c -> wellFormed (modifyCurrentTurn f c).
Proof. wf_same. Qed.
Lemma wf_modifyAction r f c : wellFormed c -> wellFormed (modifyAction r f c).
Proof. wf_same. Qed.
Lemma wf_pushEndEvent e c : wellFormed c -> wellFormed (pushEndEvent e c).
Proof. wf_same. Qed.
Lemma wf_pushDetail r e c : wellFormed c -> wellFormed (pushDetail r e c).
Proof. wf_same. Qed.
Lemma wf_setCurrentAction a c : wellFormed c -> wellFormed (setCurrentAction c a).
Proof. wf_same. Qed.
Lemma wf_appendVerb r suffix c : wellFormed c -> wellFormed (appendVerb r suffix c).
Proof. wf_same. Qed.
Lemma wf_addNoteAction ref note c : wellFormed c -> wellFormed (addNoteAction c ref note).
Proof. wf_same. Qed.

Create HintDb wf.
#[local] Hint Resolve wf_set_players wf_set_formatName wf_set_turnStore wf_set_turns wf_set_currentTurn wf_set_actionStore wf_set_currentAction wf_set_winner wf_set_loser wf_set_resultNote wf_set_leadPhase wf_set_faintedThisTurn wf_set_currentWeather wf_set_sideConditions wf_set_pendingAbilityBoost wf_set_recentMoves wf_set_activePositions wf_set_pendingFieldEnds wf_set_pendingProtects
  wf_modifyCurrentTurn wf_modifyAction wf_pushEndEvent wf_pushDetail
  wf_setCurrentAction wf_appendVerb wf_addNoteAction : wf.

Lemma wf_appendDetail d b c : wellFormed c -> wellFormed (appendDetail c d b).
Proof.
  intros. unfold appendDetail. destruct (_ && _); [assumption|].
  destruct (currentAction c); [destruct b|]; auto with wf.
Qed.

Lemma wf_appendDetailString d b c :
  wellFormed c -> wellFormed (appendDetailString c d b).
Proof.
  intros. unfold appendDetailString. destruct (negb _); [assumption|].
  destruct (currentAction c); [destruct b|]; auto with wf.
Qed.

Lemma wf_pushHeaderEvent text c : wellFormed c -> wellFormed (pushHeaderEvent c text).
Proof. intros. unfold pushHeaderEvent. destruct (t_actions _); auto with wf. Qed.

Lemma wf_flushPendingFieldEnds c : wellFormed c -> wellFormed (flushPendingFieldEnds c).
Proof.
  intros. unfold flushPendingFieldEnds. destruct (pendingFieldEnds c); auto with wf.
Qed.

Lemma wf_ensureCurrentTurn n c : wellFormed c -> wellFormed (ensureCurrentTurn c n).
Proof.
  intros. unfold ensureCurrentTurn. destruct (numEq _ _); [assumption|].
  cbv zeta. auto 12 using wf_flushPendingFieldEnds with wf.
Qed.

Lemma wf_patchTargetName ref suffix c :
  wellFormed c -> wellFormed (patchTargetName c ref suffix).
Proof.
  intros. unfold patchTargetName.
  repeat match goal with
         | |- context [match ?x with _ => _ end] => destruct x
         end; auto with wf.
Qed.

(** A mutation of a registry entry that keeps it in good order. *)
Lemma wf_modifyPokemon ref f c :
  (forall m, monWellFormed ref m -> monWellFormed ref (f m)) ->
  wellFormed c -> wellFormed (modifyPokemon ref f c).
Proof.
  intros Hf Hc. unfold modifyPokemon.
  destruct (pokemonGet c ref) as [mon|] eqn:E; [|assumption].
  apply wf_assign; [|assumption]. apply Hf. now apply (proj1 Hc).
Qed.

Lemma iconIdOr_iconChars species fallback :
  nonEmpty fallback = true -> allChars iconChar fallback = true ->
  nonEmpty (iconIdOr species fallback) = true
  /\ allChars iconChar (iconIdOr species fallback) = true.
Proof.
  intros Hn Ha. unfold iconIdOr.
  destruct (nonEmpty (toIconId (Some species))) eqn:E; [|auto].
  split; [exact E|]. apply toIconId_iconChars.
Qed.

Lemma created_wellFormed ref species :
  monWellFormed ref
    (mkPokemon ref (resolveSide ref) None species
       (iconIdOr species DEFAULT_ICON_ID) None None None).
Proof.
  destruct (iconIdOr_iconChars species DEFAULT_ICON_ID eq_refl eq_refl).
  repeat split; assumption.
Qed.

Lemma wf_getOrCreate ref species c c' mon :
  getOrCreatePokemon c ref (resolveSide ref) species = (c', mon) ->
  wellFormed c ->
  wellFormed c' /\ pokemonGet c' ref = Some mon /\ monWellFormed ref mon.
Proof.
  unfold getOrCreatePokemon. destruct (pokemonGet c ref) as [m|] eqn:E;
    intros H Hc; apply pair_equal_spec in H as [<- <-].
  - split; [assumption|]. split; [assumption|]. now apply (proj1 Hc).
  - pose proof (created_wellFormed ref match species with
                                        | Some s => s
                                        | None => "Unknown"
                                        end) as Hm.
    split; [now apply wf_assign|]. split; [|exact Hm].
    unfold pokemonGet. simpl. apply lookup_assign_same.
Qed.

Lemma wf_getOrCreatePokemon ref species c c' mon :
  getOrCreatePokemon c ref (resolveSide ref) species = (c', mon) ->
  wellFormed c -> wellFormed c'.
Proof. intros H Hc. now destruct (wf_getOrCreate _ _ _ _ _ H Hc). Qed.

Lemma wf_detailWithIcon ref body c c' d :
  detailWithIcon c ref body = (c', d) -> wellFormed c -> wellFormed c'.
Proof.
  unfold detailWithIcon.
  destruct (getOrCreatePokemon c ref (resolveSide ref) None) as [c1 mon] eqn:E.
  intros H. apply pair_equal_spec in H as [<- _].
  eauto using wf_getOrCreatePokemon.
Qed.

Lemma wf_targetBoostDetails groups c c' ds :
  targetBoostDetails c groups = (c', ds) -> wellFormed c -> wellFormed c'.
Proof.
  revert c c' ds. induction groups as [|[targetRef targetBoosts] rest IH];
    simpl; intros c c' ds.
  - intros H. apply pair_equal_spec in H as [<- _]. auto.
  - destruct (detailWithIcon c targetRef _) as [c1 d] eqn:E1.
    destruct (targetBoostDetails c1 rest) as [c2 ds'] eqn:E2.
    intros H. apply pair_equal_spec in H as [<- _].
    eauto using wf_detailWithIcon.
Qed.

#[local] Hint Resolve wf_appendDetail wf_appendDetailString wf_pushHeaderEvent
  wf_flushPendingFieldEnds wf_ensureCurrentTurn wf_patchTargetName : wf.

Lemma wf_finalizePendingAbilityBoost c :
  wellFormed c -> wellFormed (finalizePendingAbilityBoost c).
Proof.
  intros H. unfold finalizePendingAbilityBoost.
  destruct (pendingAbilityBoost c) as [[ref ability boosts]|]; [|assumption].
  destruct (targetBoostDetails c (boostsByTarget boosts)) as [c2 rest] eqn:E.
  assert (H2 : wellFormed c2) by eauto using wf_targetBoostDetails.
  apply wf_set_pendingAbilityBoost.
  destruct (combineDetails _); [|assumption].
  destruct (beforeFirstAction c2); auto with wf.
Qed.

Lemma arrayIncludes_In (xs : list string) (x : string) :
  arrayIncludes xs x = false -> ~ In x xs.
Proof.
  unfold arrayIncludes. intros H Hin.
  assert (E : existsb (String.eqb x) xs = true)
    by (apply existsb_exists; exists x; split; [assumption|apply String.eqb_refl]).
  congruence.
Qed.

Lemma roster_add (names : list string) (n : string) :
  rosterWellFormed names -> arrayIncludes names n = false ->
  nonEmpty (toId (Some n)) = true -> rosterWellFormed (names ++ [n]).
Proof.
  intros [Hd Hf] Hin Hid. split.
  - apply NoDup_app; [assumption|repeat constructor; auto|].
    intros x Hx [E|[]]. subst x. now apply (arrayIncludes_In names n).
  - apply Forall_app. split; [assumption|]. now repeat constructor.
Qed.

Lemma wf_addSpecies side species c c' :
  addSpecies c side species = Ok c' -> wellFormed c -> wellFormed c'.
Proof.
  unfold addSpecies. cbv zeta.
  destruct (negb (nonEmpty (toId (Some (trim species))))) eqn:Eid;
    [intros H; apply Ok_inj in H; now subst|].
  apply negb_false_iff in Eid.
  destruct side as [k|].
  - destruct (String.eqb k "p1") eqn:E1.
    + destruct (arrayIncludes _ _) eqn:Ein; intros H; apply Ok_inj in H; subst;
        [auto|].
      intros [Hr (H1 & H2 & R1 & R2)]. split; [exact Hr|].
      rewrite H1 in Ein. unfold teamsWellFormed. simpl.
      split; [now rewrite H1|]. split; [assumption|].
      split; [now apply roster_add|assumption].
    + destruct (arrayIncludes _ _) eqn:Ein; [intros H; apply Ok_inj in H; now subst|].
      destruct (String.eqb k "p2"); [|discriminate].
      intros H; apply Ok_inj in H; subst.
      intros [Hr (H1 & H2 & R1 & R2)]. split; [exact Hr|].
      rewrite H2 in Ein. unfold teamsWellFormed. simpl.
      split; [assumption|]. split; [now rewrite H2|].
      split; [assumption|now apply roster_add].
  - destruct (arrayIncludes _ _); [intros H; apply Ok_inj in H; now subst|discriminate].
Qed.

Lemma species_wellFormed ref species m :
  monWellFormed ref m ->
  monWellFormed ref
    (set_mon_iconId (iconIdOr species (mon_iconId m)) (set_mon_species species m)).
Proof.
  intros (H1 & H2 & H3 & H4).
  destruct (iconIdOr_iconChars species (mon_iconId m) H3 H4).
  repeat split; assumption.
Qed.

Lemma wf_updatePokemonSpecies ref species c c' :
  updatePokemonSpecies c ref species = Ok c' -> wellFormed c -> wellFormed c'.
Proof.
  unfold updatePokemonSpecies.
  destruct (getOrCreatePokemon c ref (resolveSide ref) species) as [c1 mon] eqn:E.
  destruct species as [sp|]; [|discriminate]. intros H Hc.
  eapply wf_addSpecies; [exact H|].
  apply wf_modifyPokemon.
  - intros m. apply species_wellFormed.
  - eauto using wf_getOrCreatePokemon.
Qed.

#[local] Hint Resolve wf_finalizePendingAbilityBoost wf_getOrCreatePokemon
  wf_detailWithIcon wf_addSpecies wf_updatePokemonSpecies : wf.
#[local] Hint Extern 1 (wellFormed (modifyPokemon _ _ _)) =>
  apply wf_modifyPokemon; [intros ? Hm; exact Hm|] : wf.

(** ** The handlers *)

Ltac wf_handler h :=
  intros ? ? ? H Hc; unfold h in H; cbv beta zeta in H;
  repeat (split_context; cbv beta zeta in * );
  eauto 12 with wf.

Lemma wf_casePlayer c parts c' : casePlayer c parts = Ok c' -> wellFormed c -> wellFormed c'.
Proof. revert c parts c'. wf_handler casePlayer. Qed.
Lemma wf_caseFormat c parts c' : caseFormat c parts = Ok c' -> wellFormed c -> wellFormed c'.
Proof. revert c parts c'. wf_handler caseFormat. Qed.
Lemma wf_caseWin c parts c' : caseWin c parts = Ok c' -> wellFormed c -> wellFormed c'.
Proof. revert c parts c'. wf_handler caseWin. Qed.
Lemma wf_caseLoss c parts c' : caseLoss c parts = Ok c' -> wellFormed c -> wellFormed c'.
Proof. revert c parts c'. wf_handler caseLoss. Qed.
Lemma wf_caseTurn c parts c' : caseTurn c parts = Ok c' -> wellFormed c -> wellFormed c'.
Proof. revert c parts c'. wf_handler caseTurn. Qed.
Lemma wf_casePoke c parts c' : casePoke c parts = Ok c' -> wellFormed c -> wellFormed c'.
Proof. revert c parts c'. wf_handler casePoke. Qed.
Lemma wf_caseCant c parts c' : caseCant c parts = Ok c' -> wellFormed c -> wellFormed c'.
Proof. revert c parts c'. wf_handler caseCant. Qed.
Lemma wf_caseDamage c parts c' : caseDamage c parts = Ok c' -> wellFormed c -> wellFormed c'.
Proof. revert c parts c'. wf_handler caseDamage. Qed.
Lemma wf_caseStatus c parts c' : caseStatus c parts = Ok c' -> wellFormed c -> wellFormed c'.
Proof. revert c parts c'. wf_handler caseStatus. Qed.
Lemma wf_caseCureStatus c parts c' : caseCureStatus c parts = Ok c' -> wellFormed c -> wellFormed c'.
Proof. revert c parts c'. wf_handler caseCureStatus. Qed.
Lemma wf_caseAbility c parts c' : caseAbility c parts = Ok c' -> wellFormed c -> wellFormed c'.
Proof. revert c parts c'. wf_handler caseAbility. Qed.
Lemma wf_caseFieldStart c parts c' : caseFieldStart c parts = Ok c' -> wellFormed c -> wellFormed c'.
Proof. revert c parts c'. wf_handler caseFieldStart. Qed.
Lemma wf_caseFieldEnd c parts c' : caseFieldEnd c parts = Ok c' -> wellFormed c -> wellFormed c'.
Proof. revert c parts c'. wf_handler caseFieldEnd. Qed.
Lemma wf_caseWeather c parts c' : caseWeather c parts = Ok c' -> wellFormed c -> wellFormed c'.
Proof. revert c parts c'. wf_handler caseWeather. Qed.
Lemma wf_caseSideStart c parts c' : caseSideStart c parts = Ok c' -> wellFormed c -> wellFormed c'.
Proof. revert c parts c'. wf_handler caseSideStart. Qed.
Lemma wf_caseSideEnd c parts c' : caseSideEnd c parts = Ok c' -> wellFormed c -> wellFormed c'.
Proof. revert c parts c'. wf_handler caseSideEnd. Qed.
Lemma wf_caseTerrain c parts c' : caseTerrain c parts = Ok c' -> wellFormed c -> wellFormed c'.
Proof. revert c parts c'. wf_handler caseTerrain. Qed.
Lemma wf_caseMessage c parts c' : caseMessage c parts = Ok c' -> wellFormed c -> wellFormed c'.
Proof. revert c parts c'. wf_handler caseMessage. Qed.
Lemma wf_caseSingleTurn c parts c' : caseSingleTurn c parts = Ok c' -> wellFormed c -> wellFormed c'.
Proof. revert c parts c'. wf_handler caseSingleTurn. Qed.
Lemma wf_caseActivate c parts c' : caseActivate c parts = Ok c' -> wellFormed c -> wellFormed c'.
Proof. revert c parts c'. wf_handler caseActivate. Qed.
Lemma wf_caseFail c parts c' : caseFail c parts = Ok c' -> wellFormed c -> wellFormed c'.
Proof. revert c parts c'. wf_handler caseFail. Qed.
Lemma wf_caseMiss c parts c' : caseMiss c parts = Ok c' -> wellFormed c -> wellFormed c'.
Proof. revert c parts c'. wf_handler caseMiss. Qed.
Lemma wf_caseImmune c parts c' : caseImmune c parts = Ok c' -> wellFormed c -> wellFormed c'.
Proof. revert c parts c'. wf_handler caseImmune. Qed.
Lemma wf_caseFaint c parts c' : caseFaint c parts = Ok c' -> wellFormed c -> wellFormed c'.
Proof. revert c parts c'. wf_handler caseFaint. Qed.
Lemma wf_caseTerastallize c parts c' : caseTerastallize c parts = Ok c' -> wellFormed c -> wellFormed c'.
Proof. revert c parts c'. wf_handler caseTerastallize. Qed.
Lemma wf_caseFormeChange c parts c' : caseFormeChange c parts = Ok c' -> wellFormed c -> wellFormed c'.
Proof. revert c parts c'. wf_handler caseFormeChange. Qed.
Lemma wf_caseBoost tag c parts c' :
  caseBoost tag c parts = Ok c' -> wellFormed c -> wellFormed c'.
Proof. revert c parts c'. wf_handler caseBoost. Qed.
Lemma wf_caseItem label c parts c' :
  caseItem label c parts = Ok c' -> wellFormed c -> wellFormed c'.
Proof. revert c parts c'. wf_handler caseItem. Qed.

Lemma parsePokemonRef_side raw :
  r_side (parsePokemonRef raw) = resolveSide (r_ref (parsePokemonRef raw)).
Proof. unfold parsePokemonRef. now destruct (refMatch raw) as [[ref nickname]|]. Qed.

Lemma nickname_wellFormed ref (nickname : string) m :
  monWellFormed ref m ->
  monWellFormed ref
    (if nonEmpty nickname then set_mon_nickname (Some nickname) m else m).
Proof. intros H. now destruct (nonEmpty nickname). Qed.

Lemma wf_caseMove c parts c' : caseMove c parts = Ok c' -> wellFormed c -> wellFormed c'.
Proof.
  unfold caseMove. cbv zeta.
  destruct (part parts 1) as [raw|]; [|discriminate]. cbn [defined bind].
  pose proof (parsePokemonRef_side raw) as Hside.
  destruct (parsePokemonRef raw) as [ref nickname side]. cbn [r_side r_ref] in Hside.
  subst side.
  destruct (part parts 2) as [moveRaw|]; [|discriminate]. cbn [defined bind].
  destruct (getOrCreatePokemon (finalizePendingAbilityBoost c) ref (resolveSide ref) None)
    as [c0 actor] eqn:E.
  intros H Hc. apply Ok_inj in H. subst c'.
  destruct (wf_getOrCreate _ _ _ _ _ E (wf_finalizePendingAbilityBoost _ Hc))
    as (Hc0 & _ & Hm).
  apply wf_setCurrentAction, wf_set_recentMoves, wf_assign; [|assumption].
  now apply nickname_wellFormed.
Qed.

Lemma wf_caseSwitch c parts c' :
  caseSwitch c parts = Ok c' -> wellFormed c -> wellFormed c'.
Proof.
  unfold caseSwitch. cbv zeta.
  destruct (part parts 1) as [raw|]; [|discriminate]. cbn [defined bind].
  destruct (parsePokemonRef raw) as [ref nickname side].
  destruct (updatePokemonSpecies (finalizePendingAbilityBoost c) ref _)
    as [c1|e] eqn:E; [|discriminate]. cbn [bind].
  intros H Hc.
  assert (H1 : wellFormed c1) by eauto with wf.
  destruct (pokemonGet c1 ref) as [mon|] eqn:Em;
    [|apply Ok_inj in H; now subst].
  assert (Hm : monWellFormed ref mon) by now apply (proj1 H1).
  match type of H with
  | context [assign ref ?m (pokemon c1)] => set (mon' := m) in *
  end.
  assert (Hm' : monWellFormed ref mon').
  { subst mon'. now destruct (nonEmpty nickname). }
  assert (H2 : wellFormed (set_pokemon (assign ref mon' (pokemon c1)) c1))
    by now apply wf_assign.
  clearbody mon'.
  repeat (split_context; cbv beta zeta in * ); auto 12 with wf.
Qed.

Ltac wf_branch lem :=
  match goal with
  | |- (if ?b then _ else _) = _ -> _ =>
      destruct b eqn:?;
      [ let H := fresh "H" in intros H; eapply lem; [exact H|assumption] | ]
  end.

Lemma wf_parseRecord c parts c' :
  wellFormed c -> parseRecord c parts = Ok c' -> wellFormed c'.
Proof.
  intros Hc. unfold parseRecord. cbv zeta.
  wf_branch wf_casePlayer. wf_branch wf_caseFormat.
  wf_branch wf_caseWin. wf_branch wf_caseLoss.
  wf_branch wf_caseTurn. wf_branch wf_casePoke.
  wf_branch wf_caseSwitch. wf_branch wf_caseMove.
  wf_branch wf_caseCant. wf_branch wf_caseDamage.
  wf_branch wf_caseBoost. wf_branch wf_caseStatus.
  wf_branch wf_caseCureStatus. wf_branch wf_caseAbility.
  wf_branch wf_caseItem. wf_branch wf_caseItem.
  wf_branch wf_caseFieldStart. wf_branch wf_caseFieldEnd.
  wf_branch wf_caseWeather. wf_branch wf_caseSideStart.
  wf_branch wf_caseSideEnd. wf_branch wf_caseTerrain.
  wf_branch wf_caseMessage. wf_branch wf_caseSingleTurn.
  wf_branch wf_caseActivate. wf_branch wf_caseFail.
  wf_branch wf_caseMiss. wf_branch wf_caseImmune.
  wf_branch wf_caseFaint. wf_branch wf_caseTerastallize.
  wf_branch wf_caseFormeChange.
  intros H. apply Ok_inj in H. now subst.
Qed.

Lemma reachable_wellFormed c : reachable c -> wellFormed c.
Proof.
  induction 1; [apply wf_start|eauto using wf_parseRecord].
Qed.

(** In every context a run can be in, each pokemon of the registry is filed
    under its own reference, on the side its reference names, and has an
    icon identifier that is a non-empty string of lower-case letters, digits
    and hyphens. *)
Theorem registry_in_good_order (c : ParseContext) (ref : string)
  (mon : PokemonState) :
  reachable c -> pokemonGet c ref = Some mon ->
  mon_ref mon = ref /\ mon_side mon = resolveSide ref
  /\ nonEmpty (mon_iconId mon) = true
  /\ allChars iconChar (mon_iconId mon) = true.
Proof.
  intros Hr Hg. exact (proj1 (reachable_wellFormed c Hr) ref mon Hg).
Qed.

Lemma registry_in_good_order_witness :
  mon_ref squirtle = "p2a" /\ mon_side squirtle = resolveSide "p2a"
  /\ nonEmpty (mon_iconId squirtle) = true
  /\ allChars iconChar (mon_iconId squirtle) = true.
Proof.
  apply (registry_in_good_order afterUturn "p2a" squirtle).
  - exact reachable_afterUturn.
  - reflexivity.
Defined.

(** In every context a run can be in, no roster lists a species twice or a
    species whose identifier is empty, and each roster holds what the set
    that guards it holds, in the same order. *)
Theorem rosters_in_good_order (c : ParseContext) :
  reachable c ->
  NoDup (team_p1 (teams c)) /\ NoDup (team_p2 (teams c))
  /\ Forall (fun n => nonEmpty (toId (Some n)) = true)
       (team_p1 (teams c) ++ team_p2 (teams c))
  /\ team_p1Set (teams c) = team_p1 (teams c)
  /\ team_p2Set (teams c) = team_p2 (teams c).
Proof.
  intros Hr.
  destruct (reachable_wellFormed c Hr) as [_ (H1 & H2 & [D1 F1] & [D2 F2])].
  repeat split; try assumption. apply Forall_app. now split.
Qed.

Lemma rosters_in_good_order_witness :
  NoDup (team_p1 (teams afterUturn)) /\ NoDup (team_p2 (teams afterUturn))
  /\ Forall (fun n => nonEmpty (toId (Some n)) = true)
       (team_p1 (teams afterUturn) ++ team_p2 (teams afterUturn))
  /\ team_p1Set (teams afterUturn) = team_p1 (teams afterUturn)
  /\ team_p2Set (teams afterUturn) = team_p2 (teams afterUturn).
Proof. exact (rosters_in_good_order afterUturn reachable_afterUturn). Defined.

End OrderFacts.

(** * Nothing recorded is taken back *)
Module GrowthFacts.
Import Js Utils Icons Parser Scenarios Shapes JsFacts FrameFacts TurnFacts.

Lemma isPrefix_refl {A : Type} (xs : list A) : isPrefix xs xs.
Proof. exists []. now rewrite app_nil_r. Qed.

Lemma isPrefix_trans {A : Type} (xs ys zs : list A) :
  isPrefix xs ys -> isPrefix ys zs -> isPrefix xs zs.
Proof. intros [a ->] [b ->]. exists (a +++ b). now rewrite app_assoc. Qed.

Lemma isPrefix_snoc {A : Type} (xs : list A) (more : list A) :
  isPrefix xs (xs +++ more).
Proof. now exists more. Qed.

Lemma turnGrows_refl t : turnGrows t t.
Proof. constructor; auto using isPrefix_refl. Qed.

Lemma turnGrows_trans t1 t2 t3 : turnGrows t1 t2 -> turnGrows t2 t3 -> turnGrows t1 t3.
Proof.
  intros [] []. constructor; try congruence; eauto using isPrefix_trans.
Qed.

Lemma actionKept_refl a : actionKept a a.
Proof. constructor; reflexivity. Qed.

Lemma actionKept_trans a1 a2 a3 :
  actionKept a1 a2 -> actionKept a2 a3 -> actionKept a1 a3.
Proof. intros [] []. constructor; congruence. Qed.

Lemma appendOnly_refl c : appendOnly c c.
Proof.
  constructor; auto using isPrefix_refl, turnGrows_refl, actionKept_refl.
Qed.

Lemma appendOnly_trans c1 c2 c3 :
  appendOnly c1 c2 -> appendOnly c2 c3 -> appendOnly c1 c3.
Proof.
  intros [T1 S1 G1 A1 K1] [T2 S2 G2 A2 K2]. constructor.
  - eauto using isPrefix_trans.
  - lia.
  - intros r Hr. eapply turnGrows_trans; [apply G1; assumption|apply G2; lia].
  - lia.
  - intros r Hr. eapply actionKept_trans; [apply K1; assumption|apply K2; lia].
Qed.

(** A context that differs from [c1] outside the stores and the list of
    turns. *)
Lemma appendOnly_fields c c1 c2 :
  appendOnly c c1 ->
  turnStore c2 = turnStore c1 -> turns c2 = turns c1 ->
  actionStore c2 = actionStore c1 ->
  appendOnly c c2.
Proof.
  intros [T S G A K] Hs Ht Ha.
  constructor; unfold getTurn, getAction in *; rewrite ?Hs, ?Ht, ?Ha; assumption.
Qed.

Ltac grow_fields := intros; eapply appendOnly_fields; [eassumption|reflexivity..].

Lemma grow_set_players v c c1 : appendOnly c c1 -> appendOnly c (set_players v c1).
Proof. grow_fields. Qed.
Lemma grow_set_formatName v c c1 : appendOnly c c1 -> appendOnly c (set_formatName v c1).
Proof. grow_fields. Qed.
Lemma grow_set_currentTurn v c c1 : appendOnly c c1 -> appendOnly c (set_currentTurn v c1).
Proof. grow_fields. Qed.
Lemma grow_set_currentAction v c c1 : appendOnly c c1 -> appendOnly c (set_currentAction v c1).
Proof. grow_fields. Qed.
Lemma grow_set_pokemon v c c1 : appendOnly c c1 -> appendOnly c (set_pokemon v c1).
Proof. grow_fields. Qed.
Lemma grow_set_teams v c c1 : appendOnly c c1 -> appendOnly c (set_teams v c1).
Proof. grow_fields. Qed.
Lemma grow_set_winner v c c1 : appendOnly c c1 -> appendOnly c (set_winner v c1).
Proof. grow_fields. Qed.
Lemma grow_set_loser v c c1 : appendOnly c c1 -> appendOnly c (set_loser v c1).
Proof. grow_fields. Qed.
Lemma grow_set_resultNote v c c1 : appendOnly c c1 -> appendOnly c (set_resultNote v c1).
Proof. grow_fields. Qed.
Lemma grow_set_leadPhase v c c1 : appendOnly c c1 -> appendOnly c (set_leadPhase v c1).
Proof. grow_fields. Qed.
Lemma grow_set_faintedThisTurn v c c1 : appendOnly c c1 -> appendOnly c (set_faintedThisTurn v c1).
Proof. grow_fields. Qed.
Lemma grow_set_currentWeather v c c1 : appendOnly c c1 -> appendOnly c (set_currentWeather v c1).
Proof. grow_fields. Qed.
Lemma grow_set_sideConditions v c c1 : appendOnly c c1 -> appendOnly c (set_sideConditions v c1).
Proof. grow_fields. Qed.
Lemma grow_set_pendingAbilityBoost v c c1 : appendOnly c c1 -> appendOnly c (set_pendingAbilityBoost v c1).
Proof. grow_fields. Qed.
Lemma grow_set_recentMoves v c c1 : appendOnly c c1 -> appendOnly c (set_recentMoves v c1).
Proof. grow_fields. Qed.
Lemma grow_set_activePositions v c c1 : appendOnly c c1 -> appendOnly c (set_activePositions v c1).
Proof. grow_fields. Qed.
Lemma grow_set_pendingFieldEnds v c c1 : appendOnly c c1 -> appendOnly c (set_pendingFieldEnds v c1).
Proof. grow_fields. Qed.
Lemma grow_set_pendingProtects v c c1 : appendOnly c c1 -> appendOnly c (set_pendingProtects v c1).
Proof. grow_fields. Qed.

Create HintDb grow.
#[local] Hint Resolve appendOnly_refl grow_set_players grow_set_formatName grow_set_currentTurn grow_set_currentAction grow_set_pokemon grow_set_teams grow_set_winner grow_set_loser grow_set_resultNote grow_set_leadPhase grow_set_faintedThisTurn grow_set_currentWeather grow_set_sideConditions grow_set_pendingAbilityBoost grow_set_recentMoves grow_set_activePositions grow_set_pendingFieldEnds grow_set_pendingProtects : grow.

(** A mutation of the current turn under which the turn only grows. *)
Lemma grow_modifyCurrentTurn f c c1 :
  (forall t, turnGrows t (f t)) ->
  appendOnly c c1 -> appendOnly c (modifyCurrentTurn f c1).
Proof.
  intros Hf H. apply (appendOnly_trans _ c1); [assumption|].
  constructor; unfold modifyCurrentTurn, getTurn, getAction; simpl.
  - apply isPrefix_refl.
  - now rewrite updateAt_length.
  - intros r Hr. destruct (Nat.eq_dec r (currentTurn c1)) as [->|Hne].
    + rewrite updateAt_nth_same by assumption. apply Hf.
    + rewrite updateAt_nth_other by assumption. apply turnGrows_refl.
  - lia.
  - intros r _. apply actionKept_refl.
Qed.

(** A mutation of an action under which it is still the same action. *)
Lemma grow_modifyAction r f c c1 :
  (forall a, actionKept a (f a)) ->
  appendOnly c c1 -> appendOnly c (modifyAction r f c1).
Proof.
  intros Hf H. apply (appendOnly_trans _ c1); [assumption|].
  constructor; unfold modifyAction, getTurn, getAction; simpl.
  - apply isPrefix_refl.
  - lia.
  - intros k _. apply turnGrows_refl.
  - now rewrite updateAt_length.
  - intros k Hk. destruct (Nat.eq_dec k r) as [->|Hne].
    + rewrite updateAt_nth_same by assumption. apply Hf.
    + rewrite updateAt_nth_other by assumption. apply actionKept_refl.
Qed.

Lemma grow_modifyPokemon ref f c c1 :
  appendOnly c c1 -> appendOnly c (modifyPokemon ref f c1).
Proof. intros. unfold modifyPokemon. destruct (pokemonGet c1 ref); auto with grow. Qed.

Ltac grows :=
  intros; constructor; simpl;
  first [reflexivity | apply isPrefix_refl | apply isPrefix_snoc].

Lemma grow_pushEndEvent e c c1 : appendOnly c c1 -> appendOnly c (pushEndEvent e c1).
Proof. intros. unfold pushEndEvent. apply grow_modifyCurrentTurn; [grows|assumption]. Qed.

Lemma grow_pushDetail r e c c1 : appendOnly c c1 -> appendOnly c (pushDetail r e c1).
Proof.
  intros. unfold pushDetail. apply grow_modifyAction; [|assumption].
  intros a. constructor; reflexivity.
Qed.

Lemma grow_appendVerb r suffix c c1 :
  appendOnly c c1 -> appendOnly c (appendVerb r suffix c1).
Proof.
  intros. unfold appendVerb. apply grow_modifyAction; [|assumption].
  intros a. constructor; reflexivity.
Qed.

(** A new action object is allocated behind the others. *)
Lemma grow_newAction a c c1 :
  appendOnly c c1 -> appendOnly c (set_actionStore (actionStore c1 +++ [a]) c1).
Proof.
  intros H. apply (appendOnly_trans _ c1); [assumption|].
  constructor; unfold getTurn, getAction; simpl.
  - apply isPrefix_refl.
  - lia.
  - intros k _. apply turnGrows_refl.
  - rewrite length_app. lia.
  - intros k Hk. rewrite app_nth1 by assumption. apply actionKept_refl.
Qed.

Lemma grow_setCurrentAction a c c1 :
  appendOnly c c1 -> appendOnly c (setCurrentAction c1 a).
Proof.
  intros. unfold setCurrentAction. cbv zeta. apply grow_set_currentAction.
  apply grow_modifyCurrentTurn; [grows|]. now apply grow_newAction.
Qed.

Lemma grow_addNoteAction ref note c c1 :
  appendOnly c c1 -> appendOnly c (addNoteAction c1 ref note).
Proof. intros. unfold addNoteAction. now apply grow_setCurrentAction. Qed.

#[local] Hint Resolve grow_modifyPokemon grow_pushEndEvent grow_pushDetail
  grow_appendVerb grow_setCurrentAction grow_addNoteAction : grow.

Lemma grow_appendDetail d b c c1 : appendOnly c c1 -> appendOnly c (appendDetail c1 d b).
Proof.
  intros. unfold appendDetail. destruct (_ && _); [assumption|].
  destruct (currentAction c1); [destruct b|]; auto with grow.
Qed.

Lemma grow_appendDetailString d b c c1 :
  appendOnly c c1 -> appendOnly c (appendDetailString c1 d b).
Proof.
  intros. unfold appendDetailString. destruct (negb _); [assumption|].
  destruct (currentAction c1); [destruct b|]; auto with grow.
Qed.

Lemma grow_pushHeaderEvent text c c1 :
  appendOnly c c1 -> appendOnly c (pushHeaderEvent c1 text).
Proof.
  intros. unfold pushHeaderEvent. destruct (t_actions _); auto with grow.
  apply grow_modifyCurrentTurn; [grows|assumption].
Qed.

Lemma grow_flushPendingFieldEnds c c1 :
  appendOnly c c1 -> appendOnly c (flushPendingFieldEnds c1).
Proof.
  intros. unfold flushPendingFieldEnds. destruct (pendingFieldEnds c1); auto with grow.
Qed.

(** A new turn object is allocated behind the others and the list of turns
    continued with it. *)
Lemma grow_newTurn t c c1 :
  appendOnly c c1 ->
  appendOnly c
    (set_turns (turns c1 +++ [List.length (turnStore c1)])
       (set_turnStore (turnStore c1 +++ [t]) c1)).
Proof.
  intros H. apply (appendOnly_trans _ c1); [assumption|].
  constructor; unfold getTurn, getAction; simpl.
  - apply isPrefix_snoc.
  - rewrite length_app. lia.
  - intros k Hk. rewrite app_nth1 by assumption. apply turnGrows_refl.
  - lia.
  - intros k _. apply actionKept_refl.
Qed.

Lemma grow_ensureCurrentTurn n c c1 :
  appendOnly c c1 -> appendOnly c (ensureCurrentTurn c1 n).
Proof.
  intros. unfold ensureCurrentTurn. destruct (numEq _ _); [assumption|].
  cbv zeta.
  apply grow_set_pendingProtects, grow_set_recentMoves, grow_set_faintedThisTurn,
    grow_set_currentAction, grow_set_currentTurn.
  now apply (grow_newTurn _ c (flushPendingFieldEnds c1)), grow_flushPendingFieldEnds.
Qed.

Lemma grow_patchTargetName ref suffix c c1 :
  appendOnly c c1 -> appendOnly c (patchTargetName c1 ref suffix).
Proof.
  intros. unfold patchTargetName.
  repeat match goal with
         | |- context [match ?x with _ => _ end] => destruct x
         end; auto with grow.
  apply grow_modifyAction; [|assumption]. intros x. constructor; reflexivity.
Qed.

Lemma grow_getOrCreatePokemon ref side species c c1 c2 mon :
  getOrCreatePokemon c1 ref side species = (c2, mon) ->
  appendOnly c c1 -> appendOnly c c2.
Proof.
  unfold getOrCreatePokemon. destruct (pokemonGet c1 ref);
    intros H; apply pair_equal_spec in H as [<- _]; auto with grow.
Qed.

Lemma grow_detailWithIcon ref body c c1 c2 d :
  detailWithIcon c1 ref body = (c2, d) -> appendOnly c c1 -> appendOnly c c2.
Proof.
  unfold detailWithIcon.
  destruct (getOrCreatePokemon c1 ref (resolveSide ref) None) as [c3 mon] eqn:E.
  intros H. apply pair_equal_spec in H as [<- _].
  eauto using grow_getOrCreatePokemon.
Qed.

Lemma grow_targetBoostDetails groups c c1 c2 ds :
  targetBoostDetails c1 groups = (c2, ds) -> appendOnly c c1 -> appendOnly c c2.
Proof.
  revert c1 c2 ds. induction groups as [|[targetRef targetBoosts] rest IH];
    simpl; intros c1 c2 ds.
  - intros H. apply pair_equal_spec in H as [<- _]. auto.
  - destruct (detailWithIcon c1 targetRef _) as [c3 d] eqn:E1.
    destruct (targetBoostDetails c3 rest) as [c4 ds'] eqn:E2.
    intros H. apply pair_equal_spec in H as [<- _].
    eauto using grow_detailWithIcon.
Qed.

#[local] Hint Resolve grow_appendDetail grow_appendDetailString
  grow_pushHeaderEvent grow_flushPendingFieldEnds grow_ensureCurrentTurn
  grow_patchTargetName : grow.

Lemma grow_finalizePendingAbilityBoost c c1 :
  appendOnly c c1 -> appendOnly c (finalizePendingAbilityBoost c1).
Proof.
  intros H. unfold finalizePendingAbilityBoost.
  destruct (pendingAbilityBoost c1) as [[ref ability boosts]|]; [|assumption].
  destruct (targetBoostDetails c1 (boostsByTarget boosts)) as [c2 rest] eqn:E.
  assert (H2 : appendOnly c c2) by eauto using grow_targetBoostDetails.
  apply grow_set_pendingAbilityBoost.
  destruct (combineDetails _); [|assumption].
  destruct (beforeFirstAction c2); auto with grow.
Qed.

Lemma grow_addSpecies side species c c1 c2 :
  addSpecies c1 side species = Ok c2 -> appendOnly c c1 -> appendOnly c c2.
Proof.
  unfold addSpecies.
  destruct (negb _); [intros H; apply Ok_inj in H; now subst|].
  destruct (arrayIncludes _ _); [intros H; apply Ok_inj in H; now subst|].
  destruct side as [k|]; [|discriminate].
  destruct (String.eqb k "p1");
    [intros H; apply Ok_inj in H; subst; auto with grow|].
  destruct (String.eqb k "p2"); [|discriminate].
  intros H; apply Ok_inj in H; subst; auto with grow.
Qed.

Lemma grow_updatePokemonSpecies ref species c c1 c2 :
  updatePokemonSpecies c1 ref species = Ok c2 -> appendOnly c c1 -> appendOnly c c2.
Proof.
  unfold updatePokemonSpecies.
  destruct (getOrCreatePokemon c1 ref (resolveSide ref) species) as [c3 mon] eqn:E.
  destruct species as [sp|]; [|discriminate]. intros H Hc.
  eapply grow_addSpecies; [exact H|].
  apply grow_modifyPokemon. eauto using grow_getOrCreatePokemon.
Qed.

#[local] Hint Resolve grow_finalizePendingAbilityBoost grow_getOrCreatePokemon
  grow_detailWithIcon grow_addSpecies grow_updatePokemonSpecies : grow.
#[local] Hint Extern 1 (appendOnly _ (modifyAction _ _ _)) =>
  apply grow_modifyAction; [intros ?; constructor; reflexivity|] : grow.
#[local] Hint Extern 1 (appendOnly _ (modifyCurrentTurn _ _)) =>
  apply grow_modifyCurrentTurn; [grows|] : grow.

Ltac grow_handler h :=
  intros ? ? ? H; unfold h in H; cbv beta zeta in H;
  repeat (split_context; cbv beta zeta in * );
  eauto 12 with grow.

Lemma grow_casePlayer c parts c' : casePlayer c parts = Ok c' -> appendOnly c c'.
Proof. revert c parts c'. grow_handler casePlayer. Qed.
Lemma grow_caseFormat c parts c' : caseFormat c parts = Ok c' -> appendOnly c c'.
Proof. revert c parts c'. grow_handler caseFormat. Qed.
Lemma grow_caseWin c parts c' : caseWin c parts = Ok c' -> appendOnly c c'.
Proof. revert c parts c'. grow_handler caseWin. Qed.
Lemma grow_caseLoss c parts c' : caseLoss c parts = Ok c' -> appendOnly c c'.
Proof. revert c parts c'. grow_handler caseLoss. Qed.
Lemma grow_caseTurn c parts c' : caseTurn c parts = Ok c' -> appendOnly c c'.
Proof. revert c parts c'. grow_handler caseTurn. Qed.
Lemma grow_casePoke c parts c' : casePoke c parts = Ok c' -> appendOnly c c'.
Proof. revert c parts c'. grow_handler casePoke. Qed.
Lemma grow_caseSwitch c parts c' : caseSwitch c parts = Ok c' -> appendOnly c c'.
Proof. revert c parts c'. grow_handler caseSwitch. Qed.
Lemma grow_caseMove c parts c' : caseMove c parts = Ok c' -> appendOnly c c'.
Proof. revert c parts c'. grow_handler caseMove. Qed.
Lemma grow_caseCant c parts c' : caseCant c parts = Ok c' -> appendOnly c c'.
Proof. revert c parts c'. grow_handler caseCant. Qed.
Lemma grow_caseDamage c parts c' : caseDamage c parts = Ok c' -> appendOnly c c'.
Proof. revert c parts c'. grow_handler caseDamage. Qed.
Lemma grow_caseStatus c parts c' : caseStatus c parts = Ok c' -> appendOnly c c'.
Proof. revert c parts c'. grow_handler caseStatus. Qed.
Lemma grow_caseCureStatus c parts c' : caseCureStatus c parts = Ok c' -> appendOnly c c'.
Proof. revert c parts c'. grow_handler caseCureStatus. Qed.
Lemma grow_caseAbility c parts c' : caseAbility c parts = Ok c' -> appendOnly c c'.
Proof. revert c parts c'. grow_handler caseAbility. Qed.
Lemma grow_caseFieldStart c parts c' : caseFieldStart c parts = Ok c' -> appendOnly c c'.
Proof. revert c parts c'. grow_handler caseFieldStart. Qed.
Lemma grow_caseFieldEnd c parts c' : caseFieldEnd c parts = Ok c' -> appendOnly c c'.
Proof. revert c parts c'. grow_handler caseFieldEnd. Qed.
Lemma grow_caseWeather c parts c' : caseWeather c parts = Ok c' -> appendOnly c c'.
Proof. revert c parts c'. grow_handler caseWeather. Qed.
Lemma grow_caseSideStart c parts c' : caseSideStart c parts = Ok c' -> appendOnly c c'.
Proof. revert c parts c'. grow_handler caseSideStart. Qed.
Lemma grow_caseSideEnd c parts c' : caseSideEnd c parts = Ok c' -> appendOnly c c'.
Proof. revert c parts c'. grow_handler caseSideEnd. Qed.
Lemma grow_caseTerrain c parts c' : caseTerrain c parts = Ok c' -> appendOnly c c'.
Proof. revert c parts c'. grow_handler caseTerrain. Qed.
Lemma grow_caseMessage c parts c' : caseMessage c parts = Ok c' -> appendOnly c c'.
Proof. revert c parts c'. grow_handler caseMessage. Qed.
Lemma grow_caseSingleTurn c parts c' : caseSingleTurn c parts = Ok c' -> appendOnly c c'.
Proof. revert c parts c'. grow_handler caseSingleTurn. Qed.
Lemma grow_caseActivate c parts c' : caseActivate c parts = Ok c' -> appendOnly c c'.
Proof. revert c parts c'. grow_handler caseActivate. Qed.
Lemma grow_caseFail c parts c' : caseFail c parts = Ok c' -> appendOnly c c'.
Proof. revert c parts c'. grow_handler caseFail. Qed.
Lemma grow_caseMiss c parts c' : caseMiss c parts = Ok c' -> appendOnly c c'.
Proof. revert c parts c'. grow_handler caseMiss. Qed.
Lemma grow_caseImmune c parts c' : caseImmune c parts = Ok c' -> appendOnly c c'.
Proof. revert c parts c'. grow_handler caseImmune. Qed.
Lemma grow_caseFaint c parts c' : caseFaint c parts = Ok c' -> appendOnly c c'.
Proof. revert c parts c'. grow_handler caseFaint. Qed.
Lemma grow_caseTerastallize c parts c' : caseTerastallize c parts = Ok c' -> appendOnly c c'.
Proof. revert c parts c'. grow_handler caseTerastallize. Qed.
Lemma grow_caseFormeChange c parts c' : caseFormeChange c parts = Ok c' -> appendOnly c c'.
Proof. revert c parts c'. grow_handler caseFormeChange. Qed.
Lemma grow_caseBoost tag c parts c' : caseBoost tag c parts = Ok c' -> appendOnly c c'.
Proof. revert c parts c'. grow_handler caseBoost. Qed.
Lemma grow_caseItem label c parts c' : caseItem label c parts = Ok c' -> appendOnly c c'.
Proof. revert c parts c'. grow_handler caseItem. Qed.

Ltac grow_branch lem :=
  match goal with
  | |- (if ?b then _ else _) = _ -> _ =>
      destruct b eqn:?; [ let H := fresh "H" in intros H; eapply lem; exact H | ]
  end.

Lemma grow_parseRecord c parts c' : parseRecord c parts = Ok c' -> appendOnly c c'.
Proof.
  unfold parseRecord. cbv zeta.
  grow_branch grow_casePlayer. grow_branch grow_caseFormat.
  grow_branch grow_caseWin. grow_branch grow_caseLoss.
  grow_branch grow_caseTurn. grow_branch grow_casePoke.
  grow_branch grow_caseSwitch. grow_branch grow_caseMove.
  grow_branch grow_caseCant. grow_branch grow_caseDamage.
  grow_branch grow_caseBoost. grow_branch grow_caseStatus.
  grow_branch grow_caseCureStatus. grow_branch grow_caseAbility.
  grow_branch grow_caseItem. grow_branch grow_caseItem.
  grow_branch grow_caseFieldStart. grow_branch grow_caseFieldEnd.
  grow_branch grow_caseWeather. grow_branch grow_caseSideStart.
  grow_branch grow_caseSideEnd. grow_branch grow_caseTerrain.
  grow_branch grow_caseMessage. grow_branch grow_caseSingleTurn.
  grow_branch grow_caseActivate. grow_branch grow_caseFail.
  grow_branch grow_caseMiss. grow_branch grow_caseImmune.
  grow_branch grow_caseFaint. grow_branch grow_caseTerastallize.
  grow_branch grow_caseFormeChange.
  intros H. apply Ok_inj in H. subst. apply appendOnly_refl.
Qed.

Lemma grow_parseLine c line c' : parseLine c line = Ok c' -> appendOnly c c'.
Proof.
  intros H. destruct (parseLine_record _ _ _ H) as [->|[parts Hp]].
  - apply appendOnly_refl.
  - now apply (grow_parseRecord c parts).
Qed.

(** Whatever lines are processed without an exception, nothing recorded
    before them is taken back: the turns there were are still there, in
    order and with their numbers; the header events, the actions, the end
    events and the lead entries of each of them are continued, never cut or
    reordered; and every action is still of the same type, by the same actor
    and at the same targets. *)
Theorem nothing_recorded_is_taken_back (c c' : ParseContext) (lines : list string) :
  parseLines c lines = Ok c' -> appendOnly c c'.
Proof.
  revert c. induction lines as [|l r IH]; intros c H.
  - apply Ok_inj in H. subst. apply appendOnly_refl.
  - simpl in H. destruct (parseLine c l) as [c1|] eqn:E; [|discriminate].
    cbn [bind] in H. eapply appendOnly_trans; [exact (grow_parseLine _ _ _ E)|].
    now apply IH.
Qed.

Lemma nothing_recorded_is_taken_back_witness :
  appendOnly createInitialContext thunderboltEnd.
Proof.
  apply (nothing_recorded_is_taken_back createInitialContext thunderboltEnd
           thunderboltLog).
  vm_compute. reflexivity.
Defined.

End GrowthFacts.

(** * Leads, replacements and remembered HP *)
Module EntryFacts.
Import Js Utils Icons Parser Scenarios Shapes JsFacts FrameFacts TurnFacts.
Import DetailFacts RegistryFacts SwitchFacts.

Lemma find_none {A : Type} (p : A -> bool) (xs : list A) :
  existsb p xs = false -> find p xs = None.
Proof.
  induction xs as [|x r IH]; simpl; [reflexivity|].
  destruct (p x); [discriminate|exact IH].
Qed.

(** During the lead phase a switch that no move forced puts the pokemon on
    the lead line of the current turn, under its nickname (or species, or
    reference) and with its icon, and records no action. *)
Theorem lead_switch_is_a_lead_entry (c : ParseContext) (parts : list string)
  (raw : string) :
  reachable c -> leadPhase c = true ->
  part parts 0 = Some "switch" \/ part parts 0 = Some "drag"
  \/ part parts 0 = Some "replace" ->
  part parts 1 = Some raw ->
  existsb forcedByMoveExtra (parseExtras parts 4) = false ->
  let ref := r_ref (parsePokemonRef raw) in
  exists c' mon,
    parseRecord c parts = Ok c'
    /\ pokemonGet c' ref = Some mon
    /\ t_leadEntries (theTurn c')
       = t_leadEntries (theTurn c)
         +++ [mkLead (r_side (parsePokemonRef raw))
                (iconHTML (Some (mon_iconId mon)) (nameOr (Some mon) ref))
                (nameOr (Some mon) ref)]
    /\ t_actions (theTurn c') = t_actions (theTurn c)
    /\ List.length (actionStore c') = List.length (actionStore c)
    /\ currentAction c' = None /\ leadPhase c' = true
    /\ currentTurn c' = currentTurn c.
Proof.
  intros Hr Hlead Htag Hraw Hforced ref.
  destruct (reachable_invariants c Hr) as [[_ Hv] _].
  pose proof (reachable_icons c Hr) as Hi.
  rewrite parseRecord_switch by assumption.
  unfold caseSwitch. cbv zeta.
  destruct (noNewAction_finalize c) as [Fct Fts Fa Fas Fca].
  pose proof (frame_finalizePendingAbilityBoost c c (eventsOnly_refl c))
    as [_ _ Fl _ _ Fe].
  pose proof (icons_finalizePendingAbilityBoost c Hi) as Hi0.
  set (c0 := finalizePendingAbilityBoost c) in *.
  rewrite Hraw. cbn [defined bind].
  destruct (parsePokemonRef raw) as [sref nickname side] eqn:Es.
  cbn [r_ref r_side] in *. subst ref. cbv beta iota.
  set (species := hd "" (split "," (orString (part parts 2) ""))).
  destruct (updatePokemonSpecies_returns sref species c0) as [c1 Eu].
  rewrite Eu. cbn [bind].
  destruct (updatePokemonSpecies_registers _ _ _ _ Eu Hi0) as [mon Emon].
  apply registry_updatePokemonSpecies in Eu.
  pose proof (theTurn_registryOnly _ _ Eu) as Ht1.
  destruct Eu as [Uts _ Uct Uas Uca Ulp _ _].
  rewrite Emon.
  set (hpStatus := parseHPStatus (orString (part parts 3) "")).
  set (mon' := set_mon_fainted _ (set_mon_status _ (set_mon_lastDisplayHP _
                 (if nonEmpty nickname then set_mon_nickname (Some nickname) mon
                  else mon)))).
  set (ctx := match activePosition sref with
              | Some position => _
              | None => _
              end).
  assert (Hctx : actionStore ctx = actionStore c1 /\ leadPhase ctx = leadPhase c1
                 /\ turnStore ctx = turnStore c1 /\ currentTurn ctx = currentTurn c1
                 /\ pokemonGet ctx sref = Some mon').
  { subst ctx. destruct (activePosition sref); cbn;
      (repeat split; try congruence; unfold pokemonGet; cbn;
       apply lookup_assign_same). }
  destruct Hctx as (Cas & Clp & Cts & Cct & Cpk).
  rewrite (find_none _ _ Hforced). cbn [truthy].
  assert (Hl : leadPhase ctx = true) by congruence.
  rewrite Hl.
  assert (Hvc : currentTurn ctx < List.length (turnStore ctx)) by congruence.
  assert (Htc : theTurn ctx = theTurn c0).
  { rewrite <- Ht1. unfold theTurn, getTurn. now rewrite Cts, Cct. }
  assert (Ht0 : t_leadEntries (theTurn c0) = t_leadEntries (theTurn c)
                /\ t_actions (theTurn c0) = t_actions (theTurn c)).
  { unfold theTurn. rewrite Fct. split; [apply Fe|apply Fa]. }
  destruct Ht0 as [Hle Hta].
  eexists. exists mon'. split; [reflexivity|].
  change (theTurn (set_currentAction None ?x)) with (theTurn x).
  rewrite theTurn_modifyCurrentTurn by assumption.
  cbn [t_leadEntries t_actions set_t_leadEntries].
  rewrite Htc, Hle, Hta.
  split; [exact Cpk|].
  split.
  { reflexivity. }
  split; [reflexivity|].
  split; [cbn; congruence|].
  split; [reflexivity|].
  split; [cbn; congruence|].
  cbn. congruence.
Qed.

Lemma lead_switch_is_a_lead_entry_witness :
  exists c' mon,
    parseRecord leadsOpen ["switch"; "p2a: Squirtle"; "Squirtle, L50"; "100/100"]
    = Ok c'
    /\ pokemonGet c' "p2a" = Some mon
    /\ t_leadEntries (theTurn c')
       = t_leadEntries (theTurn leadsOpen)
         +++ [mkLead P2
                (iconHTML (Some (mon_iconId mon)) (nameOr (Some mon) "p2a"))
                (nameOr (Some mon) "p2a")]
    /\ t_actions (theTurn c') = t_actions (theTurn leadsOpen)
    /\ List.length (actionStore c') = List.length (actionStore leadsOpen)
    /\ currentAction c' = None /\ leadPhase c' = true
    /\ currentTurn c' = currentTurn leadsOpen.
Proof.
  apply (lead_switch_is_a_lead_entry leadsOpen
           ["switch"; "p2a: Squirtle"; "Squirtle, L50"; "100/100"] "p2a: Squirtle").
  - apply reachable_afterRecord, reach_start.
  - reflexivity.
  - left. reflexivity.
  - reflexivity.
  - reflexivity.
Defined.

(** ** The HP a pokemon was last shown with *)

Lemma pokemon_appendDetail d b c : pokemon (appendDetail c d b) = pokemon c.
Proof.
  unfold appendDetail. destruct (_ && _); [reflexivity|].
  destruct (currentAction c); [destruct b|]; reflexivity.
Qed.

Lemma pokemon_flushPendingFieldEnds c : pokemon (flushPendingFieldEnds c) = pokemon c.
Proof. unfold flushPendingFieldEnds. now destruct (pendingFieldEnds c). Qed.

Lemma detailWithIcon_registered ref body c mon c' d :
  pokemonGet c ref = Some mon -> detailWithIcon c ref body = (c', d) ->
  pokemon c' = pokemon c.
Proof.
  intros Hg. unfold detailWithIcon, getOrCreatePokemon. rewrite Hg.
  intros H. apply pair_equal_spec in H as [<- _]. reflexivity.
Qed.

Lemma parseRecord_damage c parts :
  part parts 0 = Some "-damage" \/ part parts 0 = Some "-heal" ->
  parseRecord c parts = caseDamage c parts.
Proof. intros [H|H]; unfold parseRecord; now rewrite H. Qed.

(** A damage or heal record with its two fields is processed without an
    exception, and afterwards the registry holds, for the pokemon it names,
    the HP as displayed, the status and whether it has fainted, all as read
    from the HP field. *)
Theorem damage_record_updates_registry (c : ParseContext) (parts : list string)
  (raw hp : string) :
  reachable c ->
  part parts 0 = Some "-damage" \/ part parts 0 = Some "-heal" ->
  part parts 1 = Some raw -> part parts 2 = Some hp ->
  let ref := r_ref (parsePokemonRef raw) in
  exists c' mon,
    parseRecord c parts = Ok c'
    /\ pokemonGet c' ref = Some mon
    /\ mon_lastDisplayHP mon = Some (formatHPStatus (parseHPStatus hp))
    /\ mon_status mon = hs_status (parseHPStatus hp)
    /\ mon_fainted mon = Some (hs_fainted (parseHPStatus hp)).
Proof.
  intros Hr Htag Hraw Hhp ref.
  pose proof (reachable_icons c Hr) as Hi.
  rewrite parseRecord_damage by assumption.
  unfold caseDamage. rewrite Hraw, Hhp. cbn [defined bind]. fold ref.
  destruct (getOrCreatePokemon c ref (resolveSide ref) None) as [c1 mon] eqn:E1.
  cbn [bind]. cbv zeta.
  destruct (getOrCreatePokemon_spec _ _ _ _ _ _ E1 Hi) as (_ & Hg & _).
  set (f := fun m => set_mon_fainted _ (set_mon_status _ (set_mon_lastDisplayHP _ m))).
  assert (Hg2 : pokemonGet (modifyPokemon ref f c1) ref = Some (f mon)).
  { unfold modifyPokemon. rewrite Hg. unfold pokemonGet. simpl.
    apply lookup_assign_same. }
  set (c2 := modifyPokemon ref f c1) in *.
  set (c3 := if _ && _ then flushPendingFieldEnds c2 else c2).
  assert (Hg3 : pokemonGet c3 ref = Some (f mon)).
  { subst c3. destruct (_ && _); [|assumption].
    unfold pokemonGet. now rewrite pokemon_flushPendingFieldEnds. }
  destruct (detailWithIcon c3 ref _) as [c4 d] eqn:E4.
  pose proof (detailWithIcon_registered _ _ _ _ _ _ Hg3 E4) as Hp4.
  eexists. exists (f mon). split; [reflexivity|].
  split; [|repeat split].
  unfold pokemonGet. rewrite pokemon_appendDetail, Hp4. exact Hg3.
Qed.

Lemma damage_record_updates_registry_witness :
  exists c' mon,
    parseRecord trickRoomEnding poisonDamage = Ok c'
    /\ pokemonGet c' "p1a" = Some mon
    /\ mon_lastDisplayHP mon = Some (formatHPStatus (parseHPStatus "88/100 psn"))
    /\ mon_status mon = hs_status (parseHPStatus "88/100 psn")
    /\ mon_fainted mon = Some (hs_fainted (parseHPStatus "88/100 psn")).
Proof.
  apply (damage_record_updates_registry trickRoomEnding poisonDamage
           "p1a: Pikachu" "88/100 psn").
  - exact reachable_trickRoomEnding.
  - left. reflexivity.
  - reflexivity.
  - reflexivity.
Defined.

(** ** Switches after the lead phase *)

Lemma fainted_getOrCreatePokemon ref side species c c' mon :
  getOrCreatePokemon c ref side species = (c', mon) ->
  faintedThisTurn c' = faintedThisTurn c.
Proof.
  unfold getOrCreatePokemon. destruct (pokemonGet c ref);
    intros H; apply pair_equal_spec in H as [<- _]; reflexivity.
Qed.

Lemma fainted_detailWithIcon ref body c c' d :
  detailWithIcon c ref body = (c', d) -> faintedThisTurn c' = faintedThisTurn c.
Proof.
  unfold detailWithIcon.
  destruct (getOrCreatePokemon c ref (resolveSide ref) None) as [c1 mon] eqn:E.
  intros H. apply pair_equal_spec in H as [<- _].
  eapply fainted_getOrCreatePokemon, E.
Qed.

Lemma fainted_targetBoostDetails groups c c' ds :
  targetBoostDetails c groups = (c', ds) -> faintedThisTurn c' = faintedThisTurn c.
Proof.
  revert c c' ds. induction groups as [|[targetRef targetBoosts] rest IH];
    simpl; intros c c' ds.
  - intros H. apply pair_equal_spec in H as [<- _]. reflexivity.
  - destruct (detailWithIcon c targetRef _) as [c1 d] eqn:E1.
    destruct (targetBoostDetails c1 rest) as [c2 ds'] eqn:E2.
    intros H. apply pair_equal_spec in H as [<- _].
    rewrite (IH _ _ _ E2). eapply fainted_detailWithIcon, E1.
Qed.

Lemma fainted_finalize c :
  faintedThisTurn (finalizePendingAbilityBoost c) = faintedThisTurn c.
Proof.
  unfold finalizePendingAbilityBoost.
  destruct (pendingAbilityBoost c) as [[ref ability boosts]|]; [|reflexivity].
  destruct (targetBoostDetails c (boostsByTarget boosts)) as [c2 rest] eqn:E.
  apply fainted_targetBoostDetails in E. rewrite <- E. cbn [faintedThisTurn set_pendingAbilityBoost].
  destruct (combineDetails _); [|reflexivity].
  destruct (beforeFirstAction c2).
  - unfold pushHeaderEvent. now destruct (t_actions _).
  - unfold appendDetail. destruct (_ && _); [reflexivity|].
    now destruct (currentAction c2).
Qed.

Lemma fainted_updatePokemonSpecies ref species c c' :
  updatePokemonSpecies c ref species = Ok c' ->
  faintedThisTurn c' = faintedThisTurn c.
Proof.
  unfold updatePokemonSpecies.
  destruct (getOrCreatePokemon c ref (resolveSide ref) species) as [c1 mon] eqn:E.
  destruct species as [sp|]; [|discriminate].
  apply fainted_getOrCreatePokemon in E. rewrite <- E.
  unfold addSpecies, modifyPokemon.
  destruct (pokemonGet c1 ref);
    (destruct (negb _); [intros H; apply Ok_inj in H; now subst|];
     destruct (arrayIncludes _ _); [intros H; apply Ok_inj in H; now subst|];
     destruct (resolveSide ref); simpl; intros H; apply Ok_inj in H; now subst).
Qed.

(** After the lead phase a switch that no move forced is an action of its
    own, the new current action and the last of the current turn.  When a
    pokemon has fainted in this turn it is shown as entering, without a
    previous occupant; otherwise as switching, from the occupant the
    reference had before.  A pokemon that comes in fainted gets the detail
    "fainted on entry". *)
Theorem switch_after_lead_phase (c : ParseContext) (parts : list string)
  (raw : string) :
  reachable c -> leadPhase c = false ->
  part parts 0 = Some "switch" \/ part parts 0 = Some "drag"
  \/ part parts 0 = Some "replace" ->
  part parts 1 = Some raw ->
  existsb forcedByMoveExtra (parseExtras parts 4) = false ->
  let ref := r_ref (parsePokemonRef raw) in
  let previous := pokemonGet (finalizePendingAbilityBoost c) ref in
  let comesFainted := hs_fainted (parseHPStatus (orString (part parts 3) "")) in
  exists c' r mon,
    parseRecord c parts = Ok c'
    /\ currentAction c' = Some r
    /\ t_actions (theTurn c') = t_actions (theTurn c) +++ [r]
    /\ pokemonGet c' ref = Some mon
    /\ a_type (getAction c' r) = TSwitch
    /\ a_actorRef (getAction c' r) = Some ref
    /\ a_actorSpecies (getAction c' r) = Some (mon_species mon)
    /\ a_actorIconId (getAction c' r) = Some (mon_iconId mon)
    /\ a_details (getAction c' r)
       = (if comesFainted then [makeDetail "fainted on entry" None] else [])
    /\ match faintedThisTurn c with
       | [] => a_verb (getAction c' r) = "switches"
               /\ a_fromIconId (getAction c' r) = option_map mon_iconId previous
               /\ a_fromName (getAction c' r) = option_map monName previous
       | _ :: _ => a_verb (getAction c' r) = "enters"
                   /\ a_fromIconId (getAction c' r) = None
                   /\ a_fromName (getAction c' r) = None
       end.
Proof.
  intros Hr Hlead Htag Hraw Hforced ref previous comesFainted.
  destruct (reachable_invariants c Hr) as [[_ Hv] _].
  pose proof (reachable_icons c Hr) as Hi.
  rewrite parseRecord_switch by assumption.
  unfold caseSwitch. cbv zeta.
  destruct (noNewAction_finalize c) as [Fct Fts Fa Fas Fca].
  pose proof (frame_finalizePendingAbilityBoost c c (eventsOnly_refl c))
    as [_ _ Fl _ _ _].
  pose proof (icons_finalizePendingAbilityBoost c Hi) as Hi0.
  pose proof (fainted_finalize c) as Ff.
  subst previous.
  set (c0 := finalizePendingAbilityBoost c) in *.
  rewrite Hraw. cbn [defined bind].
  destruct (parsePokemonRef raw) as [sref nickname side] eqn:Es.
  cbn [r_ref r_side] in *. subst ref. cbv beta iota.
  set (species := hd "" (split "," (orString (part parts 2) ""))).
  destruct (updatePokemonSpecies_returns sref species c0) as [c1 Eu].
  rewrite Eu. cbn [bind].
  destruct (updatePokemonSpecies_registers _ _ _ _ Eu Hi0) as [mon Emon].
  pose proof (fainted_updatePokemonSpecies _ _ _ _ Eu) as Uf.
  apply registry_updatePokemonSpecies in Eu.
  pose proof (theTurn_registryOnly _ _ Eu) as Ht1.
  destruct Eu as [Uts _ Uct Uas Uca Ulp _ _].
  rewrite Emon.
  subst comesFainted.
  set (hpStatus := parseHPStatus (orString (part parts 3) "")).
  set (mon' := set_mon_fainted _ (set_mon_status _ (set_mon_lastDisplayHP _
                 (if nonEmpty nickname then set_mon_nickname (Some nickname) mon
                  else mon)))).
  set (ctx := match activePosition sref with
              | Some position => _
              | None => _
              end).
  assert (Hctx : actionStore ctx = actionStore c1 /\ leadPhase ctx = leadPhase c1
                 /\ turnStore ctx = turnStore c1 /\ currentTurn ctx = currentTurn c1
                 /\ pokemonGet ctx sref = Some mon'
                 /\ faintedThisTurn ctx = faintedThisTurn c1).
  { subst ctx. destruct (activePosition sref); cbn;
      (repeat split; try congruence; unfold pokemonGet; cbn;
       apply lookup_assign_same). }
  destruct Hctx as (Cas & Clp & Cts & Cct & Cpk & Cf).
  rewrite (find_none _ _ Hforced). cbn [truthy].
  assert (Hl : leadPhase ctx = false) by congruence.
  rewrite Hl.
  assert (Hvc : currentTurn ctx < List.length (turnStore ctx)) by congruence.
  assert (Htc : t_actions (theTurn ctx) = t_actions (theTurn c)).
  { transitivity (t_actions (theTurn c0)).
    - rewrite <- Ht1. unfold theTurn, getTurn. now rewrite Cts, Cct.
    - unfold theTurn. rewrite Fct. apply Fa. }
  assert (Hfc : faintedThisTurn ctx = faintedThisTurn c) by congruence.
  match goal with
  | |- exists c' r mon, Ok (setCurrentAction ctx ?a) = Ok c' /\ _ =>
      set (action := a);
      destruct (setCurrentAction_spec ctx action Hvc)
        as (Sca & Sas & Sget & Sct & Sts & Sta & Spk & _ & _)
  end.
  eexists. exists (List.length (actionStore ctx)), mon'.
  split; [reflexivity|].
  split; [exact Sca|].
  split; [now rewrite Sta, Htc|].
  split; [unfold pokemonGet in *; now rewrite Spk|].
  rewrite Sget. subst action. cbn [a_type a_actorRef a_actorSpecies a_actorIconId
                                   a_details a_verb a_fromIconId a_fromName].
  rewrite Hfc.
  repeat split; destruct (faintedThisTurn c); repeat split.
Qed.

Lemma switch_after_lead_phase_witness :
  exists c' r mon,
    parseRecord afterUturn ofSwitch = Ok c'
    /\ currentAction c' = Some r
    /\ t_actions (theTurn c') = t_actions (theTurn afterUturn) +++ [r]
    /\ pokemonGet c' "p2a" = Some mon
    /\ a_type (getAction c' r) = TSwitch
    /\ a_actorRef (getAction c' r) = Some "p2a"
    /\ a_actorSpecies (getAction c' r) = Some (mon_species mon)
    /\ a_actorIconId (getAction c' r) = Some (mon_iconId mon)
    /\ a_details (getAction c' r)
       = (if hs_fainted (parseHPStatus (orString (part ofSwitch 3) ""))
          then [makeDetail "fainted on entry" None] else [])
    /\ match faintedThisTurn afterUturn with
       | [] => a_verb (getAction c' r) = "switches"
               /\ a_fromIconId (getAction c' r)
                  = option_map mon_iconId
                      (pokemonGet (finalizePendingAbilityBoost afterUturn) "p2a")
               /\ a_fromName (getAction c' r)
                  = option_map monName
                      (pokemonGet (finalizePendingAbilityBoost afterUturn) "p2a")
       | _ :: _ => a_verb (getAction c' r) = "enters"
                   /\ a_fromIconId (getAction c' r) = None
                   /\ a_fromName (getAction c' r) = None
       end.
Proof.
  apply (switch_after_lead_phase afterUturn ofSwitch "p2a: Blastoise").
  - exact reachable_afterUturn.
  - reflexivity.
  - left. reflexivity.
  - reflexivity.
  - reflexivity.
Defined.

End EntryFacts.

(** * A registered reference stays registered *)
Module KeptFacts.
Import Js Utils Icons Parser Scenarios Shapes JsFacts FrameFacts TurnFacts.
Import DetailFacts RegistryFacts SwitchFacts.

Lemma kept_same k c c' : pokemon c' = pokemon c -> registered k c -> registered k c'.
Proof. unfold registered, pokemonGet. now intros ->. Qed.

Lemma kept_assign k ref mon c :
  registered k c -> registered k (set_pokemon (assign ref mon (pokemon c)) c).
Proof.
  intros [m Hm]. unfold registered, pokemonGet in *. simpl.
  destruct (String.eqb_spec k ref) as [->|Hne].
  - rewrite lookup_assign_same. eauto.
  - rewrite lookup_assign_other by assumption. eauto.
Qed.

Ltac kept_same := intros; eapply kept_same; [|eassumption]; reflexivity.

Lemma kept_set_players k v c : registered k c -> registered k (set_players v c).
Proof. kept_same. Qed.
Lemma kept_set_formatName k v c : registered k c -> registered k (set_formatName v c).
Proof. kept_same. Qed.
Lemma kept_set_turnStore k v c : registered k c -> registered k (set_turnStore v c).
Proof. kept_same. Qed.
Lemma kept_set_turns k v c : registered k c -> registered k (set_turns v c).
Proof. kept_same. Qed.
Lemma kept_set_currentTurn k v c : registered k c -> registered k (set_currentTurn v c).
Proof. kept_same. Qed.
Lemma kept_set_actionStore k v c : registered k c -> registered k (set_actionStore v c).
Proof. kept_same. Qed.
Lemma kept_set_currentAction k v c : registered k c -> registered k (set_currentAction v c).
Proof. kept_same. Qed.
Lemma kept_set_teams k v c : registered k c -> registered k (set_teams v c).
Proof. kept_same. Qed.
Lemma kept_set_winner k v c : registered k c -> registered k (set_winner v c).
Proof. kept_same. Qed.
Lemma kept_set_loser k v c : registered k c -> registered k (set_loser v c).
Proof. kept_same. Qed.
Lemma kept_set_resultNote k v c : registered k c -> registered k (set_resultNote v c).
Proof. kept_same. Qed.
Lemma kept_set_leadPhase k v c : registered k c -> registered k (set_leadPhase v c).
Proof. kept_same. Qed.
Lemma kept_set_faintedThisTurn k v c : registered k c -> registered k (set_faintedThisTurn v c).
Proof. kept_same. Qed.
Lemma kept_set_currentWeather k v c : registered k c -> registered k (set_currentWeather v c).
Proof. kept_same. Qed.
Lemma kept_set_sideConditions k v c : registered k c -> registered k (set_sideConditions v c).
Proof. kept_same. Qed.
Lemma kept_set_pendingAbilityBoost k v c : registered k c -> registered k (set_pendingAbilityBoost v c).
Proof. kept_same. Qed.
Lemma kept_set_recentMoves k v c : registered k c -> registered k (set_recentMoves v c).
Proof. kept_same. Qed.
Lemma kept_set_activePositions k v c : registered k c -> registered k (set_activePositions v c).
Proof. kept_same. Qed.
Lemma kept_set_pendingFieldEnds k v c : registered k c -> registered k (set_pendingFieldEnds v c).
Proof. kept_same. Qed.
Lemma kept_set_pendingProtects k v c : registered k c -> registered k (set_pendingProtects v c).
Proof. kept_same. Qed.
Lemma kept_modifyCurrentTurn k f c : registered k c -> registered k (modifyCurrentTurn f c).
Proof. kept_same. Qed.
Lemma kept_modifyAction k r f c : registered k c -> registered k (modifyAction r f c).
Proof. kept_same. Qed.
Lemma kept_pushEndEvent k e c : registered k c -> registered k (pushEndEvent e c).
Proof. kept_same. Qed.
Lemma kept_pushDetail k r e c : registered k c -> registered k (pushDetail r e c).
Proof. kept_same. Qed.
Lemma kept_setCurrentAction k a c : registered k c -> registered k (setCurrentAction c a).
Proof. kept_same. Qed.
Lemma kept_appendVerb k r suffix c : registered k c -> registered k (appendVerb r suffix c).
Proof. kept_same. Qed.
Lemma kept_addNoteAction k ref note c : registered k c -> registered k (addNoteAction c ref note).
Proof. kept_same. Qed.

Create HintDb kept.
#[local] Hint Resolve kept_assign kept_set_players kept_set_formatName kept_set_turnStore kept_set_turns kept_set_currentTurn kept_set_actionStore kept_set_currentAction kept_set_teams kept_set_winner kept_set_loser kept_set_resultNote kept_set_leadPhase kept_set_faintedThisTurn kept_set_currentWeather kept_set_sideConditions kept_set_pendingAbilityBoost kept_set_recentMoves kept_set_activePositions kept_set_pendingFieldEnds kept_set_pendingProtects kept_modifyCurrentTurn kept_modifyAction kept_pushEndEvent kept_pushDetail kept_setCurrentAction kept_appendVerb kept_addNoteAction : kept.

Lemma kept_appendDetail k d b c : registered k c -> registered k (appendDetail c d b).
Proof.
  intros. unfold appendDetail. destruct (_ && _); [assumption|].
  destruct (currentAction c); [destruct b|]; auto with kept.
Qed.

Lemma kept_appendDetailString k d b c :
  registered k c -> registered k (appendDetailString c d b).
Proof.
  intros. unfold appendDetailString. destruct (negb _); [assumption|].
  destruct (currentAction c); [destruct b|]; auto with kept.
Qed.

Lemma kept_pushHeaderEvent k text c : registered k c -> registered k (pushHeaderEvent c text).
Proof. intros. unfold pushHeaderEvent. destruct (t_actions _); auto with kept. Qed.

Lemma kept_flushPendingFieldEnds k c : registered k c -> registered k (flushPendingFieldEnds c).
Proof.
  intros. unfold flushPendingFieldEnds. destruct (pendingFieldEnds c); auto with kept.
Qed.

Lemma kept_ensureCurrentTurn k n c : registered k c -> registered k (ensureCurrentTurn c n).
Proof.
  intros. unfold ensureCurrentTurn. destruct (numEq _ _); [assumption|].
  cbv zeta. auto 12 using kept_flushPendingFieldEnds with kept.
Qed.

Lemma kept_patchTargetName k ref suffix c :
  registered k c -> registered k (patchTargetName c ref suffix).
Proof.
  intros. unfold patchTargetName.
  repeat match goal with
         | |- context [match ?x with _ => _ end] => destruct x
         end; auto with kept.
Qed.

Lemma kept_modifyPokemon k ref f c :
  registered k c -> registered k (modifyPokemon ref f c).
Proof.
  intros Hc. unfold modifyPokemon.
  destruct (pokemonGet c ref); [now apply kept_assign|assumption].
Qed.

Lemma kept_getOrCreatePokemon k ref side species c c' mon :
  getOrCreatePokemon c ref side species = (c', mon) ->
  registered k c -> registered k c'.
Proof.
  unfold getOrCreatePokemon. destruct (pokemonGet c ref);
    intros H Hc; apply pair_equal_spec in H as [<- _];
    [assumption|now apply kept_assign].
Qed.

Lemma kept_detailWithIcon k ref body c c' d :
  detailWithIcon c ref body = (c', d) -> registered k c -> registered k c'.
Proof.
  unfold detailWithIcon.
  destruct (getOrCreatePokemon c ref (resolveSide ref) None) as [c1 mon] eqn:E.
  intros H. apply pair_equal_spec in H as [<- _].
  eauto using kept_getOrCreatePokemon.
Qed.

Lemma kept_targetBoostDetails k groups c c' ds :
  targetBoostDetails c groups = (c', ds) -> registered k c -> registered k c'.
Proof.
  revert c c' ds. induction groups as [|[targetRef targetBoosts] rest IH];
    simpl; intros c c' ds.
  - intros H. apply pair_equal_spec in H as [<- _]. auto.
  - destruct (detailWithIcon c targetRef _) as [c1 d] eqn:E1.
    destruct (targetBoostDetails c1 rest) as [c2 ds'] eqn:E2.
    intros H. apply pair_equal_spec in H as [<- _].
    eauto using kept_detailWithIcon.
Qed.

#[local] Hint Resolve kept_appendDetail kept_appendDetailString kept_pushHeaderEvent
  kept_flushPendingFieldEnds kept_ensureCurrentTurn kept_patchTargetName
  kept_modifyPokemon : kept.

Lemma kept_finalizePendingAbilityBoost k c :
  registered k c -> registered k (finalizePendingAbilityBoost c).
Proof.
  intros H. unfold finalizePendingAbilityBoost.
  destruct (pendingAbilityBoost c) as [[ref ability boosts]|]; [|assumption].
  destruct (targetBoostDetails c (boostsByTarget boosts)) as [c2 rest] eqn:E.
  assert (H2 : registered k c2) by eauto using kept_targetBoostDetails.
  apply kept_set_pendingAbilityBoost.
  destruct (combineDetails _); [|assumption].
  destruct (beforeFirstAction c2); auto with kept.
Qed.

Lemma kept_addSpecies k side species c c' :
  addSpecies c side species = Ok c' -> registered k c -> registered k c'.
Proof. intros H. apply pokemon_addSpecies in H. now apply kept_same. Qed.

Lemma kept_updatePokemonSpecies k ref species c c' :
  updatePokemonSpecies c ref species = Ok c' -> registered k c -> registered k c'.
Proof.
  unfold updatePokemonSpecies.
  destruct (getOrCreatePokemon c ref (resolveSide ref) species) as [c1 mon] eqn:E.
  destruct species as [sp|]; [|discriminate]. intros H Hc.
  eapply kept_addSpecies; [exact H|].
  apply kept_modifyPokemon. eauto using kept_getOrCreatePokemon.
Qed.

#[local] Hint Resolve kept_finalizePendingAbilityBoost kept_getOrCreatePokemon
  kept_detailWithIcon kept_addSpecies kept_updatePokemonSpecies : kept.

(** ** The handlers *)

Ltac kept_handler h :=
  intros ? ? ? H Hc; unfold h in H; cbv beta zeta in H;
  repeat (split_context; cbv beta zeta in * );
  eauto 12 with kept.

Lemma kept_casePlayer k c parts c' : casePlayer c parts = Ok c' -> registered k c -> registered k c'.
Proof. revert c parts c'. kept_handler casePlayer. Qed.
Lemma kept_caseFormat k c parts c' : caseFormat c parts = Ok c' -> registered k c -> registered k c'.
Proof. revert c parts c'. kept_handler caseFormat. Qed.
Lemma kept_caseWin k c parts c' : caseWin c parts = Ok c' -> registered k c -> registered k c'.
Proof. revert c parts c'. kept_handler caseWin. Qed.
Lemma kept_caseLoss k c parts c' : caseLoss c parts = Ok c' -> registered k c -> registered k c'.
Proof. revert c parts c'. kept_handler caseLoss. Qed.
Lemma kept_caseTurn k c parts c' : caseTurn c parts = Ok c' -> registered k c -> registered k c'.
Proof. revert c parts c'. kept_handler caseTurn. Qed.
Lemma kept_casePoke k c parts c' : casePoke c parts = Ok c' -> registered k c -> registered k c'.
Proof. revert c parts c'. kept_handler casePoke. Qed.
Lemma kept_caseSwitch k c parts c' : caseSwitch c parts = Ok c' -> registered k c -> registered k c'.
Proof. revert c parts c'. kept_handler caseSwitch. Qed.
Lemma kept_caseMove k c parts c' : caseMove c parts = Ok c' -> registered k c -> registered k c'.
Proof. revert c parts c'. kept_handler caseMove. Qed.
Lemma kept_caseCant k c parts c' : caseCant c parts = Ok c' -> registered k c -> registered k c'.
Proof. revert c parts c'. kept_handler caseCant. Qed.
Lemma kept_caseDamage k c parts c' : caseDamage c parts = Ok c' -> registered k c -> registered k c'.
Proof. revert c parts c'. kept_handler caseDamage. Qed.
Lemma kept_caseStatus k c parts c' : caseStatus c parts = Ok c' -> registered k c -> registered k c'.
Proof. revert c parts c'. kept_handler caseStatus. Qed.
Lemma kept_caseCureStatus k c parts c' : caseCureStatus c parts = Ok c' -> registered k c -> registered k c'.
Proof. revert c parts c'. kept_handler caseCureStatus. Qed.
Lemma kept_caseAbility k c parts c' : caseAbility c parts = Ok c' -> registered k c -> registered k c'.
Proof. revert c parts c'. kept_handler caseAbility. Qed.
Lemma kept_caseFieldStart k c parts c' : caseFieldStart c parts = Ok c' -> registered k c -> registered k c'.
Proof. revert c parts c'. kept_handler caseFieldStart. Qed.
Lemma kept_caseFieldEnd k c parts c' : caseFieldEnd c parts = Ok c' -> registered k c -> registered k c'.
Proof. revert c parts c'. kept_handler caseFieldEnd. Qed.
Lemma kept_caseWeather k c parts c' : caseWeather c parts = Ok c' -> registered k c -> registered k c'.
Proof. revert c parts c'. kept_handler caseWeather. Qed.
Lemma kept_caseSideStart k c parts c' : caseSideStart c parts = Ok c' -> registered k c -> registered k c'.
Proof. revert c parts c'. kept_handler caseSideStart. Qed.
Lemma kept_caseSideEnd k c parts c' : caseSideEnd c parts = Ok c' -> registered k c -> registered k c'.
Proof. revert c parts c'. kept_handler caseSideEnd. Qed.
Lemma kept_caseTerrain k c parts c' : caseTerrain c parts = Ok c' -> registered k c -> registered k c'.
Proof. revert c parts c'. kept_handler caseTerrain. Qed.
Lemma kept_caseMessage k c parts c' : caseMessage c parts = Ok c' -> registered k c -> registered k c'.
Proof. revert c parts c'. kept_handler caseMessage. Qed.
Lemma kept_caseSingleTurn k c parts c' : caseSingleTurn c parts = Ok c' -> registered k c -> registered k c'.
Proof. revert c parts c'. kept_handler caseSingleTurn. Qed.
Lemma kept_caseActivate k c parts c' : caseActivate c parts = Ok c' -> registered k c -> registered k c'.
Proof. revert c parts c'. kept_handler caseActivate. Qed.
Lemma kept_caseFail k c parts c' : caseFail c parts = Ok c' -> registered k c -> registered k c'.
Proof. revert c parts c'. kept_handler caseFail. Qed.
Lemma kept_caseMiss k c parts c' : caseMiss c parts = Ok c' -> registered k c -> registered k c'.
Proof. revert c parts c'. kept_handler caseMiss. Qed.
Lemma kept_caseImmune k c parts c' : caseImmune c parts = Ok c' -> registered k c -> registered k c'.
Proof. revert c parts c'. kept_handler caseImmune. Qed.
Lemma kept_caseFaint k c parts c' : caseFaint c parts = Ok c' -> registered k c -> registered k c'.
Proof. revert c parts c'. kept_handler caseFaint. Qed.
Lemma kept_caseTerastallize k c parts c' : caseTerastallize c parts = Ok c' -> registered k c -> registered k c'.
Proof. revert c parts c'. kept_handler caseTerastallize. Qed.
Lemma kept_caseFormeChange k c parts c' : caseFormeChange c parts = Ok c' -> registered k c -> registered k c'.
Proof. revert c parts c'. kept_handler caseFormeChange. Qed.
Lemma kept_caseBoost k tag c parts c' :
  caseBoost tag c parts = Ok c' -> registered k c -> registered k c'.
Proof. revert c parts c'. kept_handler caseBoost. Qed.
Lemma kept_caseItem k label c parts c' :
  caseItem label c parts = Ok c' -> registered k c -> registered k c'.
Proof. revert c parts c'. kept_handler caseItem. Qed.

Ltac kept_branch lem :=
  match goal with
  | |- (if ?b then _ else _) = _ -> _ =>
      destruct b eqn:?;
      [ let H := fresh "H" in intros H; eapply lem; [exact H|assumption] | ]
  end.

Lemma kept_parseRecord k c parts c' :
  registered k c -> parseRecord c parts = Ok c' -> registered k c'.
Proof.
  intros Hc. unfold parseRecord. cbv zeta.
  kept_branch kept_casePlayer. kept_branch kept_caseFormat.
  kept_branch kept_caseWin. kept_branch kept_caseLoss.
  kept_branch kept_caseTurn. kept_branch kept_casePoke.
  kept_branch kept_caseSwitch. kept_branch kept_caseMove.
  kept_branch kept_caseCant. kept_branch kept_caseDamage.
  kept_branch kept_caseBoost. kept_branch kept_caseStatus.
  kept_branch kept_caseCureStatus. kept_branch kept_caseAbility.
  kept_branch kept_caseItem. kept_branch kept_caseItem.
  kept_branch kept_caseFieldStart. kept_branch kept_caseFieldEnd.
  kept_branch kept_caseWeather. kept_branch kept_caseSideStart.
  kept_branch kept_caseSideEnd. kept_branch kept_caseTerrain.
  kept_branch kept_caseMessage. kept_branch kept_caseSingleTurn.
  kept_branch kept_caseActivate. kept_branch kept_caseFail.
  kept_branch kept_caseMiss. kept_branch kept_caseImmune.
  kept_branch kept_caseFaint. kept_branch kept_caseTerastallize.
  kept_branch kept_caseFormeChange.
  intros H. apply Ok_inj in H. now subst.
Qed.

End KeptFacts.

(** * The forced-switch merge *)
Module MergeFacts.
Import Js Utils Icons Parser Scenarios Shapes JsFacts FrameFacts TurnFacts.
Import DetailFacts RegistryFacts SwitchFacts TextFacts ResultFacts GrowthFacts KeptFacts.

(** ** What a translation can mention *)

Lemma prefix_app_l (n a b : string) : prefix n a = true -> prefix n (a ++ b) = true.
Proof.
  revert a. induction n as [|x n IH]; intros a; [intros _; now destruct (a ++ b)|].
  destruct a as [|y a]; simpl; [discriminate|].
  destruct (ascii_dec x y); [apply IH|discriminate].
Qed.

Lemma includes_app_l (a b n : string) :
  includes a n = true -> includes (a ++ b) n = true.
Proof.
  induction a as [|c a IH]; simpl.
  - rewrite orb_false_r. intros H.
    destruct n; [now destruct b|discriminate].
  - intros H. apply orb_true_iff in H as [H|H]; apply orb_true_iff.
    + left. exact (prefix_app_l n (String c a) b H).
    + right. now apply IH.
Qed.

Lemma includes_app_r (a b n : string) :
  includes b n = true -> includes (a ++ b) n = true.
Proof.
  intros H. induction a as [|c a IH]; simpl; [exact H|].
  rewrite IH. apply orb_true_r.
Qed.

Lemma within_refl s : within s s.
Proof. exists "", "". simpl. induction s as [|c s IH]; simpl; congruence. Qed.

Lemma within_empty s : within "" s.
Proof. now exists "", s. Qed.

Lemma within_cons c out s : within out s -> within out (String c s).
Proof. intros (pre & post & ->). now exists (String c pre), post. Qed.

Lemma within_trans a b c : within a b -> within b c -> within a c.
Proof.
  intros (p1 & q1 & ->) (p2 & q2 & ->).
  exists (p2 ++ p1), (q1 ++ q2). now rewrite !string_app_assoc.
Qed.

Lemma within_head out post : within out (out ++ post).
Proof. now exists "", post. Qed.

Lemma within_tail pre out : within out (pre ++ out).
Proof.
  exists pre, "". f_equal. destruct (within_refl out) as (p & q & E).
  clear E p q. induction out as [|c o IH]; simpl; congruence.
Qed.

Lemma includes_within (out s n : string) :
  within out s -> includes (toLowerCase out) n = true ->
  includes (toLowerCase s) n = true.
Proof.
  intros (pre & post & ->) H. unfold toLowerCase in *.
  rewrite !mapChars_app. now apply includes_app_r, includes_app_l.
Qed.

Lemma within_dropWhile p s : within (dropWhile p s) s.
Proof.
  induction s as [|c s IH]; simpl; [apply within_refl|].
  destruct (p c); [now apply within_cons|apply within_refl].
Qed.

Lemma takeWhile_dropWhile p s : takeWhile p s ++ dropWhile p s = s.
Proof.
  induction s as [|c s IH]; simpl; [reflexivity|].
  destruct (p c); simpl; [now rewrite IH|reflexivity].
Qed.

Lemma within_trimEnd s : within (trimEnd s) s.
Proof.
  unfold trimEnd.
  rewrite <- (reverse_involutive s) at 2.
  rewrite <- (takeWhile_dropWhile isSpace (reverse s)) at 2.
  rewrite reverse_app. apply within_head.
Qed.

Lemma within_trim s : within (trim s) s.
Proof.
  unfold trim, trimStart.
  eapply within_trans; [apply within_trimEnd|apply within_dropWhile].
Qed.

Lemma substring_head m s : exists post, s = substring 0 m s ++ post.
Proof.
  revert s. induction m as [|m IH]; intros s.
  - exists s. now destruct s.
  - destruct s as [|c s]; [now exists ""|].
    destruct (IH s) as [post E]. exists post. simpl. now rewrite <- E.
Qed.

Lemma within_substring n m s : within (substring n m s) s.
Proof.
  revert s. induction n as [|n IH]; intros s.
  - destruct (substring_head m s) as [post E]. rewrite E at 2. apply within_head.
  - destruct s as [|c s]; simpl; [apply within_refl|]. apply within_cons, IH.
Qed.

Lemma within_stripSourcePrefix s : within (stripSourcePrefix s) s.
Proof.
  unfold stripSourcePrefix, dropChars.
  repeat match goal with
         | |- context [if ?b then _ else _] => destruct b
         end;
    first [ apply within_refl
          | eapply within_trans; [apply within_dropWhile|apply within_substring] ].
Qed.

Lemma bracketTag_within s tag rest :
  bracketTag s = Some (tag, rest) ->
  (exists post, s = tag ++ post) /\ within rest s.
Proof.
  revert tag rest. induction s as [|c s IH]; simpl; intros tag rest; [discriminate|].
  destruct (Ascii.eqb c "]" && bracketTail s).
  - intros [= <- <-]. split; [now exists (String c s)|].
    apply within_cons, within_dropWhile.
  - destruct (isLineTerminator c); [discriminate|].
    destruct (bracketTag s) as [[tag' rest']|]; [|discriminate].
    intros [= <- <-]. destruct (IH _ _ eq_refl) as [[post E] Hr].
    split; [exists post; simpl; now rewrite <- E|now apply within_cons].
Qed.

Lemma bracketMatch_within segment tag rest :
  bracketMatch segment = Some (tag, rest) ->
  within tag segment /\ within rest segment.
Proof.
  unfold bracketMatch.
  destruct segment as [|b s]; [discriminate|].
  destruct (Ascii.eqb_spec b "[") as [->|Hne].
  - destruct s as [|c t]; [discriminate|].
    destruct (isLineTerminator c); [discriminate|].
    destruct (bracketTag t) as [[tag' rest']|] eqn:E; [|discriminate].
    intros [= <- <-]. destruct (bracketTag_within _ _ _ E) as [[post Ep] Hr].
    split.
    + apply within_cons. rewrite Ep. apply (within_head (String c tag') post).
    + now apply within_cons, within_cons.
  - intros H. exfalso. revert H.
    destruct b as [[] [] [] [] [] [] [] []]; try discriminate; now elim Hne.
Qed.

(** A translation mentions "ability" or "item" only when the field it
    translates does. *)
Lemma simplifyBracketText_mentions (n segment : string) :
  n = "ability" \/ n = "item" ->
  includes (toLowerCase segment) n = false ->
  includes (toLowerCase (simplifyBracketText segment)) n = false.
Proof.
  intros Hn Hs.
  assert (Hw : forall out, within out segment ->
                           includes (toLowerCase out) n = false).
  { intros out Hw. destruct (includes (toLowerCase out) n) eqn:E; [|reflexivity].
    rewrite (includes_within _ _ _ Hw E) in Hs. discriminate. }
  assert (Hconst : includes (toLowerCase "") n = false
                   /\ includes (toLowerCase "Wish") n = false)
    by (destruct Hn as [->| ->]; split; reflexivity).
  destruct Hconst as [He Hwish].
  unfold simplifyBracketText.
  destruct (negb (nonEmpty segment)); [exact He|].
  destruct (bracketMatch segment) as [[tag rest]|] eqn:Em;
    [|apply Hw, within_trim].
  destruct (bracketMatch_within _ _ _ Em) as [Wt Wr].
  assert (Wc : within (trim rest) segment)
    by (eapply within_trans; [apply within_trim|exact Wr]).
  cbv zeta.
  destruct (String.eqb tag "from").
  { destruct (negb _); [exact He|].
    apply Hw. eapply within_trans; [apply within_stripSourcePrefix|exact Wc]. }
  destruct (String.eqb tag "of"); [exact He|].
  destruct (String.eqb tag "msg"); [now apply Hw|].
  destruct (String.eqb tag "sid").
  { destruct (nonEmpty _); [|exact He].
    specialize (Hw _ Wc). destruct Hn as [->| ->]; exact Hw. }
  destruct (String.eqb tag "wisher").
  { destruct (nonEmpty _); [|exact Hwish].
    specialize (Hw _ Wc). destruct Hn as [->| ->]; exact Hw. }
  destruct (String.eqb tag "spread"); [exact He|].
  destruct (String.eqb tag "move"); [now apply Hw|].
  destruct (nonEmpty _); now apply Hw.
Qed.

Lemma nonEmpty_length s : nonEmpty s = true -> Nat.ltb 0 (String.length s) = true.
Proof. now destruct s. Qed.

(** An annotation that mentions neither an ability nor an item and has a
    translation passes the test of the forced-switch merge. *)
Lemma annotation_forces (parts : list string) (annotation : string) :
  In annotation (skipn 4 parts) ->
  includes (toLowerCase annotation) "ability" = false ->
  includes (toLowerCase annotation) "item" = false ->
  nonEmpty (simplifyBracketText annotation) = true ->
  existsb forcedByMoveExtra (parseExtras parts 4) = true.
Proof.
  intros Hin Ha Hi Hn. apply existsb_exists.
  exists (simplifyBracketText annotation). split.
  - unfold parseExtras, filterTruthy. apply filter_In. split; [|exact Hn].
    now apply in_map.
  - unfold forcedByMoveExtra. cbv zeta.
    rewrite (simplifyBracketText_mentions "ability") by auto.
    rewrite (simplifyBracketText_mentions "item") by auto.
    now rewrite nonEmpty_length.
Qed.

(** ** The merge *)

Lemma appendOnly_parseLines lines c c' :
  parseLines c lines = Ok c' -> appendOnly c c'.
Proof.
  revert c. induction lines as [|l r IH]; intros c H.
  - apply Ok_inj in H. subst. apply appendOnly_refl.
  - simpl in H. destruct (parseLine c l) as [c1|] eqn:E; [|discriminate].
    cbn [bind] in H. eapply appendOnly_trans; [exact (grow_parseLine _ _ _ E)|].
    now apply IH.
Qed.

Lemma registered_parseLines k lines c c' :
  parseLines c lines = Ok c' -> registered k c -> registered k c'.
Proof.
  apply (parseLines_invariant (registered k)).
  intros c0 l c1 Hl Hk. destruct (parseLine_record _ _ _ Hl) as [->|[parts Hp]];
    [assumption|now apply (kept_parseRecord k c0 parts)].
Qed.



(** Parting Shot: the two stat drops it caused are on the move when the
    switch comes; the merge joins them into one detail and adds the switch
    detail, and the turn has the one action. *)
Lemma parting_shot_merged :
  map (fun r => (a_verb (getAction afterDrops r),
                 map d_text (a_details (getAction afterDrops r))))
    (t_actions (theTurn afterDrops))
  = [("Parting Shot", ["Pikachu -1 ATK"; "Pikachu -1 SPA"])]
  /\ map (fun r => (a_verb (getAction (afterRecord afterDrops partingShotSwitch) r),
                    map d_text
                      (a_details (getAction (afterRecord afterDrops partingShotSwitch) r))))
       (t_actions (theTurn (afterRecord afterDrops partingShotSwitch)))
     = [("Parting Shot", ["Pikachu -1 ATK, Pikachu -1 SPA"; "Squirtle -> Blastoise"])].
Proof. vm_compute. split; reflexivity. Qed.

End MergeFacts.
